(** * Topic hierarchy builder of [database/topicmap_bertopic.py]

    A shallow embedding of [_to_int] and [build_topic_tree] (with its inner
    functions [aggregate_terms] and [walk]) and the properties of the
    resulting topic forest.

    Python data is modelled as follows.
    - [int] is [Z]; [float] is an IEEE 754 binary64 value, [spec_float] with
      precision 53 and maximal exponent 1024;
    - [str] is [string], read as a sequence of code points below 256;
    - a [dict] is an association list in insertion order ([dict]);
    - an exception is a value [Raise e] of the [result] type; a
      [try]/[except] is a match on it;
    - the interpreter is CPython with its defaults: conversions between
      [int] and [str] are limited to 4300 decimal digits, which is
      modelled ([digits_ok], [int_str_ok]); the depth of the call stack is
      limited as well, which is not modelled: [walk] recurses on a budget
      that never runs out. *)

From Stdlib Require Import ZArith List Bool Ascii String Lia Permutation.
From Stdlib Require Import Floats.SpecFloat DecimalString.
Import ListNotations.

Local Open Scope string_scope.
Local Open Scope Z_scope.

Set Implicit Arguments.

(** ** Results and exceptions *)

Inductive exn :=
| TypeError
| ValueError
| OverflowError
| KeyError
| OutOfFuel.   (* not a Python exception: the recursion budget of [walk] *)

Inductive result (A : Type) :=
| Ok (a : A)
| Raise (e : exn).

Arguments Ok {A} a.
Arguments Raise {A} e.

Definition bind {A B} (r : result A) (k : A -> result B) : result B :=
  match r with
  | Ok a => k a
  | Raise e => Raise e
  end.

Notation "x <- r ;; k" := (bind r (fun x => k))
  (at level 61, r at next level, right associativity).
Notation "' p <- r ;; k" := (bind r (fun x => match x with p => k end))
  (at level 61, p pattern, r at next level, right associativity).

(** [try: e except Exception: None] *)
Definition try_opt {A} (r : result A) : option A :=
  match r with
  | Ok a => Some a
  | Raise _ => None
  end.

(** ** Floats *)

Definition float := spec_float.
Definition prec : Z := 53.
Definition emax : Z := 1024.

Definition is_nan (f : float) : bool :=
  match f with
  | S754_nan => true
  | _ => false
  end.

Definition fzero : float := S754_zero false.
Definition flt (x y : float) : bool := SFltb x y.
Definition fle (x y : float) : bool := SFleb x y.
Definition fadd (x y : float) : float := SFadd prec emax x y.
Definition fmul (x y : float) : float := SFmul prec emax x y.

(** [float(n)] for an [int]: rounded to nearest even; CPython raises
    [OverflowError] when the integer is too large for a double. *)
Definition float_of_int (n : Z) : result float :=
  match binary_normalize prec emax n 0 false with
  | S754_infinity _ => Raise OverflowError
  | f => Ok f
  end.

(** [int(f)] for a [float]: truncation toward zero; [ValueError] on NaN and
    [OverflowError] on an infinity. *)
Definition int_of_float (f : float) : result Z :=
  match f with
  | S754_nan => Raise ValueError
  | S754_infinity _ => Raise OverflowError
  | S754_zero _ => Ok 0
  | S754_finite s m e => Ok (cond_Zopp s (Z.shiftl (Zpos m) e))
  end.

(** ** Strings *)

Definition is_digit (c : ascii) : bool :=
  let n := nat_of_ascii c in (48 <=? n)%nat && (n <=? 57)%nat.

(** [str.isspace] on the code points below 256; also the class [\s]. *)
Definition is_space (c : ascii) : bool :=
  let n := nat_of_ascii c in
  ((9 <=? n)%nat && (n <=? 13)%nat) || ((28 <=? n)%nat && (n <=? 32)%nat)
  || (n =? 133)%nat || (n =? 160)%nat.

Definition is_minus (c : ascii) : bool := Ascii.eqb c "-".

Fixpoint take_while {A} (p : A -> bool) (l : list A) : list A :=
  match l with
  | [] => []
  | x :: r => if p x then x :: take_while p r else []
  end.

Fixpoint drop_while {A} (p : A -> bool) (l : list A) : list A :=
  match l with
  | [] => []
  | x :: r => if p x then drop_while p r else l
  end.

Definition lstrip (l : list ascii) : list ascii := drop_while is_space l.
Definition rstrip (l : list ascii) : list ascii := rev (drop_while is_space (rev l)).
Definition strip_chars (l : list ascii) : list ascii := rstrip (lstrip l).

(** [s.strip()] *)
Definition strip (s : string) : string :=
  string_of_list_ascii (strip_chars (list_ascii_of_string s)).

Definition digit_val (c : ascii) : Z := Z.of_nat (nat_of_ascii c) - 48.

Definition int_of_digits (ds : list ascii) : Z :=
  fold_left (fun acc c => 10 * acc + digit_val c) ds 0.

(** The group matched by [(-?\d+)]: a sign flag and a run of digits. *)
Definition int_group := (bool * list ascii)%type.

(** CPython converts between [int] and [str] up to
    [sys.get_int_max_str_digits()] decimal digits, 4300 unless changed,
    which this program does not do; beyond, [int(s)], [str(n)] and an
    f-string on [n] raise [ValueError]. For [int(s)] every digit character
    counts, leading zeros too, but neither the sign nor the underscores. *)
Definition int_max_str_digits : nat := 4300.

Definition digits_ok (ds : list ascii) : bool :=
  (List.length ds <=? int_max_str_digits)%nat.

(** [int(m.group(1))] on such a group. *)
Definition int_of_group (g : int_group) : result Z :=
  let '(neg, ds) := g in
  if digits_ok ds
  then Ok (if neg then - int_of_digits ds else int_of_digits ds)
  else Raise ValueError.

(** [re.search(r"(-?\d+)$", t)] for a [t] without trailing white space:
    the longest trailing run of digits, with the minus sign just before it
    when there is one. *)
Definition search_trailing_int (t : list ascii) : option int_group :=
  let r := rev t in
  match take_while is_digit r with
  | [] => None
  | ds =>
      let neg := match drop_while is_digit r with
                 | c :: _ => is_minus c
                 | [] => false
                 end in
      Some (neg, rev ds)
  end.

(** [re.search(r"(-?\d+)", s)]: the first run of digits, with the minus
    sign just before it when there is one. *)
Fixpoint search_first_int_from (prev_minus : bool) (s : list ascii) : option int_group :=
  match s with
  | [] => None
  | c :: r =>
      if is_digit c then Some (prev_minus, take_while is_digit s)
      else search_first_int_from (is_minus c) r
  end.

Definition search_first_int (s : list ascii) : option int_group :=
  search_first_int_from false s.

(** The digits of [int(s)] after the sign: digits with single underscores
    between them. *)
Fixpoint int_body_ok (prev_digit : bool) (l : list ascii) : bool :=
  match l with
  | [] => prev_digit
  | c :: r =>
      if is_digit c then int_body_ok true r
      else if Ascii.eqb c "_" then prev_digit && int_body_ok false r
      else false
  end.

(** The white space [int(s)] skips around the literal: that of
    [str.isspace] without the separators of code points 28 to 31, which
    [int] rejects. *)
Definition is_int_space (c : ascii) : bool :=
  let n := nat_of_ascii c in
  is_space c && negb ((28 <=? n)%nat && (n <=? 31)%nat).

Definition int_strip (l : list ascii) : list ascii :=
  rev (drop_while is_int_space (rev (drop_while is_int_space l))).

(** [int(s)] for a [str], base 10. *)
Definition int_of_str (s : string) : result Z :=
  let t := int_strip (list_ascii_of_string s) in
  let '(neg, body) :=
    match t with
    | c :: r => if is_minus c then (true, r)
                else if Ascii.eqb c "+" then (false, r) else (false, t)
    | [] => (false, t)
    end in
  if int_body_ok false body && digits_ok (filter is_digit body)
  then let v := int_of_digits (filter is_digit body) in
       Ok (if neg then - v else v)
  else Raise ValueError.

(** ** Python scalars *)

Inductive pyval :=
| VNone
| VInt (n : Z)
| VBool (b : bool)
| VFloat (f : float)
| VStr (s : string).

(** [int(val)] *)
Definition py_int (val : pyval) : result Z :=
  match val with
  | VNone => Raise TypeError
  | VInt n => Ok n
  | VBool b => Ok (Z.b2z b)
  | VFloat f => int_of_float f
  | VStr s => int_of_str s
  end.

(** [except ValueError: return None] around [int(m.group(1))] *)
Definition except_ValueError (r : result Z) : result (option Z) :=
  match r with
  | Ok n => Ok (Some n)
  | Raise ValueError => Ok None
  | Raise e => Raise e
  end.

(** [_to_int], lines 43-68. *)
Definition _to_int (val : pyval) : result (option Z) :=
  match val with
  | VNone => Ok None
  | VInt n => Ok (Some n)
  | VBool b => Ok (Some (Z.b2z b))
  | VFloat f =>
      if is_nan f then Ok None
      else n <- int_of_float f ;; Ok (Some n)
  | VStr s =>
      match search_trailing_int (list_ascii_of_string (strip s)) with
      | Some g => except_ValueError (int_of_group g)
      | None =>
          match search_first_int (list_ascii_of_string s) with
          | Some g => except_ValueError (int_of_group g)
          | None => Ok (try_opt (py_int val))
          end
      end
  end.

(** ** Dictionaries, sets and sorting *)

Section Dict.
Context {K V : Type}.
Variable eqb : K -> K -> bool.

(** A [dict] in insertion order. *)
Definition dict := list (K * V).

(** [d.get(k)] *)
Fixpoint dget (k : K) (d : dict) : option V :=
  match d with
  | [] => None
  | (k', v) :: r => if eqb k k' then Some v else dget k r
  end.

(** [d[k] = v]: in place when [k] is a key, at the end otherwise. *)
Fixpoint dset (k : K) (v : V) (d : dict) : dict :=
  match d with
  | [] => [(k, v)]
  | (k', v') :: r => if eqb k k' then (k, v) :: r else (k', v') :: dset k v r
  end.

Definition dmem (k : K) (d : dict) : bool :=
  match dget k d with
  | Some _ => true
  | None => false
  end.

Definition dkeys (d : dict) : list K := map fst d.
Definition dvalues (d : dict) : list V := map snd d.
End Dict.

Arguments dict K V : clear implicits.

Definition zmem (x : Z) (l : list Z) : bool := existsb (Z.eqb x) l.

(** [set(l)], as the list of its distinct elements. *)
Definition set_of (l : list Z) : list Z := nodup Z.eq_dec l.

Section Sort.
Context {A : Type}.
(** [before y x]: [y] has to come strictly before [x]. *)
Variable before : A -> A -> bool.

Fixpoint insert_sorted (x : A) (l : list A) : list A :=
  match l with
  | [] => [x]
  | y :: r => if before y x then y :: insert_sorted x r else x :: l
  end.

(** [sorted(l, key=...)]: a stable sort; elements that compare equal keep
    their order. With [NaN] keys out of the picture, it is the list
    Python's [sorted] returns. *)
Definition stable_sort (l : list A) : list A := fold_right insert_sorted [] l.
End Sort.

(** ** Data model *)

Record doc_rec := { doc_id : Z; weight : option float }.

Record term_rec := { term : string; term_score : float; rank : Z }.

Record node := {
  topic_id : Z;
  parent_id : option Z;
  level : Z;
  label : string;
  size : Z;
  score : option float;
  terms : list term_rec;
  docs : list doc_rec
}.

Definition set_parent_id (p : option Z) (n : node) : node :=
  {| topic_id := topic_id n; parent_id := p; level := level n; label := label n;
     size := size n; score := score n; terms := terms n; docs := docs n |}.
Definition set_level (l : Z) (n : node) : node :=
  {| topic_id := topic_id n; parent_id := parent_id n; level := l; label := label n;
     size := size n; score := score n; terms := terms n; docs := docs n |}.
Definition set_label (s : string) (n : node) : node :=
  {| topic_id := topic_id n; parent_id := parent_id n; level := level n; label := s;
     size := size n; score := score n; terms := terms n; docs := docs n |}.
Definition set_size (z : Z) (n : node) : node :=
  {| topic_id := topic_id n; parent_id := parent_id n; level := level n; label := label n;
     size := z; score := score n; terms := terms n; docs := docs n |}.
Definition set_terms (t : list term_rec) (n : node) : node :=
  {| topic_id := topic_id n; parent_id := parent_id n; level := level n; label := label n;
     size := size n; score := score n; terms := t; docs := docs n |}.
Definition set_docs (d : list doc_rec) (n : node) : node :=
  {| topic_id := topic_id n; parent_id := parent_id n; level := level n; label := label n;
     size := size n; score := score n; terms := terms n; docs := d |}.

(** A row of the summary table ([topic_info]); [VNone] is an absent cell,
    what [row.get] returns for it. *)
Record info_row := {
  Topic : pyval;
  Count : pyval;
  Name : pyval;
  Probability : pyval
}.

(** A row of the merge table ([hierarchy_df]). *)
Record hier_row := {
  Parent_ID : pyval;
  Child_Left_ID : pyval;
  Child_Right_ID : pyval;
  Distance : pyval;
  Parent_Name : pyval
}.

(** [hierarchy_conf], reduced to the one key the builder reads. *)
Record hier_conf := { max_distance : pyval }.

(** An entry of [topic_model.get_topic(t)]: a pair, with [str(pair[0])] and
    [pair[1]], or anything else. *)
Inductive term_entry :=
| TPair (word : string) (weight_val : pyval)
| TOther.

Record stats_rec := {
  parents_expected : Z;
  parents_emitted : Z;
  roots : Z;
  leaf_count : Z;
  max_level : Z;
  has_links : bool
}.

Definition outlier_topic : Z := -1.

Definition string_of_Z (z : Z) : string := NilZero.string_of_int (Z.to_int z).

(** The text of [f'Topic {t}']. *)
Definition topic_label (t : Z) : string := "Topic " ++ string_of_Z t.

(** [str(t)] is within the digit limit; the sign does not count. *)
Definition int_str_ok (t : Z) : bool :=
  (String.length (string_of_Z (Z.abs t)) <=? int_max_str_digits)%nat.

(** Evaluating [f'Topic {t}']. *)
Definition format_topic (t : Z) : result string :=
  if int_str_ok t then Ok (topic_label t) else Raise ValueError.

Arguments format_topic : simpl never.

(** [v not in (None, '')], negated *)
Definition none_or_empty (v : pyval) : bool :=
  match v with
  | VNone => true
  | VStr s => String.eqb s ""
  | _ => false
  end.

Definition fone : float := S754_finite false 4503599627370496 (-52).

(** [np.max(row)]: [NaN] if the row holds one, the largest entry otherwise;
    raises on an empty row. *)
Fixpoint np_max (row : list float) : result float :=
  match row with
  | [] => Raise ValueError
  | x :: r =>
      match r with
      | [] => Ok x
      | _ => y <- np_max r ;;
             Ok (if is_nan x then x else if is_nan y then y
                 else if flt x y then y else x)
      end
  end.

Definition len {A} (l : list A) : Z := Z.of_nat (List.length l).

(** [x or 0.0] for a float [x] *)
Definition or_zero (x : float) : float :=
  match x with
  | S754_zero _ => fzero
  | _ => x
  end.

(** [[token for token in re.split(r"[_\s]+", s) if token]] *)
Definition is_sep (c : ascii) : bool := Ascii.eqb c "_" || is_space c.

Definition emit_token (cur : list ascii) : list string :=
  match cur with
  | [] => []
  | _ => [string_of_list_ascii cur]
  end.

Fixpoint split_tokens (cur l : list ascii) : list string :=
  match l with
  | [] => emit_token cur
  | c :: r => if is_sep c then emit_token cur ++ split_tokens [] r
              else split_tokens (cur ++ [c]) r
  end.

(** [max(l)] with the default 0 of an empty list *)
Definition list_max (l : list Z) : Z :=
  match l with
  | [] => 0
  | x :: r => fold_left Z.max r x
  end.

Definition is_nil {A} (l : list A) : bool :=
  match l with
  | [] => true
  | _ => false
  end.

Definition is_some {A} (o : option A) : bool :=
  match o with
  | Some _ => true
  | None => false
  end.

Definition zget {V} (k : Z) (d : dict Z V) : option V := dget Z.eqb k d.
Definition zset {V} (k : Z) (v : V) (d : dict Z V) : dict Z V := dset Z.eqb k v d.

(** [doc_members.get(t, [])], [parent_children.get(t, [])] *)
Definition get_list {V} (k : Z) (d : dict Z (list V)) : list V :=
  match zget k d with
  | Some l => l
  | None => []
  end.

(** The three tables of lines 444-446. *)
Record summary := {
  size_by_topic : dict Z Z;
  prob_by_topic : dict Z float;
  label_by_topic : dict Z string
}.

(** The three tables of lines 523-525; [children_seen] is a set that is
    only tested for membership. *)
Record merge_graph := {
  parent_children : dict Z (list Z);
  parent_labels : dict Z string;
  children_seen : list Z
}.

(** The variables [nodes] and [visited] that [walk] closes over. *)
Record wstate := { nodes : dict Z node; visited : list Z }.

Definition stub (t : Z) (parent : option Z) (lvl : Z) (lbl : string) : node :=
  {| topic_id := t; parent_id := parent; level := lvl; label := lbl;
     size := 0; score := None; terms := []; docs := [] |}.

(** [enumerate(l, start=rank)] turned into term records *)
Fixpoint ranked {A} (mk : A -> Z -> term_rec) (rk : Z) (l : list A) : list term_rec :=
  match l with
  | [] => []
  | x :: r => mk x rk :: ranked mk (rk + 1) r
  end.

(** [s.startswith('Topic ')] *)
Definition starts_with_Topic (s : string) : bool := String.prefix "Topic " s.

(** [' '.join(l)] *)
Definition join_space (l : list string) : string := String.concat " " l.

(** ** The builder *)

Section Builder.
(** [float(s)] for a [str]: the parsed value, or [None] where Python
    raises [ValueError]. *)
Variable float_of_str : string -> option float.

(** Iteration over a [set] of integers follows the slots of its hash
    table; [slot] stands for that order, which the language leaves open. *)
Variable slot : Z -> Z.

(** [float(v)] *)
Definition py_float (v : pyval) : result float :=
  match v with
  | VNone => Raise TypeError
  | VInt n => float_of_int n
  | VBool b => Ok (if b then fone else fzero)
  | VFloat f => Ok f
  | VStr s => match float_of_str s with
              | Some f => Ok f
              | None => Raise ValueError
              end
  end.

(** Iteration order of [set(l)]. *)
Definition set_iter (l : list Z) : list Z :=
  stable_sort (fun y x => slot y <? slot x) (set_of l).

(** Lines 400-405. *)
Definition top_count_of (top_terms : pyval) : Z :=
  let top_count := match py_int top_terms with
                   | Ok n => n
                   | Raise _ => 10
                   end in
  if top_count <=? 0 then 10 else top_count.

(** Lines 407-414. *)
Definition max_distance_of (hierarchy_conf : option hier_conf) : option float :=
  match hierarchy_conf with
  | None => None
  | Some conf =>
      let raw_max_dist := max_distance conf in
      if none_or_empty raw_max_dist then None
      else try_opt (py_float raw_max_dist)
  end.

(** *** Membership, lines 416-442 *)

(** Lines 431-438; [probabilities] holds one optional row per document. *)
Definition weight_of (probabilities : option (list (option (list float))))
           (idx : nat) : option float :=
  match probabilities with
  | None => None
  | Some rows =>
      match nth_error rows idx with
      | Some (Some row_probs) => try_opt (np_max row_probs)
      | _ => None
      end
  end.

(** [doc_members[t].append(x)] on a [defaultdict(list)] *)
Definition dappend (t : Z) (x : doc_rec) (dm : dict Z (list doc_rec)) :=
  zset t (get_list t dm ++ [x])%list dm.

Fixpoint assign_loop (doc_lookup : list Z)
         (probabilities : option (list (option (list float))))
         (idx : nat) (topic_assignments : list pyval)
         (doc_members : dict Z (list doc_rec)) : result (dict Z (list doc_rec)) :=
  match topic_assignments with
  | [] => Ok doc_members
  | assigned :: rest =>
      topic_id <- _to_int assigned ;;
      let continue := assign_loop doc_lookup probabilities (S idx) rest in
      match topic_id with
      | None => continue doc_members
      | Some t =>
          if t =? outlier_topic then continue doc_members
          else match nth_error doc_lookup idx with
               | None => continue doc_members
               | Some note_id =>
                   let weight_val := weight_of probabilities idx in
                   continue (dappend t {| doc_id := note_id; weight := weight_val |}
                                     doc_members)
               end
      end
  end.

(** [entries.sort(key=lambda entry: entry['id'])] *)
Definition sort_docs (entries : list doc_rec) : list doc_rec :=
  stable_sort (fun y x => doc_id y <? doc_id x) entries.

Definition doc_members_of (topics : option (list pyval))
           (probabilities : option (list (option (list float))))
           (doc_ids : list Z) : result (dict Z (list doc_rec)) :=
  let topic_assignments := match topics with
                           | Some l => l
                           | None => []
                           end in
  dm <- assign_loop doc_ids probabilities 0 topic_assignments [] ;;
  Ok (map (fun kv => (fst kv, sort_docs (snd kv))) dm).

(** *** Summary rows, lines 444-468 *)

(** [name.strip()] when [name] is a [str] with something left, for
    [Name] and [Parent_Name]. *)
Definition stripped_name (v : pyval) : option string :=
  match v with
  | VStr s => if String.eqb (strip s) "" then None else Some (strip s)
  | _ => None
  end.

Definition info_step (doc_members : dict Z (list doc_rec))
           (s : summary) (row : info_row) : result summary :=
  topic_id <- _to_int (Topic row) ;;
  match topic_id with
  | None => Ok s
  | Some t =>
      if t =? outlier_topic then Ok s
      else
        count_val <- _to_int (Count row) ;;
        let sbt := match count_val with
                   | Some c => zset t (Z.max c (len (get_list t doc_members)))
                                    (size_by_topic s)
                   | None => size_by_topic s
                   end in
        let lbt := match stripped_name (Name row) with
                   | Some name => zset t name (label_by_topic s)
                   | None => label_by_topic s
                   end in
        let prob_val := Probability row in
        let pbt := if none_or_empty prob_val then prob_by_topic s
                   else match try_opt (py_float prob_val) with
                        | Some p => zset t p (prob_by_topic s)
                        | None => prob_by_topic s
                        end in
        Ok {| size_by_topic := sbt; prob_by_topic := pbt; label_by_topic := lbt |}
  end.

Fixpoint info_loop (doc_members : dict Z (list doc_rec))
         (rows : list info_row) (s : summary) : result summary :=
  match rows with
  | [] => Ok s
  | row :: rest => s' <- info_step doc_members s row ;; info_loop doc_members rest s'
  end.

Definition summary_of (doc_members : dict Z (list doc_rec))
           (topic_info : option (list info_row)) : result summary :=
  info_loop doc_members
            (match topic_info with Some rows => rows | None => [] end)
            {| size_by_topic := []; prob_by_topic := []; label_by_topic := [] |}.

(** *** Leaf nodes, lines 470-521 *)

Definition not_outlier (t : Z) : bool := negb (t =? outlier_topic).

(** [sorted(leaf_topic_ids)] *)
Definition leaf_topic_ids (s : summary) (doc_members : dict Z (list doc_rec)) : list Z :=
  let assigned_topics := filter not_outlier (dkeys doc_members) in
  let ids := set_of (dkeys (size_by_topic s) ++ assigned_topics) in
  stable_sort Z.ltb (filter not_outlier ids).

(** Lines 495-506; [rk] is the counter of [enumerate]. *)
Fixpoint model_terms (top_count rk : Z) (topic_terms : list term_entry)
         (acc : list term_rec) : list term_rec :=
  match topic_terms with
  | [] => acc
  | entry :: rest =>
      match entry with
      | TPair w sc =>
          let term_text := strip w in
          if String.eqb term_text "" then model_terms top_count (rk + 1) rest acc
          else
            let score_val := match try_opt (py_float sc) with
                             | Some f => f
                             | None => fzero
                             end in
            let acc' := (acc ++ [{| term := term_text; term_score := score_val;
                                    rank := rk |}])%list in
            if top_count <=? len acc' then acc'
            else model_terms top_count (rk + 1) rest acc'
      | TOther =>
          if top_count <=? len acc then acc
          else model_terms top_count (rk + 1) rest acc
      end
  end.

(** Lines 507-510. *)
Definition fallback_terms (top_count : Z) (label_val : string) : list term_rec :=
  let fallback_tokens := split_tokens [] (list_ascii_of_string label_val) in
  ranked (fun token rk => {| term := token; term_score := fzero; rank := rk |})
         1 (firstn (Z.to_nat top_count) fallback_tokens).

Definition leaf_terms (top_count : Z) (topic_terms : list term_entry)
           (label_val : string) : list term_rec :=
  match model_terms top_count 1 topic_terms [] with
  | [] => fallback_terms top_count label_val
  | ts => ts
  end.

Definition leaf_node (topic_model : Z -> list term_entry) (top_count : Z)
           (s : summary) (doc_members : dict Z (list doc_rec)) (t : Z) : node :=
  let ds := get_list t doc_members in
  let size_val := match zget t (size_by_topic s) with
                  | None => len ds
                  | Some sv => Z.max sv (len ds)
                  end in
  let label_val := match zget t (label_by_topic s) with
                   | Some l => l
                   | None => topic_label t
                   end in
  {| topic_id := t; parent_id := None; level := 0; label := label_val;
     size := size_val; score := zget t (prob_by_topic s);
     terms := leaf_terms top_count (topic_model t) label_val; docs := ds |}.

(** The loop of lines 476-521. Line 484 passes [f'Topic {topic_id}'] as
    the default of [label_by_topic.get], so the f-string is evaluated for
    every leaf topic, named by the summary or not. *)
Fixpoint leaf_loop (topic_model : Z -> list term_entry) (top_count : Z)
         (s : summary) (doc_members : dict Z (list doc_rec))
         (ids : list Z) (ns : dict Z node) : result (dict Z node) :=
  match ids with
  | [] => Ok ns
  | t :: rest =>
      _ <- format_topic t ;;
      leaf_loop topic_model top_count s doc_members rest
                (zset t (leaf_node topic_model top_count s doc_members t) ns)
  end.

(** The store the leaf loop leaves when no f-string fails. *)
Definition leaf_nodes (topic_model : Z -> list term_entry) (top_count : Z)
           (s : summary) (doc_members : dict Z (list doc_rec)) : dict Z node :=
  fold_left (fun ns t => zset t (leaf_node topic_model top_count s doc_members t) ns)
            (leaf_topic_ids s doc_members) [].

(** *** Merge graph, lines 523-556 *)

(** Lines 538-544. *)
Definition row_distance (row : hier_row) : option float :=
  let distance_val := Distance row in
  if none_or_empty distance_val then None
  else try_opt (py_float distance_val).

(** Line 545. *)
Definition exceeds (max_dist distance : option float) : bool :=
  match max_dist, distance with
  | Some m, Some d => flt m d
  | _, _ => false
  end.

Definition add_child (kids : list Z) (child : Z) : list Z :=
  if zmem child kids then kids else (kids ++ [child])%list.

(** Lines 547-556. *)
Definition add_merge (g : merge_graph) (p l r : Z) (parent_name : pyval) : merge_graph :=
  let pc := match zget p (parent_children g) with
            | Some kids => zset p (add_child (add_child kids l) r) (parent_children g)
            | None => zset p [l; r] (parent_children g)
            end in
  let pl := match stripped_name parent_name with
            | Some name => zset p name (parent_labels g)
            | None => parent_labels g
            end in
  {| parent_children := pc; parent_labels := pl;
     children_seen := (children_seen g ++ [l; r])%list |}.

(** Lines 533-556. *)
Definition hier_step (max_dist : option float)
           (g : merge_graph) (row : hier_row) : result merge_graph :=
  pid <- _to_int (Parent_ID row) ;;
  left_id <- _to_int (Child_Left_ID row) ;;
  right_id <- _to_int (Child_Right_ID row) ;;
  match pid, left_id, right_id with
  | Some p, Some l, Some r =>
      if exceeds max_dist (row_distance row) then Ok g
      else Ok (add_merge g p l r (Parent_Name row))
  | _, _, _ => Ok g
  end.

Fixpoint hier_loop (max_dist : option float) (rows : list hier_row)
         (g : merge_graph) : result merge_graph :=
  match rows with
  | [] => Ok g
  | row :: rest => g' <- hier_step max_dist g row ;; hier_loop max_dist rest g'
  end.

Definition empty_graph : merge_graph :=
  {| parent_children := []; parent_labels := []; children_seen := [] |}.

Definition merge_graph_of (max_dist : option float)
           (hierarchy_df : option (list hier_row)) : result merge_graph :=
  hier_loop max_dist (match hierarchy_df with Some rows => rows | None => [] end)
            empty_graph.

(** *** Parents, lines 558-580 *)

Definition add_parent (pl : dict Z string) (ns : dict Z node) (p : Z) : dict Z node :=
  match zget p ns with
  | None =>
      zset p (stub p None 0 (match zget p pl with
                             | Some l => l
                             | None => topic_label p
                             end)) ns
  | Some n =>
      let n1 := match zget p pl with
                | Some l => if String.eqb l "" then n else set_label l n
                | None => n
                end in
      let n2 := if is_nil (docs n1) then n1 else set_docs [] n1 in
      zset p n2 ns
  end.

(** The loop of lines 559-575. Line 565 evaluates [f'Topic {parent_id}']
    whenever the parent has no node yet. *)
Fixpoint parent_loop (pl : dict Z string) (ps : list Z)
         (ns : dict Z node) : result (dict Z node) :=
  match ps with
  | [] => Ok ns
  | p :: rest =>
      _ <- match zget p ns with
           | None => format_topic p
           | Some n => Ok (label n)
           end ;;
      parent_loop pl rest (add_parent pl ns p)
  end.

(** The store the loop over the parents leaves when no f-string fails. *)
Definition add_parents (g : merge_graph) (ns : dict Z node) : dict Z node :=
  fold_left (add_parent (parent_labels g)) (dkeys (parent_children g)) ns.

(** Line 578. *)
Definition root_candidates (g : merge_graph) : list Z :=
  filter (fun p => negb (zmem p (children_seen g)))
         (set_iter (dkeys (parent_children g))).

(** Lines 577-580. *)
Definition roots_of (g : merge_graph) : list Z :=
  let parent_ids := set_iter (dkeys (parent_children g)) in
  match root_candidates g, parent_ids with
  | [], _ :: _ => [last (stable_sort Z.ltb parent_ids) 0]
  | rts, _ => rts
  end.

(** *** [aggregate_terms], lines 582-605 *)

(** [score_map[term_key] += x] on a [defaultdict(float)] *)
Definition add_score (score_map : dict string float) (term_key : string)
           (x : float) : dict string float :=
  let cur := match dget String.eqb term_key score_map with
             | Some v => v
             | None => fzero
             end in
  dset String.eqb term_key (fadd cur x) score_map.

(** Lines 592-600 for one child of weight [w]; the product of a float and
    an [int] converts the [int] first. *)
Fixpoint agg_child (w : Z) (ts : list term_rec)
         (score_map : dict string float) : result (dict string float) :=
  match ts with
  | [] => Ok score_map
  | t :: rest =>
      let term_key := strip (term t) in
      if String.eqb term_key "" then agg_child w rest score_map
      else
        let score_val := or_zero (term_score t) in
        wf <- float_of_int w ;;
        agg_child w rest (add_score score_map term_key (fmul score_val wf))
  end.

Fixpoint agg_children (ns : dict Z node) (child_ids : list Z)
         (score_map : dict string float) : result (dict string float) :=
  match child_ids with
  | [] => Ok score_map
  | child_id :: rest =>
      match zget child_id ns with
      | None => agg_children ns rest score_map
      | Some child =>
          sm <- agg_child (Z.max (size child) 1) (terms child) score_map ;;
          agg_children ns rest sm
      end
  end.

(** [sorted(score_map.items(), key=lambda kv: kv[1], reverse=True)] *)
Definition sort_scores (score_map : dict string float) : list (string * float) :=
  stable_sort (fun y x => flt (snd x) (snd y)) score_map.

Definition aggregate_terms (top_count : Z) (ns : dict Z node)
           (child_ids : list Z) : result (list term_rec) :=
  score_map <- agg_children ns child_ids [] ;;
  let ordered := sort_scores score_map in
  Ok (ranked (fun kv rk => {| term := fst kv; term_score := snd kv; rank := rk |})
             1 (firstn (Z.to_nat top_count) ordered)).

(** *** [walk], lines 607-660 *)

(** Lines 629-641. *)
Definition mark_child (node_id lvl child_id : Z) (ns : dict Z node) : dict Z node :=
  match zget child_id ns with
  | None => zset child_id (stub child_id (Some node_id) (lvl + 1)
                                (topic_label child_id)) ns
  | Some c => zset child_id (set_parent_id (Some node_id) c) ns
  end.

(** Lines 629-641 with the f-string of line 634, which is evaluated when
    the child has no node yet. *)
Definition mark_child_at (node_id lvl child_id : Z)
           (ns : dict Z node) : result (dict Z node) :=
  _ <- match zget child_id ns with
       | None => format_topic child_id
       | Some c => Ok (label c)
       end ;;
  Ok (mark_child node_id lvl child_id ns).

Arguments mark_child_at : simpl never.

(** The loop of lines 628-643, over the recursive call [rec]. *)
Fixpoint walk_children (rec : Z -> Z -> wstate -> result (Z * wstate))
         (node_id lvl : Z) (children : list Z) (total_size : Z)
         (st : wstate) : result (Z * wstate) :=
  match children with
  | [] => Ok (total_size, st)
  | child_id :: rest =>
      ns1 <- mark_child_at node_id lvl child_id (nodes st) ;;
      let st1 := {| nodes := ns1; visited := visited st |} in
      ' (child_size, st2) <- rec child_id (lvl + 1) st1 ;;
      walk_children rec node_id lvl rest (total_size + Z.max child_size 0) st2
  end.

(** Line 658 is reached: no usable override, a blank or default label and
    no term to build a label from. *)
Definition default_label_needed (pl : dict Z string) (node_id : Z) (n : node) : bool :=
  match zget node_id pl with
  | Some label_override => String.eqb label_override ""
  | None => true
  end
  && (String.eqb (label n) "" || starts_with_Topic (label n))
  && is_nil (filter (fun s => negb (String.eqb s "")) (map term (firstn 4 (terms n)))).

(** Lines 650-658, when the f-string of line 658 does not fail. *)
Definition relabel (pl : dict Z string) (node_id : Z) (n : node) : node :=
  let derived :=
    if String.eqb (label n) "" || starts_with_Topic (label n) then
      let label_terms :=
        filter (fun s => negb (String.eqb s "")) (map term (firstn 4 (terms n))) in
      match label_terms with
      | [] => set_label (topic_label node_id) n
      | _ => set_label (join_space label_terms) n
      end
    else n in
  match zget node_id pl with
  | Some label_override =>
      if String.eqb label_override "" then derived else set_label label_override n
  | None => derived
  end.

(** Lines 650-658. *)
Definition relabel_at (pl : dict Z string) (node_id : Z) (n : node) : result node :=
  _ <- (if default_label_needed pl node_id n then format_topic node_id
        else Ok (label n)) ;;
  Ok (relabel pl node_id n).

Arguments relabel_at : simpl never.

(** Lines 645-660. [node] is the object bound at line 617; the children
    may have changed it meanwhile, so it is read back from the store. *)
Definition finish_node (g : merge_graph) (top_count node_id : Z)
           (children : list Z) (total_size : Z)
           (ns : dict Z node) : result (Z * dict Z node) :=
  match zget node_id ns with
  | None => Raise KeyError
  | Some n =>
      let n1 := if is_nil (docs n) then set_size total_size n else n in
      let ns1 := zset node_id n1 ns in
      n2 <- (if is_nil (terms n1)
             then ts <- aggregate_terms top_count ns1 children ;; Ok (set_terms ts n1)
             else Ok n1) ;;
      n3 <- relabel_at (parent_labels g) node_id n2 ;;
      Ok (size n3, zset node_id n3 ns1)
  end.

Fixpoint walk (g : merge_graph) (top_count : Z) (fuel : nat)
         (node_id lvl : Z) (st : wstate) : result (Z * wstate) :=
  match fuel with
  | O => Raise OutOfFuel
  | S fuel' =>
      if zmem node_id (visited st) then
        match zget node_id (nodes st) with
        | None => Raise KeyError
        | Some n => Ok (size n, st)
        end
      else
        let vis := node_id :: visited st in
        match zget node_id (nodes st) with
        | None => Raise KeyError
        | Some n =>
            let ns1 := zset node_id (set_level lvl n) (nodes st) in
            let children := get_list node_id (parent_children g) in
            match children with
            | [] => Ok (size n, {| nodes := ns1; visited := vis |})
            | _ :: _ =>
                ' (total_size, st2) <-
                  walk_children (walk g top_count fuel') node_id lvl children 0
                                {| nodes := ns1; visited := vis |} ;;
                ' (sz, ns3) <-
                  finish_node g top_count node_id children total_size (nodes st2) ;;
                Ok (sz, {| nodes := ns3; visited := visited st2 |})
            end
        end
  end.

(** A recursion budget no run of [walk] exhausts: each call that goes on
    marks a fresh id of the merge graph. The depth of the interpreter's
    call stack is not part of this model: CPython ends a chain of parents
    deeper than [sys.getrecursionlimit()], about a thousand, with
    [RecursionError], where [walk] here goes on. *)
Definition graph_ids (g : merge_graph) : list Z :=
  (dkeys (parent_children g) ++ List.concat (dvalues (parent_children g)))%list.

Definition walk_fuel (g : merge_graph) : nat := S (List.length (graph_ids g)).

(** Lines 662-670. *)
Fixpoint walk_roots (g : merge_graph) (top_count : Z) (rts : list Z)
         (st : wstate) : result wstate :=
  match rts with
  | [] => Ok st
  | root_id :: rest =>
      match zget root_id (nodes st) with
      | None => walk_roots g top_count rest st
      | Some n =>
          let st1 := {| nodes := zset root_id (set_parent_id None n) (nodes st);
                        visited := visited st |} in
          ' (_, st2) <- walk g top_count (walk_fuel g) root_id 0 st1 ;;
          walk_roots g top_count rest st2
      end
  end.

Fixpoint walk_all (g : merge_graph) (top_count : Z) (ids : list Z)
         (st : wstate) : result wstate :=
  match ids with
  | [] => Ok st
  | node_id :: rest =>
      if zmem node_id (visited st) then walk_all g top_count rest st
      else ' (_, st2) <- walk g top_count (walk_fuel g) node_id 0 st ;;
           walk_all g top_count rest st2
  end.

Definition run_walks (g : merge_graph) (top_count : Z) (rts : list Z)
           (ns : dict Z node) : result wstate :=
  let st := {| nodes := ns; visited := [] |} in
  match rts with
  | [] => walk_all g top_count (dkeys ns) st
  | _ :: _ => walk_roots g top_count rts st
  end.

(** *** Output, lines 672-709 *)

(** The key [(level, topic_id)] of line 696. *)
Definition node_before (y x : node) : bool :=
  (level y <? level x) || ((level y =? level x) && (topic_id y <? topic_id x)).

Definition count_if {A} (p : A -> bool) (l : list A) : Z := len (filter p l).

Definition stats_of (g : merge_graph) (rts : list Z)
           (ordered_nodes : list node) : stats_rec :=
  let parent_topic_ids := set_of (dkeys (parent_children g)) in
  {| parents_expected := len parent_topic_ids;
     parents_emitted := count_if (fun n => zmem (topic_id n) parent_topic_ids)
                                 ordered_nodes;
     roots := len rts;
     leaf_count := count_if (fun n => negb (is_nil (docs n))) ordered_nodes;
     max_level := list_max (map level ordered_nodes);
     has_links := existsb (fun n => is_some (parent_id n)) ordered_nodes |}.

(** The state of the builder when the walks start. *)
Record prepared := {
  p_top_count : Z;
  p_members : dict Z (list doc_rec);
  p_summary : summary;
  p_graph : merge_graph;
  p_nodes : dict Z node;
  p_roots : list Z
}.

Definition prepare (topic_model : Z -> list term_entry)
           (topic_info : option (list info_row))
           (hierarchy_df : option (list hier_row))
           (topics : option (list pyval))
           (probabilities : option (list (option (list float))))
           (doc_ids : list Z) (top_terms : pyval)
           (hierarchy_conf : option hier_conf) : result prepared :=
  let top_count := top_count_of top_terms in
  let max_dist := max_distance_of hierarchy_conf in
  doc_members <- doc_members_of topics probabilities doc_ids ;;
  s <- summary_of doc_members topic_info ;;
  ns <- leaf_loop topic_model top_count s doc_members
                 (leaf_topic_ids s doc_members) [] ;;
  g <- merge_graph_of max_dist hierarchy_df ;;
  ns' <- parent_loop (parent_labels g) (dkeys (parent_children g)) ns ;;
  Ok {| p_top_count := top_count; p_members := doc_members; p_summary := s;
        p_graph := g; p_nodes := ns'; p_roots := roots_of g |}.

(** [build_topic_tree], lines 390-709. The coercions of lines 672-694
    ([int], [float] on values that already are of that type) change
    nothing on this data. *)
Definition build_topic_tree (topic_model : Z -> list term_entry)
           (topic_info : option (list info_row))
           (hierarchy_df : option (list hier_row))
           (topics : option (list pyval))
           (probabilities : option (list (option (list float))))
           (doc_ids : list Z) (top_terms : pyval)
           (hierarchy_conf : option hier_conf)
  : result (list node * stats_rec) :=
  p <- prepare topic_model topic_info hierarchy_df topics probabilities doc_ids
               top_terms hierarchy_conf ;;
  st <- run_walks (p_graph p) (p_top_count p) (p_roots p) (p_nodes p) ;;
  let ordered_nodes := stable_sort node_before (dvalues (nodes st)) in
  Ok (ordered_nodes, stats_of (p_graph p) (p_roots p) ordered_nodes).

End Builder.

(** ** Definitions used to state the properties *)

(** 0.5 and 0.3 as doubles. *)
Definition f_0_5 : float := S754_finite false 4503599627370496 (-53).
Definition f_0_3 : float := S754_finite false 5404319552844595 (-54).

(** The inputs of the scenarios: four documents, the first an outlier. *)
Definition scenario_doc_ids : list Z := [1; 2; 3; 4].
Definition scenario_topics : option (list pyval) :=
  Some [VInt (-1); VInt 0; VInt 0; VInt 1].

(** The merge table [{parent: 2, left: 0, right: 1, distance: 0.5}]. *)
Definition scenario_merge : list hier_row :=
  [{| Parent_ID := VInt 2; Child_Left_ID := VInt 0; Child_Right_ID := VInt 1;
      Distance := VFloat f_0_5; Parent_Name := VNone |}].

Definition conf_max_0_3 : option hier_conf := Some {| max_distance := VFloat f_0_3 |}.

(** A merge table that names the outlier id as a child. *)
Definition outlier_merge : list hier_row :=
  [{| Parent_ID := VInt 2; Child_Left_ID := VInt (-1); Child_Right_ID := VInt 0;
      Distance := VNone; Parent_Name := VNone |}].

(** Parameters for closed runs: a [float] parser that accepts nothing, sets
    iterated in ascending order, a topic model without terms. *)
Definition no_float_of_str (s : string) : option float := None.
Definition slot_id (z : Z) : Z := z.
Definition no_topic_terms (t : Z) : list term_entry := [].

Section SpecDefs.
Variable float_of_str : string -> option float.

(** A row the distance cutoff lets through. *)
Definition kept (max_dist : option float) (row : hier_row) : bool :=
  negb (exceeds max_dist (row_distance float_of_str row)).
End SpecDefs.

(** A row that enters the merge graph: its three ids are resolved and the
    cutoff lets it through. *)
Definition retained (float_of_str : string -> option float)
           (max_dist : option float) (row : hier_row) (p l r : Z) : Prop :=
  _to_int (Parent_ID row) = Ok (Some p)
  /\ _to_int (Child_Left_ID row) = Ok (Some l)
  /\ _to_int (Child_Right_ID row) = Ok (Some r)
  /\ kept float_of_str max_dist row = true.

(** [c] is listed under some parent of the adjacency. *)
Definition is_child (g : merge_graph) (c : Z) : Prop :=
  exists q kids, zget q (parent_children g) = Some kids /\ In c kids.

(** [children_seen] holds the children of the retained rows, which are the
    children listed in the adjacency. *)
Definition seen_ok (g : merge_graph) : Prop :=
  forall c, In c (children_seen g) <-> is_child g c.

(** The count the summary rows report for topic [t]: the [Count] of the
    last row for [t] that has one. *)
Fixpoint reported_count (rows : list info_row) (t : Z) : option Z :=
  match rows with
  | [] => None
  | row :: rest =>
      match reported_count rest t with
      | Some c => Some c
      | None =>
          match _to_int (Topic row), _to_int (Count row) with
          | Ok (Some t'), Ok (Some c) =>
              if (t' =? t) && negb (t' =? outlier_topic) then Some c else None
          | _, _ => None
          end
      end
  end.

(** The number of documents assigned to topic [t]: the positions [idx],
    counted from [idx0], that hold an assignment normalized to [t] and that
    have a document id. *)
Fixpoint membership_count (doc_lookup : list Z) (idx0 : nat)
         (assignments : list pyval) (t : Z) : Z :=
  match assignments with
  | [] => 0
  | assigned :: rest =>
      (match _to_int assigned with
       | Ok (Some t') =>
           if (t' =? t) && negb (t' =? outlier_topic)
              && (idx0 <? List.length doc_lookup)%nat
           then 1 else 0
       | _ => 0
       end) + membership_count doc_lookup (S idx0) rest t
  end.

Definition assignments_of (topics : option (list pyval)) : list pyval :=
  match topics with
  | Some l => l
  | None => []
  end.

Definition rows_of {A} (table : option (list A)) : list A :=
  match table with
  | Some rows => rows
  | None => []
  end.

(** Every entry of the node store satisfies [Q]. *)
Definition dict_all (Q : Z -> node -> Prop) (ns : dict Z node) : Prop :=
  forall k n, zget k ns = Some n -> Q k n.

(** A parent link that the adjacency justifies. *)
Definition parent_ok (g : merge_graph) (k : Z) (parent : option Z) : Prop :=
  forall p, parent = Some p -> In k (get_list p (parent_children g)).

(** What the walk may do to the node stored under [k]. *)
Inductive node_step (g : merge_graph) (top_count : Z) (k : Z) : node -> node -> Prop :=
| step_refl n : node_step g top_count k n n
| step_trans n1 n2 n3 :
    node_step g top_count k n1 n2 -> node_step g top_count k n2 n3 ->
    node_step g top_count k n1 n3
| step_parent n parent :
    parent_ok g k parent -> node_step g top_count k n (set_parent_id parent n)
| step_level n l : node_step g top_count k n (set_level l n)
| step_size n z :
    docs n = [] -> 0 <= z -> node_step g top_count k n (set_size z n)
| step_label n s : node_step g top_count k n (set_label s n)
| step_terms n ns kids ts :
    terms n = [] -> aggregate_terms top_count ns kids = Ok ts ->
    node_step g top_count k n (set_terms ts n).

(** Line 574-575: a node that is a parent holds no documents. *)
Definition docs_cleared (ns : dict Z node) (p : Z) : Prop :=
  exists n, zget p ns = Some n /\ docs n = [].


(** The parent of the first row of the merge table that names [c] as a
    child: the first-seen parent of [c]. *)
Fixpoint first_seen_parent (rows : list hier_row) (c : Z) : option Z :=
  match rows with
  | [] => None
  | row :: rest =>
      match _to_int (Parent_ID row), _to_int (Child_Left_ID row),
            _to_int (Child_Right_ID row) with
      | Ok (Some p), Ok (Some l), Ok (Some r) =>
          if (l =? c) || (r =? c) then Some p else first_seen_parent rest c
      | _, _, _ => first_seen_parent rest c
      end
  end.

(** A merge table in which topic 0 is a child of 4 and then of 3, itself a
    child of 4. *)
Definition shared_child_merge : list hier_row :=
  [{| Parent_ID := VInt 4; Child_Left_ID := VInt 0; Child_Right_ID := VInt 3;
      Distance := VNone; Parent_Name := VNone |};
   {| Parent_ID := VInt 3; Child_Left_ID := VInt 0; Child_Right_ID := VInt 1;
      Distance := VNone; Parent_Name := VNone |}].

(** The node of the output with topic id [t]. *)
Definition find_node (out : list node) (t : Z) : option node :=
  find (fun n => topic_id n =? t) out.

(** The invariant behind the parent links. *)
Definition linked (g : merge_graph) (k : Z) (n : node) : Prop :=
  topic_id n = k /\ parent_ok g k (parent_id n).

(** Ranks that are positive and strictly increasing: [ranks_above 0]. *)
Fixpoint ranks_above (lo : Z) (l : list term_rec) : Prop :=
  match l with
  | [] => True
  | t :: rest => lo < rank t /\ ranks_above (rank t) rest
  end.

(** Ranks that are [r], [r + 1], ... in order; [ranks_seq 1] is
    [1..len(terms)]. *)
Fixpoint ranks_seq (r : Z) (l : list term_rec) : Prop :=
  match l with
  | [] => True
  | t :: rest => rank t = r /\ ranks_seq (r + 1) rest
  end.

(** Scores that do not increase from a term to the next. *)
Definition scores_sorted (l : list term_rec) : Prop :=
  forall i a b, nth_error l i = Some a -> nth_error l (S i) = Some b ->
                fle (term_score b) (term_score a) = true.

Definition no_nan (l : list term_rec) : Prop :=
  forall t, In t l -> is_nan (term_score t) = false.

(** Terms the builder ranks itself: aggregated terms, label tokens, or
    none. *)
Definition computed_terms (l : list term_rec) : Prop :=
  ranks_seq 1 l /\ (no_nan l -> scores_sorted l).

(** The invariant behind the terms of the node stored under [k]; [L]
    holds of the leaf topics. A leaf topic for which the topic model gives
    at least one usable entry keeps the terms read from the model; every
    other node has terms the builder ranked itself. *)
Definition terms_tied (float_of_str : string -> option float) (top_count : Z)
           (topic_model : Z -> list term_entry) (L : Z -> Prop)
           (k : Z) (n : node) : Prop :=
  topic_id n = k
  /\ len (terms n) <= top_count
  /\ ranks_above 0 (terms n)
  /\ (L k -> model_terms float_of_str top_count 1 (topic_model k) [] <> [] ->
      terms n = model_terms float_of_str top_count 1 (topic_model k) [])
  /\ (~ (L k /\ model_terms float_of_str top_count 1 (topic_model k) [] <> []) ->
      computed_terms (terms n)).

Definition tied_store (float_of_str : string -> option float) (top_count : Z)
           (topic_model : Z -> list term_entry) (L : Z -> Prop)
           (ns : dict Z node) : Prop :=
  dict_all (terms_tied float_of_str top_count topic_model L) ns
  /\ forall k, L k -> In k (dkeys ns).

(** The scores the leaf loop reads from the pairs of a topic model's list,
    line 500-503: [float(pair[1])], 0.0 when that fails. *)
Fixpoint entry_scores (float_of_str : string -> option float)
         (entries : list term_entry) : list float :=
  match entries with
  | [] => []
  | TPair _ sc :: rest =>
      match try_opt (py_float float_of_str sc) with
      | Some f => f
      | None => fzero
      end :: entry_scores float_of_str rest
  | TOther :: rest => entry_scores float_of_str rest
  end.

(** Floats in non-increasing order: each is at least every later one. *)
Fixpoint descending (l : list float) : Prop :=
  match l with
  | [] => True
  | a :: rest => Forall (fun b => fle b a = true) rest /\ descending rest
  end.

(** Every entry is a pair with a word that is not blank. *)
Definition all_usable (entries : list term_entry) : Prop :=
  forall e, In e entries -> exists w sc, e = TPair w sc /\ strip w <> ""%string.

(** A topic model whose first entry for topic 0 is blank; the scores go
    down, as BERTopic lists them. *)
Definition f_0_1 : float := S754_finite false 7205759403792794 (-56).
Definition f_0_9 : float := S754_finite false 8106479329266893 (-53).
Definition gappy_topic_model (t : Z) : list term_entry :=
  if t =? 0 then [TPair " " (VFloat f_0_9); TPair "high" (VFloat f_0_5);
                  TPair "low" (VFloat f_0_1)]
  else [].

(** The size stored for [k]; 0 when there is no node for [k]. *)
Definition size_at (ns : dict Z node) (k : Z) : Z :=
  match zget k ns with
  | Some n => size n
  | None => 0
  end.

(** What [walk] adds up over the children [kids]. *)
Definition sum_sizes (ns : dict Z node) (kids : list Z) : Z :=
  fold_right (fun c acc => Z.max (size_at ns c) 0 + acc) 0 kids.

(** A walked node with children holds the sum of their sizes, and they
    have been walked. *)
Definition complete (g : merge_graph) (st : wstate) (v : Z) : Prop :=
  get_list v (parent_children g) <> [] ->
  size_at (nodes st) v = sum_sizes (nodes st) (get_list v (parent_children g))
  /\ forall c, In c (get_list v (parent_children g)) -> In c (visited st).

(** The merge graph has no cycle: children are strictly lower than their
    parents. *)
Definition acyclic_by (g : merge_graph) (height : Z -> nat) : Prop :=
  forall p c, In c (get_list p (parent_children g)) -> (height c < height p)%nat.

(** Nodes with children hold no documents. *)
Definition parents_cleared (g : merge_graph) (ns : dict Z node) : Prop :=
  dict_all (fun k n => get_list k (parent_children g) <> [] -> docs n = []) ns.

(** What a call [walk(n, _)] from the state [st] guarantees. *)
Definition walk_post (g : merge_graph) (height : Z -> nat)
           (st : wstate) (n : Z) (r : Z) (st' : wstate) : Prop :=
  (forall v, In v (visited st) -> In v (visited st'))
  /\ In n (visited st')
  /\ (forall v, In v (visited st) -> size_at (nodes st') v = size_at (nodes st) v)
  /\ r = size_at (nodes st') n
  /\ (forall v, In v (visited st') ->
                In v (visited st) \/ (height v <= height n)%nat)
  /\ (forall v, In v (visited st') -> ~ In v (visited st) -> complete g st' v).

(** What the loop over the children [kids] guarantees. *)
Definition children_post (g : merge_graph) (height : Z -> nat)
           (st : wstate) (kids : list Z) (total r : Z) (st' : wstate) : Prop :=
  (forall v, In v (visited st) -> In v (visited st'))
  /\ (forall c, In c kids -> In c (visited st'))
  /\ (forall v, In v (visited st) -> size_at (nodes st') v = size_at (nodes st) v)
  /\ r = total + sum_sizes (nodes st') kids
  /\ (forall v, In v (visited st') ->
                In v (visited st) \/ exists c, In c kids /\ (height v <= height c)%nat)
  /\ (forall v, In v (visited st') -> ~ In v (visited st) -> complete g st' v).

(** The size of topic [c] in the output; 0 when it has no node. *)
Definition out_size (out : list node) (c : Z) : Z :=
  match find_node out c with
  | Some m => size m
  | None => 0
  end.

Definition sum_list (l : list Z) : Z := fold_right Z.add 0 l.

(** A summary row that reports more documents than are assigned. *)
Definition generous_info : list info_row :=
  [{| Topic := VInt 0; Count := VInt 5; Name := VNone; Probability := VNone |}].

(** A summary row that names topic 5 without reporting a count. *)
Definition uncounted_info : list info_row :=
  [{| Topic := VInt 5; Count := VNone; Name := VStr "cardio"; Probability := VNone |}].

(** Every walked node is complete. *)
Definition all_complete (g : merge_graph) (st : wstate) : Prop :=
  parents_cleared g (nodes st) /\ forall v, In v (visited st) -> complete g st v.

(** The size the leaf builder gives topic [k] and the documents it finds
    for it stay with a node as long as it holds documents. *)
Definition keeps_leaf_size (leaf : Z -> node) (k : Z) (n : node) : Prop :=
  docs n <> [] -> size n = size (leaf k) /\ docs n = docs (leaf k).

Definition size_nonneg (k : Z) (n : node) : Prop := 0 <= size n.

Definition has_topic_id (k : Z) (n : node) : Prop := topic_id n = k.

(** Heights for the scenario merge table: 2 is above 0 and 1. *)
Definition scenario_height (z : Z) : nat := if z =? 2 then 1%nat else 0%nat.


(** The ids of the merge graph that the walk has not marked yet. *)
Definition fresh_count (g : merge_graph) (vis : list Z) : nat :=
  List.length (filter (fun x => negb (zmem x vis)) (nodup Z.eq_dec (graph_ids g))).

(** The node store when the walks start: the leaf nodes and the parents. *)
Definition initial_nodes (float_of_str : string -> option float)
           (topic_model : Z -> list term_entry) (top_count : Z)
           (s : summary) (dm : dict Z (list doc_rec)) (g : merge_graph) : dict Z node :=
  add_parents g (leaf_nodes float_of_str topic_model top_count s dm).

(** No element of a sorted list has to come strictly before its
    predecessor. *)
Definition no_inversion {A} (before : A -> A -> bool) (l : list A) : Prop :=
  forall i a b, nth_error l i = Some a -> nth_error l (S i) = Some b ->
                before b a = false.

(** A row whose distance is not a number. *)
Definition row_bad_distance : hier_row :=
  {| Parent_ID := VInt 2; Child_Left_ID := VInt 0; Child_Right_ID := VInt 1;
     Distance := VStr "far"; Parent_Name := VNone |}.


(** ** Helpers of the representation setup *)

(** [_maybe_int], lines 256-262: [int(value)], any exception giving [None]. *)
Definition _maybe_int (value : pyval) : option Z :=
  match value with
  | VNone => None
  | _ => try_opt (py_int value)
  end.

Section MaybeFloat.
Variable float_of_str : string -> option float.

(** [_maybe_float], lines 247-253. *)
Definition _maybe_float (value : pyval) : option float :=
  match value with
  | VNone => None
  | _ => try_opt (py_float float_of_str value)
  end.

(** [min(a, b)] and [max(a, b)] on floats: the first argument, unless the
    second is strictly smaller, respectively strictly larger. *)
Definition py_min (a b : float) : float := if flt b a then b else a.
Definition py_max (a b : float) : float := if flt a b then b else a.

(** The keyword arguments [resolve_representation_model] hands to
    [MaximalMarginalRelevance], lines 288-294; an absent key is [None]. *)
Record mmr_kwargs := { kw_diversity : option float; kw_top_n_words : option Z }.

Definition mmr_kwargs_of (diversity_val top_n_val : pyval) : mmr_kwargs :=
  let diversity := _maybe_float diversity_val in
  let top_n := _maybe_int top_n_val in
  {| kw_diversity := match diversity with
                     | Some d => Some (py_max fzero (py_min fone d))
                     | None => None
                     end;
     kw_top_n_words := match top_n with
                       | Some n => if 0 <? n then Some n else None
                       | None => None
                       end |}.
End MaybeFloat.

(** ** Definitions used to state further properties *)

Definition has_digit (s : string) : Prop :=
  exists c, In c (list_ascii_of_string s) /\ is_digit c = true.

(** A scalar that is not a text with an underscore in it. *)
Definition no_underscore (v : pyval) : Prop :=
  match v with
  | VStr s => forall c, In c (list_ascii_of_string s) -> Ascii.eqb c "_" = false
  | _ => True
  end.

Definition f_inf : float := S754_infinity false.

(** The documents assigned to topic [t], in the order of the assignments
    counted from [idx0]: an assignment normalized to [t], other than the
    outlier, at an index that has a document id. *)
Fixpoint members_of (doc_lookup : list Z)
         (probabilities : option (list (option (list float))))
         (idx0 : nat) (assignments : list pyval) (t : Z) : list doc_rec :=
  match assignments with
  | [] => []
  | assigned :: rest =>
      (match _to_int assigned, nth_error doc_lookup idx0 with
       | Ok (Some t'), Some note_id =>
           if (t' =? t) && negb (t' =? outlier_topic)
           then [{| doc_id := note_id; weight := weight_of probabilities idx0 |}]
           else []
       | _, _ => []
       end ++ members_of doc_lookup probabilities (S idx0) rest t)%list
  end.

(** Document entries in ascending order of their ids. *)
Definition ascending_ids (l : list doc_rec) : Prop :=
  forall i a b, nth_error l i = Some a -> nth_error l (S i) = Some b ->
                doc_id a <= doc_id b.

Definition strictly_ascending_ids (l : list doc_rec) : Prop :=
  forall i a b, nth_error l i = Some a -> nth_error l (S i) = Some b ->
                doc_id a < doc_id b.

(** What the end of a walk leaves of a node: it changes the size, the
    terms and the label only. *)
Definition same_frame (n n' : node) : Prop :=
  topic_id n' = topic_id n /\ parent_id n' = parent_id n /\ level n' = level n
  /\ docs n' = docs n /\ score n' = score n.

(** The ids a run can emit: leaf topics, parents and children of the
    merge graph. *)
Definition known_id (leaf_ids : list Z) (g : merge_graph) (k : Z) : Prop :=
  In k leaf_ids \/ In k (dkeys (parent_children g)) \/ is_child g k.

(** Adjacent nodes in the order of the key [(level, topic_id)], strictly. *)
Definition ordered_by_level_and_id (out : list node) : Prop :=
  forall i a b, nth_error out i = Some a -> nth_error out (S i) = Some b ->
                level a < level b \/ (level a = level b /\ topic_id a < topic_id b).

(** A topic that gets a leaf node: not the outlier, and either counted by
    a summary row or assigned to a document. *)
Definition is_leaf_topic (topic_info : option (list info_row))
           (topics : option (list pyval)) (doc_ids : list Z) (t : Z) : Prop :=
  t <> outlier_topic
  /\ (reported_count (rows_of topic_info) t <> None
      \/ 0 < membership_count doc_ids 0 (assignments_of topics) t).

(** [k] was reached at level [lvl] from a parent that lists it: a walked
    node one level up. *)
Definition reached_from (g : merge_graph) (st : wstate) (k lvl : Z) : Prop :=
  exists p np, In k (get_list p (parent_children g)) /\ In p (visited st)
               /\ zget p (nodes st) = Some np /\ level np + 1 = lvl.

Definition level_ok (g : merge_graph) (st : wstate) (k : Z) (n : node) : Prop :=
  0 <= level n /\ (0 < level n -> reached_from g st k (level n)).

(** The invariant of the levels: every node is at level 0 or one level
    below a walked parent, and the walked ids have a node. *)
Definition levels_ok (g : merge_graph) (st : wstate) : Prop :=
  (forall k n, zget k (nodes st) = Some n -> level_ok g st k n)
  /\ (forall v, In v (visited st) -> In v (dkeys (nodes st))).

(** From [st] to [st'] the walked nodes stay walked and keep their level. *)
Definition keeps_levels (st st' : wstate) : Prop :=
  incl (visited st) (visited st')
  /\ forall v n, In v (visited st) -> zget v (nodes st) = Some n ->
                 exists n', zget v (nodes st') = Some n' /\ level n' = level n.

(** The node that the output holds for topic [t]. *)
Definition emitted (out : list node) (t : Z) (n : node) : Prop :=
  In n out /\ topic_id n = t.

(** Some node of the store has a parent link and is a child of the
    adjacency. *)
Definition some_link (g : merge_graph) (ns : dict Z node) : Prop :=
  exists c n, zget c ns = Some n /\ is_some (parent_id n) = true /\ is_child g c.

(** Every walked node is a root at level 0, or sits below level 0 with a
    parent link. *)
Definition visit_ok (rts : list Z) (st : wstate) : Prop :=
  forall v, In v (visited st) ->
            exists n, zget v (nodes st) = Some n
                      /\ (0 < level n -> is_some (parent_id n) = true)
                      /\ (level n = 0 -> In v rts).

(** Every child is listed under one parent only. *)
Definition single_parent (g : merge_graph) : Prop :=
  forall p1 p2 c, In c (get_list p1 (parent_children g)) ->
                  In c (get_list p2 (parent_children g)) -> p1 = p2.

(** [k] is the stripped, non-blank text of a term of one of the children
    [kids] in the store [ns]. *)
Definition child_term (ns : dict Z node) (kids : list Z) (k : string) : Prop :=
  exists c child ct, In c kids /\ zget c ns = Some child /\ In ct (terms child)
                     /\ strip (term ct) = k /\ k <> ""%string.

(** A store with two children that share the term [heart]. *)
Definition two_children : dict Z node :=
  [(0, {| topic_id := 0; parent_id := None; level := 0; label := "a"; size := 2;
          score := None;
          terms := [{| term := "heart"; term_score := f_0_5; rank := 1 |};
                    {| term := " "; term_score := f_0_5; rank := 2 |}];
          docs := [] |});
   (1, {| topic_id := 1; parent_id := None; level := 0; label := "b"; size := 1;
          score := None;
          terms := [{| term := "lung"; term_score := f_0_3; rank := 1 |};
                    {| term := " heart"; term_score := f_0_3; rank := 2 |}];
          docs := [] |})].

(** An entry of the topic model that gives no term: not a pair, or a pair
    whose word is blank. *)
Definition unusable_entry (e : term_entry) : Prop :=
  match e with
  | TPair w _ => strip w = ""%string
  | TOther => True
  end.

(** The name the merge table gives parent [p]: the stripped [Parent_Name]
    of the last retained row for [p] that has a non-blank one. *)
Fixpoint parent_name_of (float_of_str : string -> option float)
         (max_dist : option float) (rows : list hier_row) (p : Z) : option string :=
  match rows with
  | [] => None
  | row :: rest =>
      match parent_name_of float_of_str max_dist rest p with
      | Some name => Some name
      | None =>
          match _to_int (Parent_ID row), _to_int (Child_Left_ID row),
                _to_int (Child_Right_ID row) with
          | Ok (Some p'), Ok (Some _), Ok (Some _) =>
              if (p' =? p) && kept float_of_str max_dist row
              then stripped_name (Parent_Name row)
              else None
          | _, _, _ => None
          end
      end
  end.

(** The labels of the merge graph are non-blank and belong to parents. *)
Definition labels_ok (g : merge_graph) : Prop :=
  forall k lo, zget k (parent_labels g) = Some lo ->
               lo <> ""%string /\ In k (dkeys (parent_children g)).

(** Every named parent has a node that carries the name. *)
Definition named (g : merge_graph) (ns : dict Z node) : Prop :=
  forall k lo, zget k (parent_labels g) = Some lo ->
               exists n, zget k ns = Some n /\ label n = lo.

(** Two nodes that differ in level and parent link at most. *)
Definition same_but_link (n m : node) : Prop :=
  topic_id n = topic_id m /\ label n = label m /\ size n = size m
  /\ score n = score m /\ terms n = terms m /\ docs n = docs m.

(** The node the builder makes for [k] before the walks: the leaf node of
    a leaf topic, a placeholder otherwise. *)
Definition as_built (leaf_ids : list Z) (leaf : Z -> node) (k : Z) : node :=
  if zmem k leaf_ids then leaf k else stub k None 0 (topic_label k).

(** Nodes without children are as built. *)
Definition childless_as_built (g : merge_graph) (leaf_ids : list Z) (leaf : Z -> node)
           (ns : dict Z node) : Prop :=
  forall k n, zget k ns = Some n -> get_list k (parent_children g) = [] ->
              same_but_link n (as_built leaf_ids leaf k).

(** A merge table whose two rows name parent 2, the second without a
    name. *)
Definition named_merge : list hier_row :=
  [{| Parent_ID := VInt 2; Child_Left_ID := VInt 0; Child_Right_ID := VInt 1;
      Distance := VNone; Parent_Name := VStr " heart " |};
   {| Parent_ID := VInt 2; Child_Left_ID := VInt 0; Child_Right_ID := VInt 3;
      Distance := VNone; Parent_Name := VStr "  " |}].

(** The members and the summary of the scenario inputs. *)
Definition scenario_members : dict Z (list doc_rec) :=
  [(0, [{| doc_id := 2; weight := None |}; {| doc_id := 3; weight := None |}]);
   (1, [{| doc_id := 4; weight := None |}])].
Definition empty_summary : summary :=
  {| size_by_topic := []; prob_by_topic := []; label_by_topic := [] |}.

(** The name the summary rows give topic [t]: the stripped [Name] of the
    last row for [t] that has a non-blank one. *)
Fixpoint reported_name (rows : list info_row) (t : Z) : option string :=
  match rows with
  | [] => None
  | row :: rest =>
      match reported_name rest t with
      | Some name => Some name
      | None =>
          match _to_int (Topic row) with
          | Ok (Some t') =>
              if (t' =? t) && negb (t' =? outlier_topic)
              then stripped_name (Name row) else None
          | _ => None
          end
      end
  end.

(** The score the summary rows give topic [t]: the [Probability] of the
    last row for [t] where it converts to a float. *)
Fixpoint reported_score (float_of_str : string -> option float)
         (rows : list info_row) (t : Z) : option float :=
  match rows with
  | [] => None
  | row :: rest =>
      match reported_score float_of_str rest t with
      | Some p => Some p
      | None =>
          match _to_int (Topic row) with
          | Ok (Some t') =>
              if (t' =? t) && negb (t' =? outlier_topic)
              then (if none_or_empty (Probability row) then None
                    else try_opt (py_float float_of_str (Probability row)))
              else None
          | _ => None
          end
      end
  end.

(** Two summary rows for topic 0: a name with a score, then a count. *)
Definition named_info : list info_row :=
  [{| Topic := VInt 0; Count := VNone; Name := VStr " cardio "; Probability := VFloat f_0_5 |};
   {| Topic := VStr "Topic 0"; Count := VInt 7; Name := VStr ""; Probability := VStr "" |}].

(** The leaf topics that hold documents and have no children. *)
Definition document_topics (dm : dict Z (list doc_rec)) (g : merge_graph)
           (leaf_ids : list Z) : list Z :=
  filter (fun t => negb (is_nil (get_list t dm))
                   && is_nil (get_list t (parent_children g))) leaf_ids.

Example to_int_topic14 : _to_int (VStr "Topic 14") = Ok (Some 14).
Proof. reflexivity. Qed.

Example to_int_14_abc : _to_int (VStr " -14_abc ") = Ok (Some (-14)).
Proof. reflexivity. Qed.

Example to_int_trailing : _to_int (VStr "3-7 ") = Ok (Some (-7)).
Proof. reflexivity. Qed.

Example to_int_float : _to_int (VFloat (S754_finite true 7 (-1))) = Ok (Some (-3)).
Proof. reflexivity. Qed.

Example to_int_text : _to_int (VStr "abc") = Ok None.
Proof. reflexivity. Qed.

Example topic_label_neg : topic_label (-12) = "Topic -12".
Proof. reflexivity. Qed.

Example split_tokens_label :
  split_tokens [] (list_ascii_of_string "3_heart rate__x") = ["3"; "heart"; "rate"; "x"].
Proof. reflexivity. Qed.

Example to_int_bool : _to_int (VBool true) = Ok (Some 1).
Proof. reflexivity. Qed.

Example to_int_nan : _to_int (VFloat S754_nan) = Ok None.
Proof. reflexivity. Qed.

Example to_int_embedded : _to_int (VStr "t-5x") = Ok (Some (-5)).
Proof. reflexivity. Qed.

(** The merge table of the scenarios without a cutoff: node 2 is the root,
    0 and 1 are its children at level 1, and its size is the sum of theirs. *)
Example scenario_merged :
  exists out st,
    build_topic_tree no_float_of_str slot_id no_topic_terms
      None (Some scenario_merge) scenario_topics None scenario_doc_ids
      (VInt 10) None = Ok (out, st)
    /\ map (fun n => (topic_id n, parent_id n, level n, size n)) out
       = [(2, None, 0, 3); (0, Some 2, 1, 2); (1, Some 2, 1, 1)]
    /\ roots st = 1 /\ has_links st = true /\ max_level st = 1.
Proof.
  do 2 eexists. split; [vm_compute; reflexivity | ].
  repeat split; reflexivity.
Qed.

(** [int] does not skip the separators of code points 28 to 31, which
    [strip] removes; the trailing digits are still found. *)
Example int_rejects_separators :
  py_int (VStr (String (ascii_of_nat 28) "5")) = Raise ValueError
  /\ _to_int (VStr (String (ascii_of_nat 28) "5")) = Ok (Some 5).
Proof. split; reflexivity. Qed.

(** * Properties *)

(** ** The identifier normalizer *)

Lemma except_ValueError_group g : exists r, except_ValueError (int_of_group g) = Ok r.
Proof. destruct g as [neg ds]. simpl. destruct (digits_ok ds); simpl; eauto. Qed.

(** Apart from the infinities, every scalar is normalized without an
    exception. *)
Lemma to_int_returns (val : pyval) :
  (forall s, val <> VFloat (S754_infinity s)) ->
  exists r, _to_int val = Ok r.
Proof.
  intros Hinf. destruct val as [ | n | b | f | s]; simpl; eauto.
  - destruct f as [sg | sg | | sg m e]; simpl; eauto.
    exfalso. apply (Hinf sg). reflexivity.
  - destruct (search_trailing_int _); [apply except_ValueError_group | ].
    destruct (search_first_int _); [apply except_ValueError_group | eauto].
Qed.

Lemma take_while_none {A} (p : A -> bool) (l : list A) :
  (forall x, In x l -> p x = false) -> take_while p l = [].
Proof.
  destruct l as [ | x l]; simpl; intros H; [reflexivity | ].
  rewrite (H x (or_introl eq_refl)). reflexivity.
Qed.

Lemma search_first_int_none (s : list ascii) : forall prev,
  (forall c, In c s -> is_digit c = false) -> search_first_int_from prev s = None.
Proof.
  induction s as [ | c s IH]; simpl; intros prev H; [reflexivity | ].
  rewrite (H c (or_introl eq_refl)). apply IH. intros x Hx. apply H. right. exact Hx.
Qed.

Lemma drop_while_In {A} (p : A -> bool) (l : list A) x :
  In x (drop_while p l) -> In x l.
Proof.
  induction l as [ | y l IH]; simpl; [tauto | ].
  destruct (p y); simpl; tauto.
Qed.

Lemma strip_chars_In (l : list ascii) c : In c (strip_chars l) -> In c l.
Proof.
  unfold strip_chars, rstrip, lstrip. intros H.
  apply in_rev in H. apply drop_while_In in H. apply in_rev in H.
  apply drop_while_In in H. exact H.
Qed.

Lemma int_strip_In (l : list ascii) c : In c (int_strip l) -> In c l.
Proof.
  unfold int_strip. intros H.
  apply in_rev in H. apply drop_while_In in H. apply in_rev in H.
  apply drop_while_In in H. exact H.
Qed.

Lemma int_body_ok_no_digit (body : list ascii) :
  (forall c, In c body -> is_digit c = false) -> int_body_ok false body = false.
Proof.
  destruct body as [ | c r]; simpl; intros H; [reflexivity | ].
  rewrite (H c (or_introl eq_refl)). destruct (Ascii.eqb c "_"); reflexivity.
Qed.

(** A text without a decimal digit is unrepresentable: both searches fail
    and so does [int(val)]. *)
Lemma to_int_no_digit (s : string) :
  (forall c, In c (list_ascii_of_string s) -> is_digit c = false) ->
  _to_int (VStr s) = Ok None.
Proof.
  intros H. unfold _to_int, strip.
  rewrite list_ascii_of_string_of_list_ascii.
  assert (Hs : forall c, In c (strip_chars (list_ascii_of_string s)) -> is_digit c = false).
  { intros c Hc. apply H. apply strip_chars_In. exact Hc. }
  unfold search_trailing_int. rewrite take_while_none.
  2:{ intros c Hc. apply Hs. apply in_rev. exact Hc. }
  unfold search_first_int. rewrite search_first_int_none by exact H.
  unfold py_int, int_of_str.
  assert (Hi : forall c, In c (int_strip (list_ascii_of_string s)) -> is_digit c = false).
  { intros c Hc. apply H. apply int_strip_In. exact Hc. }
  destruct (int_strip (list_ascii_of_string s)) as [ | c r] eqn:E.
  - reflexivity.
  - assert (Hr : forall x, In x r -> is_digit x = false).
    { intros x Hx. apply Hi. right. exact Hx. }
    destruct (is_minus c); [rewrite int_body_ok_no_digit by exact Hr; reflexivity | ].
    destruct (Ascii.eqb c "+"); [rewrite int_body_ok_no_digit by exact Hr; reflexivity | ].
    rewrite int_body_ok_no_digit; [reflexivity | ].
    intros x [<- | Hx]; [apply Hi; left; reflexivity | auto].
Qed.

(** A finite float is truncated toward zero. *)
Lemma to_int_finite (sg : bool) (m : positive) (e : Z) :
  _to_int (VFloat (S754_finite sg m e)) = Ok (Some (cond_Zopp sg (Z.shiftl (Zpos m) e))).
Proof. reflexivity. Qed.

(** C3 (defect): [_to_int] guards [int(val)] against NaN only; on a float
    infinity [int(val)] raises [OverflowError], and the exception leaves
    [_to_int] instead of the unrepresentable sentinel being returned. *)
Theorem to_int_infinity_raises :
  _to_int (VFloat (S754_infinity false)) = Raise OverflowError.
Proof. reflexivity. Qed.

(** ** Scenarios *)

Section Scenarios.
Variable float_of_str : string -> option float.
Variable slot : Z -> Z.
Variable topic_model : Z -> list term_entry.
Variable top_terms : pyval.

(** C2: document ids [1,2,3,4] with assignments [-1,0,0,1], no
    probabilities, no summary rows and no merge table give exactly two
    nodes, topic 0 with docs [2,3] and size 2 and topic 1 with docs [4] and
    size 1, and the diagnostics roots = 0, has_links = false,
    leaf_count = 2. *)
Theorem scenario_flat (hierarchy_conf : option hier_conf) :
  exists n0 n1 st,
    build_topic_tree float_of_str slot topic_model
      None None scenario_topics None scenario_doc_ids top_terms hierarchy_conf
    = Ok ([n0; n1], st)
    /\ topic_id n0 = 0 /\ map doc_id (docs n0) = [2; 3] /\ size n0 = 2
    /\ topic_id n1 = 1 /\ map doc_id (docs n1) = [4] /\ size n1 = 1
    /\ roots st = 0 /\ has_links st = false /\ leaf_count st = 2.
Proof.
  do 3 eexists. split.
  - lazy -[leaf_terms top_count_of max_distance_of]. reflexivity.
  - lazy. repeat split; reflexivity.
Qed.

End Scenarios.

(** C9 (defect): the outlier id -1 is filtered out of the assignments and
    of the summary rows, but not out of the merge table: a row naming -1
    as a child makes [walk] create a node for it. *)
Theorem outlier_child_is_materialized :
  exists out st,
    build_topic_tree no_float_of_str slot_id no_topic_terms
      None (Some outlier_merge) (Some [VInt 0]) None [1] (VInt 10) None
    = Ok (out, st)
    /\ In outlier_topic (map topic_id out).
Proof.
  do 2 eexists. split.
  - vm_compute. reflexivity.
  - simpl. auto.
Qed.

(** ** Dictionaries *)

Lemma bind_Ok {A B} (r : result A) (k : A -> result B) (b : B) :
  bind r k = Ok b -> exists a, r = Ok a /\ k a = Ok b.
Proof. destruct r; simpl; intros H; [eauto | discriminate]. Qed.

Lemma zmem_In (x : Z) (l : list Z) : zmem x l = true <-> In x l.
Proof.
  unfold zmem. rewrite existsb_exists. split.
  - intros [y [Hy Heq]]. apply Z.eqb_eq in Heq. subst. exact Hy.
  - intros H. exists x. split; [exact H | apply Z.eqb_refl].
Qed.

Lemma zmem_not_In (x : Z) (l : list Z) : zmem x l = false <-> ~ In x l.
Proof.
  rewrite <- zmem_In. destruct (zmem x l); split; intros; congruence.
Qed.

Section DictFacts.
Variable V : Type.
Implicit Types (d : dict Z V) (k : Z) (v : V).

Lemma zget_zset k k' v d :
  zget k' (zset k v d) = if k' =? k then Some v else zget k' d.
Proof.
  unfold zget, zset. induction d as [ | [k0 v0] d IH]; simpl.
  - destruct (k' =? k); reflexivity.
  - destruct (k =? k0) eqn:E; simpl.
    + apply Z.eqb_eq in E. subst k0.
      destruct (k' =? k); reflexivity.
    + rewrite IH. destruct (k' =? k0) eqn:E1, (k' =? k) eqn:E2; try reflexivity.
      apply Z.eqb_eq in E1, E2. subst. rewrite Z.eqb_refl in E. discriminate.
Qed.

Lemma zget_zset_eq k v d : zget k (zset k v d) = Some v.
Proof. rewrite zget_zset, Z.eqb_refl. reflexivity. Qed.

Lemma zget_zset_neq k k' v d : k' <> k -> zget k' (zset k v d) = zget k' d.
Proof.
  intros H. rewrite zget_zset. apply Z.eqb_neq in H. rewrite H. reflexivity.
Qed.

Lemma zget_In k v d : zget k d = Some v -> In (k, v) d.
Proof.
  unfold zget. induction d as [ | [k0 v0] d IH]; simpl; [discriminate | ].
  destruct (k =? k0) eqn:E.
  - apply Z.eqb_eq in E. intros H. inversion H. subst. auto.
  - auto.
Qed.

Lemma zget_keys k d : In k (dkeys d) <-> exists v, zget k d = Some v.
Proof.
  unfold zget, dkeys. induction d as [ | [k0 v0] d IH]; simpl.
  - split; [tauto | intros [v H]; discriminate].
  - destruct (k =? k0) eqn:E.
    + apply Z.eqb_eq in E. subst. split; eauto.
    + apply Z.eqb_neq in E. rewrite <- IH. split; [intros [H | H] | ]; auto.
      congruence.
Qed.

Lemma zget_None_keys k d : zget k d = None <-> ~ In k (dkeys d).
Proof.
  rewrite zget_keys. destruct (zget k d); split; intros H; try congruence.
  - exfalso. eauto.
  - intros [v Hv]. discriminate.
Qed.

Lemma dkeys_zset k k' v d : In k' (dkeys (zset k v d)) <-> k' = k \/ In k' (dkeys d).
Proof.
  rewrite !zget_keys, zget_zset. destruct (k' =? k) eqn:E.
  - apply Z.eqb_eq in E. split; eauto.
  - apply Z.eqb_neq in E. split; [auto | intros [H | H]; [contradiction | auto]].
Qed.

Lemma dkeys_zset_NoDup k v d : NoDup (dkeys d) -> NoDup (dkeys (zset k v d)).
Proof.
  unfold dkeys, zset. induction d as [ | [k0 v0] d IH]; simpl; intros H.
  - constructor; [simpl; tauto | constructor].
  - inversion H as [ | ? ? Hn Hd]; subst.
    destruct (k =? k0) eqn:E; simpl.
    + apply Z.eqb_eq in E. subst. constructor; assumption.
    + constructor; [ | auto].
      intros Hin. apply Hn.
      apply (dkeys_zset k k0 v d) in Hin. destruct Hin as [Hin | Hin]; [ | exact Hin].
      subst. rewrite Z.eqb_refl in E. discriminate.
Qed.

Lemma In_zget k v d : NoDup (dkeys d) -> In (k, v) d -> zget k d = Some v.
Proof.
  unfold zget, dkeys. induction d as [ | [k0 v0] d IH]; simpl; intros Hnd Hin; [tauto | ].
  inversion Hnd as [ | ? ? Hn Hd]; subst.
  destruct Hin as [Heq | Hin].
  - inversion Heq. subst. rewrite Z.eqb_refl. reflexivity.
  - destruct (k =? k0) eqn:E; [ | auto].
    apply Z.eqb_eq in E. subst. exfalso. apply Hn.
    apply in_map_iff. exists (k0, v). auto.
Qed.

Lemma In_dvalues n d : In n (dvalues d) <-> exists k, In (k, n) d.
Proof.
  unfold dvalues. rewrite in_map_iff. split.
  - intros [[k v] [Heq Hin]]. simpl in Heq. subst. eauto.
  - intros [k Hin]. exists (k, n). auto.
Qed.
End DictFacts.

Lemma get_list_zset V (k k' : Z) (l : list V) d :
  get_list k' (zset k l d) = if k' =? k then l else get_list k' d.
Proof. unfold get_list. rewrite zget_zset. destruct (k' =? k); reflexivity. Qed.

(** ** Sorting *)

Section SortFacts.
Variable A : Type.
Variable before : A -> A -> bool.

Lemma insert_sorted_perm x l : Permutation (x :: l) (insert_sorted before x l).
Proof.
  induction l as [ | y l IH]; simpl; [reflexivity | ].
  destruct (before y x); [ | reflexivity].
  rewrite perm_swap. constructor. exact IH.
Qed.

Lemma stable_sort_perm l : Permutation l (stable_sort before l).
Proof.
  induction l as [ | x l IH]; simpl; [reflexivity | ].
  rewrite <- insert_sorted_perm. constructor. exact IH.
Qed.

Lemma stable_sort_In x l : In x (stable_sort before l) <-> In x l.
Proof.
  split; apply Permutation_in; [symmetry | ]; apply stable_sort_perm.
Qed.

Lemma stable_sort_length l : List.length (stable_sort before l) = List.length l.
Proof. symmetry. apply Permutation_length, stable_sort_perm. Qed.

Hypothesis before_asym : forall a b, before a b = true -> before b a = false.

Lemma no_inversion_cons a l :
  (forall b, nth_error l 0 = Some b -> before b a = false) ->
  no_inversion before l -> no_inversion before (a :: l).
Proof.
  intros Hhd Hl [ | i] x y Hx Hy; simpl in *.
  - inversion Hx. subst. auto.
  - eapply Hl; eauto.
Qed.

Lemma no_inversion_tail a l : no_inversion before (a :: l) -> no_inversion before l.
Proof. intros H i x y Hx Hy. apply (H (S i)); assumption. Qed.

Lemma insert_sorted_head x l b :
  nth_error (insert_sorted before x l) 0 = Some b ->
  b = x \/ nth_error l 0 = Some b.
Proof.
  destruct l as [ | y l]; simpl.
  - intros H. inversion H. auto.
  - destruct (before y x); simpl; intros H; inversion H; auto.
Qed.

Lemma insert_sorted_no_inversion x l :
  no_inversion before l -> no_inversion before (insert_sorted before x l).
Proof.
  induction l as [ | y l IH]; simpl; intros Hl.
  - intros [ | i] a b Ha Hb; simpl in *; [discriminate | ].
    destruct i; discriminate.
  - destruct (before y x) eqn:E.
    + apply no_inversion_cons.
      * intros b Hb. apply insert_sorted_head in Hb. destruct Hb as [-> | Hb].
        -- apply before_asym. exact E.
        -- apply (Hl 0%nat y b); [reflexivity | exact Hb].
      * apply IH. eapply no_inversion_tail. exact Hl.
    + apply no_inversion_cons; [ | exact Hl].
      simpl. intros b Hb. inversion Hb. subst. exact E.
Qed.

Lemma stable_sort_no_inversion l : no_inversion before (stable_sort before l).
Proof.
  induction l as [ | x l IH]; simpl.
  - intros [ | i] a b Ha; discriminate.
  - apply insert_sorted_no_inversion. exact IH.
Qed.
End SortFacts.

Lemma set_of_In (x : Z) (l : list Z) : In x (set_of l) <-> In x l.
Proof. unfold set_of. apply nodup_In. Qed.

Lemma set_iter_In (slot : Z -> Z) (x : Z) (l : list Z) : In x (set_iter slot l) <-> In x l.
Proof. unfold set_iter. rewrite stable_sort_In. apply set_of_In. Qed.

(** ** The merge graph *)

Section GraphFacts.
Variable float_of_str : string -> option float.

Local Notation "'hstep'" := (hier_step float_of_str).
Local Notation "'hloop'" := (hier_loop float_of_str).

Lemma add_child_In kids x c : In c (add_child kids x) <-> In c kids \/ c = x.
Proof.
  unfold add_child. destruct (zmem x kids) eqn:E.
  - apply zmem_In in E. split; [auto | intros [H | ->]; assumption].
  - rewrite in_app_iff. simpl. intuition.
Qed.

Lemma add_merge_get g p l r nm q :
  zget q (parent_children (add_merge g p l r nm))
  = if q =? p
    then Some (match zget p (parent_children g) with
               | Some kids => add_child (add_child kids l) r
               | None => [l; r]
               end)
    else zget q (parent_children g).
Proof.
  unfold add_merge. simpl.
  destruct (zget p (parent_children g)); rewrite zget_zset; reflexivity.
Qed.

Lemma add_merge_new g p l r nm :
  exists kids, zget p (parent_children (add_merge g p l r nm)) = Some kids
               /\ In l kids /\ In r kids.
Proof.
  rewrite add_merge_get, Z.eqb_refl. eexists. split; [reflexivity | ].
  destruct (zget p (parent_children g)).
  - rewrite !add_child_In. auto.
  - simpl. auto.
Qed.

Lemma add_merge_mono g p l r nm q kids c :
  zget q (parent_children g) = Some kids -> In c kids ->
  exists kids', zget q (parent_children (add_merge g p l r nm)) = Some kids'
                /\ In c kids'.
Proof.
  intros Hq Hc. rewrite add_merge_get. destruct (q =? p) eqn:E.
  - apply Z.eqb_eq in E. subst q. rewrite Hq. eexists. split; [reflexivity | ].
    rewrite !add_child_In. auto.
  - eauto.
Qed.

Lemma add_merge_is_child g p l r nm c :
  is_child (add_merge g p l r nm) c <-> is_child g c \/ c = l \/ c = r.
Proof.
  unfold is_child. split.
  - intros [q [kids [Hq Hc]]]. rewrite add_merge_get in Hq.
    destruct (q =? p) eqn:E.
    + apply Z.eqb_eq in E. subst q. inversion Hq; subst; clear Hq.
      destruct (zget p (parent_children g)) as [kids0 | ] eqn:E0.
      * rewrite !add_child_In in Hc. destruct Hc as [[Hc | Hc] | Hc]; eauto.
      * simpl in Hc. intuition.
    + eauto.
  - intros [[q [kids [Hq Hc]]] | Hc].
    + exists q. eapply add_merge_mono; eauto.
    + destruct (add_merge_new g p l r nm) as [kids [Hk [Hl Hr]]].
      exists p, kids. destruct Hc; subst; auto.
Qed.

(** What a row does to the graph. *)
Lemma hier_step_cases md g row g' :
  hstep md g row = Ok g' ->
  (exists p l r, retained float_of_str md row p l r
                 /\ g' = add_merge g p l r (Parent_Name row))
  \/ (g' = g /\ forall p l r, ~ retained float_of_str md row p l r).
Proof.
  unfold hier_step, retained, kept. intros H.
  apply bind_Ok in H. destruct H as [pid [Hp H]].
  apply bind_Ok in H. destruct H as [lid [Hl H]].
  apply bind_Ok in H. destruct H as [rid [Hr H]].
  rewrite Hp, Hl, Hr.
  destruct pid as [p | ], lid as [l | ], rid as [r | ];
    try (right; inversion H; split; [reflexivity | intros ? ? ? [? [? [? ?]]]; congruence]).
  destruct (exceeds _ _) eqn:E; inversion H; subst; clear H.
  - right. split; [reflexivity | ]. intros ? ? ? [? [? [? Hk]]]. discriminate.
  - left. exists p, l, r. auto.
Qed.

Lemma hier_loop_mono md rows : forall g g' q kids c,
  hloop md rows g = Ok g' ->
  zget q (parent_children g) = Some kids -> In c kids ->
  exists kids', zget q (parent_children g') = Some kids' /\ In c kids'.
Proof.
  induction rows as [ | row rows IH]; simpl; intros g g' q kids c H Hq Hc.
  - inversion H. subst. eauto.
  - apply bind_Ok in H. destruct H as [g1 [Hs H]].
    apply hier_step_cases in Hs. destruct Hs as [[p [l [r [_ ->]]]] | [-> _]].
    + edestruct add_merge_mono as [k1 [Hk1 Hc1]]; [exact Hq | exact Hc | ].
      eapply IH; eauto.
    + eapply IH; eauto.
Qed.

Lemma hier_loop_retained md rows : forall g g' row p l r,
  hloop md rows g = Ok g' -> In row rows ->
  retained float_of_str md row p l r ->
  exists kids, zget p (parent_children g') = Some kids /\ In l kids /\ In r kids.
Proof.
  induction rows as [ | row0 rows IH]; simpl; intros g g' row p l r H Hin Hret;
    [contradiction | ].
  apply bind_Ok in H. destruct H as [g1 [Hs H]].
  destruct Hin as [-> | Hin]; [ | eapply IH; eauto].
  apply hier_step_cases in Hs. destruct Hs as [[p' [l' [r' [Hret' ->]]]] | [_ Hno]].
  - destruct Hret as [Hp [Hl [Hr _]]], Hret' as [Hp' [Hl' [Hr' _]]].
    assert (p' = p) by congruence. assert (l' = l) by congruence.
    assert (r' = r) by congruence. subst.
    destruct (add_merge_new g p l r (Parent_Name row)) as [kids [Hk [Hlk Hrk]]].
    edestruct hier_loop_mono as [k1 [Hk1 Hl1]]; [exact H | exact Hk | exact Hlk | ].
    edestruct hier_loop_mono as [k2 [Hk2 Hr2]]; [exact H | exact Hk | exact Hrk | ].
    rewrite Hk1 in Hk2. inversion Hk2. subst. eauto.
  - exfalso. eapply Hno. exact Hret.
Qed.

Lemma add_merge_seen_ok g p l r nm : seen_ok g -> seen_ok (add_merge g p l r nm).
Proof.
  unfold seen_ok. intros Hg c. rewrite add_merge_is_child, <- Hg.
  unfold add_merge. simpl.
  rewrite in_app_iff. simpl. intuition.
Qed.

Lemma hier_loop_seen_ok md rows : forall g g',
  hloop md rows g = Ok g' -> seen_ok g -> seen_ok g'.
Proof.
  induction rows as [ | row rows IH]; simpl; intros g g' H Hg.
  - inversion H. subst. exact Hg.
  - apply bind_Ok in H. destruct H as [g1 [Hs H]].
    apply hier_step_cases in Hs. destruct Hs as [[p [l [r [_ ->]]]] | [-> _]].
    + eapply IH; [exact H | ]. apply add_merge_seen_ok. exact Hg.
    + eapply IH; eauto.
Qed.

Lemma hier_loop_seen_rows md rows : forall g g' c,
  hloop md rows g = Ok g' ->
  (In c (children_seen g') <->
   In c (children_seen g)
   \/ exists row p l r, In row rows /\ retained float_of_str md row p l r
                        /\ (c = l \/ c = r)).
Proof.
  induction rows as [ | row rows IH]; simpl; intros g g' c H.
  - inversion H. subst. split; [auto | ].
    intros [Hc | [row [p [l [r [[] _]]]]]]. exact Hc.
  - apply bind_Ok in H. destruct H as [g1 [Hs H]].
    rewrite (IH _ _ c H). clear IH.
    apply hier_step_cases in Hs. destruct Hs as [[p [l [r [Hret ->]]]] | [-> Hno]].
    + unfold add_merge at 1. simpl. rewrite in_app_iff. simpl. split.
      * intros [[Hc | [Hc | [Hc | []]]] | [row' [p' [l' [r' [Hin [Hr Hc]]]]]]].
        -- auto.
        -- right. exists row, p, l, r. auto.
        -- right. exists row, p, l, r. auto.
        -- right. exists row', p', l', r'. auto.
      * intros [Hc | [row' [p' [l' [r' [[<- | Hin] [Hr Hc]]]]]]].
        -- auto.
        -- destruct Hret as [Hp [Hl [Hrr _]]], Hr as [Hp' [Hl' [Hr' _]]].
           assert (l' = l) by congruence. assert (r' = r) by congruence. subst.
           left. right. destruct Hc; subst; auto.
        -- right. exists row', p', l', r'. auto.
    + split.
      * intros [Hc | [row' [p' [l' [r' [Hin [Hr Hc]]]]]]]; [auto | ].
        right. exists row', p', l', r'. auto.
      * intros [Hc | [row' [p' [l' [r' [[<- | Hin] [Hr Hc]]]]]]]; [auto | | ].
        -- exfalso. eapply Hno. exact Hr.
        -- right. exists row', p', l', r'. auto.
Qed.

Lemma seen_ok_empty : seen_ok empty_graph.
Proof.
  intros c. simpl. split; [tauto | ].
  intros [q [kids [Hq _]]]. discriminate.
Qed.

(** A row above the cutoff leaves the graph as it is, a row below it is
    processed as without a cutoff. *)
Lemma hier_step_cutoff md g row g' :
  hstep md g row = Ok g' ->
  if kept float_of_str md row then hstep None g row = Ok g' else g' = g.
Proof.
  unfold hier_step, kept. intros H.
  apply bind_Ok in H. destruct H as [pid [Hp H]].
  apply bind_Ok in H. destruct H as [lid [Hl H]].
  apply bind_Ok in H. destruct H as [rid [Hr H]].
  rewrite Hp, Hl, Hr. simpl.
  destruct (exceeds md _) eqn:E; simpl.
  - destruct pid, lid, rid; inversion H; reflexivity.
  - destruct pid, lid, rid; exact H.
Qed.

Lemma hier_loop_cutoff md rows : forall g g',
  hloop md rows g = Ok g' ->
  hloop None (filter (kept float_of_str md) rows) g = Ok g'.
Proof.
  induction rows as [ | row rows IH]; simpl; intros g g' H; [exact H | ].
  apply bind_Ok in H. destruct H as [g1 [Hs H]].
  apply hier_step_cutoff in Hs.
  destruct (kept float_of_str md row); simpl.
  - rewrite Hs. simpl. auto.
  - subst g1. auto.
Qed.
End GraphFacts.

(** ** The distance cutoff and the roots *)

Lemma ltb_asym (a b : Z) : (a <? b) = true -> (b <? a) = false.
Proof. intros H. apply Z.ltb_lt in H. apply Z.ltb_ge. lia. Qed.

Lemma sorted_last_max (l : list Z) :
  no_inversion Z.ltb l -> forall x, In x l -> x <= last l 0.
Proof.
  induction l as [ | a l IH]; intros Hs x Hx; [contradiction | ].
  destruct l as [ | b l].
  - destruct Hx as [-> | []]. simpl. lia.
  - assert (Hab : a <= b).
    { specialize (Hs 0%nat a b eq_refl eq_refl). apply Z.ltb_ge in Hs. exact Hs. }
    assert (Hl : forall y, In y (b :: l) -> y <= last (b :: l) 0).
    { apply IH. eapply no_inversion_tail. exact Hs. }
    change (last (a :: b :: l) 0) with (last (b :: l) 0).
    destruct Hx as [-> | Hx]; [ | auto].
    specialize (Hl b (or_introl eq_refl)). lia.
Qed.

Lemma last_In (l : list Z) (d : Z) : l <> [] -> In (last l d) l.
Proof.
  induction l as [ | a l IH]; [congruence | ]. intros _.
  destruct l as [ | b l]; [simpl; auto | ].
  right. apply IH. discriminate.
Qed.

Lemma row_distance_malformed fos row :
  Distance row = VNone \/ Distance row = VStr ""
  \/ (exists e, py_float fos (Distance row) = Raise e) ->
  row_distance fos row = None.
Proof.
  unfold row_distance. intros [H | [H | [e H]]]; rewrite H; try reflexivity.
  destruct (none_or_empty (Distance row)); reflexivity.
Qed.

Lemma exceeds_None_r md : exceeds md None = false.
Proof. destruct md; reflexivity. Qed.

(** C5: with [max_distance] configured, the adjacency is the one built
    from the rows whose distance does not exceed it: a row above the cutoff
    contributes nothing. For the merge table
    [{parent: 2, left: 0, right: 1, distance: 0.5}] and [max_distance = 0.3]
    the merge is pruned: no node 2 is emitted and the leaves 0 and 1 stay
    roots at level 0. *)
Theorem max_distance_prunes (float_of_str : string -> option float) (slot : Z -> Z)
        (topic_model : Z -> list term_entry) (top_terms : pyval) :
  (forall md rows g,
      merge_graph_of float_of_str md (Some rows) = Ok g ->
      merge_graph_of float_of_str None (Some (filter (kept float_of_str md) rows)) = Ok g)
  /\ (forall md row, kept float_of_str md row = false <->
                     exists m d, md = Some m /\ row_distance float_of_str row = Some d
                                 /\ flt m d = true)
  /\ exists n0 n1 st,
      build_topic_tree float_of_str slot topic_model
        None (Some scenario_merge) scenario_topics None scenario_doc_ids
        top_terms conf_max_0_3
      = Ok ([n0; n1], st)
      /\ topic_id n0 = 0 /\ parent_id n0 = None /\ level n0 = 0
      /\ topic_id n1 = 1 /\ parent_id n1 = None /\ level n1 = 0
      /\ parents_expected st = 0 /\ has_links st = false.
Proof.
  split; [ | split].
  - intros md rows g H. unfold merge_graph_of in *. apply hier_loop_cutoff. exact H.
  - intros md row. unfold kept, exceeds.
    destruct md as [m | ], (row_distance float_of_str row) as [d | ]; simpl.
    + destruct (flt m d) eqn:E; simpl; split; try discriminate; eauto.
      intros [m' [d' [Hm [Hd Hlt]]]]. congruence.
    + split; [discriminate | intros [m' [d' [_ [Hd _]]]]; discriminate].
    + split; [discriminate | intros [m' [d' [Hm _]]]; discriminate].
    + split; [discriminate | intros [m' [d' [Hm _]]]; discriminate].
  - do 3 eexists. split.
    + lazy -[leaf_terms top_count_of]. reflexivity.
    + lazy. repeat split; reflexivity.
Qed.

Lemma max_distance_prunes_witness :
  merge_graph_of (fun _ => None) None
    (Some (filter (kept (fun _ => None) (Some f_0_3)) scenario_merge))
  = Ok empty_graph.
Proof.
  apply (proj1 (max_distance_prunes (fun _ => None) (fun z => z) (fun _ => []) (VInt 10))).
  reflexivity.
Defined.

(** C10: a row whose distance is absent, the empty string or not
    convertible to a float passes the cutoff whatever [max_distance] is;
    when its three ids are resolved, it enters the adjacency. *)
Theorem malformed_distance_never_pruned (float_of_str : string -> option float)
        (md : option float) (rows : list hier_row) (g : merge_graph)
        (row : hier_row) (p l r : Z) :
  merge_graph_of float_of_str md (Some rows) = Ok g ->
  In row rows ->
  _to_int (Parent_ID row) = Ok (Some p) ->
  _to_int (Child_Left_ID row) = Ok (Some l) ->
  _to_int (Child_Right_ID row) = Ok (Some r) ->
  Distance row = VNone \/ Distance row = VStr ""
  \/ (exists e, py_float float_of_str (Distance row) = Raise e) ->
  kept float_of_str md row = true
  /\ exists kids, zget p (parent_children g) = Some kids /\ In l kids /\ In r kids.
Proof.
  intros H Hin Hp Hl Hr Hd.
  assert (Hk : kept float_of_str md row = true).
  { unfold kept. rewrite (row_distance_malformed _ _ Hd), exceeds_None_r. reflexivity. }
  split; [exact Hk | ].
  eapply hier_loop_retained; [exact H | exact Hin | ].
  repeat split; assumption.
Qed.

Lemma malformed_distance_never_pruned_witness :
  kept (fun _ => None) (Some f_0_3) row_bad_distance = true
  /\ exists kids,
      zget 2 (parent_children
                (add_merge empty_graph 2 0 1 VNone)) = Some kids
      /\ In 0 kids /\ In 1 kids.
Proof.
  apply (@malformed_distance_never_pruned (fun _ => None) (Some f_0_3)
           [row_bad_distance] (add_merge empty_graph 2 0 1 VNone) row_bad_distance 2 0 1).
  - reflexivity.
  - simpl. auto.
  - reflexivity.
  - reflexivity.
  - reflexivity.
  - right. right. exists ValueError. reflexivity.
Defined.

(** C7: the root candidates are the parents of the adjacency that no
    retained row (equivalently, no entry of the adjacency) names as a child;
    when there is none although there are parents, the root is the largest
    parent id. *)
Theorem roots_are_parents_without_parent (float_of_str : string -> option float)
        (slot : Z -> Z) (md : option float) (rows : list hier_row) (g : merge_graph) :
  merge_graph_of float_of_str md (Some rows) = Ok g ->
  (forall p, In p (root_candidates slot g) <->
             In p (dkeys (parent_children g))
             /\ ~ (exists row q l r, In row rows /\ retained float_of_str md row q l r
                                     /\ (p = l \/ p = r)))
  /\ (forall p, In p (root_candidates slot g) <->
                In p (dkeys (parent_children g)) /\ ~ is_child g p)
  /\ (root_candidates slot g <> [] -> roots_of slot g = root_candidates slot g)
  /\ (root_candidates slot g = [] -> dkeys (parent_children g) <> [] ->
      exists m, roots_of slot g = [m] /\ In m (dkeys (parent_children g))
                /\ forall p, In p (dkeys (parent_children g)) -> p <= m)
  /\ (dkeys (parent_children g) = [] -> roots_of slot g = []).
Proof.
  intros H. unfold merge_graph_of in H.
  assert (Hseen : seen_ok g).
  { eapply hier_loop_seen_ok; [exact H | apply seen_ok_empty]. }
  assert (Hcand : forall p, In p (root_candidates slot g) <->
                            In p (dkeys (parent_children g)) /\ ~ In p (children_seen g)).
  { intros p. unfold root_candidates. rewrite filter_In, set_iter_In.
    rewrite negb_true_iff, zmem_not_In. reflexivity. }
  split; [ | split; [ | split; [ | split]]].
  - intros p. rewrite Hcand, (@hier_loop_seen_rows float_of_str md rows empty_graph g p H).
    simpl. tauto.
  - intros p. rewrite Hcand, (Hseen p). reflexivity.
  - intros Hne. unfold roots_of.
    destruct (root_candidates slot g); [congruence | reflexivity].
  - intros Hnil Hkeys. unfold roots_of. rewrite Hnil.
    destruct (set_iter slot (dkeys (parent_children g))) as [ | a l] eqn:E.
    + exfalso. destruct (dkeys (parent_children g)) as [ | k ks] eqn:Ek; [congruence | ].
      assert (Hin : In k (set_iter slot (k :: ks))) by (apply set_iter_In; left; reflexivity).
      rewrite E in Hin. exact Hin.
    + eexists. split; [reflexivity | ]. split.
      * rewrite <- (set_iter_In slot), E. apply (stable_sort_In Z.ltb).
        apply last_In. intros Hn.
        apply (f_equal (@List.length Z)) in Hn. rewrite stable_sort_length in Hn.
        discriminate.
      * intros p Hp. apply sorted_last_max.
        -- apply stable_sort_no_inversion. exact ltb_asym.
        -- apply stable_sort_In. rewrite <- E. apply set_iter_In. exact Hp.
  - intros Hkeys. unfold roots_of, root_candidates. rewrite Hkeys. reflexivity.
Qed.

Lemma roots_are_parents_without_parent_witness :
  roots_of (fun z => z) (add_merge empty_graph 2 0 1 VNone)
  = root_candidates (fun z => z) (add_merge empty_graph 2 0 1 VNone).
Proof.
  apply (@roots_are_parents_without_parent (fun _ => None) (fun z => z) None
           scenario_merge (add_merge empty_graph 2 0 1 VNone) eq_refl).
  lazy. discriminate.
Defined.

(** ** Membership, summary rows and leaf nodes *)

Lemma len_app {A} (l1 l2 : list A) : len (l1 ++ l2) = len l1 + len l2.
Proof. unfold len. rewrite length_app. lia. Qed.

Lemma len_nonneg {A} (l : list A) : 0 <= len l.
Proof. unfold len. lia. Qed.

Lemma membership_count_nonneg doc_lookup assignments : forall idx t,
  0 <= membership_count doc_lookup idx assignments t.
Proof.
  induction assignments as [ | a rest IH]; simpl; intros idx t; [lia | ].
  specialize (IH (S idx) t).
  destruct (_to_int a) as [[t' | ] | ]; try lia.
  destruct (_ && _); lia.
Qed.

Section LeafFacts.
Variable float_of_str : string -> option float.

Lemma dappend_len t x dm t' :
  len (get_list t' (dappend t x dm))
  = len (get_list t' dm) + (if t' =? t then 1 else 0).
Proof.
  unfold dappend. rewrite get_list_zset. destruct (t' =? t) eqn:E.
  - apply Z.eqb_eq in E. subst. rewrite len_app. reflexivity.
  - lia.
Qed.

Lemma dappend_keys t x dm t' :
  In t' (dkeys (dappend t x dm)) <-> t' = t \/ In t' (dkeys dm).
Proof. unfold dappend. apply dkeys_zset. Qed.

Lemma assign_loop_count doc_lookup probs assignments : forall idx dm dm' t,
  assign_loop doc_lookup probs idx assignments dm = Ok dm' ->
  len (get_list t dm') = len (get_list t dm)
                         + membership_count doc_lookup idx assignments t.
Proof.
  induction assignments as [ | a rest IH]; simpl; intros idx dm dm' t H.
  - inversion H. lia.
  - apply bind_Ok in H. destruct H as [tid [Ha H]]. rewrite Ha.
    destruct tid as [t' | ]; [ | rewrite (IH _ _ _ t H); lia].
    unfold outlier_topic in *.
    destruct (t' =? -1) eqn:Eo; simpl; [rewrite andb_false_r | rewrite andb_true_r].
    { simpl. rewrite (IH _ _ _ t H). lia. }
    destruct (nth_error doc_lookup idx) as [note | ] eqn:En.
    + assert (Hlt : (idx <? List.length doc_lookup)%nat = true).
      { apply Nat.ltb_lt. apply nth_error_Some. congruence. }
      rewrite Hlt, andb_true_r. rewrite (IH _ _ _ t H), dappend_len.
      rewrite (Z.eqb_sym t' t). lia.
    + assert (Hge : (idx <? List.length doc_lookup)%nat = false).
      { apply Nat.ltb_ge. apply nth_error_None. exact En. }
      rewrite Hge, andb_false_r. rewrite (IH _ _ _ t H). lia.
Qed.

Lemma assign_loop_keys doc_lookup probs assignments : forall idx dm dm' t,
  assign_loop doc_lookup probs idx assignments dm = Ok dm' ->
  (In t (dkeys dm') <->
   In t (dkeys dm) \/ 0 < membership_count doc_lookup idx assignments t).
Proof.
  induction assignments as [ | a rest IH]; simpl; intros idx dm dm' t H.
  - inversion H. subst. split; [auto | intros [H1 | H1]; [exact H1 | lia]].
  - apply bind_Ok in H. destruct H as [tid [Ha H]]. rewrite Ha.
    pose proof (membership_count_nonneg doc_lookup rest (S idx) t) as Hnn.
    destruct tid as [t' | ].
    2:{ rewrite (IH _ _ _ t H). simpl. reflexivity. }
    unfold outlier_topic in *.
    destruct (t' =? -1) eqn:Eo; simpl; [rewrite andb_false_r | rewrite andb_true_r].
    { simpl. rewrite (IH _ _ _ t H). reflexivity. }
    destruct (nth_error doc_lookup idx) as [note | ] eqn:En.
    + assert (Hlt : (idx <? List.length doc_lookup)%nat = true).
      { apply Nat.ltb_lt. apply nth_error_Some. congruence. }
      rewrite Hlt, andb_true_r. rewrite (IH _ _ _ t H), dappend_keys.
      destruct (t' =? t) eqn:E.
      * apply Z.eqb_eq in E. subst. split; intros; [right; lia | auto].
      * apply Z.eqb_neq in E. split.
        -- intros [[He | Hk] | Hc]; [congruence | auto | right; lia].
        -- intros [Hk | Hc]; [auto | right; lia].
    + assert (Hge : (idx <? List.length doc_lookup)%nat = false).
      { apply Nat.ltb_ge. apply nth_error_None. exact En. }
      rewrite Hge, andb_false_r. rewrite (IH _ _ _ t H). reflexivity.
Qed.

Lemma sorted_members_get (dm : dict Z (list doc_rec)) t :
  get_list t (map (fun kv => (fst kv, sort_docs (snd kv))) dm)
  = sort_docs (get_list t dm).
Proof.
  unfold get_list, zget. induction dm as [ | [k v] dm IH]; simpl; [reflexivity | ].
  destruct (t =? k); [reflexivity | exact IH].
Qed.

Lemma sorted_members_keys (dm : dict Z (list doc_rec)) :
  dkeys (map (fun kv => (fst kv, sort_docs (snd kv))) dm) = dkeys dm.
Proof. unfold dkeys. rewrite map_map. reflexivity. Qed.

Lemma sort_docs_len l : len (sort_docs l) = len l.
Proof. unfold len, sort_docs. rewrite stable_sort_length. reflexivity. Qed.

(** The number of members of [t] is the number of its assignments. *)
Lemma doc_members_count topics probs doc_ids dm t :
  doc_members_of topics probs doc_ids = Ok dm ->
  len (get_list t dm) = membership_count doc_ids 0 (assignments_of topics) t
  /\ (In t (dkeys dm) <-> 0 < membership_count doc_ids 0 (assignments_of topics) t).
Proof.
  unfold doc_members_of. intros H. apply bind_Ok in H. destruct H as [dm0 [H0 H]].
  inversion H. subst dm. clear H.
  rewrite sorted_members_get, sort_docs_len, sorted_members_keys.
  fold (assignments_of topics) in H0. split.
  - rewrite (assign_loop_count _ _ _ _ _ t H0). reflexivity.
  - rewrite (assign_loop_keys _ _ _ _ _ t H0). simpl. tauto.
Qed.

(** The size table after the summary rows. *)
Lemma info_loop_size dm rows : forall s s' t,
  info_loop float_of_str dm rows s = Ok s' ->
  zget t (size_by_topic s')
  = match reported_count rows t with
    | Some c => Some (Z.max c (len (get_list t dm)))
    | None => zget t (size_by_topic s)
    end.
Proof.
  induction rows as [ | row rows IH]; simpl; intros s s' t H.
  - inversion H. reflexivity.
  - apply bind_Ok in H. destruct H as [s1 [Hs H]].
    rewrite (IH _ _ t H). destruct (reported_count rows t); [reflexivity | ].
    unfold info_step in Hs.
    apply bind_Ok in Hs. destruct Hs as [tid [Ht Hs]]. rewrite Ht.
    destruct tid as [t' | ]; [ | inversion Hs; reflexivity].
    destruct (t' =? outlier_topic) eqn:Eo.
    { inversion Hs. rewrite andb_false_r.
      destruct (_to_int (Count row)) as [[c | ] | ]; reflexivity. }
    apply bind_Ok in Hs. destruct Hs as [cv [Hc Hs]]. rewrite Hc.
    inversion Hs. subst s1. clear Hs. simpl. rewrite andb_true_r.
    destruct cv as [c | ]; [ | reflexivity].
    rewrite zget_zset, (Z.eqb_sym t' t). destruct (t =? t') eqn:E; [ | reflexivity].
    apply Z.eqb_eq in E. subst. reflexivity.
Qed.

Lemma fold_zset_get {V} (f : Z -> V) (ids : list Z) : forall (ns : dict Z V) t,
  zget t (fold_left (fun ns t => zset t (f t) ns) ids ns)
  = if zmem t ids then Some (f t) else zget t ns.
Proof.
  induction ids as [ | i ids IH]; simpl; intros ns t; [reflexivity | ].
  rewrite IH, zget_zset. destruct (zmem t ids).
  - rewrite orb_true_r. reflexivity.
  - rewrite orb_false_r. destruct (t =? i) eqn:E; [ | reflexivity].
    apply Z.eqb_eq in E. subst. reflexivity.
Qed.

Lemma leaf_topic_ids_In s dm t :
  In t (leaf_topic_ids s dm) <->
  t <> outlier_topic /\ (In t (dkeys (size_by_topic s)) \/ In t (dkeys dm)).
Proof.
  unfold leaf_topic_ids. rewrite stable_sort_In, filter_In, set_of_In, in_app_iff.
  rewrite filter_In. unfold not_outlier. rewrite negb_true_iff, Z.eqb_neq. tauto.
Qed.

Lemma leaf_nodes_get topic_model top_count s dm t :
  zget t (leaf_nodes float_of_str topic_model top_count s dm)
  = if zmem t (leaf_topic_ids s dm)
    then Some (leaf_node float_of_str topic_model top_count s dm t)
    else None.
Proof.
  unfold leaf_nodes.
  apply (fold_zset_get (leaf_node float_of_str topic_model top_count s dm)).
Qed.
End LeafFacts.

(** C6, counterexample: a summary row names topic 5 but holds no usable
    count, and no document is assigned to it; the claim gives its node the
    membership count, 0, as size, but the builder makes no node for it. *)
Lemma summary_topic_without_count_has_no_node :
  exists out st,
    build_topic_tree no_float_of_str slot_id no_topic_terms
      (Some uncounted_info) None scenario_topics None scenario_doc_ids
      (VInt 10) None = Ok (out, st)
    /\ (exists row, In row uncounted_info /\ _to_int (Topic row) = Ok (Some 5))
    /\ reported_count uncounted_info 5 = None
    /\ membership_count scenario_doc_ids 0 (assignments_of scenario_topics) 5 = 0
    /\ find_node out 5 = None
    /\ map topic_id out = [0; 1].
Proof.
  do 2 eexists. split; [vm_compute; reflexivity | ].
  split; [eexists; split; [left; reflexivity | reflexivity] | ].
  repeat split; reflexivity.
Qed.

(** C6, amended: a cluster id other than the outlier gets a leaf node
    exactly when the summary rows report a count for it or the assignments
    give it members. The size of that node is the maximum of the reported
    count and the number of members, respectively the number of members
    when no count is reported. An id that the summary rows name without a
    usable count and that has no member gets no node. *)
Theorem leaf_size_is_max (float_of_str : string -> option float)
        (topic_model : Z -> list term_entry) (top_count : Z)
        (topic_info : option (list info_row)) (topics : option (list pyval))
        (probabilities : option (list (option (list float)))) (doc_ids : list Z)
        (dm : dict Z (list doc_rec)) (s : summary) (t : Z) :
  doc_members_of topics probabilities doc_ids = Ok dm ->
  summary_of float_of_str dm topic_info = Ok s ->
  t <> outlier_topic ->
  (reported_count (rows_of topic_info) t <> None
   \/ 0 < membership_count doc_ids 0 (assignments_of topics) t ->
   exists n,
     zget t (leaf_nodes float_of_str topic_model top_count s dm) = Some n
     /\ topic_id n = t
     /\ len (docs n) = membership_count doc_ids 0 (assignments_of topics) t
     /\ size n = match reported_count (rows_of topic_info) t with
                 | Some c => Z.max c (membership_count doc_ids 0 (assignments_of topics) t)
                 | None => membership_count doc_ids 0 (assignments_of topics) t
                 end)
  /\ (reported_count (rows_of topic_info) t = None ->
      membership_count doc_ids 0 (assignments_of topics) t = 0 ->
      zget t (leaf_nodes float_of_str topic_model top_count s dm) = None).
Proof.
  intros Hdm Hs Ht.
  destruct (doc_members_count _ _ _ t Hdm) as [Hlen Hkeys].
  unfold summary_of in Hs. fold (rows_of topic_info) in Hs.
  pose proof (@info_loop_size float_of_str dm (rows_of topic_info) _ s t Hs) as Hsize.
  simpl in Hsize. split.
  - intros Hpresent.
    assert (Hin : In t (leaf_topic_ids s dm)).
    { apply leaf_topic_ids_In. split; [exact Ht | ].
      destruct Hpresent as [Hr | Hm].
      - left. apply zget_keys. rewrite Hsize.
        destruct (reported_count (rows_of topic_info) t); [eauto | congruence].
      - right. apply Hkeys. exact Hm. }
    exists (leaf_node float_of_str topic_model top_count s dm t).
    rewrite leaf_nodes_get. apply zmem_In in Hin. rewrite Hin.
    split; [reflexivity | ]. split; [reflexivity | ].
    unfold leaf_node. simpl. split; [exact Hlen | ].
    rewrite Hsize, Hlen.
    destruct (reported_count (rows_of topic_info) t); [lia | reflexivity].
  - intros Hr Hm. rewrite leaf_nodes_get.
    destruct (zmem t (leaf_topic_ids s dm)) eqn:E; [ | reflexivity].
    exfalso. apply zmem_In in E. apply leaf_topic_ids_In in E.
    destruct E as [_ [E | E]].
    + apply zget_keys in E. destruct E as [v Hv].
      rewrite Hsize, Hr in Hv. discriminate.
    + apply Hkeys in E. lia.
Qed.

Lemma leaf_size_is_max_witness :
  (exists n,
      zget 0 (leaf_nodes no_float_of_str no_topic_terms 10
                {| size_by_topic := [(0, 5)]; prob_by_topic := [];
                   label_by_topic := [(5, "cardio"%string)] |}
                [(0, [{| doc_id := 2; weight := None |}; {| doc_id := 3; weight := None |}]);
                 (1, [{| doc_id := 4; weight := None |}])]) = Some n
      /\ topic_id n = 0 /\ len (docs n) = 2 /\ size n = 5)
  /\ zget 5 (leaf_nodes no_float_of_str no_topic_terms 10
               {| size_by_topic := [(0, 5)]; prob_by_topic := [];
                  label_by_topic := [(5, "cardio"%string)] |}
               [(0, [{| doc_id := 2; weight := None |}; {| doc_id := 3; weight := None |}]);
                (1, [{| doc_id := 4; weight := None |}])]) = None.
Proof.
  split.
  - apply (proj1 (@leaf_size_is_max no_float_of_str no_topic_terms 10
                    (Some (generous_info ++ uncounted_info)%list)
                    scenario_topics None scenario_doc_ids _ _ 0
                    eq_refl eq_refl ltac:(discriminate))).
    right. reflexivity.
  - apply (proj2 (@leaf_size_is_max no_float_of_str no_topic_terms 10
                    (Some (generous_info ++ uncounted_info)%list)
                    scenario_topics None scenario_doc_ids _ _ 5
                    eq_refl eq_refl ltac:(discriminate))); reflexivity.
Defined.

(** ** Invariants of the walk *)

(** When the f-strings do not fail, the guarded steps are the plain ones. *)
Lemma mark_child_at_Ok node_id lvl c ns ns1 :
  mark_child_at node_id lvl c ns = Ok ns1 -> ns1 = mark_child node_id lvl c ns.
Proof.
  unfold mark_child_at. intros H. apply bind_Ok in H. destruct H as [l [_ H]].
  inversion H. reflexivity.
Qed.

Lemma relabel_at_Ok pl k n n' :
  relabel_at pl k n = Ok n' -> n' = relabel pl k n.
Proof.
  unfold relabel_at. intros H. apply bind_Ok in H. destruct H as [l [_ H]].
  inversion H. reflexivity.
Qed.

Lemma leaf_loop_Ok float_of_str topic_model top_count s dm ids : forall ns ns',
  leaf_loop float_of_str topic_model top_count s dm ids ns = Ok ns' ->
  ns' = fold_left (fun acc t => zset t (leaf_node float_of_str topic_model top_count s dm t) acc)
                  ids ns.
Proof.
  induction ids as [ | t ids IH]; simpl; intros ns ns' H.
  - inversion H. reflexivity.
  - apply bind_Ok in H. destruct H as [l [_ H]]. apply IH. exact H.
Qed.

Lemma parent_loop_Ok pl ps : forall ns ns',
  parent_loop pl ps ns = Ok ns' -> ns' = fold_left (add_parent pl) ps ns.
Proof.
  induction ps as [ | p ps IH]; simpl; intros ns ns' H.
  - inversion H. reflexivity.
  - apply bind_Ok in H. destruct H as [l [_ H]]. apply IH. exact H.
Qed.

(** One turn of the loop over the children. *)
Lemma walk_children_cons rec node_id lvl c rest total st r st' :
  walk_children rec node_id lvl (c :: rest) total st = Ok (r, st') ->
  exists cs st2,
    rec c (lvl + 1) {| nodes := mark_child node_id lvl c (nodes st);
                       visited := visited st |} = Ok (cs, st2)
    /\ walk_children rec node_id lvl rest (total + Z.max cs 0) st2 = Ok (r, st').
Proof.
  cbn [walk_children]. intros H.
  apply bind_Ok in H. destruct H as [ns1 [Hm H]].
  apply mark_child_at_Ok in Hm. subst ns1.
  apply bind_Ok in H. destruct H as [[cs st2] [Hc H]].
  exists cs, st2. split; assumption.
Qed.

Ltac mark_ok H :=
  let ns1 := fresh "ns1" in
  let Hm := fresh "Hm" in
  apply bind_Ok in H; destruct H as [ns1 [Hm H]];
  apply mark_child_at_Ok in Hm; subst ns1.

Ltac relabel_ok H :=
  let n3 := fresh "n3" in
  let Hl := fresh "Hl" in
  apply bind_Ok in H; destruct H as [n3 [Hl H]];
  apply relabel_at_Ok in Hl; subst n3.

Lemma dict_all_zset Q k n ns :
  dict_all Q ns -> Q k n -> dict_all Q (zset k n ns).
Proof.
  intros Hns Hn k' n' H. rewrite zget_zset in H.
  destruct (k' =? k) eqn:E.
  - apply Z.eqb_eq in E. inversion H. subst. exact Hn.
  - apply Hns. exact H.
Qed.

Lemma relabel_step g top_count k n : node_step g top_count k n (relabel (parent_labels g) k n).
Proof.
  unfold relabel.
  assert (Hd : node_step g top_count k n
                 (if String.eqb (label n) "" || starts_with_Topic (label n)
                  then match filter (fun s => negb (String.eqb s ""))
                                    (map term (firstn 4 (terms n))) with
                       | [] => set_label (topic_label k) n
                       | _ :: _ => set_label (join_space
                                      (filter (fun s => negb (String.eqb s ""))
                                              (map term (firstn 4 (terms n))))) n
                       end
                  else n)).
  { destruct (_ || _); [ | constructor].
    destruct (filter _ _); apply step_label. }
  destruct (zget k (parent_labels g)) as [lo | ]; [ | exact Hd].
  destruct (String.eqb lo ""); [exact Hd | apply step_label].
Qed.

Lemma walk_children_total_ge rec node_id lvl children : forall total st r st',
  walk_children rec node_id lvl children total st = Ok (r, st') -> total <= r.
Proof.
  induction children as [ | c rest IH]; simpl; intros total st r st' H.
  - inversion H. lia.
  - mark_ok H. apply bind_Ok in H. destruct H as [[cs st2] [_ H]].
    apply IH in H. lia.
Qed.

Section WalkInvariant.
Variable g : merge_graph.
Variable top_count : Z.
Variable P : dict Z node -> Prop.

Hypothesis P_new : forall ns k parent lvl lbl,
  P ns -> zget k ns = None -> parent_ok g k parent ->
  P (zset k (stub k parent lvl lbl) ns).
Hypothesis P_step : forall ns k n n',
  P ns -> zget k ns = Some n -> node_step g top_count k n n' ->
  P (zset k n' ns).

Lemma mark_child_inv node_id lvl c ns :
  In c (get_list node_id (parent_children g)) ->
  P ns -> P (mark_child node_id lvl c ns).
Proof.
  intros Hc Hns. unfold mark_child.
  assert (Hp : parent_ok g c (Some node_id)).
  { intros p Hp. inversion Hp. subst. exact Hc. }
  destruct (zget c ns) as [n | ] eqn:E.
  - eapply P_step; eauto. apply step_parent. exact Hp.
  - apply P_new; assumption.
Qed.

Lemma walk_children_inv rec node_id lvl :
  (forall c l st r st', P (nodes st) -> rec c l st = Ok (r, st') -> P (nodes st')) ->
  forall children total st r st',
    (forall c, In c children -> In c (get_list node_id (parent_children g))) ->
    P (nodes st) ->
    walk_children rec node_id lvl children total st = Ok (r, st') ->
    P (nodes st').
Proof.
  intros Hrec. induction children as [ | c rest IH]; simpl; intros total st r st' Hin Hst H.
  - inversion H. subst. exact Hst.
  - mark_ok H. apply bind_Ok in H. destruct H as [[cs st2] [Hc H]].
    eapply IH; [ | | exact H]; [auto | ].
    eapply Hrec; [ | exact Hc]. simpl.
    apply mark_child_inv; auto.
Qed.

Lemma finish_node_inv node_id children total ns r ns' :
  0 <= total ->
  P ns ->
  finish_node g top_count node_id children total ns = Ok (r, ns') ->
  P ns'.
Proof.
  intros Htot Hns H. unfold finish_node in H.
  destruct (zget node_id ns) as [n | ] eqn:En; [ | discriminate].
  set (n1 := if is_nil (docs n) then set_size total n else n) in *.
  assert (Hn1 : node_step g top_count node_id n n1).
  { unfold n1. destruct (docs n) eqn:Ed; simpl; [ | constructor].
    apply step_size; assumption. }
  apply bind_Ok in H. destruct H as [n2 [H2 H]].
  assert (Hn2 : node_step g top_count node_id n1 n2).
  { destruct (terms n1) eqn:Et; simpl in H2.
    - apply bind_Ok in H2. destruct H2 as [ts [Hts H2]]. inversion H2. subst n2.
      eapply step_terms; eauto.
    - inversion H2. subst. constructor. }
  relabel_ok H. inversion H. subst. clear H.
  eapply P_step; [eapply P_step; [exact Hns | exact En | exact Hn1] | apply zget_zset_eq | ].
  eapply step_trans; [exact Hn2 | apply relabel_step].
Qed.

Lemma walk_inv fuel : forall node_id lvl st r st',
  P (nodes st) ->
  walk g top_count fuel node_id lvl st = Ok (r, st') ->
  P (nodes st').
Proof.
  induction fuel as [ | fuel IH]; simpl; intros node_id lvl st r st' Hst H;
    [discriminate | ].
  destruct (zmem node_id (visited st)).
  - destruct (zget node_id (nodes st)); [ | discriminate].
    inversion H. subst. exact Hst.
  - destruct (zget node_id (nodes st)) as [n | ] eqn:En; [ | discriminate].
    assert (H1 : P (zset node_id (set_level lvl n) (nodes st))).
    { eapply P_step; [exact Hst | exact En | apply step_level]. }
    destruct (get_list node_id (parent_children g)) as [ | c kids] eqn:Ek.
    + inversion H. subst. exact H1.
    + apply bind_Ok in H. destruct H as [[total st2] [Hw H]].
      apply bind_Ok in H. destruct H as [[sz ns3] [Hf H]].
      inversion H. subst. clear H. simpl.
      eapply finish_node_inv; [ | | exact Hf].
      * apply walk_children_total_ge in Hw. exact Hw.
      * eapply walk_children_inv; [ | | | exact Hw]; simpl.
        -- intros c0 l0 st0 r0 st0' Hq Hr. eapply IH; eauto.
        -- rewrite Ek. auto.
        -- exact H1.
Qed.

Lemma walk_roots_inv rts : forall st st',
  P (nodes st) ->
  walk_roots g top_count rts st = Ok st' ->
  P (nodes st').
Proof.
  induction rts as [ | root rts IH]; cbn [walk_roots]; intros st st' Hst H.
  - inversion H. subst. exact Hst.
  - destruct (zget root (nodes st)) as [n | ] eqn:En; [ | eauto].
    apply bind_Ok in H. destruct H as [[r st2] [Hw H]].
    eapply IH; [ | exact H].
    eapply walk_inv; [ | exact Hw]. cbn [nodes].
    eapply P_step; [exact Hst | exact En | ].
    apply step_parent. intros p Hp. discriminate.
Qed.

Lemma walk_all_inv ids : forall st st',
  P (nodes st) ->
  walk_all g top_count ids st = Ok st' ->
  P (nodes st').
Proof.
  induction ids as [ | i ids IH]; cbn [walk_all]; intros st st' Hst H.
  - inversion H. subst. exact Hst.
  - destruct (zmem i (visited st)); [eauto | ].
    apply bind_Ok in H. destruct H as [[r st2] [Hw H]].
    eapply IH; [ | exact H]. eapply walk_inv; eauto.
Qed.

Lemma run_walks_inv rts ns st' :
  P ns ->
  run_walks g top_count rts ns = Ok st' ->
  P (nodes st').
Proof.
  unfold run_walks. intros Hns H. destruct rts.
  - eapply walk_all_inv; [ | exact H]. exact Hns.
  - eapply walk_roots_inv; [ | exact H]. exact Hns.
Qed.
End WalkInvariant.

(** The keys of the node store stay distinct. *)
Lemma run_walks_NoDup g top_count rts ns st' :
  NoDup (dkeys ns) ->
  run_walks g top_count rts ns = Ok st' ->
  NoDup (dkeys (nodes st')).
Proof.
  apply (@run_walks_inv g top_count (fun ns => NoDup (dkeys ns))).
  - intros. apply dkeys_zset_NoDup. assumption.
  - intros. apply dkeys_zset_NoDup. assumption.
Qed.

(** A property of single nodes that every step of the walk keeps holds
    for the whole store after the walks. *)
Lemma run_walks_nodes g top_count (Q : Z -> node -> Prop) rts ns st' :
  (forall k parent lvl lbl, parent_ok g k parent -> Q k (stub k parent lvl lbl)) ->
  (forall k n n', node_step g top_count k n n' -> Q k n -> Q k n') ->
  dict_all Q ns ->
  run_walks g top_count rts ns = Ok st' ->
  dict_all Q (nodes st').
Proof.
  intros Hstub Hstep.
  apply (@run_walks_inv g top_count (dict_all Q)).
  - intros ns0 k parent lvl lbl Hns _ Hp. apply dict_all_zset; auto.
  - intros ns0 k n n' Hns Hk Hs. apply dict_all_zset; [exact Hns | ].
    eapply Hstep; [exact Hs | ]. apply Hns. exact Hk.
Qed.

(** The output is a listing of the node store. *)
Lemma output_nodes (ns : dict Z node) (Q : Z -> node -> Prop) n :
  NoDup (dkeys ns) -> dict_all Q ns ->
  In n (stable_sort node_before (dvalues ns)) ->
  exists k, zget k ns = Some n /\ Q k n.
Proof.
  intros Hnd Hall Hin. apply stable_sort_In in Hin.
  apply In_dvalues in Hin. destruct Hin as [k Hin].
  exists k. assert (Hk : zget k ns = Some n) by (apply In_zget; assumption).
  split; [exact Hk | apply Hall; exact Hk].
Qed.

(** ** The node store before the walks *)

Lemma fold_zset_NoDup {V} (f : Z -> V) (ids : list Z) : forall ns : dict Z V,
  NoDup (dkeys ns) ->
  NoDup (dkeys (fold_left (fun ns t => zset t (f t) ns) ids ns)).
Proof.
  induction ids as [ | i ids IH]; simpl; intros ns H; [exact H | ].
  apply IH. apply dkeys_zset_NoDup. exact H.
Qed.

Section PrepareFacts.
Variable float_of_str : string -> option float.
Variable topic_model : Z -> list term_entry.
Variable top_count : Z.
Variable s : summary.
Variable dm : dict Z (list doc_rec).
Variable g : merge_graph.

Lemma leaf_nodes_NoDup :
  NoDup (dkeys (leaf_nodes float_of_str topic_model top_count s dm)).
Proof. unfold leaf_nodes. apply fold_zset_NoDup. constructor. Qed.

Lemma leaf_nodes_all (Q : Z -> node -> Prop) :
  (forall t, In t (leaf_topic_ids s dm) ->
             Q t (leaf_node float_of_str topic_model top_count s dm t)) ->
  dict_all Q (leaf_nodes float_of_str topic_model top_count s dm).
Proof.
  intros H k n Hk. rewrite leaf_nodes_get in Hk.
  destruct (zmem k (leaf_topic_ids s dm)) eqn:E; [ | discriminate].
  inversion Hk. subst. apply H. apply zmem_In. exact E.
Qed.

Lemma add_parent_NoDup pl ns p :
  NoDup (dkeys ns) -> NoDup (dkeys (add_parent pl ns p)).
Proof.
  intros H. unfold add_parent.
  destruct (zget p ns); apply dkeys_zset_NoDup; exact H.
Qed.

Lemma add_parents_NoDup ns :
  NoDup (dkeys ns) -> NoDup (dkeys (add_parents g ns)).
Proof.
  unfold add_parents. generalize (dkeys (parent_children g)). intros keys.
  revert ns. induction keys as [ | k keys IH]; simpl; intros ns H; [exact H | ].
  apply IH. apply add_parent_NoDup. exact H.
Qed.

Section PerNode.
Variable Q : Z -> node -> Prop.
Hypothesis Q_stub : forall k lbl, Q k (stub k None 0 lbl).
Hypothesis Q_label : forall k n l, Q k n -> Q k (set_label l n).
Hypothesis Q_docs : forall k n, Q k n -> Q k (set_docs [] n).

Lemma add_parent_all pl ns p : dict_all Q ns -> dict_all Q (add_parent pl ns p).
Proof.
  intros H. unfold add_parent. destruct (zget p ns) as [n | ] eqn:E.
  - apply dict_all_zset; [exact H | ].
    assert (Hn : Q p n) by (apply H; exact E).
    assert (Hn1 : Q p (match zget p pl with
                       | Some l => if String.eqb l "" then n else set_label l n
                       | None => n
                       end)).
    { destruct (zget p pl) as [l | ]; [ | exact Hn].
      destruct (String.eqb l ""); auto. }
    destruct (is_nil _); auto.
  - apply dict_all_zset; auto.
Qed.

Lemma add_parents_all ns : dict_all Q ns -> dict_all Q (add_parents g ns).
Proof.
  unfold add_parents. generalize (dkeys (parent_children g)). intros keys.
  revert ns. induction keys as [ | k keys IH]; simpl; intros ns H; [exact H | ].
  apply IH. apply add_parent_all. exact H.
Qed.
End PerNode.

Lemma add_parent_clears pl ns p : docs_cleared (add_parent pl ns p) p.
Proof.
  unfold add_parent, docs_cleared. destruct (zget p ns) as [n | ].
  - rewrite zget_zset_eq. eexists. split; [reflexivity | ].
    destruct (is_nil _) eqn:E; [ | reflexivity].
    destruct (docs _); [reflexivity | discriminate].
  - rewrite zget_zset_eq. eexists. split; reflexivity.
Qed.

Lemma add_parent_keeps pl ns p q :
  docs_cleared ns q -> docs_cleared (add_parent pl ns p) q.
Proof.
  intros H. destruct (Z.eq_dec q p) as [-> | Hne]; [apply add_parent_clears | ].
  unfold add_parent. destruct H as [n [Hn Hd]].
  exists n. split; [ | exact Hd].
  destruct (zget p ns); rewrite zget_zset_neq; assumption.
Qed.

Lemma add_parents_clear ns p :
  In p (dkeys (parent_children g)) -> docs_cleared (add_parents g ns) p.
Proof.
  unfold add_parents. generalize (dkeys (parent_children g)). intros keys.
  revert ns. induction keys as [ | k keys IH]; simpl; intros ns H; [contradiction | ].
  destruct H as [-> | H]; [ | auto].
  clear IH. generalize (add_parent_clears (parent_labels g) ns p).
  generalize (add_parent (parent_labels g) ns p). clear ns.
  induction keys as [ | k keys IH]; simpl; intros ns H; [exact H | ].
  apply IH. apply add_parent_keeps. exact H.
Qed.
End PrepareFacts.

(** The stages of a run that returns. *)
Lemma build_stages float_of_str slot topic_model topic_info hierarchy_df topics
      probabilities doc_ids top_terms hierarchy_conf out st :
  build_topic_tree float_of_str slot topic_model topic_info hierarchy_df topics
                   probabilities doc_ids top_terms hierarchy_conf = Ok (out, st) ->
  exists dm s g st',
    doc_members_of topics probabilities doc_ids = Ok dm
    /\ summary_of float_of_str dm topic_info = Ok s
    /\ merge_graph_of float_of_str (max_distance_of float_of_str hierarchy_conf)
                      hierarchy_df = Ok g
    /\ run_walks g (top_count_of top_terms) (roots_of slot g)
                 (add_parents g (leaf_nodes float_of_str topic_model
                                            (top_count_of top_terms) s dm)) = Ok st'
    /\ out = stable_sort node_before (dvalues (nodes st'))
    /\ st = stats_of g (roots_of slot g) out.
Proof.
  unfold build_topic_tree, prepare. intros H.
  apply bind_Ok in H. destruct H as [p [Hp H]].
  apply bind_Ok in Hp. destruct Hp as [dm [Hdm Hp]].
  apply bind_Ok in Hp. destruct Hp as [s [Hs Hp]].
  apply bind_Ok in Hp. destruct Hp as [ns [Hns Hp]].
  apply leaf_loop_Ok in Hns. fold (leaf_nodes float_of_str topic_model (top_count_of top_terms) s dm) in Hns.
  subst ns.
  apply bind_Ok in Hp. destruct Hp as [g [Hg Hp]].
  apply bind_Ok in Hp. destruct Hp as [ns' [Hns' Hp]].
  apply parent_loop_Ok in Hns'.
  fold (add_parents g (leaf_nodes float_of_str topic_model (top_count_of top_terms) s dm)) in Hns'.
  subst ns'.
  inversion Hp. subst p. clear Hp. cbn [p_graph p_top_count p_roots p_nodes] in H.
  apply bind_Ok in H. destruct H as [st' [Hw H]].
  inversion H. subst. exists dm, s, g, st'. repeat split; assumption.
Qed.

(** ** Parent links *)

Lemma node_step_linked g top_count k n n' :
  node_step g top_count k n n' -> linked g k n -> linked g k n'.
Proof.
  unfold linked. induction 1; intros [Hid Hp]; simpl; auto.
Qed.

Lemma output_topic_ids (ns : dict Z node) :
  NoDup (dkeys ns) -> dict_all (fun k n => topic_id n = k) ns ->
  NoDup (map topic_id (stable_sort node_before (dvalues ns))).
Proof.
  intros Hnd Hall.
  apply (@Permutation_NoDup _ (map topic_id (dvalues ns))).
  - apply Permutation_map. apply stable_sort_perm.
  - assert (Heq : map topic_id (dvalues ns) = dkeys ns).
    { unfold dvalues, dkeys. rewrite map_map. apply map_ext_in.
      intros [k n] Hin. simpl. apply Hall. apply In_zget; assumption. }
    rewrite Heq. exact Hnd.
Qed.

(** Every topic id is emitted once, so a node carries one parent link at
    most, and a link points to a parent that lists the node in the
    adjacency. *)
Lemma parent_links_follow_adjacency (float_of_str : string -> option float)
      (slot : Z -> Z) (topic_model : Z -> list term_entry)
      (topic_info : option (list info_row)) (hierarchy_df : option (list hier_row))
      (topics : option (list pyval))
      (probabilities : option (list (option (list float)))) (doc_ids : list Z)
      (top_terms : pyval) (hierarchy_conf : option hier_conf)
      (out : list node) (st : stats_rec) (g : merge_graph) :
  build_topic_tree float_of_str slot topic_model topic_info hierarchy_df topics
                   probabilities doc_ids top_terms hierarchy_conf = Ok (out, st) ->
  merge_graph_of float_of_str (max_distance_of float_of_str hierarchy_conf)
                 hierarchy_df = Ok g ->
  NoDup (map topic_id out)
  /\ (forall n p, In n out -> parent_id n = Some p ->
                  In (topic_id n) (get_list p (parent_children g))).
Proof.
  intros Hb Hg.
  apply build_stages in Hb.
  destruct Hb as [dm [s [g' [st' [Hdm [Hs [Hg' [Hw [Hout _]]]]]]]]].
  rewrite Hg in Hg'. inversion Hg'. subst g'. clear Hg'.
  assert (Hnd : NoDup (dkeys (nodes st'))).
  { eapply run_walks_NoDup; [ | exact Hw].
    apply add_parents_NoDup, leaf_nodes_NoDup. }
  assert (Hall : dict_all (linked g) (nodes st')).
  { eapply run_walks_nodes; [ | | | exact Hw].
    - intros k parent lvl lbl Hp. split; [reflexivity | exact Hp].
    - intros k n n'. apply node_step_linked.
    - apply add_parents_all.
      + intros k lbl. split; [reflexivity | intros p Hp; discriminate].
      + intros k n l H. exact H.
      + intros k n H. exact H.
      + apply leaf_nodes_all. intros t _.
        split; [reflexivity | intros p Hp; discriminate]. }
  subst out. split.
  - apply output_topic_ids; [exact Hnd | ].
    intros k n Hk. apply (Hall k n Hk).
  - intros n p Hin Hp.
    destruct (@output_nodes _ (linked g) n Hnd Hall Hin) as [k [_ [Hid Hpar]]].
    rewrite Hid. apply Hpar. exact Hp.
Qed.

(** C8 (defect): [walk] writes the parent link of a child that already has
    a node before it calls itself on the child (line 641), and the guard
    on [visited] is the first thing that call checks (line 610). For a child
    listed under two parents the link is therefore overwritten by every
    parent that reaches it, while the level stays the one of its first
    walk. Topic 0 is first seen under parent 4, in the first row of the
    table and as the first child the walk of 4 visits, and gets level 1
    there; the walk of 3 then makes 3 its parent. The emitted node 0 names
    3 as its parent, not the first-seen 4, and sits on the level of 3
    itself. *)
Theorem shared_child_takes_last_parent :
  exists out st n0 n3 n4,
    build_topic_tree no_float_of_str slot_id no_topic_terms
      None (Some shared_child_merge) (Some [VInt 0; VInt 1]) None [1; 2]
      (VInt 10) None = Ok (out, st)
    /\ find_node out 0 = Some n0
    /\ find_node out 3 = Some n3
    /\ find_node out 4 = Some n4
    /\ first_seen_parent shared_child_merge 0 = Some 4
    /\ parent_id n0 = Some 3
    /\ parent_id n3 = Some 4
    /\ level n4 = 0 /\ level n3 = 1 /\ level n0 = 1.
Proof.
  do 5 eexists. split; [vm_compute; reflexivity | ].
  split; [vm_compute; reflexivity | ].
  split; [vm_compute; reflexivity | ].
  split; [vm_compute; reflexivity | ].
  repeat split; reflexivity.
Qed.

(** ** Terms *)

Lemma SFcompare_antisym (x y : float) :
  SFcompare y x = match SFcompare x y with
                  | Some c => Some (CompOpp c)
                  | None => None
                  end.
Proof.
  destruct x as [sx | sx | | sx mx ex], y as [sy | sy | | sy my ey]; simpl;
    try reflexivity;
    try (destruct sx; reflexivity); try (destruct sy; reflexivity);
    try (destruct sx, sy; reflexivity).
  destruct sx, sy; simpl; try reflexivity.
  - rewrite (Z.compare_antisym ex ey). destruct (ex ?= ey); simpl; try reflexivity.
    rewrite (Pos.compare_cont_antisym mx my Eq). reflexivity.
  - rewrite (Z.compare_antisym ex ey). destruct (ex ?= ey); simpl; try reflexivity.
    rewrite (Pos.compare_cont_antisym mx my Eq). reflexivity.
Qed.

Lemma flt_asym (x y : float) : flt x y = true -> flt y x = false.
Proof.
  unfold flt, SFltb. rewrite (SFcompare_antisym x y).
  destruct (SFcompare x y) as [[ | | ] | ]; simpl; congruence.
Qed.

Lemma flt_false_fle (x y : float) :
  is_nan x = false -> is_nan y = false -> flt x y = false -> fle y x = true.
Proof.
  unfold flt, fle, SFltb, SFleb. rewrite (SFcompare_antisym x y).
  destruct (SFcompare x y) as [[ | | ] | ] eqn:E; simpl; try congruence.
  destruct x, y; simpl in *; try discriminate; destruct s; discriminate.
Qed.

Lemma fle_zero : fle fzero fzero = true.
Proof. reflexivity. Qed.

Lemma top_count_pos top_terms : 1 <= top_count_of top_terms.
Proof.
  unfold top_count_of. destruct (py_int top_terms) as [n | e].
  - destruct (n <=? 0) eqn:E; [lia | apply Z.leb_gt in E; lia].
  - simpl. lia.
Qed.

Lemma ranks_seq_above r l lo : lo < r -> ranks_seq r l -> ranks_above lo l.
Proof.
  revert r lo. induction l as [ | t l IH]; simpl; intros r lo Hlo H; [exact I | ].
  destruct H as [Hr H]. split; [lia | ].
  apply (IH (r + 1)); [lia | exact H].
Qed.

Lemma ranks_above_app lo acc t :
  ranks_above lo acc -> lo < rank t -> (forall a, In a acc -> rank a < rank t) ->
  ranks_above lo (acc ++ [t]).
Proof.
  revert lo. induction acc as [ | a acc IH]; simpl; intros lo H Hlo Hall.
  - auto.
  - destruct H as [Ha H]. split; [exact Ha | ].
    apply IH; [exact H | apply Hall; auto | intros b Hb; apply Hall; auto].
Qed.

Section RankedFacts.
Variable A : Type.
Variable mk : A -> Z -> term_rec.
Hypothesis mk_rank : forall x rk, rank (mk x rk) = rk.

Lemma ranked_length l : forall r, List.length (ranked mk r l) = List.length l.
Proof. induction l as [ | x l IH]; simpl; intros r; [reflexivity | rewrite IH; reflexivity]. Qed.

Lemma ranked_seq l : forall r, ranks_seq r (ranked mk r l).
Proof.
  induction l as [ | x l IH]; simpl; intros r; [exact I | ].
  split; [apply mk_rank | apply IH].
Qed.

Lemma ranked_nth l : forall r i t,
  nth_error (ranked mk r l) i = Some t ->
  exists x, nth_error l i = Some x /\ t = mk x (r + Z.of_nat i).
Proof.
  induction l as [ | x l IH]; simpl; intros r i t H.
  - destruct i; discriminate.
  - destruct i as [ | i]; simpl in *.
    + inversion H. exists x. split; [reflexivity | ]. f_equal. lia.
    + apply IH in H. destruct H as [y [Hy Ht]]. exists y. split; [exact Hy | ].
      rewrite Ht. f_equal. lia.
Qed.

Lemma ranked_In l : forall r t, In t (ranked mk r l) -> exists x rk, In x l /\ t = mk x rk.
Proof.
  induction l as [ | x l IH]; simpl; intros r t H; [contradiction | ].
  destruct H as [<- | H].
  - exists x, r. auto.
  - apply IH in H. destruct H as [y [rk [Hy Ht]]]. exists y, rk. auto.
Qed.

Lemma In_ranked l : forall r x, In x l -> exists rk, In (mk x rk) (ranked mk r l).
Proof.
  induction l as [ | y l IH]; simpl; intros r x H; [contradiction | ].
  destruct H as [-> | H].
  - exists r. auto.
  - destruct (IH (r + 1) x H) as [rk Hrk]. exists rk. auto.
Qed.
End RankedFacts.

Lemma firstn_nth {A} (l : list A) : forall n i a,
  nth_error (firstn n l) i = Some a -> nth_error l i = Some a.
Proof.
  induction l as [ | x l IH]; intros n i a H.
  - rewrite firstn_nil in H. destruct i; discriminate.
  - destruct n as [ | n]; [destruct i; discriminate | ].
    destruct i as [ | i]; simpl in *; [exact H | eauto].
Qed.

Lemma firstn_In {A} (l : list A) n a : In a (firstn n l) -> In a l.
Proof.
  revert n. induction l as [ | x l IH]; intros n H.
  - rewrite firstn_nil in H. exact H.
  - destruct n; simpl in H; [contradiction | ]. destruct H; [left | right]; eauto.
Qed.

Lemma len_firstn_le {A} (l : list A) top : 0 <= top -> len (firstn (Z.to_nat top) l) <= top.
Proof. intros H. unfold len. rewrite length_firstn. lia. Qed.

(** *** Terms of the topic model *)

Section ModelTerms.
Variable float_of_str : string -> option float.
Variable top_count : Z.

Lemma model_terms_len l : forall rk acc,
  len acc < top_count ->
  len (model_terms float_of_str top_count rk l acc) <= top_count.
Proof.
  induction l as [ | e l IH]; simpl; intros rk acc H; [lia | ].
  destruct e as [w sc | ].
  - destruct (String.eqb (strip w) ""); [auto | ].
    match goal with |- context [top_count <=? len ?a] => destruct (top_count <=? len a) eqn:E end.
    + rewrite len_app. unfold len at 2. simpl. lia.
    + apply IH. apply Z.leb_gt in E. exact E.
  - destruct (top_count <=? len acc); [lia | auto].
Qed.

Lemma model_terms_ranks l : forall rk acc,
  0 < rk -> ranks_above 0 acc -> (forall a, In a acc -> rank a < rk) ->
  ranks_above 0 (model_terms float_of_str top_count rk l acc).
Proof.
  induction l as [ | e l IH]; simpl; intros rk acc Hrk Hacc Hlt; [exact Hacc | ].
  assert (Hnext : forall a, In a acc -> rank a < rk + 1).
  { intros a Ha. specialize (Hlt a Ha). lia. }
  destruct e as [w sc | ].
  - destruct (String.eqb (strip w) ""); [apply IH; auto; lia | ].
    match goal with |- context [top_count <=? len ?a] => set (acc' := a) end.
    assert (Hacc' : ranks_above 0 acc').
    { apply ranks_above_app; simpl; auto. }
    destruct (top_count <=? len acc'); [exact Hacc' | ].
    apply IH; [lia | exact Hacc' | ].
    intros a Ha. apply in_app_iff in Ha. destruct Ha as [Ha | [<- | []]]; simpl; auto.
    lia.
  - destruct (top_count <=? len acc); [exact Hacc | ].
    apply IH; auto. lia.
Qed.
End ModelTerms.

(** *** Label tokens and aggregated terms *)

Lemma fallback_terms_computed top_count label_val :
  computed_terms (fallback_terms top_count label_val).
Proof.
  unfold fallback_terms, computed_terms. split.
  - apply ranked_seq. reflexivity.
  - intros _ i a b Ha Hb.
    apply ranked_nth in Ha. apply ranked_nth in Hb.
    destruct Ha as [x [_ ->]], Hb as [y [_ ->]]. simpl. apply fle_zero.
Qed.

Lemma fallback_terms_len top_count label_val :
  0 <= top_count -> len (fallback_terms top_count label_val) <= top_count.
Proof.
  intros H. unfold fallback_terms, len. rewrite ranked_length.
  apply len_firstn_le. exact H.
Qed.

Lemma aggregate_terms_computed top_count ns kids ts :
  aggregate_terms top_count ns kids = Ok ts -> computed_terms ts.
Proof.
  unfold aggregate_terms. intros H.
  apply bind_Ok in H. destruct H as [sm [_ H]]. inversion H. subst ts. clear H.
  split.
  - apply ranked_seq. reflexivity.
  - intros Hnan i a b Ha Hb.
    assert (Hna : is_nan (term_score a) = false).
    { apply Hnan. eapply nth_error_In. exact Ha. }
    assert (Hnb : is_nan (term_score b) = false).
    { apply Hnan. eapply nth_error_In. exact Hb. }
    apply ranked_nth in Ha. apply ranked_nth in Hb.
    destruct Ha as [x [Hx ->]], Hb as [y [Hy ->]]. simpl in Hna, Hnb |- *.
    apply firstn_nth in Hx. apply firstn_nth in Hy.
    apply flt_false_fle; try assumption.
    unfold sort_scores in Hx, Hy.
    apply (@stable_sort_no_inversion _ (fun y x : string * float => flt (snd x) (snd y))
             (fun u v => @flt_asym (snd v) (snd u)) sm i x y Hx Hy).
Qed.

Lemma aggregate_terms_len top_count ns kids ts :
  0 <= top_count -> aggregate_terms top_count ns kids = Ok ts -> len ts <= top_count.
Proof.
  unfold aggregate_terms. intros Htop H.
  apply bind_Ok in H. destruct H as [sm [_ H]]. inversion H. subst ts.
  unfold len. rewrite ranked_length. apply len_firstn_le. exact Htop.
Qed.

(** ** Sizes *)

Lemma size_at_zset ns k n v :
  size_at (zset k n ns) v = if v =? k then size n else size_at ns v.
Proof. unfold size_at. rewrite zget_zset. destruct (v =? k); reflexivity. Qed.

Lemma size_at_zset_same ns k n n' v :
  zget k ns = Some n -> size n' = size n ->
  size_at (zset k n' ns) v = size_at ns v.
Proof.
  intros Hk Hs. rewrite size_at_zset. destruct (v =? k) eqn:E; [ | reflexivity].
  apply Z.eqb_eq in E. subst. unfold size_at. rewrite Hk. exact Hs.
Qed.

Lemma mark_child_size node_id lvl c ns v :
  size_at (mark_child node_id lvl c ns) v = size_at ns v.
Proof.
  unfold mark_child. destruct (zget c ns) as [n | ] eqn:E.
  - eapply size_at_zset_same; [exact E | reflexivity].
  - rewrite size_at_zset. destruct (v =? c) eqn:Ev; [ | reflexivity].
    apply Z.eqb_eq in Ev. subst. unfold size_at. rewrite E. reflexivity.
Qed.

Lemma sum_sizes_ext ns ns' kids :
  (forall c, In c kids -> size_at ns' c = size_at ns c) ->
  sum_sizes ns' kids = sum_sizes ns kids.
Proof.
  induction kids as [ | c kids IH]; simpl; intros H; [reflexivity | ].
  rewrite (H c (or_introl eq_refl)), IH; [reflexivity | ]. intros; apply H; auto.
Qed.

Lemma node_step_docs g top_count k n n' :
  node_step g top_count k n n' -> docs n' = docs n.
Proof. induction 1; simpl; congruence. Qed.

Lemma complete_stable g st st' v :
  complete g st v -> In v (visited st) ->
  (forall u, In u (visited st) -> In u (visited st')) ->
  (forall u, In u (visited st) -> size_at (nodes st') u = size_at (nodes st) u) ->
  complete g st' v.
Proof.
  intros Hc Hv Hmono Hsize Hk. destruct (Hc Hk) as [Hs Hkids]. split.
  - rewrite (Hsize v Hv), Hs. symmetry. apply sum_sizes_ext.
    intros c Hin. apply Hsize. apply Hkids. exact Hin.
  - intros c Hin. apply Hmono. apply Hkids. exact Hin.
Qed.

Lemma relabel_size pl k n : size (relabel pl k n) = size n.
Proof.
  unfold relabel.
  destruct (zget k pl) as [lo | ]; [destruct (String.eqb lo "") | ];
    try reflexivity;
    destruct (_ || _); try reflexivity; destruct (filter _ _); reflexivity.
Qed.

Section SizeFacts.
Variable g : merge_graph.
Variable top_count : Z.
Variable height : Z -> nat.
Hypothesis Hacyclic : acyclic_by g height.

Lemma parents_cleared_new ns k parent lvl lbl :
  parents_cleared g ns -> parents_cleared g (zset k (stub k parent lvl lbl) ns).
Proof. intros H. apply dict_all_zset; [exact H | ]. intros _. reflexivity. Qed.

Lemma parents_cleared_step ns k n n' :
  parents_cleared g ns -> zget k ns = Some n -> node_step g top_count k n n' ->
  parents_cleared g (zset k n' ns).
Proof.
  intros H Hk Hs. apply dict_all_zset; [exact H | ].
  intros Hkids. rewrite (node_step_docs Hs). apply (H k n Hk Hkids).
Qed.

Lemma mark_child_cleared node_id lvl c ns :
  parents_cleared g ns -> parents_cleared g (mark_child node_id lvl c ns).
Proof.
  intros H. unfold mark_child. destruct (zget c ns) as [n | ] eqn:E.
  - apply dict_all_zset; [exact H | ]. intros Hk. simpl. apply (H c n E Hk).
  - apply parents_cleared_new. exact H.
Qed.

Lemma walk_cleared fuel node_id lvl st r st' :
  parents_cleared g (nodes st) ->
  walk g top_count fuel node_id lvl st = Ok (r, st') ->
  parents_cleared g (nodes st').
Proof.
  apply (@walk_inv g top_count (parents_cleared g)).
  - intros ns k parent l lbl H _ _. apply parents_cleared_new. exact H.
  - intros ns k n n' H Hk Hs. eapply parents_cleared_step; eauto.
Qed.

(** The loop over the children, for a recursive call that keeps its
    promises. *)
Lemma walk_children_sizes rec node_id lvl :
  (forall c l st r st', parents_cleared g (nodes st) -> rec c l st = Ok (r, st') ->
                        parents_cleared g (nodes st')
                        /\ walk_post g height st c r st') ->
  forall kids total st r st',
    parents_cleared g (nodes st) ->
    walk_children rec node_id lvl kids total st = Ok (r, st') ->
    parents_cleared g (nodes st')
    /\ children_post g height st kids total r st'.
Proof.
  intros Hrec. induction kids as [ | c rest IH]; simpl; intros total st r st' Hpc H.
  - inversion H. subst. split; [exact Hpc | ].
    unfold children_post. simpl. repeat split; auto; try lia; try tauto.
  - mark_ok H. apply bind_Ok in H. destruct H as [[rc sta] [Hc H]].
    set (stm := {| nodes := mark_child node_id lvl c (nodes st);
                   visited := visited st |}) in *.
    assert (Hpcm : parents_cleared g (nodes stm)) by (apply mark_child_cleared; exact Hpc).
    destruct (Hrec _ _ _ _ _ Hpcm Hc) as [Hpca [A1 [A2 [A3 [A4 [A5 A6]]]]]].
    destruct (IH _ _ _ _ Hpca H) as [Hpc' [B1 [B2 [B3 [B4 [B5 B6]]]]]].
    split; [exact Hpc' | ]. unfold children_post. simpl in A1, A3, A5, A6.
    assert (Hc' : In c (visited st')) by auto.
    refine (conj _ (conj _ (conj _ (conj _ (conj _ _))))).
    + intros v Hv. auto.
    + intros c0 [<- | Hc0]; auto.
    + intros v Hv. rewrite (B3 v (A1 v Hv)), (A3 v Hv). apply mark_child_size.
    + rewrite B4, A4.
      change (sum_sizes (nodes st') (c :: rest))
        with (Z.max (size_at (nodes st') c) 0 + sum_sizes (nodes st') rest).
      rewrite (B3 c A2). lia.
    + intros v Hv. destruct (B5 v Hv) as [Hva | [c0 [Hc0 Hh]]].
      * destruct (A5 v Hva) as [Hvs | Hh]; [left; exact Hvs | ].
        right. exists c. split; [left; reflexivity | exact Hh].
      * right. exists c0. split; [right; exact Hc0 | exact Hh].
    + intros v Hv Hnv.
      destruct (in_dec Z.eq_dec v (visited sta)) as [Hva | Hnva].
      * apply (complete_stable (st := sta)); auto.
      * apply B6; assumption.
Qed.

Lemma finish_node_sizes node_id kids total ns r ns' :
  parents_cleared g ns ->
  get_list node_id (parent_children g) <> [] ->
  finish_node g top_count node_id kids total ns = Ok (r, ns') ->
  r = total /\ forall v, size_at ns' v = if v =? node_id then total else size_at ns v.
Proof.
  intros Hpc Hk H. unfold finish_node in H.
  destruct (zget node_id ns) as [n | ] eqn:En; [ | discriminate].
  rewrite (Hpc node_id n En Hk) in H. cbn [is_nil] in H.
  apply bind_Ok in H. destruct H as [n2 [H2 H]].
  assert (Hs2 : size n2 = total).
  { destruct (is_nil (terms (set_size total n))).
    - apply bind_Ok in H2. destruct H2 as [ts [_ H2]]. inversion H2. reflexivity.
    - inversion H2. reflexivity. }
  assert (Hs3 : size (relabel (parent_labels g) node_id n2) = total).
  { rewrite relabel_size. exact Hs2. }
  relabel_ok H. inversion H. subst r ns'. clear H. split; [exact Hs3 | ].
  intros v. rewrite !size_at_zset. destruct (v =? node_id); [exact Hs3 | reflexivity].
Qed.
End SizeFacts.

Section WalkSizes.
Variable g : merge_graph.
Variable top_count : Z.
Variable height : Z -> nat.
Hypothesis Hacyclic : acyclic_by g height.

(** A call of [walk] keeps its promises, whatever the budget, when it
    returns. *)
Lemma walk_sizes fuel : forall node_id lvl st r st',
  parents_cleared g (nodes st) ->
  walk g top_count fuel node_id lvl st = Ok (r, st') ->
  walk_post g height st node_id r st'.
Proof.
  induction fuel as [ | fuel IH]; intros node_id lvl st r st' Hpc H;
    [discriminate | ].
  cbn [walk] in H.
  destruct (zmem node_id (visited st)) eqn:Evis.
  - destruct (zget node_id (nodes st)) as [n | ] eqn:En; [ | discriminate].
    inversion H. subst r st'. clear H. apply zmem_In in Evis.
    unfold walk_post.
    refine (conj _ (conj _ (conj _ (conj _ (conj _ _))))); auto.
    + unfold size_at. rewrite En. reflexivity.
    + intros v Hv Hnv. contradiction.
  - apply zmem_not_In in Evis.
    destruct (zget node_id (nodes st)) as [n | ] eqn:En; [ | discriminate].
    set (st1 := {| nodes := zset node_id (set_level lvl n) (nodes st);
                   visited := node_id :: visited st |}) in *.
    assert (Hsz1 : forall v, size_at (nodes st1) v = size_at (nodes st) v).
    { intros v. eapply size_at_zset_same; [exact En | reflexivity]. }
    assert (Hpc1 : parents_cleared g (nodes st1)).
    { eapply (@parents_cleared_step g top_count); [exact Hpc | exact En | apply step_level]. }
    destruct (get_list node_id (parent_children g)) as [ | c0 kids0] eqn:Ek.
    + inversion H. subst r st'. clear H. fold st1. unfold walk_post.
      refine (conj _ (conj _ (conj _ (conj _ (conj _ _))))).
      * intros v Hv. right. exact Hv.
      * left. reflexivity.
      * intros v _. apply Hsz1.
      * rewrite Hsz1. unfold size_at. rewrite En. reflexivity.
      * intros v [<- | Hv]; [right; lia | left; exact Hv].
      * intros v [<- | Hv] Hnv; [ | contradiction].
        intros Hk. rewrite Ek in Hk. congruence.
    + set (kids := c0 :: kids0) in *.
      apply bind_Ok in H. destruct H as [[total st2] [Hw H]].
      apply bind_Ok in H. destruct H as [[sz ns3] [Hf H]].
      inversion H. subst r st'. clear H.
      assert (Hrec : forall c l s0 r0 s0',
                 parents_cleared g (nodes s0) ->
                 walk g top_count fuel c l s0 = Ok (r0, s0') ->
                 parents_cleared g (nodes s0') /\ walk_post g height s0 c r0 s0').
      { intros c l s0 r0 s0' Hp0 Hw0. split; [ | eapply IH; eauto].
        eapply walk_cleared; eauto. }
      edestruct walk_children_sizes as [Hpc2 [B1 [B2 [B3 [B4 [B5 B6]]]]]];
        [exact Hrec | exact Hpc1 | exact Hw | ].
      assert (Hkne : get_list node_id (parent_children g) <> []).
      { rewrite Ek. discriminate. }
      edestruct finish_node_sizes as [Hsz Hsz3]; [exact Hpc2 | exact Hkne | exact Hf | ].
      assert (Hlow : forall c, In c kids -> c <> node_id).
      { intros c Hc Heq. rewrite <- Ek in Hc.
        apply Hacyclic in Hc. subst c. lia. }
      unfold walk_post. cbn [nodes visited].
      refine (conj _ (conj _ (conj _ (conj _ (conj _ _))))).
      * intros v Hv. apply B1. right. exact Hv.
      * apply B1. left. reflexivity.
      * intros v Hv. rewrite Hsz3.
        destruct (v =? node_id) eqn:E.
        -- apply Z.eqb_eq in E. subst. contradiction.
        -- rewrite B3; [apply Hsz1 | right; exact Hv].
      * rewrite Hsz3, Z.eqb_refl. exact Hsz.
      * intros v Hv. destruct (B5 v Hv) as [[<- | Hv1] | [c [Hc Hh]]].
        -- right. lia.
        -- left. exact Hv1.
        -- right. rewrite <- Ek in Hc.
           apply Hacyclic in Hc. lia.
      * intros v Hv Hnv. destruct (Z.eq_dec v node_id) as [-> | Hne].
        -- unfold complete. cbn [nodes visited].
           intros _. rewrite Ek. fold kids. split; [ | exact B2].
           rewrite Hsz3, Z.eqb_refl. rewrite B4.
           rewrite (@sum_sizes_ext (nodes st2) ns3 kids); [lia | ].
           intros c Hc. rewrite Hsz3.
           destruct (c =? node_id) eqn:E; [ | reflexivity].
           apply Z.eqb_eq in E. exfalso. exact (Hlow c Hc E).
        -- assert (Hnv1 : ~ In v (visited st1)).
           { intros [Heq | Hin]; [congruence | contradiction]. }
           pose proof (B6 v Hv Hnv1) as Hcomp.
           unfold complete. cbn [nodes visited].
           intros Hk. destruct (Hcomp Hk) as [Hs Hvis]. split; [ | exact Hvis].
           rewrite Hsz3. apply Z.eqb_neq in Hne. rewrite Hne. rewrite Hs.
           symmetry. apply sum_sizes_ext. intros u Hu. rewrite Hsz3.
           destruct (u =? node_id) eqn:E; [ | reflexivity].
           apply Z.eqb_eq in E. subst u. exfalso.
           destruct (B5 v Hv) as [Hv1 | [c [Hc Hh]]]; [contradiction | ].
           rewrite <- Ek in Hc.
           apply Hacyclic in Hc. apply Hacyclic in Hu. lia.
Qed.

Lemma walk_all_complete fuel node_id lvl st r st' :
  all_complete g st ->
  walk g top_count fuel node_id lvl st = Ok (r, st') ->
  all_complete g st'
  /\ (forall v, In v (visited st) -> In v (visited st'))
  /\ In node_id (visited st').
Proof.
  intros [Hpc Hall] Hw.
  edestruct walk_sizes as [A1 [A2 [A3 [A4 [A5 A6]]]]]; [exact Hpc | exact Hw | ].
  split; [ | split; assumption].
  split; [eapply walk_cleared; eauto | ].
  intros v Hv. destruct (in_dec Z.eq_dec v (visited st)) as [Hin | Hnin].
  - apply (complete_stable (st := st)); auto.
  - apply A6; assumption.
Qed.

Lemma keys_persist fuel node_id lvl st r st' k :
  In k (dkeys (nodes st)) ->
  walk g top_count fuel node_id lvl st = Ok (r, st') ->
  In k (dkeys (nodes st')).
Proof.
  apply (@walk_inv g top_count (fun ns => In k (dkeys ns))).
  - intros ns k0 parent l lbl H _ _. apply dkeys_zset. right. exact H.
  - intros ns k0 n n' H _ _. apply dkeys_zset. right. exact H.
Qed.

Lemma walk_roots_complete rts : forall st st',
  all_complete g st ->
  (forall root, In root rts -> In root (dkeys (nodes st))) ->
  walk_roots g top_count rts st = Ok st' ->
  all_complete g st'
  /\ (forall v, In v (visited st) -> In v (visited st'))
  /\ (forall root, In root rts -> In root (visited st')).
Proof.
  induction rts as [ | root rts IH]; cbn [walk_roots]; intros st st' Hall Hkeys H.
  - inversion H. subst. split; [exact Hall | ]. split; [auto | intros root []].
  - destruct (zget root (nodes st)) as [n | ] eqn:En.
    2:{ exfalso. apply zget_None_keys in En. apply En. apply Hkeys. left. reflexivity. }
    apply bind_Ok in H. destruct H as [[r st2] [Hw H]].
    set (st1 := {| nodes := zset root (set_parent_id None n) (nodes st);
                   visited := visited st |}) in *.
    assert (Hsz1 : forall v, size_at (nodes st1) v = size_at (nodes st) v).
    { intros v. eapply size_at_zset_same; [exact En | reflexivity]. }
    assert (Hall1 : all_complete g st1).
    { destruct Hall as [Hpc Hc]. split.
      - eapply (@parents_cleared_step g top_count); [exact Hpc | exact En | ].
        apply step_parent. intros p Hp. discriminate.
      - intros v Hv. apply (complete_stable (st := st)); auto. }
    edestruct walk_all_complete as [Hall2 [Hmono Hroot]]; [exact Hall1 | exact Hw | ].
    assert (Hkeys2 : forall root0, In root0 rts -> In root0 (dkeys (nodes st2))).
    { intros root0 Hr. eapply keys_persist; [ | exact Hw].
      apply dkeys_zset. right. apply Hkeys. right. exact Hr. }
    edestruct IH as [Hall' [Hmono' Hroots']]; [exact Hall2 | exact Hkeys2 | exact H | ].
    split; [exact Hall' | ]. split.
    + intros v Hv. apply Hmono', Hmono. exact Hv.
    + intros root0 [<- | Hr]; [apply Hmono'; exact Hroot | auto].
Qed.

Lemma walk_all_ids_complete ids : forall st st',
  all_complete g st ->
  walk_all g top_count ids st = Ok st' ->
  all_complete g st'.
Proof.
  induction ids as [ | i ids IH]; cbn [walk_all]; intros st st' Hall H.
  - inversion H. subst. exact Hall.
  - destruct (zmem i (visited st)); [eauto | ].
    apply bind_Ok in H. destruct H as [[r st2] [Hw H]].
    edestruct walk_all_complete as [Hall2 _]; [exact Hall | exact Hw | ]. eauto.
Qed.
End WalkSizes.

(** *** Roots and reachability *)

Lemma roots_of_keys slot g r :
  In r (roots_of slot g) -> In r (dkeys (parent_children g)).
Proof.
  unfold roots_of. intros H.
  assert (Hc : forall x, In x (root_candidates slot g) -> In x (dkeys (parent_children g))).
  { intros x Hx. unfold root_candidates in Hx. apply filter_In in Hx.
    apply (set_iter_In slot). apply Hx. }
  destruct (root_candidates slot g) as [ | c cs] eqn:E.
  - destruct (set_iter slot (dkeys (parent_children g))) as [ | a l] eqn:Es; [contradiction | ].
    destruct H as [<- | []].
    apply (set_iter_In slot). rewrite Es. apply (stable_sort_In Z.ltb).
    apply last_In. intros Hn. apply (f_equal (@List.length Z)) in Hn.
    rewrite stable_sort_length in Hn. discriminate.
  - apply Hc. destruct (set_iter slot (dkeys (parent_children g))); exact H.
Qed.

Lemma key_root_or_seen slot g p :
  In p (dkeys (parent_children g)) ->
  In p (roots_of slot g) \/ In p (children_seen g).
Proof.
  intros Hp. destruct (zmem p (children_seen g)) eqn:E.
  - right. apply zmem_In. exact E.
  - left. assert (Hc : In p (root_candidates slot g)).
    { unfold root_candidates. apply filter_In. split.
      - apply set_iter_In. exact Hp.
      - rewrite E. reflexivity. }
    unfold roots_of. destruct (root_candidates slot g) as [ | c cs]; [contradiction | ].
    destruct (set_iter slot (dkeys (parent_children g))); exact Hc.
Qed.

Lemma get_list_key {V} (d : dict Z (list V)) k : get_list k d <> [] -> In k (dkeys d).
Proof.
  unfold get_list. intros H. apply zget_keys.
  destruct (zget k d); [eauto | congruence].
Qed.

Lemma height_bound (height : Z -> nat) (l : list Z) :
  exists M, forall k, In k l -> (height k <= M)%nat.
Proof.
  induction l as [ | a l [M HM]].
  - exists 0%nat. intros k [].
  - exists (Nat.max (height a) M). intros k [<- | Hk]; [lia | ].
    specialize (HM k Hk). lia.
Qed.

(** With an acyclic merge graph, walking the roots reaches every parent. *)
Lemma parents_reached slot g height (st : wstate) :
  acyclic_by g height -> seen_ok g ->
  (forall r, In r (roots_of slot g) -> In r (visited st)) ->
  (forall v, In v (visited st) -> complete g st v) ->
  forall p, In p (dkeys (parent_children g)) -> In p (visited st).
Proof.
  intros Hac Hseen Hroots Hcomp.
  destruct (height_bound height (dkeys (parent_children g))) as [M HM].
  assert (Hind : forall d p, In p (dkeys (parent_children g)) ->
                             (M - height p <= d)%nat -> In p (visited st)).
  { induction d as [ | d IH]; intros p Hp Hd.
    - destruct (key_root_or_seen slot g p Hp) as [Hr | Hs]; [auto | ].
      apply Hseen in Hs. destruct Hs as [q [kids [Hq Hin]]].
      assert (Hqk : In q (dkeys (parent_children g))) by (apply zget_keys; eauto).
      assert (Hlt : (height p < height q)%nat).
      { apply Hac. unfold get_list. rewrite Hq. exact Hin. }
      specialize (HM q Hqk). lia.
    - destruct (key_root_or_seen slot g p Hp) as [Hr | Hs]; [auto | ].
      apply Hseen in Hs. destruct Hs as [q [kids [Hq Hin]]].
      assert (Hqk : In q (dkeys (parent_children g))) by (apply zget_keys; eauto).
      assert (Hgl : get_list q (parent_children g) = kids).
      { unfold get_list. rewrite Hq. reflexivity. }
      assert (Hlt : (height p < height q)%nat).
      { apply Hac. rewrite Hgl. exact Hin. }
      assert (Hqv : In q (visited st)).
      { apply IH; [exact Hqk | ]. specialize (HM q Hqk). lia. }
      destruct (Hcomp q Hqv) as [_ Hkids].
      + rewrite Hgl. intros ->. contradiction.
      + apply Hkids. rewrite Hgl. exact Hin. }
  intros p Hp. apply (Hind (M - height p)%nat); [exact Hp | lia].
Qed.

Lemma roots_nil_no_parent slot g :
  roots_of slot g = [] -> dkeys (parent_children g) = [].
Proof.
  intros H. destruct (dkeys (parent_children g)) as [ | k ks] eqn:E; [reflexivity | ].
  exfalso. assert (Hk : In k (dkeys (parent_children g))) by (rewrite E; left; reflexivity).
  destruct (key_root_or_seen slot g k Hk) as [Hr | Hs].
  - rewrite H in Hr. exact Hr.
  - unfold roots_of in H.
    destruct (root_candidates slot g); [ | discriminate].
    destruct (set_iter slot (dkeys (parent_children g))) eqn:Es; [ | discriminate].
    assert (Hin : In k (set_iter slot (dkeys (parent_children g)))).
    { apply set_iter_In. exact Hk. }
    rewrite Es in Hin. exact Hin.
Qed.

(** *** The output as a view of the node store *)

Lemma find_node_output (ns : dict Z node) k :
  NoDup (dkeys ns) -> dict_all has_topic_id ns ->
  find_node (stable_sort node_before (dvalues ns)) k = zget k ns.
Proof.
  intros Hnd Hid. unfold find_node.
  assert (Hkey : forall m, In m (stable_sort node_before (dvalues ns)) ->
                           zget (topic_id m) ns = Some m).
  { intros m Hm. destruct (@output_nodes ns has_topic_id m Hnd Hid Hm) as [k' [Hk' Ht]].
    unfold has_topic_id in Ht. rewrite Ht. exact Hk'. }
  destruct (find (fun n => topic_id n =? k) (stable_sort node_before (dvalues ns)))
    as [m | ] eqn:E.
  - apply find_some in E. destruct E as [Hm Ht]. apply Z.eqb_eq in Ht.
    rewrite <- Ht. symmetry. apply Hkey. exact Hm.
  - destruct (zget k ns) as [n | ] eqn:En; [ | reflexivity].
    exfalso. assert (Hn : In n (stable_sort node_before (dvalues ns))).
    { apply stable_sort_In. apply In_dvalues. exists k. apply zget_In. exact En. }
    pose proof (find_none _ _ E n Hn) as Hf. simpl in Hf.
    rewrite (Hid k n En) in Hf. rewrite Z.eqb_refl in Hf. discriminate.
Qed.

Lemma sum_sizes_out (ns : dict Z node) kids :
  NoDup (dkeys ns) -> dict_all has_topic_id ns -> dict_all size_nonneg ns ->
  sum_sizes ns kids
  = sum_list (map (out_size (stable_sort node_before (dvalues ns))) kids).
Proof.
  intros Hnd Hid Hnn. induction kids as [ | c kids IH]; simpl; [reflexivity | ].
  rewrite IH. f_equal. unfold out_size. rewrite find_node_output by assumption.
  unfold size_at. destruct (zget c ns) as [n | ] eqn:E; [ | reflexivity].
  pose proof (Hnn c n E) as H. unfold size_nonneg in H. lia.
Qed.

Lemma node_step_has_topic_id g top_count k n n' :
  node_step g top_count k n n' -> has_topic_id k n -> has_topic_id k n'.
Proof. unfold has_topic_id. induction 1; simpl; auto. Qed.

Lemma node_step_size_nonneg g top_count k n n' :
  node_step g top_count k n n' -> size_nonneg k n -> size_nonneg k n'.
Proof. unfold size_nonneg. induction 1; simpl; auto. Qed.

Lemma node_step_keeps_leaf_size leaf g top_count k n n' :
  node_step g top_count k n n' -> keeps_leaf_size leaf k n -> keeps_leaf_size leaf k n'.
Proof.
  unfold keeps_leaf_size. induction 1; simpl; auto.
  intros _ Hd. congruence.
Qed.

(** *** The sizes in the output *)

Section SizesTheorem.
Variable float_of_str : string -> option float.
Variable topic_model : Z -> list term_entry.
Variable top_count : Z.
Variable s : summary.
Variable dm : dict Z (list doc_rec).
Variable g : merge_graph.

Local Notation "'leaf'" := (leaf_node float_of_str topic_model top_count s dm).
Local Notation "'ns0'" := (initial_nodes float_of_str topic_model top_count s dm g).

Lemma initial_has_topic_id : dict_all has_topic_id ns0.
Proof.
  unfold initial_nodes. apply add_parents_all; try (intros; assumption).
  - intros k lbl. reflexivity.
  - apply leaf_nodes_all. intros t _. reflexivity.
Qed.

Lemma initial_size_nonneg : dict_all size_nonneg ns0.
Proof.
  unfold initial_nodes. apply add_parents_all; try (intros; assumption).
  - intros k lbl. unfold size_nonneg. simpl. lia.
  - apply leaf_nodes_all. intros t _. unfold size_nonneg, leaf_node. cbn [size].
    pose proof (len_nonneg (get_list t dm)).
    destruct (zget t (size_by_topic s)); lia.
Qed.

Lemma initial_keeps_leaf_size : dict_all (keeps_leaf_size leaf) ns0.
Proof.
  unfold initial_nodes. apply add_parents_all.
  - intros k lbl Hd. exfalso. apply Hd. reflexivity.
  - intros k n l H. exact H.
  - intros k n _ Hd. exfalso. apply Hd. reflexivity.
  - apply leaf_nodes_all. intros t _ _. split; reflexivity.
Qed.

Lemma initial_parents_cleared : parents_cleared g ns0.
Proof.
  intros k n Hk Hkids. apply get_list_key in Hkids.
  destruct (@add_parents_clear g
              (leaf_nodes float_of_str topic_model top_count s dm) k Hkids)
    as [n' [Hn' Hd]].
  unfold initial_nodes in Hk. rewrite Hk in Hn'. inversion Hn'. subst. exact Hd.
Qed.

Lemma initial_keys k : In k (dkeys (parent_children g)) -> In k (dkeys ns0).
Proof.
  intros Hk.
  destruct (@add_parents_clear g
              (leaf_nodes float_of_str topic_model top_count s dm) k Hk)
    as [n' [Hn' _]].
  apply zget_keys. eauto.
Qed.

(** After the walks every parent of an acyclic merge graph is complete. *)
Lemma run_walks_complete slot height st' :
  acyclic_by g height -> seen_ok g ->
  run_walks g top_count (roots_of slot g) ns0 = Ok st' ->
  forall p, get_list p (parent_children g) <> [] ->
            size_at (nodes st') p = sum_sizes (nodes st') (get_list p (parent_children g)).
Proof.
  intros Hac Hseen Hw p Hp.
  assert (Hinit : all_complete g {| nodes := ns0; visited := [] |}).
  { split; [exact initial_parents_cleared | intros v []]. }
  unfold run_walks in Hw. destruct (roots_of slot g) as [ | r rts] eqn:Er.
  - apply roots_nil_no_parent in Er. apply get_list_key in Hp.
    rewrite Er in Hp. contradiction.
  - edestruct walk_roots_complete as [[Hpc Hcomp] [_ Hroots]];
      [exact Hac | exact Hinit | | exact Hw | ].
    + intros root Hr. cbn [nodes]. apply initial_keys.
      apply (roots_of_keys slot). rewrite Er. exact Hr.
    + assert (Hv : In p (visited st')).
      { eapply parents_reached; [exact Hac | exact Hseen | | exact Hcomp | ].
        - rewrite Er. exact Hroots.
        - apply get_list_key. exact Hp. }
      apply (Hcomp p Hv Hp).
Qed.
End SizesTheorem.

(** C1, counterexample: the summary rows report 5 documents for topic 0,
    the assignments give it the documents 2 and 3: the node holds two
    documents and has size 5. *)
Lemma size_can_exceed_docs :
  exists out st n,
    build_topic_tree no_float_of_str slot_id no_topic_terms
      (Some generous_info) None scenario_topics None scenario_doc_ids
      (VInt 10) None = Ok (out, st)
    /\ find_node out 0 = Some n
    /\ map doc_id (docs n) = [2; 3]
    /\ size n = 5
    /\ size n <> len (docs n).
Proof.
  do 3 eexists. split; [vm_compute; reflexivity | ].
  split; [vm_compute; reflexivity | ].
  repeat split; try reflexivity. vm_compute. discriminate.
Qed.

(** C1, amended: sizes are never negative. A node that holds documents has
    no children in the adjacency, and its size is the maximum of the count
    the summary rows report for it and the number of its documents (that
    number when no count is reported). A node with children in an acyclic
    adjacency holds no documents, and its size is the sum of the sizes its
    children have in the output. *)
Theorem sizes_are_resolved (float_of_str : string -> option float)
        (slot : Z -> Z) (topic_model : Z -> list term_entry)
        (topic_info : option (list info_row)) (hierarchy_df : option (list hier_row))
        (topics : option (list pyval))
        (probabilities : option (list (option (list float)))) (doc_ids : list Z)
        (top_terms : pyval) (hierarchy_conf : option hier_conf)
        (out : list node) (st : stats_rec) (g : merge_graph) (n : node) :
  build_topic_tree float_of_str slot topic_model topic_info hierarchy_df topics
                   probabilities doc_ids top_terms hierarchy_conf = Ok (out, st) ->
  merge_graph_of float_of_str (max_distance_of float_of_str hierarchy_conf)
                 hierarchy_df = Ok g ->
  In n out ->
  0 <= size n
  /\ (docs n <> [] ->
      get_list (topic_id n) (parent_children g) = []
      /\ size n = match reported_count (rows_of topic_info) (topic_id n) with
                  | Some c => Z.max c (len (docs n))
                  | None => len (docs n)
                  end)
  /\ (forall height, acyclic_by g height ->
      get_list (topic_id n) (parent_children g) <> [] ->
      docs n = []
      /\ size n = sum_list (map (out_size out)
                                (get_list (topic_id n) (parent_children g)))).
Proof.
  intros Hb Hg Hin.
  apply build_stages in Hb.
  destruct Hb as [dm [s [g' [st' [Hdm [Hs [Hg' [Hw [Hout _]]]]]]]]].
  rewrite Hg in Hg'. inversion Hg'. subst g'. clear Hg'.
  set (top_count := top_count_of top_terms) in *.
  fold (initial_nodes float_of_str topic_model top_count s dm g) in Hw.
  assert (Hnd : NoDup (dkeys (nodes st'))).
  { eapply run_walks_NoDup; [ | exact Hw].
    apply add_parents_NoDup, leaf_nodes_NoDup. }
  assert (Hid : dict_all has_topic_id (nodes st')).
  { eapply run_walks_nodes; [ | | apply initial_has_topic_id | exact Hw].
    - intros; reflexivity.
    - intros k m m'. apply node_step_has_topic_id. }
  assert (Hnn : dict_all size_nonneg (nodes st')).
  { eapply run_walks_nodes; [ | | apply initial_size_nonneg | exact Hw].
    - intros. unfold size_nonneg. simpl. lia.
    - intros k m m'. apply node_step_size_nonneg. }
  assert (Hleaf : dict_all (keeps_leaf_size
                              (leaf_node float_of_str topic_model top_count s dm))
                           (nodes st')).
  { eapply run_walks_nodes; [ | | apply initial_keeps_leaf_size | exact Hw].
    - intros k parent lvl lbl _ Hd. exfalso. apply Hd. reflexivity.
    - intros k m m'. apply node_step_keeps_leaf_size. }
  assert (Hpc : parents_cleared g (nodes st')).
  { eapply run_walks_nodes; [ | | apply initial_parents_cleared | exact Hw].
    - intros k parent lvl lbl _ _. reflexivity.
    - intros k m m' Hstep Hm Hk. rewrite (node_step_docs Hstep). auto. }
  subst out.
  destruct (@output_nodes _ has_topic_id n Hnd Hid Hin) as [k [Hk Hidn]].
  unfold has_topic_id in Hidn. rewrite Hidn.
  split; [apply (Hnn k n Hk) | ]. split.
  - intros Hd. split.
    + destruct (get_list k (parent_children g)) as [ | c kids] eqn:Ek; [reflexivity | ].
      exfalso. apply Hd. apply (Hpc k n Hk). rewrite Ek. discriminate.
    + destruct (Hleaf k n Hk Hd) as [Hsize Hdocs].
      rewrite Hsize, Hdocs. unfold leaf_node. cbn [size docs].
      unfold summary_of in Hs. fold (rows_of topic_info) in Hs.
      rewrite (@info_loop_size float_of_str dm (rows_of topic_info) _ s k Hs).
      cbn [size_by_topic zget dget].
      destruct (reported_count (rows_of topic_info) k); [lia | reflexivity].
  - intros height Hac Hkids. split; [apply (Hpc k n Hk Hkids) | ].
    assert (Hseen : seen_ok g).
    { unfold merge_graph_of in Hg. eapply hier_loop_seen_ok; [exact Hg | ].
      apply seen_ok_empty. }
    pose proof (@run_walks_complete float_of_str topic_model top_count s dm g
                  slot height st' Hac Hseen Hw k Hkids) as Hsum.
    unfold size_at in Hsum at 1. rewrite Hk in Hsum. rewrite Hsum.
    apply sum_sizes_out; assumption.
Qed.

Lemma sizes_are_resolved_witness :
  exists out st,
    build_topic_tree no_float_of_str slot_id no_topic_terms
      (Some generous_info) (Some scenario_merge) scenario_topics None
      scenario_doc_ids (VInt 10) None = Ok (out, st)
    /\ map topic_id out = [2; 0; 1]
    /\ map (fun n => len (docs n)) out = [0; 2; 1]
    /\ map size out = [6; 5; 1]
    /\ forall n, In n out ->
         0 <= size n
         /\ (docs n <> [] ->
             get_list (topic_id n) (parent_children (add_merge empty_graph 2 0 1 VNone)) = []
             /\ size n = match reported_count generous_info (topic_id n) with
                         | Some c => Z.max c (len (docs n))
                         | None => len (docs n)
                         end)
         /\ (get_list (topic_id n) (parent_children (add_merge empty_graph 2 0 1 VNone)) <> [] ->
             docs n = []
             /\ size n = sum_list (map (out_size out)
                                       (get_list (topic_id n)
                                          (parent_children
                                             (add_merge empty_graph 2 0 1 VNone))))).
Proof.
  eexists. eexists. split; [vm_compute; reflexivity | ].
  split; [reflexivity | ]. split; [reflexivity | ]. split; [reflexivity | ].
  intros n Hin.
  destruct (@sizes_are_resolved no_float_of_str slot_id no_topic_terms
              (Some generous_info) (Some scenario_merge) scenario_topics None
              scenario_doc_ids (VInt 10) None _ _
              (add_merge empty_graph 2 0 1 VNone) n
              ltac:(vm_compute; reflexivity) eq_refl Hin) as [H0 [Hdocs Hsum]].
  split; [exact H0 | ]. split; [exact Hdocs | ].
  apply (Hsum scenario_height).
  intros p c. unfold get_list, zget, scenario_height. simpl.
  destruct (p =? 2) eqn:E; simpl; [ | contradiction].
  intros [<- | [<- | []]]; simpl; lia.
Defined.

(** ** The builder returns *)

(** Two exceptions leave the builder: the [OverflowError] of [int(inf)]
    and of the product of a float and a huge [int], and the [ValueError] of
    an f-string on an id of more than 4300 digits. The walk never runs out
    of its budget and never misses a node. *)

Lemma bind_Raise {A B} (r : result A) (k : A -> result B) e :
  bind r k = Raise e -> r = Raise e \/ exists a, r = Ok a /\ k a = Raise e.
Proof.
  destruct r; simpl; intros H; [right; eauto | left].
  inversion H. reflexivity.
Qed.

Lemma to_int_raise val e : _to_int val = Raise e -> e = OverflowError.
Proof.
  destruct val as [ | n | b | f | s]; simpl; try discriminate.
  - destruct f as [sg | sg | | sg m ex]; simpl; try discriminate. congruence.
  - destruct (search_trailing_int _) as [[neg ds] | ];
      [simpl; destruct (digits_ok ds); discriminate | ].
    destruct (search_first_int _) as [[neg ds] | ]; simpl;
      [destruct (digits_ok ds); discriminate | discriminate].
Qed.

Lemma format_topic_raise t e : format_topic t = Raise e -> e = ValueError.
Proof.
  unfold format_topic. destruct (int_str_ok t); intros H; inversion H. reflexivity.
Qed.

Lemma mark_child_at_raise node_id lvl c ns e :
  mark_child_at node_id lvl c ns = Raise e -> e = ValueError.
Proof.
  unfold mark_child_at. intros H.
  apply bind_Raise in H. destruct H as [H | [l [_ H]]]; [ | discriminate].
  destruct (zget c ns); [discriminate | ]. eapply format_topic_raise. exact H.
Qed.

Lemma relabel_at_raise pl k n e : relabel_at pl k n = Raise e -> e = ValueError.
Proof.
  unfold relabel_at. intros H.
  apply bind_Raise in H. destruct H as [H | [l [_ H]]]; [ | discriminate].
  destruct (default_label_needed pl k n); [ | discriminate].
  eapply format_topic_raise. exact H.
Qed.

Lemma leaf_loop_raise float_of_str topic_model top_count s dm ids : forall ns e,
  leaf_loop float_of_str topic_model top_count s dm ids ns = Raise e -> e = ValueError.
Proof.
  induction ids as [ | t ids IH]; simpl; intros ns e H; [discriminate | ].
  apply bind_Raise in H. destruct H as [H | [l [_ H]]]; [ | eauto].
  eapply format_topic_raise. exact H.
Qed.

Lemma parent_loop_raise pl ps : forall ns e,
  parent_loop pl ps ns = Raise e -> e = ValueError.
Proof.
  induction ps as [ | p ps IH]; simpl; intros ns e H; [discriminate | ].
  apply bind_Raise in H. destruct H as [H | [l [_ H]]]; [ | eauto].
  destruct (zget p ns); [discriminate | ]. eapply format_topic_raise. exact H.
Qed.

Lemma float_of_int_raise n e : float_of_int n = Raise e -> e = OverflowError.
Proof.
  unfold float_of_int. destruct (binary_normalize prec emax n 0 false);
    intros H; inversion H; reflexivity.
Qed.

Lemma agg_child_raise w ts : forall sm e,
  agg_child w ts sm = Raise e -> e = OverflowError.
Proof.
  induction ts as [ | t ts IH]; simpl; intros sm e H; [discriminate | ].
  destruct (String.eqb (strip (term t)) ""); [eauto | ].
  apply bind_Raise in H. destruct H as [H | [wf [_ H]]]; [ | eauto].
  eapply float_of_int_raise. exact H.
Qed.

Lemma agg_children_raise ns kids : forall sm e,
  agg_children ns kids sm = Raise e -> e = OverflowError.
Proof.
  induction kids as [ | c kids IH]; simpl; intros sm e H; [discriminate | ].
  destruct (zget c ns) as [child | ]; [ | eauto].
  apply bind_Raise in H. destruct H as [H | [sm' [_ H]]]; [ | eauto].
  eapply agg_child_raise. exact H.
Qed.

Lemma aggregate_terms_raise top_count ns kids e :
  aggregate_terms top_count ns kids = Raise e -> e = OverflowError.
Proof.
  unfold aggregate_terms. intros H.
  apply bind_Raise in H. destruct H as [H | [sm [_ H]]]; [ | discriminate].
  eapply agg_children_raise. exact H.
Qed.

Lemma assign_loop_raise doc_lookup probs assignments : forall idx dm e,
  assign_loop doc_lookup probs idx assignments dm = Raise e -> e = OverflowError.
Proof.
  induction assignments as [ | a rest IH]; simpl; intros idx dm e H; [discriminate | ].
  apply bind_Raise in H. destruct H as [H | [tid [_ H]]]; [eapply to_int_raise; eauto | ].
  destruct tid as [t | ]; [ | eauto].
  destruct (t =? outlier_topic); [eauto | ].
  destruct (nth_error doc_lookup idx); eauto.
Qed.

Lemma info_loop_raise float_of_str dm rows : forall s e,
  info_loop float_of_str dm rows s = Raise e -> e = OverflowError.
Proof.
  induction rows as [ | row rows IH]; simpl; intros s e H; [discriminate | ].
  apply bind_Raise in H. destruct H as [H | [s' [_ H]]]; [ | eauto].
  unfold info_step in H.
  apply bind_Raise in H. destruct H as [H | [tid [_ H]]]; [eapply to_int_raise; eauto | ].
  destruct tid as [t | ]; [ | discriminate].
  destruct (t =? outlier_topic); [discriminate | ].
  apply bind_Raise in H. destruct H as [H | [cv [_ H]]]; [eapply to_int_raise; eauto | ].
  discriminate.
Qed.

Lemma hier_loop_raise float_of_str md rows : forall g e,
  hier_loop float_of_str md rows g = Raise e -> e = OverflowError.
Proof.
  induction rows as [ | row rows IH]; simpl; intros g e H; [discriminate | ].
  apply bind_Raise in H. destruct H as [H | [g' [_ H]]]; [ | eauto].
  unfold hier_step in H.
  apply bind_Raise in H. destruct H as [H | [pid [_ H]]]; [eapply to_int_raise; eauto | ].
  apply bind_Raise in H. destruct H as [H | [lid [_ H]]]; [eapply to_int_raise; eauto | ].
  apply bind_Raise in H. destruct H as [H | [rid [_ H]]]; [eapply to_int_raise; eauto | ].
  destruct pid, lid, rid; try discriminate.
  destruct (exceeds _ _); discriminate.
Qed.

(** *** The budget of the walk *)

Lemma filter_length_le {A} (p q : A -> bool) (l : list A) :
  (forall x, In x l -> q x = true -> p x = true) ->
  (List.length (filter q l) <= List.length (filter p l))%nat.
Proof.
  induction l as [ | a l IH]; simpl; intros H; [lia | ].
  assert (IH' : (List.length (filter q l) <= List.length (filter p l))%nat).
  { apply IH. intros x Hx. apply H. right. exact Hx. }
  destruct (q a) eqn:Eq.
  - rewrite (H a (or_introl eq_refl) Eq). simpl. lia.
  - destruct (p a); simpl; lia.
Qed.

Lemma filter_length_lt {A} (p q : A -> bool) (l : list A) a :
  (forall x, In x l -> q x = true -> p x = true) ->
  In a l -> p a = true -> q a = false ->
  (List.length (filter q l) < List.length (filter p l))%nat.
Proof.
  induction l as [ | b l IH]; simpl; intros H Ha Hp Hq; [contradiction | ].
  assert (Hle : (List.length (filter q l) <= List.length (filter p l))%nat).
  { apply filter_length_le. intros x Hx. apply H. right. exact Hx. }
  destruct Ha as [-> | Ha].
  - rewrite Hp, Hq. simpl. lia.
  - assert (IH' : (List.length (filter q l) < List.length (filter p l))%nat).
    { apply IH; auto. }
    destruct (q b) eqn:Eq.
    + rewrite (H b (or_introl eq_refl) Eq). simpl. lia.
    + destruct (p b); simpl; lia.
Qed.

Lemma fresh_count_mono g vis vis' :
  incl vis vis' -> (fresh_count g vis' <= fresh_count g vis)%nat.
Proof.
  intros Hincl. unfold fresh_count. apply filter_length_le.
  intros x _ Hx. apply negb_true_iff in Hx. apply negb_true_iff.
  apply zmem_not_In. apply zmem_not_In in Hx. intros Hin. apply Hx, Hincl, Hin.
Qed.

Lemma fresh_count_mark g vis n :
  In n (graph_ids g) -> ~ In n vis ->
  (fresh_count g (n :: vis) < fresh_count g vis)%nat.
Proof.
  intros Hn Hnv. unfold fresh_count. apply (@filter_length_lt _ _ _ _ n).
  - intros x _ Hx. apply negb_true_iff in Hx. apply negb_true_iff.
    apply zmem_not_In. apply zmem_not_In in Hx. intros Hin. apply Hx. right. exact Hin.
  - apply nodup_In. exact Hn.
  - apply negb_true_iff. apply zmem_not_In. exact Hnv.
  - apply negb_false_iff. apply zmem_In. left. reflexivity.
Qed.

Lemma fresh_count_bound g vis : (fresh_count g vis < walk_fuel g)%nat.
Proof.
  unfold fresh_count, walk_fuel.
  pose proof (filter_length_le (fun _ : Z => true) (fun x => negb (zmem x vis))
                (nodup Z.eq_dec (graph_ids g)) (fun _ _ _ => eq_refl)) as H1.
  assert (H2 : filter (fun _ : Z => true) (nodup Z.eq_dec (graph_ids g))
               = nodup Z.eq_dec (graph_ids g)).
  { apply forallb_filter_id. apply forallb_forall. reflexivity. }
  rewrite H2 in H1.
  pose proof (NoDup_incl_length (NoDup_nodup Z.eq_dec (graph_ids g))
                (fun x Hx => proj1 (nodup_In Z.eq_dec (graph_ids g) x) Hx)) as H3.
  lia.
Qed.

Section Returns.
Variable g : merge_graph.
Variable top_count : Z.

Lemma mark_child_keys node_id lvl c ns k :
  In k (dkeys (mark_child node_id lvl c ns)) <-> k = c \/ In k (dkeys ns).
Proof. unfold mark_child. destruct (zget c ns); apply dkeys_zset. Qed.

Lemma walk_children_visited rec node_id lvl :
  (forall c l st r st', rec c l st = Ok (r, st') -> incl (visited st) (visited st')) ->
  forall kids total st r st',
    walk_children rec node_id lvl kids total st = Ok (r, st') ->
    incl (visited st) (visited st').
Proof.
  intros Hrec. induction kids as [ | c kids IH]; simpl; intros total st r st' H.
  - inversion H. subst. apply incl_refl.
  - mark_ok H. apply bind_Ok in H. destruct H as [[rc sta] [Hc H]].
    apply Hrec in Hc. apply IH in H. simpl in Hc.
    eapply incl_tran; eassumption.
Qed.

Lemma walk_visited fuel : forall node_id lvl st r st',
  walk g top_count fuel node_id lvl st = Ok (r, st') ->
  incl (visited st) (visited st').
Proof.
  induction fuel as [ | fuel IH]; intros node_id lvl st r st' H; [discriminate | ].
  cbn [walk] in H. destruct (zmem node_id (visited st)).
  - destruct (zget node_id (nodes st)); [ | discriminate].
    inversion H. subst. apply incl_refl.
  - destruct (zget node_id (nodes st)) as [n | ]; [ | discriminate].
    destruct (get_list node_id (parent_children g)) as [ | c kids].
    + inversion H. subst. simpl. apply incl_tl, incl_refl.
    + apply bind_Ok in H. destruct H as [[total st2] [Hw H]].
      apply bind_Ok in H. destruct H as [[sz ns3] [_ H]].
      inversion H. subst. simpl.
      eapply walk_children_visited in Hw; [ | exact IH]. simpl in Hw.
      intros x Hx. apply Hw. right. exact Hx.
Qed.

Lemma walk_children_keys rec node_id lvl k :
  (forall c l st r st', In k (dkeys (nodes st)) -> rec c l st = Ok (r, st') ->
                        In k (dkeys (nodes st'))) ->
  forall kids total st r st',
    In k (dkeys (nodes st)) ->
    walk_children rec node_id lvl kids total st = Ok (r, st') ->
    In k (dkeys (nodes st')).
Proof.
  intros Hrec. induction kids as [ | c kids IH]; simpl; intros total st r st' Hk H.
  - inversion H. subst. exact Hk.
  - mark_ok H. apply bind_Ok in H. destruct H as [[rc sta] [Hc H]].
    eapply IH; [ | exact H]. eapply Hrec; [ | exact Hc].
    simpl. apply mark_child_keys. right. exact Hk.
Qed.

(** The loop over the children raises nothing but [OverflowError] and
    [ValueError] when the recursive call does not. *)
Lemma walk_children_raise rec node_id lvl fuel :
  (forall c l st r st', rec c l st = Ok (r, st') -> incl (visited st) (visited st')) ->
  (forall c l st e, (fresh_count g (visited st) < fuel)%nat ->
                    In c (dkeys (nodes st)) ->
                    rec c l st = Raise e -> e = OverflowError \/ e = ValueError) ->
  forall kids total st e,
    (fresh_count g (visited st) < fuel)%nat ->
    walk_children rec node_id lvl kids total st = Raise e ->
    e = OverflowError \/ e = ValueError.
Proof.
  intros Hvis Hrec. induction kids as [ | c kids IH]; simpl; intros total st e Hf H;
    [discriminate | ].
  apply bind_Raise in H. destruct H as [H | [ns1 [Hm H]]];
    [right; eapply mark_child_at_raise; exact H | ].
  apply mark_child_at_Ok in Hm. subst ns1.
  apply bind_Raise in H. destruct H as [H | [[rc sta] [Hc H]]].
  - eapply Hrec; [ | | exact H]; simpl; [exact Hf | ].
    apply mark_child_keys. left. reflexivity.
  - eapply IH; [ | exact H].
    apply Hvis in Hc. simpl in Hc.
    pose proof (fresh_count_mono g Hc). lia.
Qed.

Lemma walk_raise fuel : forall node_id lvl st e,
  (fresh_count g (visited st) < fuel)%nat ->
  In node_id (dkeys (nodes st)) ->
  walk g top_count fuel node_id lvl st = Raise e ->
  e = OverflowError \/ e = ValueError.
Proof.
  induction fuel as [ | fuel IH]; intros node_id lvl st e Hf Hk H; [lia | ].
  cbn [walk] in H. apply zget_keys in Hk. destruct Hk as [n Hn]. rewrite Hn in H.
  destruct (zmem node_id (visited st)) eqn:Evis; [discriminate | ].
  apply zmem_not_In in Evis.
  destruct (get_list node_id (parent_children g)) as [ | c kids] eqn:Ek; [discriminate | ].
  set (st1 := {| nodes := zset node_id (set_level lvl n) (nodes st);
                 visited := node_id :: visited st |}) in *.
  assert (Hf1 : (fresh_count g (visited st1) < fuel)%nat).
  { assert (Hid : In node_id (graph_ids g)).
    { unfold graph_ids. apply in_or_app. left. apply get_list_key.
      rewrite Ek. discriminate. }
    pose proof (@fresh_count_mark g (visited st) node_id Hid Evis). simpl. lia. }
  apply bind_Raise in H. destruct H as [H | [[total st2] [Hw H]]].
  - eapply walk_children_raise; [ | | exact Hf1 | exact H].
    + intros c0 l0 s0 r0 s0'. apply walk_visited.
    + intros c0 l0 s0 e0. apply IH.
  - apply bind_Raise in H. destruct H as [H | [[sz ns3] [_ H]]]; [ | discriminate].
    unfold finish_node in H.
    assert (Hk2 : In node_id (dkeys (nodes st2))).
    { eapply walk_children_keys; [ | | exact Hw].
      - intros c0 l0 s0 r0 s0' Hin Hr. eapply keys_persist; eauto.
      - simpl. apply dkeys_zset. left. reflexivity. }
    apply zget_keys in Hk2. destruct Hk2 as [n2 Hn2]. rewrite Hn2 in H.
    apply bind_Raise in H. destruct H as [H | [n3 [_ H]]].
    + left. destruct (is_nil _); [ | discriminate].
      apply bind_Raise in H. destruct H as [H | [ts [_ H]]]; [ | discriminate].
      eapply aggregate_terms_raise. exact H.
    + right. apply bind_Raise in H. destruct H as [H | [n4 [_ H]]]; [ | discriminate].
      eapply relabel_at_raise. exact H.
Qed.

Lemma walk_roots_raise rts : forall st e,
  walk_roots g top_count rts st = Raise e -> e = OverflowError \/ e = ValueError.
Proof.
  induction rts as [ | root rts IH]; cbn [walk_roots]; intros st e H; [discriminate | ].
  destruct (zget root (nodes st)) as [n | ] eqn:En; [ | eauto].
  apply bind_Raise in H. destruct H as [H | [[r st2] [_ H]]]; [ | eauto].
  eapply walk_raise; [ | | exact H].
  - apply fresh_count_bound.
  - simpl. apply dkeys_zset. left. reflexivity.
Qed.

Lemma walk_all_raise ids : forall st e,
  (forall i, In i ids -> In i (dkeys (nodes st))) ->
  walk_all g top_count ids st = Raise e -> e = OverflowError \/ e = ValueError.
Proof.
  induction ids as [ | i ids IH]; cbn [walk_all]; intros st e Hk H; [discriminate | ].
  destruct (zmem i (visited st)).
  - eapply IH; [ | exact H]. intros j Hj. apply Hk. right. exact Hj.
  - apply bind_Raise in H. destruct H as [H | [[r st2] [Hw H]]].
    + eapply walk_raise; [ | | exact H]; [apply fresh_count_bound | ].
      apply Hk. left. reflexivity.
    + eapply IH; [ | exact H]. intros j Hj.
      eapply keys_persist; [ | exact Hw]. apply Hk. right. exact Hj.
Qed.

Lemma run_walks_raise rts ns e :
  run_walks g top_count rts ns = Raise e -> e = OverflowError \/ e = ValueError.
Proof.
  unfold run_walks. destruct rts.
  - apply walk_all_raise. intros i Hi. exact Hi.
  - apply walk_roots_raise.
Qed.
End Returns.

(** In this model the builder returns, or raises [OverflowError] or
    [ValueError]. *)
Lemma build_raises float_of_str slot topic_model topic_info
      hierarchy_df topics probabilities doc_ids top_terms hierarchy_conf e :
  build_topic_tree float_of_str slot topic_model topic_info hierarchy_df topics
                   probabilities doc_ids top_terms hierarchy_conf = Raise e ->
  e = OverflowError \/ e = ValueError.
Proof.
  unfold build_topic_tree. intros H.
  apply bind_Raise in H. destruct H as [H | [p [_ H]]].
  - unfold prepare in H.
    apply bind_Raise in H. destruct H as [H | [dm [_ H]]].
    { left. unfold doc_members_of in H.
      apply bind_Raise in H. destruct H as [H | [dm0 [_ H]]]; [ | discriminate].
      eapply assign_loop_raise. exact H. }
    apply bind_Raise in H. destruct H as [H | [s [_ H]]].
    { left. eapply info_loop_raise. exact H. }
    apply bind_Raise in H. destruct H as [H | [ns [_ H]]].
    { right. eapply leaf_loop_raise. exact H. }
    apply bind_Raise in H. destruct H as [H | [g [_ H]]].
    { left. eapply hier_loop_raise. exact H. }
    apply bind_Raise in H. destruct H as [H | [ns' [_ H]]]; [ | discriminate].
    right. eapply parent_loop_raise. exact H.
  - apply bind_Raise in H. destruct H as [H | [st [_ H]]]; [ | discriminate].
    eapply run_walks_raise. exact H.
Qed.

(** * Further properties *)

(** ** The normalizers *)

(** X1: [_to_int] raises on the two float infinities and on nothing else, and
    what it raises there is [OverflowError]. *)
Theorem to_int_raises_iff (val : pyval) (e : exn) :
  _to_int val = Raise e <->
  e = OverflowError /\ exists sg, val = VFloat (S754_infinity sg).
Proof.
  split.
  - intros H. split; [eapply to_int_raise; exact H | ].
    destruct val as [ | n | b | f | s]; try (simpl in H; discriminate).
    + destruct f as [sg | sg | | sg m ex]; simpl in H; try discriminate. eauto.
    + destruct (@to_int_returns (VStr s)) as [r Hr]; [intros sg; discriminate | ].
      rewrite Hr in H. discriminate.
  - intros [-> [sg ->]]. reflexivity.
Qed.

Lemma search_first_int_some (s : list ascii) : forall prev,
  (exists c, In c s /\ is_digit c = true) ->
  exists g, search_first_int_from prev s = Some g.
Proof.
  induction s as [ | c s IH]; simpl; intros prev [d [Hd Hdig]]; [contradiction | ].
  destruct (is_digit c) eqn:E; [eauto | ].
  destruct Hd as [-> | Hd]; [congruence | ].
  apply IH. eauto.
Qed.

Lemma take_while_length {A} (p : A -> bool) (l : list A) :
  (List.length (take_while p l) <= List.length l)%nat.
Proof.
  induction l as [ | x l IH]; simpl; [lia | ]. destruct (p x); simpl; lia.
Qed.

Lemma drop_while_length {A} (p : A -> bool) (l : list A) :
  (List.length (drop_while p l) <= List.length l)%nat.
Proof.
  induction l as [ | x l IH]; simpl; [lia | ]. destruct (p x); simpl; lia.
Qed.

Lemma strip_chars_length (l : list ascii) :
  (List.length (strip_chars l) <= List.length l)%nat.
Proof.
  unfold strip_chars, rstrip, lstrip. rewrite length_rev.
  pose proof (drop_while_length is_space (rev (drop_while is_space l))) as H1.
  rewrite length_rev in H1.
  pose proof (drop_while_length is_space l) as H2. lia.
Qed.

Lemma string_length_chars (s : string) :
  List.length (list_ascii_of_string s) = String.length s.
Proof. induction s as [ | c s IH]; simpl; congruence. Qed.

Lemma search_trailing_length (t : list ascii) neg ds :
  search_trailing_int t = Some (neg, ds) -> (List.length ds <= List.length t)%nat.
Proof.
  unfold search_trailing_int. intros H.
  pose proof (take_while_length is_digit (rev t)) as Hl. rewrite length_rev in Hl.
  destruct (take_while is_digit (rev t)) as [ | a l]; [discriminate | ].
  injection H as _ <-. change (rev l ++ [a])%list with (rev (a :: l)).
  rewrite length_rev. exact Hl.
Qed.

Lemma search_first_length (s : list ascii) : forall prev neg ds,
  search_first_int_from prev s = Some (neg, ds) ->
  (List.length ds <= List.length s)%nat.
Proof.
  induction s as [ | c s IH]; intros prev neg ds H; [discriminate | ].
  cbn [search_first_int_from] in H. destruct (is_digit c) eqn:E.
  - injection H as _ <-. apply (take_while_length is_digit (c :: s)).
  - apply IH in H. simpl. lia.
Qed.

(** A group within the digit limit is read. *)
Lemma except_group_short neg ds :
  (List.length ds <= int_max_str_digits)%nat ->
  except_ValueError (int_of_group (neg, ds))
  = Ok (Some (if neg then - int_of_digits ds else int_of_digits ds)).
Proof.
  intros H. unfold int_of_group, digits_ok.
  rewrite (proj2 (Nat.leb_le _ _) H). reflexivity.
Qed.

(** X2: a text of at most 4300 characters is unrepresentable exactly when
    it holds no decimal digit: with a digit one of the two searches finds a
    run, which [int] reads; without one [int(val)] fails as well. Beyond
    that length a run of more than 4300 digits makes [int] fail. *)
Theorem to_int_text_none_iff (s : string) :
  (String.length s <= int_max_str_digits)%nat ->
  (_to_int (VStr s) = Ok None <-> ~ has_digit s).
Proof.
  intros Hlen. rewrite <- string_length_chars in Hlen. split.
  - intros H [c [Hc Hd]]. unfold _to_int in H.
    destruct (search_trailing_int _) as [[neg ds] | ] eqn:Et.
    + apply search_trailing_length in Et. unfold strip in Et.
      rewrite list_ascii_of_string_of_list_ascii in Et.
      pose proof (strip_chars_length (list_ascii_of_string s)) as Hs.
      rewrite except_group_short in H by lia. discriminate.
    + destruct (@search_first_int_some _ false (ex_intro _ c (conj Hc Hd))) as [[neg ds] Hg].
      unfold search_first_int in H. rewrite Hg in H.
      apply search_first_length in Hg.
      rewrite except_group_short in H by lia. discriminate.
  - intros H. apply to_int_no_digit. intros c Hc.
    destruct (is_digit c) eqn:E; [ | reflexivity].
    exfalso. apply H. exists c. auto.
Qed.

Lemma to_int_text_none_iff_witness :
  _to_int (VStr "n/a") = Ok None <-> ~ has_digit "n/a".
Proof.
  apply (@to_int_text_none_iff "n/a").
  apply Nat.leb_le. reflexivity.
Defined.

(** *** [_maybe_int] against [_to_int] *)

Lemma take_while_all {A} (p : A -> bool) (l : list A) :
  (forall x, In x l -> p x = true) -> take_while p l = l.
Proof.
  induction l as [ | x l IH]; simpl; intros H; [reflexivity | ].
  rewrite (H x (or_introl eq_refl)), IH; [reflexivity | ]. intros; apply H; auto.
Qed.

Lemma drop_while_all {A} (p : A -> bool) (l : list A) :
  (forall x, In x l -> p x = true) -> drop_while p l = [].
Proof.
  induction l as [ | x l IH]; simpl; intros H; [reflexivity | ].
  rewrite (H x (or_introl eq_refl)). apply IH. intros; apply H; auto.
Qed.

Lemma take_while_app {A} (p : A -> bool) (l : list A) y r :
  (forall x, In x l -> p x = true) -> p y = false ->
  take_while p (l ++ y :: r) = l /\ drop_while p (l ++ y :: r) = y :: r.
Proof.
  induction l as [ | x l IH]; simpl; intros H Hy.
  - rewrite Hy. auto.
  - rewrite (H x (or_introl eq_refl)).
    destruct IH as [IH1 IH2]; [intros; apply H; auto | exact Hy | ].
    rewrite IH1, IH2. auto.
Qed.

Lemma int_body_ok_digits (body : list ascii) : forall prev,
  int_body_ok prev body = true ->
  (forall c, In c body -> Ascii.eqb c "_" = false) ->
  (forall c, In c body -> is_digit c = true) /\ (body = [] -> prev = true).
Proof.
  induction body as [ | c r IH]; simpl; intros prev H Hu.
  - split; [intros c [] | auto].
  - destruct (is_digit c) eqn:E.
    + destruct (IH true H) as [Hd _]; [intros; apply Hu; auto | ].
      split; [ | discriminate]. intros x [<- | Hx]; auto.
    + rewrite (Hu c (or_introl eq_refl)) in H. discriminate.
Qed.

Lemma filter_all {A} (p : A -> bool) (l : list A) :
  (forall x, In x l -> p x = true) -> filter p l = l.
Proof.
  induction l as [ | x l IH]; simpl; intros H; [reflexivity | ].
  rewrite (H x (or_introl eq_refl)), IH; [reflexivity | ]. intros; apply H; auto.
Qed.

Lemma search_trailing_digits (body : list ascii) :
  body <> [] -> (forall c, In c body -> is_digit c = true) ->
  search_trailing_int body = Some (false, body).
Proof.
  intros Hne Hd. unfold search_trailing_int.
  assert (Hr : forall c, In c (rev body) -> is_digit c = true).
  { intros c Hc. apply Hd. apply in_rev. exact Hc. }
  rewrite (take_while_all _ _ Hr), (drop_while_all _ _ Hr).
  destruct (rev body) eqn:E.
  - exfalso. apply Hne. rewrite <- (rev_involutive body), E. reflexivity.
  - rewrite <- E, rev_involutive. reflexivity.
Qed.

Lemma search_trailing_signed (sign : ascii) (body : list ascii) :
  body <> [] -> (forall c, In c body -> is_digit c = true) ->
  is_digit sign = false ->
  search_trailing_int (sign :: body) = Some (is_minus sign, body).
Proof.
  intros Hne Hd Hs. unfold search_trailing_int. simpl rev.
  assert (Hr : forall c, In c (rev body) -> is_digit c = true).
  { intros c Hc. apply Hd. apply in_rev. exact Hc. }
  destruct (take_while_app is_digit (rev body) sign [] Hr Hs) as [H1 H2].
  rewrite H1, H2.
  destruct (rev body) eqn:E.
  - exfalso. apply Hne. rewrite <- (rev_involutive body), E. reflexivity.
  - simpl. change (rev l ++ [a])%list with (rev (a :: l)).
    rewrite <- E, rev_involutive. reflexivity.
Qed.

Lemma int_space_is_space c : is_int_space c = true -> is_space c = true.
Proof. unfold is_int_space. intros H. apply andb_true_iff in H. apply H. Qed.

Lemma drop_while_parts {A} (p : A -> bool) (l : list A) :
  exists pre, l = (pre ++ drop_while p l)%list /\ forall x, In x pre -> p x = true.
Proof.
  induction l as [ | x l [pre [IH1 IH2]]]; simpl.
  - exists []. split; [reflexivity | intros x []].
  - destruct (p x) eqn:E.
    + exists (x :: pre). split; [simpl; congruence | ].
      intros y [<- | Hy]; auto.
    + exists []. split; [reflexivity | intros y []].
Qed.

Lemma drop_while_stop {A} (p : A -> bool) (x : A) (r : list A) :
  p x = false -> drop_while p (x :: r) = x :: r.
Proof. intros H. simpl. rewrite H. reflexivity. Qed.

Lemma drop_while_skip {A} (p : A -> bool) (l r : list A) :
  (forall x, In x l -> p x = true) -> drop_while p (l ++ r) = drop_while p r.
Proof.
  induction l as [ | y l IH]; simpl; intros H; [reflexivity | ].
  rewrite (H y (or_introl eq_refl)). apply IH. intros x Hx. apply H. right. exact Hx.
Qed.

Lemma rev_last {A} (l : list A) d :
  l <> [] -> rev l = last l d :: rev (removelast l).
Proof.
  intros H. rewrite (app_removelast_last d H) at 1.
  rewrite rev_app_distr. reflexivity.
Qed.

(** Where [int] finds a literal that starts and ends with something other
    than white space, [strip] leaves the same text. *)
Lemma strip_chars_int_strip (l : list ascii) c r :
  int_strip l = c :: r ->
  is_space c = false -> is_space (last (c :: r) c) = false ->
  strip_chars l = c :: r.
Proof.
  unfold int_strip, strip_chars, rstrip, lstrip. intros H Hc Hl.
  destruct (drop_while_parts is_int_space l) as [a [Ha Hsa]].
  set (u := drop_while is_int_space l) in *.
  destruct (drop_while_parts is_int_space (rev u)) as [b [Hb Hsb]].
  apply (f_equal (@rev ascii)) in H. rewrite rev_involutive in H.
  rewrite H in Hb.
  assert (Hu : u = ((c :: r) ++ rev b)%list).
  { rewrite <- (rev_involutive u), Hb, rev_app_distr, rev_involutive. reflexivity. }
  assert (H1 : drop_while is_space l = u).
  { rewrite Ha, drop_while_skip by (intros x Hx; apply int_space_is_space, Hsa, Hx).
    rewrite Hu. apply drop_while_stop. exact Hc. }
  rewrite H1, Hb, drop_while_skip by (intros x Hx; apply int_space_is_space, Hsb, Hx).
  assert (Hne : (c :: r) <> []) by discriminate.
  rewrite (@rev_last _ (c :: r) c Hne), drop_while_stop by exact Hl.
  rewrite <- (@rev_last _ (c :: r) c Hne). apply rev_involutive.
Qed.

Lemma digit_not_space c : is_digit c = true -> is_space c = false.
Proof.
  destruct c as [b0 b1 b2 b3 b4 b5 b6 b7].
  destruct b0, b1, b2, b3, b4, b5, b6, b7; intros H; try reflexivity; discriminate.
Qed.

Lemma last_char_In (l : list ascii) d : l <> [] -> In (last l d) l.
Proof.
  induction l as [ | x l IH]; intros H; [congruence | ].
  destruct l as [ | y l]; [left; reflexivity | ].
  right. apply IH. discriminate.
Qed.

(** X4: whenever [_maybe_int] (that is, [int(value)]) yields an integer,
    [_to_int] yields the same one, underscore-grouped literals apart:
    [_to_int] reads [1_000] as its last group, 0. *)
Theorem to_int_extends_maybe_int (v : pyval) (n : Z) :
  _maybe_int v = Some n -> no_underscore v -> _to_int v = Ok (Some n).
Proof.
  destruct v as [ | z | b | f | s]; simpl; intros H Hu.
  - discriminate.
  - congruence.
  - congruence.
  - destruct f as [sg | sg | | sg m ex]; simpl in *; try discriminate; congruence.
  - unfold int_of_str in H. unfold strip.
    rewrite list_ascii_of_string_of_list_ascii.
    assert (Hus : forall c, In c (int_strip (list_ascii_of_string s)) ->
                            Ascii.eqb c "_" = false).
    { intros c Hc. apply Hu. apply int_strip_In. exact Hc. }
    destruct (int_strip (list_ascii_of_string s)) as [ | c r] eqn:E.
    + simpl in H. discriminate.
    + assert (Hr : forall x, In x r -> Ascii.eqb x "_" = false).
      { intros x Hx. apply Hus. right. exact Hx. }
      assert (Hsigned : is_digit c = false -> is_space c = false ->
                int_body_ok false r = true ->
                strip_chars (list_ascii_of_string s) = c :: r
                /\ search_trailing_int (c :: r) = Some (is_minus c, r)
                /\ filter is_digit r = r).
      { intros Hcd Hcs Eb. destruct (int_body_ok_digits _ _ Eb Hr) as [Hd Hne].
        assert (Hrne : r <> []) by (intros ->; specialize (Hne eq_refl); discriminate).
        split; [ | split].
        - apply (@strip_chars_int_strip _ c r E Hcs).
          apply digit_not_space, Hd.
          destruct r as [ | y r']; [congruence | ].
          change (last (c :: y :: r') c) with (last (y :: r') c).
          apply last_char_In. discriminate.
        - apply search_trailing_signed; assumption.
        - apply filter_all. exact Hd. }
      destruct (is_minus c) eqn:Em.
      * destruct (int_body_ok false r) eqn:Eb; [ | discriminate].
        destruct (digits_ok (filter is_digit r)) eqn:Ed; [ | discriminate].
        cbn [andb] in H.
        assert (Hc : c = "-"%char) by (apply Ascii.eqb_eq; exact Em). 
        destruct Hsigned as [H1 [H2 H3]]; [subst c; reflexivity | subst c; reflexivity | reflexivity | ].
        rewrite H1, H2. rewrite H3 in H, Ed. cbn [int_of_group]. rewrite Ed.
        simpl in H. simpl. congruence.
      * destruct (Ascii.eqb c "+") eqn:Ep.
        -- destruct (int_body_ok false r) eqn:Eb; [ | discriminate].
           destruct (digits_ok (filter is_digit r)) eqn:Ed; [ | discriminate].
           cbn [andb] in H.
           assert (Hc : c = "+"%char) by (apply Ascii.eqb_eq; exact Ep).
           destruct Hsigned as [H1 [H2 H3]]; [subst c; reflexivity | subst c; reflexivity | reflexivity | ].
           rewrite H1, H2. rewrite H3 in H, Ed. cbn [int_of_group]. rewrite Ed.
           simpl in H. simpl. congruence.
        -- destruct (int_body_ok false (c :: r)) eqn:Eb; [ | discriminate].
           destruct (digits_ok (filter is_digit (c :: r))) eqn:Ed; [ | discriminate].
           cbn [andb] in H.
           destruct (int_body_ok_digits _ _ Eb Hus) as [Hd _].
           rewrite (filter_all _ _ Hd) in H, Ed.
           rewrite (@strip_chars_int_strip _ c r E).
           ++ rewrite search_trailing_digits; [ | discriminate | exact Hd].
              cbn [int_of_group]. rewrite Ed. simpl in H. simpl. congruence.
           ++ apply digit_not_space, Hd. left. reflexivity.
           ++ apply digit_not_space, Hd. apply last_char_In. discriminate.
Qed.

Lemma to_int_extends_maybe_int_witness : _to_int (VStr " +42 ") = Ok (Some 42).
Proof.
  apply (@to_int_extends_maybe_int (VStr " +42 ") 42).
  - reflexivity.
  - simpl. intros c [<- | [<- | [<- | [<- | [<- | []]]]]]; reflexivity.
Defined.

(** The grouped literal that the two read differently. *)
Example to_int_grouped_literal :
  _maybe_int (VStr "1_000") = Some 1000 /\ _to_int (VStr "1_000") = Ok (Some 0).
Proof. split; reflexivity. Qed.

(** *** The clamp of the diversity *)

Lemma flt_fle (a b : float) : flt a b = true -> fle a b = true.
Proof.
  unfold flt, fle, SFltb, SFleb. destruct (SFcompare a b) as [[ | | ] | ]; congruence.
Qed.

(** Without a usable diversity the key is left out. *)
Lemma mmr_no_diversity (float_of_str : string -> option float)
      (diversity_val top_n_val : pyval) :
  _maybe_float float_of_str diversity_val = None ->
  kw_diversity (mmr_kwargs_of float_of_str diversity_val top_n_val) = None.
Proof. unfold mmr_kwargs_of. cbn [kw_diversity]. intros ->. reflexivity. Qed.

(** X5: a configured diversity that converts to a float [d] is always
    handed to the representation model, clamped: the value [c] handed on is
    a number between 0.0 and 1.0, it is [d] itself when [d] lies strictly
    between them, 1.0 when [d] is not below 1.0 (NaN and the infinity
    included) and 0.0 when [d] is not above 0.0; [top_n_words] is handed on
    exactly when it converts to a positive [int]. *)
Theorem mmr_kwargs_in_range (float_of_str : string -> option float)
        (diversity_val top_n_val : pyval) (d : float) :
  _maybe_float float_of_str diversity_val = Some d ->
  (exists c,
      kw_diversity (mmr_kwargs_of float_of_str diversity_val top_n_val) = Some c
      /\ is_nan c = false /\ fle fzero c = true /\ fle c fone = true
      /\ (flt fzero d = true -> flt d fone = true -> c = d)
      /\ (flt d fone = false -> c = fone)
      /\ (flt d fone = true -> flt fzero d = false -> c = fzero))
  /\ (forall n, kw_top_n_words (mmr_kwargs_of float_of_str diversity_val top_n_val) = Some n
                <-> 0 < n /\ _maybe_int top_n_val = Some n).
Proof.
  intros Hd. unfold mmr_kwargs_of. cbn [kw_diversity kw_top_n_words]. rewrite Hd.
  split.
  - exists (py_max fzero (py_min fone d)). split; [reflexivity | ].
    unfold py_min, py_max.
    destruct (flt d fone) eqn:E1.
    + destruct (flt fzero d) eqn:E2.
      * repeat split; try congruence;
          [destruct d; try reflexivity; discriminate
          | apply flt_fle; exact E2 | apply flt_fle; exact E1].
      * repeat split; try congruence; reflexivity.
    + assert (E3 : flt fzero fone = true) by reflexivity. rewrite E3.
      repeat split; try congruence; reflexivity.
  - intros n. destruct (_maybe_int top_n_val) as [m | ].
    + destruct (0 <? m) eqn:E.
      * apply Z.ltb_lt in E. split.
        -- intros H. inversion H. subst. auto.
        -- intros [_ H]. exact H.
      * apply Z.ltb_ge in E. split; [discriminate | ].
        intros [Hn H]. inversion H. lia.
    + split; [discriminate | intros [_ H]; discriminate].
Qed.

Lemma mmr_kwargs_in_range_witness :
  (exists c,
      kw_diversity (mmr_kwargs_of no_float_of_str (VFloat f_0_9) (VInt 10)) = Some c
      /\ is_nan c = false /\ fle fzero c = true /\ fle c fone = true
      /\ (flt fzero f_0_9 = true -> flt f_0_9 fone = true -> c = f_0_9)
      /\ (flt f_0_9 fone = false -> c = fone)
      /\ (flt f_0_9 fone = true -> flt fzero f_0_9 = false -> c = fzero))
  /\ (forall n, kw_top_n_words (mmr_kwargs_of no_float_of_str (VFloat f_0_9) (VInt 10)) = Some n
                <-> 0 < n /\ _maybe_int (VInt 10) = Some n).
Proof.
  apply (@mmr_kwargs_in_range no_float_of_str (VFloat f_0_9) (VInt 10) f_0_9).
  reflexivity.
Defined.

(** ** The adjacency, row by row *)

Section AdjacencyFacts.
Variable float_of_str : string -> option float.

Lemma add_merge_children g p l r nm q c :
  In c (get_list q (parent_children (add_merge g p l r nm)))
  <-> In c (get_list q (parent_children g)) \/ (q = p /\ (c = l \/ c = r)).
Proof.
  unfold get_list. rewrite add_merge_get. destruct (q =? p) eqn:E.
  - apply Z.eqb_eq in E. subst q.
    destruct (zget p (parent_children g)) as [kids | ].
    + rewrite !add_child_In. tauto.
    + simpl. intuition.
  - apply Z.eqb_neq in E. tauto.
Qed.

Lemma add_merge_keys g p l r nm q :
  In q (dkeys (parent_children (add_merge g p l r nm)))
  <-> q = p \/ In q (dkeys (parent_children g)).
Proof.
  unfold add_merge. cbn [parent_children].
  destruct (zget p (parent_children g)); apply dkeys_zset.
Qed.

Lemma hier_loop_children md rows : forall g g' p c,
  hier_loop float_of_str md rows g = Ok g' ->
  (In c (get_list p (parent_children g')) <->
   In c (get_list p (parent_children g))
   \/ exists row l r, In row rows /\ retained float_of_str md row p l r
                      /\ (c = l \/ c = r)).
Proof.
  induction rows as [ | row rows IH]; simpl; intros g g' p c H.
  - inversion H. subst. split; [auto | ].
    intros [Hc | [row [l [r [[] _]]]]]. exact Hc.
  - apply bind_Ok in H. destruct H as [g1 [Hs H]].
    rewrite (IH _ _ p c H). clear IH.
    apply hier_step_cases in Hs. destruct Hs as [[p0 [l [r [Hret ->]]]] | [-> Hno]].
    + rewrite add_merge_children. split.
      * intros [[Hc | [-> Hc]] | [row' [l' [r' [Hin [Hr Hc]]]]]].
        -- auto.
        -- right. exists row, l, r. auto.
        -- right. exists row', l', r'. auto.
      * intros [Hc | [row' [l' [r' [[<- | Hin] [Hr Hc]]]]]].
        -- auto.
        -- destruct Hret as [Hp [Hl [Hrr _]]], Hr as [Hp' [Hl' [Hr' _]]].
           assert (p0 = p) by congruence.
           assert (l' = l) by congruence. assert (r' = r) by congruence. subst.
           left. right. auto.
        -- right. exists row', l', r'. auto.
    + split.
      * intros [Hc | [row' [l' [r' [Hin [Hr Hc]]]]]]; [auto | ].
        right. exists row', l', r'. auto.
      * intros [Hc | [row' [l' [r' [[<- | Hin] [Hr Hc]]]]]]; [auto | | ].
        -- exfalso. eapply Hno. exact Hr.
        -- right. exists row', l', r'. auto.
Qed.

Lemma hier_loop_keys md rows : forall g g' p,
  hier_loop float_of_str md rows g = Ok g' ->
  (In p (dkeys (parent_children g')) <->
   In p (dkeys (parent_children g))
   \/ exists row l r, In row rows /\ retained float_of_str md row p l r).
Proof.
  induction rows as [ | row rows IH]; simpl; intros g g' p H.
  - inversion H. subst. split; [auto | ].
    intros [Hc | [row [l [r [[] _]]]]]. exact Hc.
  - apply bind_Ok in H. destruct H as [g1 [Hs H]].
    rewrite (IH _ _ p H). clear IH.
    apply hier_step_cases in Hs. destruct Hs as [[p0 [l [r [Hret ->]]]] | [-> Hno]].
    + rewrite add_merge_keys. split.
      * intros [[-> | Hc] | [row' [l' [r' [Hin Hr]]]]].
        -- right. exists row, l, r. auto.
        -- auto.
        -- right. exists row', l', r'. auto.
      * intros [Hc | [row' [l' [r' [[<- | Hin] Hr]]]]].
        -- auto.
        -- destruct Hret as [Hp _], Hr as [Hp' _].
           assert (p0 = p) by congruence. subst. auto.
        -- right. exists row', l', r'. auto.
    + split.
      * intros [Hc | [row' [l' [r' [Hin Hr]]]]]; [auto | ].
        right. exists row', l', r'. auto.
      * intros [Hc | [row' [l' [r' [[<- | Hin] Hr]]]]]; [auto | | ].
        -- exfalso. eapply Hno. exact Hr.
        -- right. exists row', l', r'. auto.
Qed.
End AdjacencyFacts.

Lemma merge_graph_rows (float_of_str : string -> option float)
        (md : option float) (rows : list hier_row) (g : merge_graph) :
  merge_graph_of float_of_str md (Some rows) = Ok g ->
  (forall p c, In c (get_list p (parent_children g)) <->
               exists row l r, In row rows /\ retained float_of_str md row p l r
                               /\ (c = l \/ c = r))
  /\ (forall p, In p (dkeys (parent_children g)) <->
                exists row l r, In row rows /\ retained float_of_str md row p l r)
  /\ (forall p, In p (dkeys (parent_children g)) ->
                get_list p (parent_children g) <> []).
Proof.
  unfold merge_graph_of. intros H.
  assert (H1 : forall p c, In c (get_list p (parent_children g)) <->
               exists row l r, In row rows /\ retained float_of_str md row p l r
                               /\ (c = l \/ c = r)).
  { intros p c. rewrite (@hier_loop_children float_of_str md rows empty_graph g p c H). simpl. tauto. }
  assert (H2 : forall p, In p (dkeys (parent_children g)) <->
                exists row l r, In row rows /\ retained float_of_str md row p l r).
  { intros p. rewrite (@hier_loop_keys float_of_str md rows empty_graph g p H). simpl. tauto. }
  refine (conj H1 (conj H2 _)).
  intros p Hp Hnil. apply H2 in Hp. destruct Hp as [row [l [r [Hin Hr]]]].
  assert (Hl : In l (get_list p (parent_children g))).
  { apply H1. exists row, l, r. auto. }
  rewrite Hnil in Hl. exact Hl.
Qed.

(** X6: the adjacency holds the retained rows and nothing else: [c] is listed
    under [p] exactly when a retained row with parent [p] names [c] as its
    left or right child, and [p] is a key exactly when a retained row has it
    as parent; so every key has a child. *)
Theorem adjacency_is_retained_rows (float_of_str : string -> option float)
        (md : option float) (rows : list hier_row) (g : merge_graph) :
  merge_graph_of float_of_str md (Some rows) = Ok g ->
  (forall p c, In c (get_list p (parent_children g)) <->
               exists row l r, In row rows /\ retained float_of_str md row p l r
                               /\ (c = l \/ c = r))
  /\ (forall p, In p (dkeys (parent_children g)) <->
                exists row l r, In row rows /\ retained float_of_str md row p l r)
  /\ (forall p, In p (dkeys (parent_children g)) ->
                get_list p (parent_children g) <> []).
Proof. apply merge_graph_rows. Qed.

Lemma adjacency_is_retained_rows_witness :
  get_list 2 (parent_children (add_merge empty_graph 2 0 1 VNone)) <> [].
Proof.
  apply (@adjacency_is_retained_rows (fun _ => None) None scenario_merge
           (add_merge empty_graph 2 0 1 VNone) eq_refl).
  simpl. auto.
Defined.

(** ** The output as a listing of the node store *)

Lemma output_In (ns : dict Z node) (n : node) :
  NoDup (dkeys ns) ->
  (In n (stable_sort node_before (dvalues ns)) <-> exists k, zget k ns = Some n).
Proof.
  intros Hnd. rewrite stable_sort_In, In_dvalues. split.
  - intros [k Hin]. exists k. apply In_zget; assumption.
  - intros [k Hk]. exists k. apply zget_In. exact Hk.
Qed.

(** A run that returns: its stages, and the store its output lists. *)
Lemma build_store float_of_str slot topic_model topic_info hierarchy_df topics
      probabilities doc_ids top_terms hierarchy_conf out st :
  build_topic_tree float_of_str slot topic_model topic_info hierarchy_df topics
                   probabilities doc_ids top_terms hierarchy_conf = Ok (out, st) ->
  exists dm s g st',
    doc_members_of topics probabilities doc_ids = Ok dm
    /\ summary_of float_of_str dm topic_info = Ok s
    /\ merge_graph_of float_of_str (max_distance_of float_of_str hierarchy_conf)
                      hierarchy_df = Ok g
    /\ run_walks g (top_count_of top_terms) (roots_of slot g)
                 (initial_nodes float_of_str topic_model (top_count_of top_terms) s dm g)
       = Ok st'
    /\ out = stable_sort node_before (dvalues (nodes st'))
    /\ st = stats_of g (roots_of slot g) out
    /\ NoDup (dkeys (nodes st'))
    /\ dict_all has_topic_id (nodes st')
    /\ (forall n, In n out <-> zget (topic_id n) (nodes st') = Some n).
Proof.
  intros Hb. apply build_stages in Hb.
  destruct Hb as [dm [s [g [st' [Hdm [Hs [Hg [Hw [Hout Hst]]]]]]]]].
  fold (initial_nodes float_of_str topic_model (top_count_of top_terms) s dm g) in Hw.
  assert (Hnd : NoDup (dkeys (nodes st'))).
  { eapply run_walks_NoDup; [ | exact Hw].
    apply add_parents_NoDup, leaf_nodes_NoDup. }
  assert (Hid : dict_all has_topic_id (nodes st')).
  { eapply run_walks_nodes; [ | | apply initial_has_topic_id | exact Hw].
    - intros; reflexivity.
    - intros k m m'. apply node_step_has_topic_id. }
  exists dm, s, g, st'.
  refine (conj Hdm (conj Hs (conj Hg (conj Hw (conj Hout (conj Hst (conj Hnd (conj Hid _)))))))).
  intros n. subst out. rewrite (@output_In (nodes st') n Hnd). split.
  - intros [k Hk]. rewrite (Hid k n Hk). exact Hk.
  - eauto.
Qed.

(** ** Membership *)

Section MemberFacts.
Variable doc_lookup : list Z.
Variable probs : option (list (option (list float))).

Lemma dappend_get t x (dm : dict Z (list doc_rec)) t' :
  get_list t' (dappend t x dm)
  = (get_list t' dm ++ (if t' =? t then [x] else []))%list.
Proof.
  unfold dappend. rewrite get_list_zset. destruct (t' =? t) eqn:E.
  - apply Z.eqb_eq in E. subst. reflexivity.
  - rewrite app_nil_r. reflexivity.
Qed.

Lemma assign_loop_members assignments : forall idx dm dm' t,
  assign_loop doc_lookup probs idx assignments dm = Ok dm' ->
  get_list t dm' = (get_list t dm ++ members_of doc_lookup probs idx assignments t)%list.
Proof.
  induction assignments as [ | a rest IH]; simpl; intros idx dm dm' t H.
  - inversion H. rewrite app_nil_r. reflexivity.
  - apply bind_Ok in H. destruct H as [tid [Ha H]]. rewrite Ha.
    destruct tid as [t' | ]; [ | rewrite (IH _ _ _ t H); reflexivity].
    destruct (t' =? outlier_topic) eqn:Eo.
    + rewrite (IH _ _ _ t H). rewrite andb_false_r.
      destruct (nth_error doc_lookup idx); reflexivity.
    + destruct (nth_error doc_lookup idx) as [note_id | ];
        [ | rewrite (IH _ _ _ t H); reflexivity].
      rewrite (IH _ _ _ t H), dappend_get, andb_true_r, <- app_assoc.
      rewrite (Z.eqb_sym t' t). reflexivity.
Qed.

Lemma members_of_In assignments : forall idx t d,
  In d (members_of doc_lookup probs idx assignments t) ->
  exists j a, nth_error doc_lookup (idx + j) = Some (doc_id d)
              /\ nth_error assignments j = Some a
              /\ _to_int a = Ok (Some t)
              /\ t <> outlier_topic
              /\ weight d = weight_of probs (idx + j).
Proof.
  induction assignments as [ | a rest IH]; simpl; intros idx t d H; [contradiction | ].
  apply in_app_or in H. destruct H as [H | H].
  - destruct (_to_int a) as [[t' | ] | ] eqn:Ea; try contradiction.
    destruct (nth_error doc_lookup idx) as [note_id | ] eqn:En; try contradiction.
    destruct (t' =? t) eqn:Et; simpl in H; [ | contradiction].
    destruct (t' =? outlier_topic) eqn:Eo; simpl in H; [contradiction | ].
    destruct H as [<- | []]. apply Z.eqb_eq in Et. subst t'. apply Z.eqb_neq in Eo.
    exists 0%nat, a. rewrite Nat.add_0_r. simpl. auto.
  - apply IH in H. destruct H as [j [a' [H1 [H2 [H3 [H4 H5]]]]]].
    exists (S j), a'. rewrite Nat.add_succ_r. simpl. auto.
Qed.

Lemma members_of_NoDup assignments : forall idx t,
  NoDup doc_lookup ->
  NoDup (map doc_id (members_of doc_lookup probs idx assignments t)).
Proof.
  induction assignments as [ | a rest IH]; simpl; intros idx t Hnd; [constructor | ].
  rewrite map_app.
  assert (Hrest : NoDup (map doc_id (members_of doc_lookup probs (S idx) rest t)))
    by (apply IH; exact Hnd).
  destruct (_to_int a) as [[t' | ] | ]; try exact Hrest.
  destruct (nth_error doc_lookup idx) as [note_id | ] eqn:En; try exact Hrest.
  destruct ((t' =? t) && negb (t' =? outlier_topic)); try exact Hrest.
  simpl. constructor; [ | exact Hrest].
  intros Hin. apply in_map_iff in Hin. destruct Hin as [d [Hd Hin]].
  apply members_of_In in Hin. destruct Hin as [j [a' [H1 _]]].
  rewrite Hd in H1. rewrite <- En in H1.
  apply (proj1 (NoDup_nth_error doc_lookup) Hnd) in H1.
  - lia.
  - apply nth_error_Some. rewrite H1, En. discriminate.
Qed.
End MemberFacts.

Lemma doc_members_sorted topics probs doc_ids dm t :
  doc_members_of topics probs doc_ids = Ok dm ->
  get_list t dm = sort_docs (members_of doc_ids probs 0 (assignments_of topics) t).
Proof.
  unfold doc_members_of. intros H. apply bind_Ok in H. destruct H as [dm0 [H0 H]].
  inversion H. subst dm. clear H.
  rewrite sorted_members_get. fold (assignments_of topics) in H0.
  rewrite (@assign_loop_members doc_ids probs (assignments_of topics) 0%nat [] dm0 t H0).
  reflexivity.
Qed.

Lemma sort_docs_ascending l : ascending_ids (sort_docs l).
Proof.
  intros i a b Ha Hb.
  assert (Hs : no_inversion (fun y x => doc_id y <? doc_id x) (sort_docs l)).
  { apply stable_sort_no_inversion. intros x y. apply ltb_asym. }
  specialize (Hs i a b Ha Hb). apply Z.ltb_ge in Hs. exact Hs.
Qed.

Lemma ascending_NoDup_strict l :
  ascending_ids l -> NoDup (map doc_id l) -> strictly_ascending_ids l.
Proof.
  intros Ha Hnd i a b Hi Hj.
  specialize (Ha i a b Hi Hj).
  assert (doc_id a <> doc_id b); [ | lia].
  intros Heq.
  assert (H1 : nth_error (map doc_id l) i = Some (doc_id a))
    by (rewrite nth_error_map, Hi; reflexivity).
  assert (H2 : nth_error (map doc_id l) (S i) = Some (doc_id a))
    by (rewrite nth_error_map, Hj, Heq; reflexivity).
  rewrite <- H2 in H1.
  apply (proj1 (NoDup_nth_error (map doc_id l)) Hnd) in H1.
  - lia.
  - apply nth_error_Some. rewrite H1, H2. discriminate.
Qed.

Lemma output_docs (float_of_str : string -> option float)
        (slot : Z -> Z) (topic_model : Z -> list term_entry)
        (topic_info : option (list info_row)) (hierarchy_df : option (list hier_row))
        (topics : option (list pyval))
        (probabilities : option (list (option (list float)))) (doc_ids : list Z)
        (top_terms : pyval) (hierarchy_conf : option hier_conf)
        (out : list node) (st : stats_rec) (n : node) :
  build_topic_tree float_of_str slot topic_model topic_info hierarchy_df topics
                   probabilities doc_ids top_terms hierarchy_conf = Ok (out, st) ->
  In n out ->
  (docs n = []
   \/ docs n = sort_docs (members_of doc_ids probabilities 0 (assignments_of topics)
                                     (topic_id n)))
  /\ ascending_ids (docs n)
  /\ (forall d, In d (docs n) ->
      topic_id n <> outlier_topic
      /\ exists idx a, nth_error doc_ids idx = Some (doc_id d)
                       /\ nth_error (assignments_of topics) idx = Some a
                       /\ _to_int a = Ok (Some (topic_id n))
                       /\ weight d = weight_of probabilities idx).
Proof.
  intros Hb Hin. apply build_store in Hb.
  destruct Hb as [dm [s [g [st' [Hdm [Hs [Hg [Hw [Hout [Hst [Hnd [Hid Hmem]]]]]]]]]]]].
  set (top_count := top_count_of top_terms) in *.
  assert (Hleaf : dict_all (keeps_leaf_size
                              (leaf_node float_of_str topic_model top_count s dm))
                           (nodes st')).
  { eapply run_walks_nodes; [ | | apply initial_keeps_leaf_size | exact Hw].
    - intros k parent lvl lbl _ Hd. exfalso. apply Hd. reflexivity.
    - intros k m m'. apply node_step_keeps_leaf_size. }
  apply Hmem in Hin.
  assert (Hdocs : docs n = []
                  \/ docs n = sort_docs (members_of doc_ids probabilities 0
                                           (assignments_of topics) (topic_id n))).
  { destruct (docs n) as [ | d ds] eqn:Ed; [left; reflexivity | right].
    destruct (Hleaf _ _ Hin) as [_ Hd]; [rewrite Ed; discriminate | ].
    rewrite <- Ed, Hd. unfold leaf_node. cbn [docs].
    apply (@doc_members_sorted topics probabilities doc_ids dm (topic_id n) Hdm). }
  split; [exact Hdocs | ]. destruct Hdocs as [Hd | Hd]; rewrite Hd.
  - split; [ | intros d []]. intros [ | i] a b Ha; discriminate.
  - split; [apply sort_docs_ascending | ].
    intros d Hd'. unfold sort_docs in Hd'. apply stable_sort_In in Hd'.
    apply members_of_In in Hd'. destruct Hd' as [j [a [H1 [H2 [H3 [H4 H5]]]]]].
    split; [exact H4 | ]. exists j, a. auto.
Qed.

(** X8: with distinct document ids no document is listed twice: the ids of a
    node's documents ascend strictly, and two emitted nodes that list the
    same document id are the same node. *)
Theorem no_document_is_listed_twice (float_of_str : string -> option float)
        (slot : Z -> Z) (topic_model : Z -> list term_entry)
        (topic_info : option (list info_row)) (hierarchy_df : option (list hier_row))
        (topics : option (list pyval))
        (probabilities : option (list (option (list float)))) (doc_ids : list Z)
        (top_terms : pyval) (hierarchy_conf : option hier_conf)
        (out : list node) (st : stats_rec) :
  build_topic_tree float_of_str slot topic_model topic_info hierarchy_df topics
                   probabilities doc_ids top_terms hierarchy_conf = Ok (out, st) ->
  NoDup doc_ids ->
  (forall n, In n out -> strictly_ascending_ids (docs n))
  /\ (forall n1 n2 d1 d2, In n1 out -> In n2 out ->
        In d1 (docs n1) -> In d2 (docs n2) -> doc_id d1 = doc_id d2 -> n1 = n2).
Proof.
  intros Hb Hnd.
  pose proof Hb as Hb'. apply build_store in Hb'.
  destruct Hb' as [dm [s [g [st' [_ [_ [_ [_ [_ [_ [_ [_ Hmem]]]]]]]]]]]].
  split.
  - intros n Hin.
    edestruct output_docs as [[Hd | Hd] [Hasc _]]; [exact Hb | exact Hin | | ].
    + rewrite Hd. intros [ | i] a b Ha; discriminate.
    + apply ascending_NoDup_strict; [exact Hasc | ]. rewrite Hd.
      apply (@Permutation_NoDup _ (map doc_id (members_of doc_ids probabilities 0
                                      (assignments_of topics) (topic_id n)))).
      * apply Permutation_map. apply stable_sort_perm.
      * apply members_of_NoDup. exact Hnd.
  - intros n1 n2 d1 d2 Hn1 Hn2 Hd1 Hd2 Heq.
    edestruct output_docs as [_ [_ H1]]; [exact Hb | exact Hn1 | ].
    edestruct output_docs as [_ [_ H2]]; [exact Hb | exact Hn2 | ].
    destruct (H1 d1 Hd1) as [_ [i1 [a1 [Hi1 [Ha1 [Ht1 _]]]]]].
    destruct (H2 d2 Hd2) as [_ [i2 [a2 [Hi2 [Ha2 [Ht2 _]]]]]].
    rewrite Heq in Hi1. rewrite <- Hi2 in Hi1.
    apply (proj1 (NoDup_nth_error doc_ids) Hnd) in Hi1.
    + subst i2. rewrite Ha1 in Ha2. inversion Ha2. subst a2.
      rewrite Ht1 in Ht2. inversion Ht2 as [Ht].
      apply Hmem in Hn1. apply Hmem in Hn2. rewrite Ht in Hn1. congruence.
    + apply nth_error_Some. rewrite Hi1, Hi2. discriminate.
Qed.

Lemma no_document_is_listed_twice_witness :
  exists out st,
    build_topic_tree no_float_of_str slot_id no_topic_terms
      None None scenario_topics None scenario_doc_ids (VInt 10) None = Ok (out, st)
    /\ forall n, In n out -> strictly_ascending_ids (docs n).
Proof.
  eexists. eexists. split; [vm_compute; reflexivity | ].
  refine (proj1 (@no_document_is_listed_twice no_float_of_str slot_id
            no_topic_terms None None scenario_topics None scenario_doc_ids
            (VInt 10) None _ _ _ _)).
  - vm_compute. reflexivity.
  - unfold scenario_doc_ids. repeat constructor; simpl; intuition discriminate.
Defined.

(** ** The walk, step by step *)

Lemma zset_zset {V} (k : Z) (v1 v2 : V) (d : dict Z V) :
  zset k v2 (zset k v1 d) = zset k v2 d.
Proof.
  unfold zset. induction d as [ | [k0 v0] d IH]; simpl.
  - rewrite Z.eqb_refl. reflexivity.
  - destruct (k =? k0) eqn:E; simpl.
    + rewrite Z.eqb_refl. reflexivity.
    + rewrite E, IH. reflexivity.
Qed.

Lemma zset_same {V} (k : Z) (v : V) (d : dict Z V) :
  zget k d = Some v -> zset k v d = d.
Proof.
  unfold zget, zset. induction d as [ | [k0 v0] d IH]; simpl; [discriminate | ].
  destruct (k =? k0) eqn:E.
  - apply Z.eqb_eq in E. intros H. inversion H. subst. reflexivity.
  - intros H. rewrite IH; [reflexivity | exact H].
Qed.

Lemma same_frame_refl n : same_frame n n.
Proof. repeat split. Qed.

Lemma same_frame_trans n1 n2 n3 :
  same_frame n1 n2 -> same_frame n2 n3 -> same_frame n1 n3.
Proof.
  unfold same_frame. intros [A1 [A2 [A3 [A4 A5]]]] [B1 [B2 [B3 [B4 B5]]]].
  repeat split; congruence.
Qed.

Lemma relabel_frame pl k n : same_frame n (relabel pl k n).
Proof.
  unfold relabel.
  assert (Hd : same_frame n
                 (if String.eqb (label n) "" || starts_with_Topic (label n)
                  then match filter (fun s => negb (String.eqb s ""))
                                    (map term (firstn 4 (terms n))) with
                       | [] => set_label (topic_label k) n
                       | _ :: _ => set_label (join_space
                                      (filter (fun s => negb (String.eqb s ""))
                                              (map term (firstn 4 (terms n))))) n
                       end
                  else n)).
  { destruct (_ || _); [ | apply same_frame_refl].
    destruct (filter _ _); repeat split. }
  destruct (zget k pl) as [lo | ]; [ | exact Hd].
  destruct (String.eqb lo ""); [exact Hd | repeat split].
Qed.

(** The end of a walk replaces the node by one with the same frame. *)
Lemma finish_node_shape g top_count k kids total ns r ns' :
  finish_node g top_count k kids total ns = Ok (r, ns') ->
  exists n n', zget k ns = Some n /\ ns' = zset k n' ns
               /\ same_frame n n' /\ r = size n'.
Proof.
  unfold finish_node. intros H.
  destruct (zget k ns) as [n | ] eqn:En; [ | discriminate].
  set (n1 := if is_nil (docs n) then set_size total n else n) in *.
  assert (Hn1 : same_frame n n1).
  { unfold n1. destruct (is_nil (docs n)); repeat split. }
  apply bind_Ok in H. destruct H as [n2 [H2 H]].
  assert (Hn2 : same_frame n1 n2).
  { destruct (is_nil (terms n1)).
    - apply bind_Ok in H2. destruct H2 as [ts [_ H2]]. inversion H2. repeat split.
    - inversion H2. apply same_frame_refl. }
  relabel_ok H. inversion H. subst. clear H.
  exists n, (relabel (parent_labels g) k n2).
  split; [reflexivity | ]. split; [apply zset_zset | ]. split; [ | reflexivity].
  eapply same_frame_trans; [exact Hn1 | ].
  eapply same_frame_trans; [exact Hn2 | apply relabel_frame].
Qed.

Section WalkSteps.
Variable g : merge_graph.
Variable top_count : Z.
Variable P : dict Z node -> Prop.

Hypothesis P_mark : forall ns p lvl c,
  0 <= lvl -> In c (get_list p (parent_children g)) ->
  P ns -> P (mark_child p lvl c ns).
Hypothesis P_level : forall ns k n lvl,
  0 <= lvl -> P ns -> zget k ns = Some n -> P (zset k (set_level lvl n) ns).
Hypothesis P_frame : forall ns k n n',
  P ns -> zget k ns = Some n -> same_frame n n' -> P (zset k n' ns).

Lemma walk_children_steps rec node_id lvl :
  0 <= lvl ->
  (forall c st r st', P (nodes st) -> rec c (lvl + 1) st = Ok (r, st') -> P (nodes st')) ->
  forall children total st r st',
    (forall c, In c children -> In c (get_list node_id (parent_children g))) ->
    P (nodes st) ->
    walk_children rec node_id lvl children total st = Ok (r, st') ->
    P (nodes st').
Proof.
  intros Hl Hrec. induction children as [ | c rest IH]; simpl; intros total st r st' Hin Hst H.
  - inversion H. subst. exact Hst.
  - mark_ok H. apply bind_Ok in H. destruct H as [[cs st2] [Hc H]].
    eapply IH; [ | | exact H]; [auto | ].
    eapply Hrec; [ | exact Hc]. simpl.
    apply P_mark; auto.
Qed.

Lemma walk_steps fuel : forall node_id lvl st r st',
  0 <= lvl ->
  P (nodes st) ->
  walk g top_count fuel node_id lvl st = Ok (r, st') ->
  P (nodes st').
Proof.
  induction fuel as [ | fuel IH]; simpl; intros node_id lvl st r st' Hl Hst H;
    [discriminate | ].
  destruct (zmem node_id (visited st)).
  - destruct (zget node_id (nodes st)); [ | discriminate].
    inversion H. subst. exact Hst.
  - destruct (zget node_id (nodes st)) as [n | ] eqn:En; [ | discriminate].
    assert (H1 : P (zset node_id (set_level lvl n) (nodes st))).
    { apply P_level; assumption. }
    destruct (get_list node_id (parent_children g)) as [ | c kids] eqn:Ek.
    + inversion H. subst. exact H1.
    + apply bind_Ok in H. destruct H as [[total st2] [Hw H]].
      apply bind_Ok in H. destruct H as [[sz ns3] [Hf H]].
      inversion H. subst. clear H. simpl.
      apply finish_node_shape in Hf.
      destruct Hf as [m [m' [Hm [-> [Hfr _]]]]].
      eapply P_frame; [ | exact Hm | exact Hfr].
      eapply walk_children_steps; [exact Hl | | | | exact Hw]; simpl.
      * intros c0 st0 r0 st0' Hq Hr. eapply IH; [ | exact Hq | exact Hr]. lia.
      * rewrite Ek. auto.
      * exact H1.
Qed.

Lemma walk_all_steps ids : forall st st',
  P (nodes st) ->
  walk_all g top_count ids st = Ok st' ->
  P (nodes st').
Proof.
  induction ids as [ | i ids IH]; cbn [walk_all]; intros st st' Hst H.
  - inversion H. subst. exact Hst.
  - destruct (zmem i (visited st)); [eauto | ].
    apply bind_Ok in H. destruct H as [[r st2] [Hw H]].
    eapply IH; [ | exact H]. eapply walk_steps; [ | exact Hst | exact Hw]. lia.
Qed.

Lemma walk_roots_steps rts :
  (forall ns k n, In k rts -> P ns -> zget k ns = Some n ->
                  P (zset k (set_parent_id None n) ns)) ->
  forall st st',
    P (nodes st) ->
    walk_roots g top_count rts st = Ok st' ->
    P (nodes st').
Proof.
  induction rts as [ | root rts IH]; cbn [walk_roots]; intros Hroot st st' Hst H.
  - inversion H. subst. exact Hst.
  - assert (Hroot' : forall ns k n, In k rts -> P ns -> zget k ns = Some n ->
                                    P (zset k (set_parent_id None n) ns)).
    { intros ns k n Hk. apply Hroot. right. exact Hk. }
    destruct (zget root (nodes st)) as [n | ] eqn:En; [ | eauto].
    apply bind_Ok in H. destruct H as [[r st2] [Hw H]].
    eapply IH; [exact Hroot' | | exact H].
    eapply walk_steps; [ | | exact Hw]; [lia | ]. cbn [nodes].
    apply Hroot; [left; reflexivity | exact Hst | exact En].
Qed.

Lemma run_walks_steps rts ns st' :
  (forall ns k n, In k rts -> P ns -> zget k ns = Some n ->
                  P (zset k (set_parent_id None n) ns)) ->
  P ns ->
  run_walks g top_count rts ns = Ok st' ->
  P (nodes st').
Proof.
  unfold run_walks. intros Hroot Hns H. destruct rts as [ | r rts].
  - eapply walk_all_steps; [ | exact H]. exact Hns.
  - eapply walk_roots_steps; [exact Hroot | | exact H]. exact Hns.
Qed.
End WalkSteps.

(** ** The order of the output *)

Lemma node_before_asym a b : node_before a b = true -> node_before b a = false.
Proof.
  unfold node_before.
  destruct (Z.ltb_spec (level a) (level b)), (Z.eqb_spec (level a) (level b)),
    (Z.ltb_spec (topic_id a) (topic_id b)), (Z.ltb_spec (level b) (level a)),
    (Z.eqb_spec (level b) (level a)), (Z.ltb_spec (topic_id b) (topic_id a));
    simpl; intros; try reflexivity; try discriminate; lia.
Qed.

Lemma node_before_false a b :
  node_before b a = false ->
  level a < level b \/ (level a = level b /\ topic_id a <= topic_id b).
Proof.
  unfold node_before.
  destruct (Z.ltb_spec (level b) (level a)), (Z.eqb_spec (level b) (level a)),
    (Z.ltb_spec (topic_id b) (topic_id a));
    simpl; intros; try discriminate; lia.
Qed.

(** X9: the nodes come out ordered by level, and by topic id within a level,
    strictly: no two neighbours share both. *)
Theorem output_is_ordered (float_of_str : string -> option float)
        (slot : Z -> Z) (topic_model : Z -> list term_entry)
        (topic_info : option (list info_row)) (hierarchy_df : option (list hier_row))
        (topics : option (list pyval))
        (probabilities : option (list (option (list float)))) (doc_ids : list Z)
        (top_terms : pyval) (hierarchy_conf : option hier_conf)
        (out : list node) (st : stats_rec) :
  build_topic_tree float_of_str slot topic_model topic_info hierarchy_df topics
                   probabilities doc_ids top_terms hierarchy_conf = Ok (out, st) ->
  ordered_by_level_and_id out.
Proof.
  intros Hb. apply build_store in Hb.
  destruct Hb as [dm [s [g [st' [_ [_ [_ [_ [Hout [_ [Hnd [Hid _]]]]]]]]]]]].
  assert (Hids : NoDup (map topic_id out)).
  { subst out. apply output_topic_ids; assumption. }
  assert (Hs : no_inversion node_before out).
  { subst out. apply stable_sort_no_inversion. apply node_before_asym. }
  intros i a b Ha Hb.
  specialize (Hs i a b Ha Hb). apply node_before_false in Hs.
  assert (Hne : topic_id a <> topic_id b); [ | lia].
  intros Heq.
  assert (H1 : nth_error (map topic_id out) i = Some (topic_id a))
    by (rewrite nth_error_map, Ha; reflexivity).
  assert (H2 : nth_error (map topic_id out) (S i) = Some (topic_id a))
    by (rewrite nth_error_map, Hb, Heq; reflexivity).
  rewrite <- H2 in H1.
  apply (proj1 (NoDup_nth_error (map topic_id out)) Hids) in H1.
  - lia.
  - apply nth_error_Some. rewrite H1, H2. discriminate.
Qed.

Lemma output_is_ordered_witness :
  exists out st,
    build_topic_tree no_float_of_str slot_id no_topic_terms
      None (Some scenario_merge) scenario_topics None scenario_doc_ids
      (VInt 10) None = Ok (out, st)
    /\ ordered_by_level_and_id out.
Proof.
  eexists. eexists. split; [vm_compute; reflexivity | ].
  refine (@output_is_ordered no_float_of_str slot_id no_topic_terms
            None (Some scenario_merge) scenario_topics None scenario_doc_ids
            (VInt 10) None _ _ _).
  vm_compute. reflexivity.
Defined.

(** ** The ids that are emitted *)

Lemma filter_map_length {A B} (f : A -> B) (p : B -> bool) (l : list A) :
  List.length (filter (fun x => p (f x)) l) = List.length (filter p (map f l)).
Proof.
  induction l as [ | x l IH]; simpl; [reflexivity | ].
  destruct (p (f x)); simpl; rewrite IH; reflexivity.
Qed.

Lemma count_members (S l : list Z) :
  NoDup l -> NoDup S -> incl S l ->
  List.length (filter (fun x => zmem x S) l) = List.length S.
Proof.
  intros Hl HS Hincl. apply Permutation_length. apply NoDup_Permutation.
  - apply NoDup_filter. exact Hl.
  - exact HS.
  - intros x. rewrite filter_In, zmem_In. split; [tauto | ].
    intros Hx. split; [apply Hincl; exact Hx | exact Hx].
Qed.

Lemma run_walks_keys g top_count rts ns st' k :
  In k (dkeys ns) ->
  run_walks g top_count rts ns = Ok st' ->
  In k (dkeys (nodes st')).
Proof.
  apply (@run_walks_inv g top_count (fun ns => In k (dkeys ns))).
  - intros ns0 k0 parent l lbl H _ _. apply dkeys_zset. right. exact H.
  - intros ns0 k0 n n' H _ _. apply dkeys_zset. right. exact H.
Qed.

Lemma mark_child_known g top_count leaf_ids rts ns st' :
  (forall k, In k (dkeys ns) -> known_id leaf_ids g k) ->
  run_walks g top_count rts ns = Ok st' ->
  forall k, In k (dkeys (nodes st')) -> known_id leaf_ids g k.
Proof.
  apply (@run_walks_steps g top_count
           (fun ns => forall k, In k (dkeys ns) -> known_id leaf_ids g k)).
  - intros ns0 p lvl c _ Hc H k Hk. apply mark_child_keys in Hk.
    destruct Hk as [-> | Hk]; [ | auto].
    right. right. exists p. unfold get_list in Hc.
    destruct (zget p (parent_children g)) as [kids | ]; [eauto | contradiction].
  - intros ns0 k n lvl _ H Hn k' Hk'. apply dkeys_zset in Hk'.
    destruct Hk' as [-> | Hk']; [ | auto]. apply H. apply zget_keys. eauto.
  - intros ns0 k n n' H Hn _ k' Hk'. apply dkeys_zset in Hk'.
    destruct Hk' as [-> | Hk']; [ | auto]. apply H. apply zget_keys. eauto.
  - intros ns0 k n _ H Hn k' Hk'. apply dkeys_zset in Hk'.
    destruct Hk' as [-> | Hk']; [ | auto]. apply H. apply zget_keys. eauto.
Qed.

Lemma add_parent_keys pl ns p k :
  In k (dkeys (add_parent pl ns p)) <-> k = p \/ In k (dkeys ns).
Proof.
  unfold add_parent. destruct (zget p ns); apply dkeys_zset.
Qed.

Lemma add_parents_keys g ns k :
  In k (dkeys (add_parents g ns)) <->
  In k (dkeys (parent_children g)) \/ In k (dkeys ns).
Proof.
  unfold add_parents. generalize (dkeys (parent_children g)) as ps.
  intros ps. revert ns. induction ps as [ | p ps IH]; simpl; intros ns.
  - tauto.
  - rewrite IH, add_parent_keys. intuition.
Qed.

Lemma leaf_nodes_keys float_of_str topic_model top_count s dm k :
  In k (dkeys (leaf_nodes float_of_str topic_model top_count s dm))
  <-> In k (leaf_topic_ids s dm).
Proof.
  rewrite zget_keys, leaf_nodes_get. rewrite <- zmem_In.
  destruct (zmem k (leaf_topic_ids s dm)); split; intros H; try discriminate; eauto.
  destruct H as [v H]. discriminate.
Qed.

Lemma summary_keys float_of_str dm topic_info s t :
  summary_of float_of_str dm topic_info = Ok s ->
  (In t (dkeys (size_by_topic s)) <-> reported_count (rows_of topic_info) t <> None).
Proof.
  unfold summary_of. fold (rows_of topic_info). intros Hs.
  rewrite zget_keys.
  rewrite (@info_loop_size float_of_str dm (rows_of topic_info) _ s t Hs).
  cbn [size_by_topic zget dget].
  destruct (reported_count (rows_of topic_info) t); split; intros H.
  - discriminate.
  - eauto.
  - destruct H as [v H]. discriminate.
  - exfalso. apply H. reflexivity.
Qed.

Lemma leaf_topic_ids_spec float_of_str topic_info topics probabilities doc_ids dm s t :
  doc_members_of topics probabilities doc_ids = Ok dm ->
  summary_of float_of_str dm topic_info = Ok s ->
  (In t (leaf_topic_ids s dm) <-> is_leaf_topic topic_info topics doc_ids t).
Proof.
  intros Hdm Hs. rewrite leaf_topic_ids_In. unfold is_leaf_topic.
  rewrite (@summary_keys float_of_str dm topic_info s t Hs).
  destruct (@doc_members_count topics probabilities doc_ids dm t Hdm) as [_ Hk].
  rewrite Hk. tauto.
Qed.

(** ** Levels *)

Lemma keeps_levels_refl st : keeps_levels st st.
Proof. split; [apply incl_refl | eauto]. Qed.

Lemma keeps_levels_trans st1 st2 st3 :
  keeps_levels st1 st2 -> keeps_levels st2 st3 -> keeps_levels st1 st3.
Proof.
  intros [A1 A2] [B1 B2]. split.
  - intros v Hv. auto.
  - intros v n Hv Hn. destruct (A2 v n Hv Hn) as [n2 [Hn2 Hl2]].
    destruct (B2 v n2 (A1 v Hv) Hn2) as [n3 [Hn3 Hl3]].
    exists n3. split; [exact Hn3 | congruence].
Qed.

Lemma reached_from_keeps g st st' k l :
  keeps_levels st st' -> reached_from g st k l -> reached_from g st' k l.
Proof.
  intros [A1 A2] [p [np [Hc [Hv [Hp Hl]]]]].
  destruct (A2 p np Hv Hp) as [np' [Hp' Hl']].
  exists p, np'. refine (conj Hc (conj (A1 p Hv) (conj Hp' _))). lia.
Qed.

Lemma level_ok_keeps g st st' k n n' :
  keeps_levels st st' -> level n' = level n ->
  level_ok g st k n -> level_ok g st' k n'.
Proof.
  intros Hk Hl [H0 H1]. split; [lia | ]. rewrite Hl. intros Hpos.
  eapply reached_from_keeps; eauto.
Qed.

Lemma update_keeps_levels st k n n' :
  zget k (nodes st) = Some n -> level n' = level n ->
  keeps_levels st {| nodes := zset k n' (nodes st); visited := visited st |}.
Proof.
  intros Hn Hl. split; [apply incl_refl | ]. cbn [nodes visited].
  intros v m Hv Hm. rewrite zget_zset. destruct (v =? k) eqn:E.
  - apply Z.eqb_eq in E. subst. rewrite Hn in Hm. inversion Hm. subst. eauto.
  - eauto.
Qed.

Lemma update_levels_ok g st k n n' :
  levels_ok g st -> zget k (nodes st) = Some n -> level n' = level n ->
  levels_ok g {| nodes := zset k n' (nodes st); visited := visited st |}.
Proof.
  intros [H1 H2] Hn Hl.
  pose proof (@update_keeps_levels st k n n' Hn Hl) as Hk. split.
  - cbn [nodes]. intros k' m Hm. rewrite zget_zset in Hm. destruct (k' =? k) eqn:E.
    + apply Z.eqb_eq in E. subst. inversion Hm. subst.
      eapply level_ok_keeps; [exact Hk | exact Hl | apply H1; exact Hn].
    + eapply level_ok_keeps; [exact Hk | reflexivity | apply H1; exact Hm].
  - cbn [nodes visited]. intros v Hv. apply dkeys_zset. right. auto.
Qed.

Lemma mark_levels g st node_id np lvl c :
  levels_ok g st -> In node_id (visited st) ->
  zget node_id (nodes st) = Some np -> level np = lvl -> 0 <= lvl ->
  In c (get_list node_id (parent_children g)) ->
  levels_ok g {| nodes := mark_child node_id lvl c (nodes st); visited := visited st |}
  /\ keeps_levels st {| nodes := mark_child node_id lvl c (nodes st);
                        visited := visited st |}
  /\ reached_from g {| nodes := mark_child node_id lvl c (nodes st);
                       visited := visited st |} c (lvl + 1).
Proof.
  intros Hok Hv Hp Hl Hpos Hc.
  assert (Hr : reached_from g st c (lvl + 1)).
  { exists node_id, np. refine (conj Hc (conj Hv (conj Hp _))). lia. }
  unfold mark_child. destruct (zget c (nodes st)) as [m | ] eqn:Ec.
  - assert (Hk : keeps_levels st {| nodes := zset c (set_parent_id (Some node_id) m)
                                              (nodes st);
                                    visited := visited st |}).
    { eapply update_keeps_levels; [exact Ec | reflexivity]. }
    split; [eapply update_levels_ok; [exact Hok | exact Ec | reflexivity] | ].
    split; [exact Hk | eapply reached_from_keeps; eauto].
  - assert (Hk : keeps_levels st {| nodes := zset c (stub c (Some node_id) (lvl + 1)
                                                          (topic_label c)) (nodes st);
                                    visited := visited st |}).
    { split; [apply incl_refl | ]. cbn [nodes visited]. intros v n Hvv Hn.
      rewrite zget_zset_neq; [eauto | ]. intros ->. congruence. }
    assert (Hr' : reached_from g {| nodes := zset c (stub c (Some node_id) (lvl + 1)
                                                          (topic_label c)) (nodes st);
                                    visited := visited st |} c (lvl + 1)).
    { eapply reached_from_keeps; eauto. }
    refine (conj _ (conj Hk Hr')). destruct Hok as [H1 H2]. split.
    + cbn [nodes]. intros k' m Hm. rewrite zget_zset in Hm. destruct (k' =? c) eqn:E.
      * apply Z.eqb_eq in E. subst. inversion Hm. subst.
        split; simpl; [lia | intros _; exact Hr'].
      * eapply level_ok_keeps; [exact Hk | reflexivity | apply H1; exact Hm].
    + cbn [nodes visited]. intros v Hvv. apply dkeys_zset. right. auto.
Qed.

Lemma visit_levels g st node_id n lvl :
  levels_ok g st -> ~ In node_id (visited st) ->
  zget node_id (nodes st) = Some n -> 0 <= lvl ->
  (0 < lvl -> reached_from g st node_id lvl) ->
  levels_ok g {| nodes := zset node_id (set_level lvl n) (nodes st);
                 visited := node_id :: visited st |}
  /\ keeps_levels st {| nodes := zset node_id (set_level lvl n) (nodes st);
                        visited := node_id :: visited st |}.
Proof.
  intros [H1 H2] Hnv Hn Hpos Hr.
  assert (Hk : keeps_levels st {| nodes := zset node_id (set_level lvl n) (nodes st);
                                  visited := node_id :: visited st |}).
  { split; [apply incl_tl, incl_refl | ]. cbn [nodes visited]. intros v m Hv Hm.
    rewrite zget_zset_neq; [eauto | ]. intros ->. contradiction. }
  split; [ | exact Hk]. split.
  - cbn [nodes]. intros k' m Hm. rewrite zget_zset in Hm. destruct (k' =? node_id) eqn:E.
    + apply Z.eqb_eq in E. subst. inversion Hm. subst.
      split; simpl; [exact Hpos | ]. intros Hl. eapply reached_from_keeps; eauto.
    + eapply level_ok_keeps; [exact Hk | reflexivity | apply H1; exact Hm].
  - cbn [nodes visited]. intros v [<- | Hv]; apply dkeys_zset; [left; reflexivity | ].
    right. auto.
Qed.

Section WalkLevels.
Variable g : merge_graph.
Variable top_count : Z.

Lemma walk_children_levels rec node_id lvl :
  0 <= lvl ->
  (forall c st r st',
      levels_ok g st -> reached_from g st c (lvl + 1) ->
      rec c (lvl + 1) st = Ok (r, st') ->
      levels_ok g st' /\ keeps_levels st st') ->
  forall kids total st r st',
    (forall c, In c kids -> In c (get_list node_id (parent_children g))) ->
    levels_ok g st -> In node_id (visited st) ->
    (exists np, zget node_id (nodes st) = Some np /\ level np = lvl) ->
    walk_children rec node_id lvl kids total st = Ok (r, st') ->
    levels_ok g st' /\ keeps_levels st st'.
Proof.
  intros Hpos Hrec. induction kids as [ | c rest IH]; simpl;
    intros total st r st' Hin Hok Hv [np [Hp Hl]] H.
  - inversion H. subst. split; [exact Hok | apply keeps_levels_refl].
  - mark_ok H. apply bind_Ok in H. destruct H as [[cs st2] [Hc H]].
    destruct (@mark_levels g st node_id np lvl c Hok Hv Hp Hl Hpos (Hin c (or_introl eq_refl)))
      as [Hok1 [Hk1 Hr1]].
    destruct (Hrec _ _ _ _ Hok1 Hr1 Hc) as [Hok2 Hk2].
    pose proof (keeps_levels_trans Hk1 Hk2) as Hk.
    destruct Hk as [Hk_v Hk_l].
    destruct (Hk_l node_id np Hv Hp) as [np2 [Hp2 Hl2]].
    edestruct IH as [Hok3 Hk3]; [ | exact Hok2 | apply Hk_v; exact Hv | | exact H | ].
    + intros c' Hc'. apply Hin. right. exact Hc'.
    + exists np2. split; [exact Hp2 | congruence].
    + split; [exact Hok3 | ].
      eapply keeps_levels_trans; [ | exact Hk3]. split; assumption.
Qed.

Lemma walk_levels fuel : forall node_id lvl st r st',
  levels_ok g st -> 0 <= lvl ->
  (0 < lvl -> reached_from g st node_id lvl) ->
  walk g top_count fuel node_id lvl st = Ok (r, st') ->
  levels_ok g st' /\ keeps_levels st st' /\ In node_id (visited st').
Proof.
  induction fuel as [ | fuel IH]; intros node_id lvl st r st' Hok Hpos Hr H;
    [discriminate | ].
  cbn [walk] in H.
  destruct (zmem node_id (visited st)) eqn:Evis.
  - destruct (zget node_id (nodes st)); [ | discriminate].
    inversion H. subst. apply zmem_In in Evis.
    split; [exact Hok | ]. split; [apply keeps_levels_refl | exact Evis].
  - apply zmem_not_In in Evis.
    destruct (zget node_id (nodes st)) as [n | ] eqn:En; [ | discriminate].
    destruct (@visit_levels g st node_id n lvl Hok Evis En Hpos Hr) as [Hok1 Hk1].
    destruct (get_list node_id (parent_children g)) as [ | c kids] eqn:Ek.
    + inversion H. subst. split; [exact Hok1 | ]. split; [exact Hk1 | left; reflexivity].
    + apply bind_Ok in H. destruct H as [[total st2] [Hw H]].
      apply bind_Ok in H. destruct H as [[sz ns3] [Hf H]].
      inversion H. subst. clear H.
      apply finish_node_shape in Hf.
      destruct Hf as [m [m' [Hm [-> [Hfr _]]]]].
      assert (Hlm : level m' = level m) by apply Hfr.
      edestruct (@walk_children_levels (walk g top_count fuel) node_id lvl Hpos)
        as [Hok2 Hk2]; [ | | exact Hok1 | | | exact Hw | ].
      * intros c0 st0 r0 st0' Hq Hr0 Hw0.
        edestruct IH as [A [B _]]; [exact Hq | | | exact Hw0 | ]; [lia | auto | auto].
      * rewrite Ek. auto.
      * left. reflexivity.
      * exists (set_level lvl n). split; [apply zget_zset_eq | reflexivity].
      * split; [eapply update_levels_ok; [exact Hok2 | exact Hm | exact Hlm] | ].
        assert (Hk3 : keeps_levels st {| nodes := zset node_id m' (nodes st2);
                                         visited := visited st2 |}).
        { eapply keeps_levels_trans; [exact Hk1 | ].
          eapply keeps_levels_trans; [exact Hk2 | ].
          eapply update_keeps_levels; [exact Hm | exact Hlm]. }
        split; [exact Hk3 | ].
        cbn [visited]. apply Hk2. left. reflexivity.
Qed.

Lemma walk_roots_levels rts : forall st st',
  levels_ok g st ->
  walk_roots g top_count rts st = Ok st' ->
  levels_ok g st'.
Proof.
  induction rts as [ | root rts IH]; cbn [walk_roots]; intros st st' Hok H.
  - inversion H. subst. exact Hok.
  - destruct (zget root (nodes st)) as [n | ] eqn:En; [ | eauto].
    apply bind_Ok in H. destruct H as [[r st2] [Hw H]].
    eapply IH; [ | exact H].
    edestruct walk_levels as [A _]; [ | | | exact Hw | exact A]; [ | lia | lia].
    eapply update_levels_ok; [exact Hok | exact En | reflexivity].
Qed.

Lemma walk_all_levels ids : forall st st',
  levels_ok g st ->
  walk_all g top_count ids st = Ok st' ->
  levels_ok g st'.
Proof.
  induction ids as [ | i ids IH]; cbn [walk_all]; intros st st' Hok H.
  - inversion H. subst. exact Hok.
  - destruct (zmem i (visited st)); [eauto | ].
    apply bind_Ok in H. destruct H as [[r st2] [Hw H]].
    eapply IH; [ | exact H].
    edestruct walk_levels as [A _]; [exact Hok | | | exact Hw | exact A]; lia.
Qed.

Lemma run_walks_levels rts ns st' :
  dict_all (fun _ n => level n = 0) ns ->
  run_walks g top_count rts ns = Ok st' ->
  levels_ok g st'.
Proof.
  unfold run_walks. intros Hns H.
  assert (Hok : levels_ok g {| nodes := ns; visited := [] |}).
  { split; [ | intros v []]. cbn [nodes]. intros k n Hn.
    split; rewrite (Hns k n Hn); lia. }
  destruct rts.
  - eapply walk_all_levels; eauto.
  - eapply walk_roots_levels; eauto.
Qed.
End WalkLevels.

(** ** The node store after the walks *)

Lemma list_max_ge (l : list Z) x : In x l -> x <= list_max l.
Proof.
  unfold list_max. destruct l as [ | a r]; [intros [] | ].
  assert (H : forall r a x, (x = a \/ In x r) -> x <= fold_left Z.max r a).
  { clear. induction r as [ | b r IH]; simpl; intros a x [Hx | Hx].
    - lia.
    - contradiction.
    - subst. specialize (IH (Z.max a b) (Z.max a b) (or_introl eq_refl)). lia.
    - destruct Hx as [<- | Hx].
      + specialize (IH (Z.max a b) (Z.max a b) (or_introl eq_refl)). lia.
      + apply IH. right. exact Hx. }
  intros [<- | Hx]; apply H; auto.
Qed.

Lemma list_max_In (l : list Z) : l <> [] -> In (list_max l) l.
Proof.
  unfold list_max. destruct l as [ | a r]; [congruence | ]. intros _.
  assert (H : forall r a, fold_left Z.max r a = a \/ In (fold_left Z.max r a) r).
  { clear. induction r as [ | b r IH]; simpl; intros a; [auto | ].
    destruct (IH (Z.max a b)) as [H | H]; [ | auto].
    rewrite H. destruct (Z.max_spec a b) as [[_ ->] | [_ ->]]; auto. }
  destruct (H r a) as [-> | Hin]; simpl; auto.
Qed.

Section StoreFacts.
Variable float_of_str : string -> option float.
Variable slot : Z -> Z.
Variable topic_model : Z -> list term_entry.
Variable top_count : Z.
Variable s : summary.
Variable dm : dict Z (list doc_rec).
Variable g : merge_graph.
Variable st' : wstate.

Local Notation "'ns0'" := (initial_nodes float_of_str topic_model top_count s dm g).

Hypothesis Hw : run_walks g top_count (roots_of slot g) ns0 = Ok st'.

Lemma initial_level_zero : dict_all (fun _ n => level n = 0) ns0.
Proof.
  unfold initial_nodes. apply add_parents_all; try (intros; assumption).
  - intros k lbl. reflexivity.
  - apply leaf_nodes_all. intros t _. reflexivity.
Qed.

Lemma initial_linked : dict_all (linked g) ns0.
Proof.
  unfold initial_nodes. apply add_parents_all.
  - intros k lbl. split; [reflexivity | intros p Hp; discriminate].
  - intros k n l H. exact H.
  - intros k n H. exact H.
  - apply leaf_nodes_all. intros t _.
    split; [reflexivity | intros p Hp; discriminate].
Qed.

Lemma initial_known k :
  In k (dkeys ns0) <-> In k (dkeys (parent_children g)) \/ In k (leaf_topic_ids s dm).
Proof. unfold initial_nodes. rewrite add_parents_keys, leaf_nodes_keys. tauto. Qed.

Lemma store_linked : dict_all (linked g) (nodes st').
Proof.
  eapply run_walks_nodes; [ | | apply initial_linked | exact Hw].
  - intros k parent lvl lbl Hp. split; [reflexivity | exact Hp].
  - intros k n n'. apply node_step_linked.
Qed.

Lemma store_levels : levels_ok g st'.
Proof. eapply run_walks_levels; [apply initial_level_zero | exact Hw]. Qed.

Lemma store_known k :
  In k (dkeys (nodes st')) -> known_id (leaf_topic_ids s dm) g k.
Proof.
  revert k. eapply mark_child_known; [ | exact Hw].
  intros k Hk. apply initial_known in Hk. unfold known_id. tauto.
Qed.

Lemma store_keys k :
  In k (dkeys (parent_children g)) \/ In k (leaf_topic_ids s dm) ->
  In k (dkeys (nodes st')).
Proof.
  intros Hk. eapply run_walks_keys; [ | exact Hw]. apply initial_known. exact Hk.
Qed.

(** With an acyclic merge graph the walks reach every parent and every
    child. *)
Lemma acyclic_all_visited height :
  acyclic_by g height -> seen_ok g ->
  (forall p, In p (dkeys (parent_children g)) -> In p (visited st'))
  /\ (forall c, is_child g c -> In c (visited st')).
Proof.
  intros Hac Hseen.
  assert (Hinit : all_complete g {| nodes := ns0; visited := [] |}).
  { split; [apply initial_parents_cleared | intros v []]. }
  pose proof Hw as Hw'. unfold run_walks in Hw'.
  destruct (roots_of slot g) as [ | r rts] eqn:Er.
  - apply roots_nil_no_parent in Er. split.
    + intros p Hp. rewrite Er in Hp. contradiction.
    + intros c [q [kids [Hq Hc]]].
      assert (Hk : In q (dkeys (parent_children g))) by (apply zget_keys; eauto).
      rewrite Er in Hk. contradiction.
  - edestruct walk_roots_complete as [[Hpc Hcomp] [_ Hroots]];
      [exact Hac | exact Hinit | | exact Hw' | ].
    + intros root Hr. cbn [nodes]. apply initial_keys.
      apply (roots_of_keys slot). rewrite Er. exact Hr.
    + assert (Hv : forall p, In p (dkeys (parent_children g)) -> In p (visited st')).
      { intros p Hp. eapply parents_reached; [exact Hac | exact Hseen | | exact Hcomp | exact Hp].
        rewrite Er. exact Hroots. }
      split; [exact Hv | ].
      intros c [q [kids [Hq Hc]]].
      assert (Hk : In q (dkeys (parent_children g))) by (apply zget_keys; eauto).
      assert (Hne : get_list q (parent_children g) <> []).
      { unfold get_list. rewrite Hq. intros ->. contradiction. }
      destruct (Hcomp q (Hv q Hk) Hne) as [_ Hkids].
      apply Hkids. unfold get_list. rewrite Hq. exact Hc.
Qed.
End StoreFacts.

Lemma merge_graph_seen_ok float_of_str md hierarchy_df g :
  merge_graph_of float_of_str md hierarchy_df = Ok g -> seen_ok g.
Proof.
  unfold merge_graph_of. intros Hg.
  eapply hier_loop_seen_ok; [exact Hg | apply seen_ok_empty].
Qed.

(** ** The emitted ids *)

(** X10: a topic id is emitted only if it is a leaf topic, a parent or a child
    of the adjacency; every leaf topic and every parent is emitted, and
    with an acyclic merge graph every child as well. The expected parents
    are all emitted. *)
Theorem emitted_ids_are_leaves_parents_children
        (float_of_str : string -> option float)
        (slot : Z -> Z) (topic_model : Z -> list term_entry)
        (topic_info : option (list info_row)) (hierarchy_df : option (list hier_row))
        (topics : option (list pyval))
        (probabilities : option (list (option (list float)))) (doc_ids : list Z)
        (top_terms : pyval) (hierarchy_conf : option hier_conf)
        (out : list node) (st : stats_rec) (g : merge_graph) :
  build_topic_tree float_of_str slot topic_model topic_info hierarchy_df topics
                   probabilities doc_ids top_terms hierarchy_conf = Ok (out, st) ->
  merge_graph_of float_of_str (max_distance_of float_of_str hierarchy_conf)
                 hierarchy_df = Ok g ->
  (forall t, In t (map topic_id out) ->
             is_leaf_topic topic_info topics doc_ids t
             \/ In t (dkeys (parent_children g)) \/ is_child g t)
  /\ (forall t, is_leaf_topic topic_info topics doc_ids t
                \/ In t (dkeys (parent_children g)) ->
                In t (map topic_id out))
  /\ (forall height t, acyclic_by g height -> is_child g t -> In t (map topic_id out))
  /\ parents_emitted st = parents_expected st.
Proof.
  intros Hb Hg. apply build_store in Hb.
  destruct Hb as [dm [s [g' [st' [Hdm [Hs [Hg' [Hw [Hout [Hst [Hnd [Hid Hmem]]]]]]]]]]]].
  rewrite Hg in Hg'. inversion Hg'. subst g'. clear Hg'.
  assert (Hkeys : forall t, In t (map topic_id out) <-> In t (dkeys (nodes st'))).
  { intros t. rewrite in_map_iff, zget_keys. split.
    - intros [n [Ht Hn]]. apply Hmem in Hn. rewrite Ht in Hn. eauto.
    - intros [n Hn]. exists n. pose proof (Hid t n Hn) as Ht. unfold has_topic_id in Ht.
      split; [exact Ht | ]. apply Hmem. rewrite Ht. exact Hn. }
  assert (H2 : forall t, is_leaf_topic topic_info topics doc_ids t
                         \/ In t (dkeys (parent_children g)) ->
                         In t (map topic_id out)).
  { intros t Ht. apply Hkeys. eapply store_keys; [exact Hw | ].
    rewrite (@leaf_topic_ids_spec float_of_str topic_info topics probabilities
               doc_ids dm s t Hdm Hs). tauto. }
  split; [ | split; [exact H2 | split]].
  - intros t Ht. apply Hkeys in Ht.
    edestruct store_known as [H | H]; [exact Hw | exact Ht | | auto].
    left. eapply leaf_topic_ids_spec; eauto.
  - intros height t Hac Hc. apply Hkeys.
    edestruct store_levels as [_ Hvis]; [exact Hw | ]. apply Hvis.
    eapply acyclic_all_visited; [exact Hw | exact Hac | | exact Hc].
    eapply merge_graph_seen_ok. exact Hg.
  - rewrite Hst. unfold stats_of. cbn [parents_emitted parents_expected].
    unfold count_if, len. f_equal.
    rewrite (filter_map_length topic_id
               (fun x => zmem x (set_of (dkeys (parent_children g)))) out).
    apply count_members.
    + subst out. apply output_topic_ids; assumption.
    + apply NoDup_nodup.
    + intros t Ht. apply (proj1 (set_of_In _ _)) in Ht. apply H2. right. exact Ht.
Qed.

Lemma emitted_ids_are_leaves_parents_children_witness :
  exists out st,
    build_topic_tree no_float_of_str slot_id no_topic_terms
      None (Some scenario_merge) scenario_topics None scenario_doc_ids
      (VInt 10) None = Ok (out, st)
    /\ parents_emitted st = parents_expected st.
Proof.
  eexists. eexists. split; [vm_compute; reflexivity | ].
  refine (proj2 (proj2 (proj2
    (@emitted_ids_are_leaves_parents_children no_float_of_str slot_id no_topic_terms
       None (Some scenario_merge) scenario_topics None scenario_doc_ids
       (VInt 10) None _ _ (add_merge empty_graph 2 0 1 VNone) _ _)))).
  - vm_compute. reflexivity.
  - reflexivity.
Defined.

(** ** The levels in the output *)

Lemma get_list_is_child g p c :
  In c (get_list p (parent_children g)) -> is_child g c.
Proof.
  unfold get_list, is_child. intros H.
  destruct (zget p (parent_children g)) as [kids | ] eqn:E; [eauto | contradiction].
Qed.

(** X11: levels start at 0 and have no gaps: a node above level 0 is one level
    below a node that lists it as a child, every level up to [max_level] is
    populated, and [max_level] bounds them all. A node that no row names as
    a child is at level 0 and has no parent link. *)
Theorem levels_follow_the_adjacency (float_of_str : string -> option float)
        (slot : Z -> Z) (topic_model : Z -> list term_entry)
        (topic_info : option (list info_row)) (hierarchy_df : option (list hier_row))
        (topics : option (list pyval))
        (probabilities : option (list (option (list float)))) (doc_ids : list Z)
        (top_terms : pyval) (hierarchy_conf : option hier_conf)
        (out : list node) (st : stats_rec) (g : merge_graph) :
  build_topic_tree float_of_str slot topic_model topic_info hierarchy_df topics
                   probabilities doc_ids top_terms hierarchy_conf = Ok (out, st) ->
  merge_graph_of float_of_str (max_distance_of float_of_str hierarchy_conf)
                 hierarchy_df = Ok g ->
  (forall n, In n out -> 0 <= level n <= max_level st)
  /\ (forall n, In n out -> 0 < level n ->
        exists np, In np out
                   /\ In (topic_id n) (get_list (topic_id np) (parent_children g))
                   /\ level np + 1 = level n)
  /\ (forall n, In n out -> ~ is_child g (topic_id n) ->
        level n = 0 /\ parent_id n = None)
  /\ (forall l, out <> [] -> 0 <= l <= max_level st ->
        exists n, In n out /\ level n = l).
Proof.
  intros Hb Hg. apply build_store in Hb.
  destruct Hb as [dm [s [g' [st' [Hdm [Hs [Hg' [Hw [Hout [Hst [Hnd [Hid Hmem]]]]]]]]]]]].
  rewrite Hg in Hg'. inversion Hg'. subst g'. clear Hg'.
  assert (Hlev : levels_ok g st') by (eapply store_levels; exact Hw).
  assert (Hlink : dict_all (linked g) (nodes st')) by (eapply store_linked; exact Hw).
  destruct Hlev as [Hlev _].
  assert (Hmax : max_level st = list_max (map level out)).
  { rewrite Hst. reflexivity. }
  assert (H1 : forall n, In n out -> 0 <= level n <= max_level st).
  { intros n Hn. split.
    - apply Hmem in Hn. apply (Hlev _ _ Hn).
    - rewrite Hmax. apply list_max_ge. apply in_map. exact Hn. }
  assert (H2 : forall n, In n out -> 0 < level n ->
        exists np, In np out
                   /\ In (topic_id n) (get_list (topic_id np) (parent_children g))
                   /\ level np + 1 = level n).
  { intros n Hn Hpos. apply Hmem in Hn.
    destruct (Hlev _ _ Hn) as [_ Hr].
    destruct (Hr Hpos) as [p [np [Hc [_ [Hp Hl]]]]].
    pose proof (Hid p np Hp) as Hpid. unfold has_topic_id in Hpid.
    exists np. rewrite Hpid. refine (conj _ (conj Hc Hl)).
    apply Hmem. rewrite Hpid. exact Hp. }
  refine (conj H1 (conj H2 (conj _ _))).
  - intros n Hn Hnc. split.
    + destruct (H1 n Hn) as [H0 _].
      destruct (Z.eq_dec (level n) 0) as [Hz | Hz]; [exact Hz | ].
      exfalso. destruct (H2 n Hn) as [np [_ [Hc _]]]; [lia | ].
      apply Hnc. eapply get_list_is_child. exact Hc.
    + apply Hmem in Hn. destruct (Hlink _ _ Hn) as [_ Hp].
      destruct (parent_id n) as [p | ] eqn:Ep; [ | reflexivity].
      exfalso. apply Hnc. eapply get_list_is_child. apply Hp. reflexivity.
  - intros l Hne Hl.
    assert (Hdown : forall (d : nat) n l0, In n out -> 0 <= l0 ->
                      level n = l0 + Z.of_nat d -> exists m, In m out /\ level m = l0).
    { induction d as [ | d IH]; intros n l0 Hn Hl0 Hlv.
      - exists n. split; [exact Hn | lia].
      - destruct (H2 n Hn) as [np [Hnp [_ Hlp]]]; [lia | ].
        apply (IH np l0 Hnp Hl0). lia. }
    assert (Hin : In (max_level st) (map level out)).
    { rewrite Hmax. apply list_max_In. intros Hnil. apply Hne.
      destruct out; [reflexivity | discriminate]. }
    apply in_map_iff in Hin. destruct Hin as [n [Hln Hn]].
    apply (Hdown (Z.to_nat (max_level st - l)) n l Hn); lia.
Qed.

Lemma levels_follow_the_adjacency_witness :
  exists out st,
    build_topic_tree no_float_of_str slot_id no_topic_terms
      None (Some scenario_merge) scenario_topics None scenario_doc_ids
      (VInt 10) None = Ok (out, st)
    /\ forall n, In n out -> 0 <= level n <= max_level st.
Proof.
  eexists. eexists. split; [vm_compute; reflexivity | ].
  refine (proj1
    (@levels_follow_the_adjacency no_float_of_str slot_id no_topic_terms
       None (Some scenario_merge) scenario_topics None scenario_doc_ids
       (VInt 10) None _ _ (add_merge empty_graph 2 0 1 VNone) _ _)).
  - vm_compute. reflexivity.
  - reflexivity.
Defined.

(** ** The diagnostics of the links *)

Lemma merge_graph_option float_of_str md hierarchy_df :
  merge_graph_of float_of_str md hierarchy_df
  = merge_graph_of float_of_str md (Some (rows_of hierarchy_df)).
Proof. destruct hierarchy_df; reflexivity. Qed.

Lemma merge_graph_kids float_of_str md hierarchy_df g p :
  merge_graph_of float_of_str md hierarchy_df = Ok g ->
  In p (dkeys (parent_children g)) -> get_list p (parent_children g) <> [].
Proof.
  rewrite merge_graph_option. intros Hg.
  apply (@merge_graph_rows float_of_str md (rows_of hierarchy_df) g Hg).
Qed.

Lemma roots_of_cases slot g :
  roots_of slot g = root_candidates slot g \/ exists r, roots_of slot g = [r].
Proof.
  unfold roots_of. destruct (root_candidates slot g) as [ | c cs]; [ | auto].
  destruct (set_iter slot (dkeys (parent_children g))); eauto.
Qed.

Lemma root_candidates_no_child slot g r :
  seen_ok g -> In r (root_candidates slot g) -> ~ is_child g r.
Proof.
  intros Hseen Hr Hc. unfold root_candidates in Hr. apply filter_In in Hr.
  destruct Hr as [_ Hr]. apply negb_true_iff in Hr. apply zmem_not_In in Hr.
  apply Hr. apply Hseen. exact Hc.
Qed.

Lemma mark_child_sets p lvl c ns :
  exists n, zget c (mark_child p lvl c ns) = Some n /\ parent_id n = Some p.
Proof.
  unfold mark_child. destruct (zget c ns) as [m | ];
    rewrite zget_zset_eq; eexists; split; reflexivity.
Qed.

Section LinkFacts.
Variable g : merge_graph.
Variable top_count : Z.

Lemma some_link_update ns k n n' :
  some_link g ns -> zget k ns = Some n -> parent_id n' = parent_id n ->
  some_link g (zset k n' ns).
Proof.
  intros [c [m [Hm [Hp Hc]]]] Hn Hpar. destruct (Z.eq_dec c k) as [-> | Hne].
  - exists k, n'. rewrite zget_zset_eq. rewrite Hn in Hm. inversion Hm. subst.
    rewrite Hpar. auto.
  - exists c, m. rewrite zget_zset_neq; auto.
Qed.

Lemma some_link_mark ns p lvl c :
  some_link g ns -> some_link g (mark_child p lvl c ns).
Proof.
  intros [c0 [m [Hm [Hp Hc]]]]. destruct (Z.eq_dec c0 c) as [-> | Hne].
  - destruct (mark_child_sets p lvl c ns) as [n [Hn Hpar]].
    exists c, n. rewrite Hpar. auto.
  - exists c0, m. refine (conj _ (conj Hp Hc)).
    unfold mark_child. destruct (zget c ns); rewrite zget_zset_neq; auto.
Qed.

Lemma some_link_walk fuel node_id lvl st r st' :
  0 <= lvl ->
  some_link g (nodes st) ->
  walk g top_count fuel node_id lvl st = Ok (r, st') ->
  some_link g (nodes st').
Proof.
  apply (@walk_steps g top_count (some_link g)).
  - intros ns p l c _ _ H. apply some_link_mark. exact H.
  - intros ns k n l _ H Hn. eapply some_link_update; [exact H | exact Hn | reflexivity].
  - intros ns k n n' H Hn Hfr. eapply some_link_update; [exact H | exact Hn | apply Hfr].
Qed.

Lemma some_link_roots rts st st' :
  (forall k, In k rts -> ~ is_child g k) ->
  some_link g (nodes st) ->
  walk_roots g top_count rts st = Ok st' ->
  some_link g (nodes st').
Proof.
  intros Hroots. apply (@walk_roots_steps g top_count (some_link g)).
  - intros ns p l c _ _ H. apply some_link_mark. exact H.
  - intros ns k n l _ H Hn. eapply some_link_update; [exact H | exact Hn | reflexivity].
  - intros ns k n n' H Hn Hfr. eapply some_link_update; [exact H | exact Hn | apply Hfr].
  - intros ns k n Hk [c [m [Hm [Hp Hc]]]] Hn.
    exists c, m. refine (conj _ (conj Hp Hc)).
    rewrite zget_zset_neq; [exact Hm | ]. intros ->. apply (Hroots k Hk). exact Hc.
Qed.

(** The walk of a root with children leaves a link. *)
Lemma first_walk_links fuel root st r st' :
  ~ In root (visited st) ->
  get_list root (parent_children g) <> [] ->
  walk g top_count fuel root 0 st = Ok (r, st') ->
  some_link g (nodes st').
Proof.
  intros Hnv Hkids H. destruct fuel as [ | fuel]; [discriminate | ].
  cbn [walk] in H. apply zmem_not_In in Hnv. rewrite Hnv in H.
  destruct (zget root (nodes st)) as [n | ] eqn:En; [ | discriminate].
  destruct (get_list root (parent_children g)) as [ | c kids] eqn:Ek; [congruence | ].
  apply bind_Ok in H. destruct H as [[total st2] [Hw H]].
  apply bind_Ok in H. destruct H as [[sz ns3] [Hf H]].
  inversion H. subst. clear H. cbn [nodes].
  apply finish_node_shape in Hf. destruct Hf as [m [m' [Hm [-> [Hfr _]]]]].
  eapply some_link_update; [ | exact Hm | apply Hfr].
  cbn [walk_children] in Hw. mark_ok Hw.
  apply bind_Ok in Hw. destruct Hw as [[cs st3] [Hc Hw]].
  assert (Hc_child : is_child g c).
  { apply (@get_list_is_child g root c). rewrite Ek. left. reflexivity. }
  assert (H3 : some_link g (nodes st3)).
  { eapply some_link_walk; [ | | exact Hc]; [lia | ]. cbn [nodes].
    destruct (mark_child_sets root 0 c (zset root (set_level 0 n) (nodes st)))
      as [n1 [Hn1 Hp1]].
    exists c, n1. rewrite Hp1. auto. }
  revert Hw. apply (@walk_children_steps g (some_link g)
                      (fun ns p l c0 _ _ H => some_link_mark p l c0 H)
                      (walk g top_count fuel) root 0).
  - lia.
  - intros c0 st0 r0 st0' Hq Hr. eapply some_link_walk; [ | exact Hq | exact Hr]. lia.
  - intros c0 Hc0. rewrite Ek. right. exact Hc0.
  - exact H3.
Qed.

Lemma run_walks_links slot ns st' :
  seen_ok g ->
  (forall p, In p (dkeys (parent_children g)) -> get_list p (parent_children g) <> []) ->
  (forall p, In p (dkeys (parent_children g)) -> In p (dkeys ns)) ->
  dkeys (parent_children g) <> [] ->
  run_walks g top_count (roots_of slot g) ns = Ok st' ->
  some_link g (nodes st').
Proof.
  intros Hseen Hkids Hkeys Hne H. unfold run_walks in H.
  assert (Hrest : forall r rts, roots_of slot g = r :: rts ->
                                forall k, In k rts -> ~ is_child g k).
  { intros r rts Er k Hk. destruct (roots_of_cases slot g) as [Hc | [r0 Hc]].
    - apply (@root_candidates_no_child slot g k Hseen). rewrite <- Hc, Er. right. exact Hk.
    - rewrite Er in Hc. inversion Hc. subst. contradiction. }
  destruct (roots_of slot g) as [ | r rts] eqn:Er.
  - exfalso. apply Hne. eapply roots_nil_no_parent. exact Er.
  - specialize (Hrest r rts eq_refl).
    assert (Hr : In r (dkeys (parent_children g))).
    { apply (roots_of_keys slot). rewrite Er. left. reflexivity. }
    cbn [walk_roots nodes visited] in H.
    destruct (zget r ns) as [n | ] eqn:En.
    2:{ exfalso. apply zget_None_keys in En. apply En. apply Hkeys. exact Hr. }
    apply bind_Ok in H. destruct H as [[sz st2] [Hw H]].
    eapply some_link_roots; [exact Hrest | | exact H].
    eapply first_walk_links; [ | | exact Hw].
    + cbn [visited]. intros [].
    + apply Hkids. exact Hr.
Qed.
End LinkFacts.

(** X12: [has_links] tells whether the adjacency retains a merge, and so does
    the number of roots: they hold together. *)
Theorem has_links_iff_retained_merge (float_of_str : string -> option float)
        (slot : Z -> Z) (topic_model : Z -> list term_entry)
        (topic_info : option (list info_row)) (hierarchy_df : option (list hier_row))
        (topics : option (list pyval))
        (probabilities : option (list (option (list float)))) (doc_ids : list Z)
        (top_terms : pyval) (hierarchy_conf : option hier_conf)
        (out : list node) (st : stats_rec) (g : merge_graph) :
  build_topic_tree float_of_str slot topic_model topic_info hierarchy_df topics
                   probabilities doc_ids top_terms hierarchy_conf = Ok (out, st) ->
  merge_graph_of float_of_str (max_distance_of float_of_str hierarchy_conf)
                 hierarchy_df = Ok g ->
  (has_links st = true <-> parent_children g <> [])
  /\ (0 < roots st <-> parent_children g <> [])
  /\ (has_links st = true <-> exists n p, In n out /\ parent_id n = Some p).
Proof.
  intros Hb Hg. apply build_store in Hb.
  destruct Hb as [dm [s [g' [st' [Hdm [Hs [Hg' [Hw [Hout [Hst [Hnd [Hid Hmem]]]]]]]]]]]].
  rewrite Hg in Hg'. inversion Hg'. subst g'. clear Hg'.
  assert (Hlink : dict_all (linked g) (nodes st')) by (eapply store_linked; exact Hw).
  assert (Hkeys : dkeys (parent_children g) <> [] <-> parent_children g <> []).
  { unfold dkeys. destruct (parent_children g); simpl; split; congruence. }
  assert (H3 : has_links st = true <-> exists n p, In n out /\ parent_id n = Some p).
  { rewrite Hst. unfold stats_of. cbn [has_links]. rewrite existsb_exists. split.
    - intros [n [Hn Hp]]. destruct (parent_id n) as [p | ] eqn:Ep; [eauto | discriminate].
    - intros [n [p [Hn Hp]]]. exists n. rewrite Hp. auto. }
  refine (conj _ (conj _ H3)).
  - rewrite H3. split.
    + intros [n [p [Hn Hp]]] Hnil. apply Hmem in Hn.
      destruct (Hlink _ _ Hn) as [_ Hpar]. specialize (Hpar p Hp).
      rewrite Hnil in Hpar. exact Hpar.
    + intros Hne.
      edestruct (@run_walks_links g (top_count_of top_terms) slot)
        as [c [n [Hn [Hp Hc]]]]; [ | | | | exact Hw | ].
      * eapply merge_graph_seen_ok. exact Hg.
      * intros p Hp. eapply merge_graph_kids; [exact Hg | exact Hp].
      * intros p Hp. apply initial_keys. exact Hp.
      * apply Hkeys. exact Hne.
      * pose proof (Hid c n Hn) as Hc'. unfold has_topic_id in Hc'.
        destruct (parent_id n) as [p | ] eqn:Ep; [ | discriminate].
        exists n, p. split; [ | exact Ep]. apply Hmem. rewrite Hc'. exact Hn.
  - rewrite Hst. unfold stats_of. cbn [roots]. rewrite <- Hkeys. unfold len. split.
    + intros Hpos Hnil. destruct (roots_of slot g) as [ | r rts] eqn:Er; [simpl in Hpos; lia | ].
      assert (Hr : In r (dkeys (parent_children g))).
      { apply (roots_of_keys slot). rewrite Er. left. reflexivity. }
      rewrite Hnil in Hr. exact Hr.
    + intros Hne. destruct (roots_of slot g) as [ | r rts] eqn:Er; [ | simpl; lia].
      exfalso. apply Hne. eapply roots_nil_no_parent. exact Er.
Qed.

Lemma has_links_iff_retained_merge_witness :
  exists out st,
    build_topic_tree no_float_of_str slot_id no_topic_terms
      None (Some scenario_merge) scenario_topics None scenario_doc_ids
      (VInt 10) None = Ok (out, st)
    /\ (has_links st = true
        <-> parent_children (add_merge empty_graph 2 0 1 VNone) <> []).
Proof.
  eexists. eexists. split; [vm_compute; reflexivity | ].
  refine (proj1
    (@has_links_iff_retained_merge no_float_of_str slot_id no_topic_terms
       None (Some scenario_merge) scenario_topics None scenario_doc_ids
       (VInt 10) None _ _ (add_merge empty_graph 2 0 1 VNone) _ _)).
  - vm_compute. reflexivity.
  - reflexivity.
Defined.

(** ** Without a retained merge *)

Lemma set_level_same n : set_level (level n) n = n.
Proof. destruct n. reflexivity. Qed.

Lemma zset_fresh {V} (k : Z) (v : V) (d : dict Z V) :
  zget k d = None -> zset k v d = (d ++ [(k, v)])%list.
Proof.
  unfold zget, zset. induction d as [ | [k0 v0] d IH]; simpl; [reflexivity | ].
  destruct (k =? k0); [discriminate | ]. intros H. rewrite IH; auto.
Qed.

Lemma fold_zset_fresh {V} (f : Z -> V) (ids : list Z) : forall (ns : dict Z V),
  NoDup ids -> (forall t, In t ids -> ~ In t (dkeys ns)) ->
  fold_left (fun ns t => zset t (f t) ns) ids ns
  = (ns ++ map (fun t => (t, f t)) ids)%list.
Proof.
  induction ids as [ | i ids IH]; simpl; intros ns Hnd Hfresh.
  - rewrite app_nil_r. reflexivity.
  - inversion Hnd as [ | ? ? Hni Hnd']. subst.
    rewrite zset_fresh by (apply zget_None_keys; apply Hfresh; left; reflexivity).
    rewrite IH.
    + rewrite <- app_assoc. reflexivity.
    + exact Hnd'.
    + intros t Ht Hk. unfold dkeys in Hk. rewrite map_app, in_app_iff in Hk.
      destruct Hk as [Hk | [<- | []]].
      * apply (Hfresh t); [right; exact Ht | exact Hk].
      * apply Hni. exact Ht.
Qed.

Lemma leaf_topic_ids_NoDup s dm : NoDup (leaf_topic_ids s dm).
Proof.
  unfold leaf_topic_ids.
  eapply Permutation_NoDup; [apply stable_sort_perm | ].
  apply NoDup_filter. apply NoDup_nodup.
Qed.

Lemma leaf_nodes_values float_of_str topic_model top_count s dm :
  dvalues (leaf_nodes float_of_str topic_model top_count s dm)
  = map (leaf_node float_of_str topic_model top_count s dm) (leaf_topic_ids s dm).
Proof.
  unfold leaf_nodes. rewrite fold_zset_fresh.
  - simpl. unfold dvalues. rewrite map_map. reflexivity.
  - apply leaf_topic_ids_NoDup.
  - intros t _ [].
Qed.

Lemma stable_sort_sorted {A} (before : A -> A -> bool) (l : list A) :
  no_inversion before l -> stable_sort before l = l.
Proof.
  induction l as [ | x l IH]; intros Hs; [reflexivity | ].
  change (stable_sort before (x :: l)) with (insert_sorted before x (stable_sort before l)).
  rewrite IH.
  - destruct l as [ | y l]; [reflexivity | ]. simpl.
    rewrite (Hs 0%nat x y eq_refl eq_refl). reflexivity.
  - intros i a b Ha Hb. apply (Hs (S i) a b); assumption.
Qed.

Lemma existsb_none {A} (f : A -> bool) (l : list A) :
  (forall x, In x l -> f x = false) -> existsb f l = false.
Proof.
  induction l as [ | x l IH]; simpl; intros H; [reflexivity | ].
  rewrite (H x (or_introl eq_refl)). apply IH. intros y Hy. apply H. right. exact Hy.
Qed.

Lemma filter_none {A} (f : A -> bool) (l : list A) :
  (forall x, In x l -> f x = false) -> filter f l = [].
Proof.
  induction l as [ | x l IH]; simpl; intros H; [reflexivity | ].
  rewrite (H x (or_introl eq_refl)). apply IH. intros y Hy. apply H. right. exact Hy.
Qed.

Lemma list_max_zero (l : list Z) : (forall x, In x l -> x = 0) -> list_max l = 0.
Proof.
  intros H. destruct l as [ | a r] eqn:E; [reflexivity | ].
  apply H. apply list_max_In. discriminate.
Qed.

Section FlatFacts.
Variable g : merge_graph.
Variable top_count : Z.
Hypothesis no_parent : parent_children g = [].

Lemma walk_leaf fuel i st n :
  ~ In i (visited st) -> zget i (nodes st) = Some n -> level n = 0 ->
  walk g top_count (S fuel) i 0 st
  = Ok (size n, {| nodes := nodes st; visited := i :: visited st |}).
Proof.
  intros Hnv Hn Hl. cbn [walk]. apply zmem_not_In in Hnv. rewrite Hnv, Hn.
  rewrite no_parent. cbn [get_list zget dget].
  rewrite <- Hl, set_level_same, (zset_same _ _ Hn). reflexivity.
Qed.

Lemma walk_all_flat ids : forall st,
  (forall i, In i ids -> In i (dkeys (nodes st))) ->
  dict_all (fun _ n => level n = 0) (nodes st) ->
  exists vis, walk_all g top_count ids st = Ok {| nodes := nodes st; visited := vis |}.
Proof.
  induction ids as [ | i ids IH]; cbn [walk_all]; intros st Hk H0.
  - exists (visited st). destruct st. reflexivity.
  - assert (Hk' : forall j, In j ids -> In j (dkeys (nodes st))).
    { intros j Hj. apply Hk. right. exact Hj. }
    destruct (zmem i (visited st)) eqn:E; [apply IH; assumption | ].
    apply zmem_not_In in E.
    destruct (proj1 (zget_keys i (nodes st)) (Hk i (or_introl eq_refl))) as [n Hn].
    unfold walk_fuel. rewrite (@walk_leaf _ i st n E Hn (H0 i n Hn)). cbn [bind].
    apply (IH {| nodes := nodes st; visited := i :: visited st |}); assumption.
Qed.
End FlatFacts.

(** The leaf loop returns when every leaf id can be formatted. *)
Lemma leaf_loop_returns float_of_str topic_model top_count s dm ids : forall ns,
  forallb int_str_ok ids = true ->
  leaf_loop float_of_str topic_model top_count s dm ids ns
  = Ok (fold_left (fun acc t => zset t (leaf_node float_of_str topic_model top_count s dm t) acc)
                  ids ns).
Proof.
  induction ids as [ | t ids IH]; cbn [leaf_loop forallb fold_left]; intros ns H;
    [reflexivity | ].
  apply andb_true_iff in H. destruct H as [Ht H].
  unfold format_topic. rewrite Ht. cbn [bind]. apply IH. exact H.
Qed.

(** X13: when the adjacency retains no merge (no merge table, or every row
    pruned or unresolved) and every leaf id has at most 4300 digits, so
    that its default label can be formatted, the build returns, and its
    output is the list of the leaf nodes, one per leaf topic in ascending
    order of the ids, as the leaf builder made them; the diagnostics report
    no parent, no root, no link and level 0. *)
Theorem no_merge_gives_the_leaf_nodes (float_of_str : string -> option float)
        (slot : Z -> Z) (topic_model : Z -> list term_entry)
        (topic_info : option (list info_row)) (hierarchy_df : option (list hier_row))
        (topics : option (list pyval))
        (probabilities : option (list (option (list float)))) (doc_ids : list Z)
        (top_terms : pyval) (hierarchy_conf : option hier_conf)
        (dm : dict Z (list doc_rec)) (s : summary) (g : merge_graph) :
  doc_members_of topics probabilities doc_ids = Ok dm ->
  summary_of float_of_str dm topic_info = Ok s ->
  merge_graph_of float_of_str (max_distance_of float_of_str hierarchy_conf)
                 hierarchy_df = Ok g ->
  parent_children g = [] ->
  forallb int_str_ok (leaf_topic_ids s dm) = true ->
  exists out,
    out = map (leaf_node float_of_str topic_model (top_count_of top_terms) s dm)
              (leaf_topic_ids s dm)
    /\ build_topic_tree float_of_str slot topic_model topic_info hierarchy_df topics
                        probabilities doc_ids top_terms hierarchy_conf
       = Ok (out, {| parents_expected := 0; parents_emitted := 0; roots := 0;
                     leaf_count := count_if (fun n => negb (is_nil (docs n))) out;
                     max_level := 0; has_links := false |}).
Proof.
  intros Hdm Hs Hg Hpc Hfmt. eexists. split; [reflexivity | ].
  set (top_count := top_count_of top_terms).
  set (leaf := leaf_node float_of_str topic_model top_count s dm).
  unfold build_topic_tree, prepare. rewrite Hdm. cbn [bind]. rewrite Hs. cbn [bind].
  fold top_count. rewrite (leaf_loop_returns _ _ _ _ _ _ _ Hfmt).
  fold (leaf_nodes float_of_str topic_model top_count s dm). cbn [bind].
  rewrite Hg. cbn [bind]. rewrite Hpc.
  cbn [dkeys map parent_loop bind p_graph p_top_count p_roots p_nodes].
  assert (Hroots : roots_of slot g = []).
  { unfold roots_of, root_candidates. rewrite Hpc. reflexivity. }
  rewrite Hroots. unfold run_walks.
  destruct (@walk_all_flat g top_count Hpc
              (dkeys (leaf_nodes float_of_str topic_model top_count s dm))
              {| nodes := leaf_nodes float_of_str topic_model top_count s dm;
                 visited := [] |}) as [vis Hwa].
  { intros i Hi. exact Hi. }
  { cbn [nodes]. apply leaf_nodes_all. intros t _. reflexivity. }
  rewrite Hwa. cbn [bind nodes]. rewrite leaf_nodes_values. fold leaf.
  assert (Hsorted : stable_sort node_before (map leaf (leaf_topic_ids s dm))
                    = map leaf (leaf_topic_ids s dm)).
  { apply stable_sort_sorted. intros i a b Ha Hb.
    rewrite nth_error_map in Ha, Hb.
    destruct (nth_error (leaf_topic_ids s dm) i) as [x | ] eqn:Ex; [ | discriminate].
    destruct (nth_error (leaf_topic_ids s dm) (S i)) as [y | ] eqn:Ey; [ | discriminate].
    inversion Ha. inversion Hb. subst a b.
    assert (Hinv : no_inversion Z.ltb (leaf_topic_ids s dm)).
    { unfold leaf_topic_ids. apply stable_sort_no_inversion. apply ltb_asym. }
    specialize (Hinv i x y Ex Ey).
    unfold node_before, leaf, leaf_node. cbn [level topic_id]. rewrite Hinv. reflexivity. }
  rewrite Hsorted. unfold stats_of. rewrite Hpc. f_equal. f_equal.
  f_equal.
  - unfold count_if. rewrite filter_none; [reflexivity | ]. intros x _. reflexivity.
  - apply list_max_zero. intros x Hx. rewrite map_map in Hx.
    apply in_map_iff in Hx. destruct Hx as [t [<- _]]. reflexivity.
  - apply existsb_none. intros x Hx. apply in_map_iff in Hx.
    destruct Hx as [t [<- _]]. reflexivity.
Qed.

Lemma no_merge_gives_the_leaf_nodes_witness :
  exists out st,
    build_topic_tree no_float_of_str slot_id no_topic_terms
      None None scenario_topics None scenario_doc_ids (VInt 10) None = Ok (out, st)
    /\ map topic_id out = [0; 1] /\ has_links st = false /\ max_level st = 0.
Proof.
  destruct (@no_merge_gives_the_leaf_nodes no_float_of_str slot_id no_topic_terms
              None None scenario_topics None scenario_doc_ids (VInt 10) None
              [(0, [{| doc_id := 2; weight := None |}; {| doc_id := 3; weight := None |}]);
               (1, [{| doc_id := 4; weight := None |}])]
              {| size_by_topic := []; prob_by_topic := []; label_by_topic := [] |}
              empty_graph eq_refl eq_refl eq_refl eq_refl eq_refl) as [out [Hout Hb]].
  exists out. eexists. split; [exact Hb | ].
  subst out. repeat split; reflexivity.
Defined.

(** A leaf id of more than 4300 digits ends the build: its default label
    cannot be formatted (line 484), whether the summary names the topic or
    not. *)
Lemma leaf_loop_rejects float_of_str topic_model top_count s dm ids : forall ns,
  forallb int_str_ok ids = false ->
  leaf_loop float_of_str topic_model top_count s dm ids ns = Raise ValueError.
Proof.
  induction ids as [ | t ids IH]; cbn [leaf_loop forallb]; intros ns H;
    [discriminate | ].
  unfold format_topic. destruct (int_str_ok t); [ | reflexivity].
  cbn [bind]. apply IH. exact H.
Qed.

Lemma build_rejects_long_leaf_id (float_of_str : string -> option float)
      (slot : Z -> Z) (topic_model : Z -> list term_entry)
      (topic_info : option (list info_row)) (hierarchy_df : option (list hier_row))
      (topics : option (list pyval))
      (probabilities : option (list (option (list float)))) (doc_ids : list Z)
      (top_terms : pyval) (hierarchy_conf : option hier_conf)
      (dm : dict Z (list doc_rec)) (s : summary) :
  doc_members_of topics probabilities doc_ids = Ok dm ->
  summary_of float_of_str dm topic_info = Ok s ->
  forallb int_str_ok (leaf_topic_ids s dm) = false ->
  build_topic_tree float_of_str slot topic_model topic_info hierarchy_df topics
                   probabilities doc_ids top_terms hierarchy_conf = Raise ValueError.
Proof.
  intros Hdm Hs Hfmt.
  unfold build_topic_tree, prepare. rewrite Hdm. cbn [bind]. rewrite Hs. cbn [bind].
  rewrite (leaf_loop_rejects _ _ _ _ _ _ _ Hfmt). reflexivity.
Qed.

(** ** Trees *)

Section VisitFacts.
Variable g : merge_graph.
Variable top_count : Z.
Variable rts : list Z.

Lemma visit_ok_update st k n n' :
  visit_ok rts st -> zget k (nodes st) = Some n -> level n' = level n ->
  (is_some (parent_id n) = true -> is_some (parent_id n') = true) ->
  visit_ok rts {| nodes := zset k n' (nodes st); visited := visited st |}.
Proof.
  intros Hok Hn Hl Hp v Hv. cbn [nodes visited] in *.
  destruct (Hok v Hv) as [m [Hm [H1 H2]]].
  rewrite zget_zset. destruct (v =? k) eqn:E.
  - apply Z.eqb_eq in E. subst. rewrite Hn in Hm. inversion Hm. subst.
    exists n'. rewrite Hl. auto.
  - exists m. auto.
Qed.

Lemma visit_ok_mark st p lvl c :
  visit_ok rts st ->
  visit_ok rts {| nodes := mark_child p lvl c (nodes st); visited := visited st |}.
Proof.
  intros Hok. unfold mark_child. destruct (zget c (nodes st)) as [m | ] eqn:Ec.
  - eapply visit_ok_update; [exact Hok | exact Ec | reflexivity | reflexivity].
  - intros v Hv. cbn [nodes visited] in *.
    destruct (Hok v Hv) as [n [Hn H]]. exists n. split; [ | exact H].
    rewrite zget_zset_neq; [exact Hn | ]. intros ->. congruence.
Qed.

Lemma visit_ok_visit st k n lvl :
  visit_ok rts st -> zget k (nodes st) = Some n ->
  (0 < lvl -> is_some (parent_id n) = true) -> (lvl = 0 -> In k rts) ->
  visit_ok rts {| nodes := zset k (set_level lvl n) (nodes st);
                  visited := k :: visited st |}.
Proof.
  intros Hok Hn Hp Hr v Hv. cbn [nodes visited] in *.
  rewrite zget_zset. destruct (v =? k) eqn:E.
  - apply Z.eqb_eq in E. subst. exists (set_level lvl n). simpl. auto.
  - apply Z.eqb_neq in E. destruct Hv as [Hv | Hv]; [congruence | ].
    exact (Hok v Hv).
Qed.

Lemma walk_children_visit rec node_id lvl :
  (forall c st r st',
      visit_ok rts st ->
      (exists n, zget c (nodes st) = Some n /\ is_some (parent_id n) = true) ->
      rec c (lvl + 1) st = Ok (r, st') -> visit_ok rts st') ->
  forall kids total st r st',
    visit_ok rts st ->
    walk_children rec node_id lvl kids total st = Ok (r, st') ->
    visit_ok rts st'.
Proof.
  intros Hrec. induction kids as [ | c rest IH]; simpl; intros total st r st' Hok H.
  - inversion H. subst. exact Hok.
  - mark_ok H. apply bind_Ok in H. destruct H as [[cs st2] [Hc H]].
    eapply IH; [ | exact H].
    eapply Hrec; [ | | exact Hc].
    + apply visit_ok_mark. exact Hok.
    + cbn [nodes]. destruct (mark_child_sets node_id lvl c (nodes st)) as [n [Hn Hp]].
      exists n. rewrite Hp. auto.
Qed.

Lemma walk_visit fuel : forall node_id lvl st r st',
  visit_ok rts st -> 0 <= lvl ->
  (0 < lvl -> exists n, zget node_id (nodes st) = Some n
                        /\ is_some (parent_id n) = true) ->
  (lvl = 0 -> In node_id rts) ->
  walk g top_count fuel node_id lvl st = Ok (r, st') ->
  visit_ok rts st'.
Proof.
  induction fuel as [ | fuel IH]; intros node_id lvl st r st' Hok Hpos Hp Hr H;
    [discriminate | ].
  cbn [walk] in H.
  destruct (zmem node_id (visited st)).
  - destruct (zget node_id (nodes st)); [ | discriminate].
    inversion H. subst. exact Hok.
  - destruct (zget node_id (nodes st)) as [n | ] eqn:En; [ | discriminate].
    assert (Hok1 : visit_ok rts {| nodes := zset node_id (set_level lvl n) (nodes st);
                                   visited := node_id :: visited st |}).
    { apply visit_ok_visit; auto. intros Hl. destruct (Hp Hl) as [m [Hm Hpm]].
      congruence. }
    destruct (get_list node_id (parent_children g)) as [ | c kids] eqn:Ek.
    + inversion H. subst. exact Hok1.
    + apply bind_Ok in H. destruct H as [[total st2] [Hw H]].
      apply bind_Ok in H. destruct H as [[sz ns3] [Hf H]].
      inversion H. subst. clear H.
      apply finish_node_shape in Hf.
      destruct Hf as [m [m' [Hm [-> [Hfr _]]]]].
      destruct Hfr as [_ [Hfp [Hfl _]]].
      eapply visit_ok_update; [ | exact Hm | exact Hfl | rewrite Hfp; auto].
      eapply walk_children_visit; [ | exact Hok1 | exact Hw].
      intros c0 st0 r0 st0' Hq Hc0 Hw0.
      eapply IH; [exact Hq | | | | exact Hw0]; [lia | auto | lia].
Qed.

Lemma walk_roots_visit todo : forall st st',
  (forall r, In r todo -> In r rts /\ ~ is_child g r) ->
  levels_ok g st -> visit_ok rts st ->
  walk_roots g top_count todo st = Ok st' ->
  visit_ok rts st'.
Proof.
  induction todo as [ | root todo IH]; cbn [walk_roots]; intros st st' Hroots Hlev Hok H.
  - inversion H. subst. exact Hok.
  - assert (Hroots' : forall r, In r todo -> In r rts /\ ~ is_child g r).
    { intros r Hr. apply Hroots. right. exact Hr. }
    destruct (Hroots root (or_introl eq_refl)) as [Hin Hnc].
    destruct (zget root (nodes st)) as [n | ] eqn:En; [ | eauto].
    apply bind_Ok in H. destruct H as [[r st2] [Hw H]].
    assert (Hl0 : level n = 0).
    { destruct (proj1 Hlev root n En) as [H0 H1].
      destruct (Z.eq_dec (level n) 0) as [Hz | Hz]; [exact Hz | ].
      exfalso. destruct H1 as [p [np [Hc _]]]; [lia | ].
      apply Hnc. eapply get_list_is_child. exact Hc. }
    assert (Hlev1 : levels_ok g {| nodes := zset root (set_parent_id None n) (nodes st);
                                   visited := visited st |}).
    { eapply update_levels_ok; [exact Hlev | exact En | reflexivity]. }
    assert (Hok1 : visit_ok rts {| nodes := zset root (set_parent_id None n) (nodes st);
                                   visited := visited st |}).
    { intros v Hv. cbn [nodes visited] in *. rewrite zget_zset.
      destruct (v =? root) eqn:E.
      - apply Z.eqb_eq in E. subst. exists (set_parent_id None n). simpl.
        split; [reflexivity | ]. split; [lia | auto].
      - exact (Hok v Hv). }
    eapply IH; [exact Hroots' | | | exact H].
    + edestruct walk_levels as [A _]; [exact Hlev1 | | | exact Hw | exact A]; lia.
    + eapply walk_visit; [exact Hok1 | | | | exact Hw]; [lia | lia | auto].
Qed.
End VisitFacts.

Lemma max_height_key (height : Z -> nat) (l : list Z) :
  l <> [] -> exists p, In p l /\ forall q, In q l -> (height q <= height p)%nat.
Proof.
  induction l as [ | a l IH]; [congruence | ]. intros _.
  destruct l as [ | b l].
  - exists a. split; [left; reflexivity | ]. intros q [<- | []]. lia.
  - destruct IH as [p [Hp Hmax]]; [discriminate | ].
    destruct (le_lt_dec (height a) (height p)) as [Hle | Hlt].
    + exists p. split; [right; exact Hp | ].
      intros q [<- | Hq]; [exact Hle | apply Hmax; exact Hq].
    + exists a. split; [left; reflexivity | ].
      intros q [<- | Hq]; [lia | ]. specialize (Hmax q Hq). lia.
Qed.

(** An acyclic merge graph with a parent has a parent that is no child:
    the roots are the root candidates. *)
Lemma acyclic_roots slot g height :
  acyclic_by g height -> seen_ok g ->
  roots_of slot g = root_candidates slot g.
Proof.
  intros Hac Hseen. unfold roots_of.
  destruct (root_candidates slot g) as [ | c cs] eqn:Ec; [ | reflexivity].
  destruct (set_iter slot (dkeys (parent_children g))) as [ | a l] eqn:Es; [reflexivity | ].
  exfalso.
  assert (Hne : dkeys (parent_children g) <> []).
  { intros Hnil. rewrite Hnil in Es. discriminate. }
  destruct (max_height_key height Hne) as [p [Hp Hmax]].
  assert (Hcand : In p (root_candidates slot g)).
  { unfold root_candidates. apply filter_In. split; [apply set_iter_In; exact Hp | ].
    apply negb_true_iff. apply zmem_not_In. intros Hs. apply Hseen in Hs.
    destruct Hs as [q [kids [Hq Hk]]].
    assert (Hqk : In q (dkeys (parent_children g))) by (apply zget_keys; eauto).
    assert (Hlt : (height p < height q)%nat).
    { apply Hac. unfold get_list. rewrite Hq. exact Hk. }
    specialize (Hmax q Hqk). lia. }
  rewrite Ec in Hcand. exact Hcand.
Qed.

(** In an acyclic merge graph every child that is emitted sits below
    level 0 and has a parent link. *)
Lemma acyclic_children_linked float_of_str slot topic_model top_count s dm g st' height :
  run_walks g top_count (roots_of slot g)
            (initial_nodes float_of_str topic_model top_count s dm g) = Ok st' ->
  acyclic_by g height -> seen_ok g ->
  forall c n, zget c (nodes st') = Some n -> is_child g c ->
              0 < level n /\ is_some (parent_id n) = true.
Proof.
  intros Hw Hac Hseen c n Hn Hc.
  assert (Hlev : levels_ok g st') by (eapply store_levels; exact Hw).
  assert (Hvis : In c (visited st')).
  { eapply acyclic_all_visited; [exact Hw | exact Hac | exact Hseen | exact Hc]. }
  assert (Hroots : roots_of slot g = root_candidates slot g)
    by (eapply acyclic_roots; eassumption).
  assert (Hok : visit_ok (roots_of slot g) st').
  { pose proof Hw as Hw'. unfold run_walks in Hw'.
    destruct (roots_of slot g) as [ | r rts] eqn:Er.
    - exfalso. apply roots_nil_no_parent in Er.
      destruct Hc as [q [kids [Hq _]]].
      assert (Hk : In q (dkeys (parent_children g))) by (apply zget_keys; eauto).
      rewrite Er in Hk. exact Hk.
    - eapply walk_roots_visit; [ | | | exact Hw'].
      + intros r0 Hr0. split; [exact Hr0 | ].
        apply (@root_candidates_no_child slot g r0 Hseen). rewrite <- Hroots. exact Hr0.
      + split; [ | intros v []]. cbn [nodes]. intros k m Hm.
        split; rewrite (@initial_level_zero float_of_str topic_model top_count s dm g k m Hm);
          lia.
      + intros v []. }
  destruct (Hok c Hvis) as [m [Hm [H1 H2]]]. rewrite Hn in Hm. inversion Hm. subst m.
  destruct (proj1 Hlev c n Hn) as [H0 _].
  assert (Hpos : 0 < level n).
  { destruct (Z.eq_dec (level n) 0) as [Hz | Hz]; [ | lia].
    exfalso. specialize (H2 Hz). rewrite Hroots in H2.
    apply (@root_candidates_no_child slot g c Hseen H2). exact Hc. }
  split; [exact Hpos | auto].
Qed.

(** X14: with an acyclic merge graph every emitted child has a parent link and
    lies below level 0, so the nodes without a parent link are those that
    no row names as a child. When moreover every child has one parent
    only, the output is a forest: a node is one level below the node its
    parent link names. *)
Theorem acyclic_output_is_a_forest (float_of_str : string -> option float)
        (slot : Z -> Z) (topic_model : Z -> list term_entry)
        (topic_info : option (list info_row)) (hierarchy_df : option (list hier_row))
        (topics : option (list pyval))
        (probabilities : option (list (option (list float)))) (doc_ids : list Z)
        (top_terms : pyval) (hierarchy_conf : option hier_conf)
        (out : list node) (st : stats_rec) (g : merge_graph) (height : Z -> nat) :
  build_topic_tree float_of_str slot topic_model topic_info hierarchy_df topics
                   probabilities doc_ids top_terms hierarchy_conf = Ok (out, st) ->
  merge_graph_of float_of_str (max_distance_of float_of_str hierarchy_conf)
                 hierarchy_df = Ok g ->
  acyclic_by g height ->
  (forall n, In n out ->
     (is_child g (topic_id n) <-> parent_id n <> None)
     /\ (is_child g (topic_id n) <-> 0 < level n))
  /\ (single_parent g ->
      forall n p, In n out -> parent_id n = Some p ->
        exists np, emitted out p np /\ level n = level np + 1).
Proof.
  intros Hb Hg Hac. apply build_store in Hb.
  destruct Hb as [dm [s [g' [st' [Hdm [Hs [Hg' [Hw [Hout [Hst [Hnd [Hid Hmem]]]]]]]]]]]].
  rewrite Hg in Hg'. inversion Hg'. subst g'. clear Hg'.
  assert (Hseen : seen_ok g) by (eapply merge_graph_seen_ok; exact Hg).
  assert (Hlev : levels_ok g st') by (eapply store_levels; exact Hw).
  assert (Hlink : dict_all (linked g) (nodes st')) by (eapply store_linked; exact Hw).
  assert (Hchild : forall n, In n out -> is_child g (topic_id n) ->
                             0 < level n /\ is_some (parent_id n) = true).
  { intros n Hn Hc. apply Hmem in Hn.
    eapply acyclic_children_linked; eauto. }
  assert (Hpar : forall n p, In n out -> parent_id n = Some p ->
                             In (topic_id n) (get_list p (parent_children g))).
  { intros n p Hn Hp. apply Hmem in Hn. destruct (Hlink _ _ Hn) as [_ H]. apply H. exact Hp. }
  assert (Hup : forall n, In n out -> 0 < level n ->
                  exists p np, In (topic_id n) (get_list p (parent_children g))
                               /\ emitted out p np /\ level np + 1 = level n).
  { intros n Hn Hpos. apply Hmem in Hn.
    destruct (proj1 Hlev _ _ Hn) as [_ Hr].
    destruct (Hr Hpos) as [p [np [Hc [_ [Hp Hl]]]]].
    pose proof (Hid p np Hp) as Hpid. unfold has_topic_id in Hpid.
    exists p, np. refine (conj Hc (conj _ Hl)). split; [ | exact Hpid].
    apply Hmem. rewrite Hpid. exact Hp. }
  split.
  - intros n Hn. split; split.
    + intros Hc. destruct (Hchild n Hn Hc) as [_ Hp].
      destruct (parent_id n); [discriminate | discriminate].
    + intros Hp. destruct (parent_id n) as [p | ] eqn:Ep; [ | congruence].
      eapply get_list_is_child. apply (Hpar n p Hn Ep).
    + intros Hc. apply (Hchild n Hn Hc).
    + intros Hpos. destruct (Hup n Hn Hpos) as [p [np [Hc _]]].
      eapply get_list_is_child. exact Hc.
  - intros Hsingle n p Hn Hp.
    pose proof (Hpar n p Hn Hp) as Hc.
    destruct (Hchild n Hn (get_list_is_child _ _ _ Hc)) as [Hpos _].
    destruct (Hup n Hn Hpos) as [p' [np [Hc' [Hem Hl]]]].
    assert (p' = p) by (eapply Hsingle; eauto). subst p'.
    exists np. split; [exact Hem | lia].
Qed.

Lemma acyclic_output_is_a_forest_witness :
  exists out st,
    build_topic_tree no_float_of_str slot_id no_topic_terms
      None (Some scenario_merge) scenario_topics None scenario_doc_ids
      (VInt 10) None = Ok (out, st)
    /\ forall n, In n out ->
         (is_child (add_merge empty_graph 2 0 1 VNone) (topic_id n)
          <-> parent_id n <> None)
         /\ (is_child (add_merge empty_graph 2 0 1 VNone) (topic_id n)
             <-> 0 < level n).
Proof.
  eexists. eexists. split; [vm_compute; reflexivity | ].
  refine (proj1
    (@acyclic_output_is_a_forest no_float_of_str slot_id no_topic_terms
       None (Some scenario_merge) scenario_topics None scenario_doc_ids
       (VInt 10) None _ _ (add_merge empty_graph 2 0 1 VNone) scenario_height _ _ _)).
  - vm_compute. reflexivity.
  - reflexivity.
  - intros p c. unfold get_list, zget, scenario_height. simpl.
    destruct (p =? 2) eqn:E; simpl; [ | contradiction].
    intros [<- | [<- | []]]; simpl; lia.
Defined.

(** ** What the builder raises *)

Lemma assign_loop_infinite doc_lookup probs sg assignments : forall idx dm,
  In (VFloat (S754_infinity sg)) assignments ->
  assign_loop doc_lookup probs idx assignments dm = Raise OverflowError.
Proof.
  induction assignments as [ | a rest IH]; intros idx dm Hin; [contradiction | ].
  cbn [assign_loop].
  destruct (_to_int a) as [tid | e] eqn:Ea.
  - destruct Hin as [-> | Hin]; [simpl in Ea; discriminate | ].
    cbn [bind]. destruct tid as [t | ]; [ | apply IH; exact Hin].
    destruct (t =? outlier_topic); [apply IH; exact Hin | ].
    destruct (nth_error doc_lookup idx); apply IH; exact Hin.
  - apply to_int_raise in Ea. subst e. reflexivity.
Qed.

(** X15: no lookup of the builder fails: whatever the inputs, it raises
    neither [KeyError] (every node [walk] reads from the store, lines 611
    and 617, is there) nor [TypeError]; it does raise [OverflowError] when
    a topic assignment is an infinite float, since [_to_int] lets the error
    of [int(val)] through. *)
Theorem build_raises_no_lookup_error (float_of_str : string -> option float)
        (slot : Z -> Z) (topic_model : Z -> list term_entry)
        (topic_info : option (list info_row)) (hierarchy_df : option (list hier_row))
        (topics : option (list pyval))
        (probabilities : option (list (option (list float)))) (doc_ids : list Z)
        (top_terms : pyval) (hierarchy_conf : option hier_conf) :
  (forall e,
      build_topic_tree float_of_str slot topic_model topic_info hierarchy_df topics
                       probabilities doc_ids top_terms hierarchy_conf = Raise e ->
      e <> KeyError /\ e <> TypeError)
  /\ (forall sg,
      In (VFloat (S754_infinity sg)) (assignments_of topics) ->
      build_topic_tree float_of_str slot topic_model topic_info hierarchy_df topics
                       probabilities doc_ids top_terms hierarchy_conf
      = Raise OverflowError).
Proof.
  split.
  - intros e H. apply build_raises in H.
    destruct H as [-> | ->]; split; discriminate.
  - intros sg Hin. unfold build_topic_tree, prepare, doc_members_of.
    fold (assignments_of topics).
    rewrite (@assign_loop_infinite doc_ids probabilities sg (assignments_of topics)
               0%nat [] Hin).
    reflexivity.
Qed.

(** ** Aggregated terms *)

Section GenDict.
Context {K V : Type}.
Variable eqb : K -> K -> bool.
Hypothesis eqb_spec : forall a b, eqb a b = true <-> a = b.

Lemma dset_keys k (v : V) d k' :
  In k' (dkeys (dset eqb k v d)) <-> k' = k \/ In k' (dkeys d).
Proof.
  unfold dkeys. induction d as [ | [k0 v0] d IH]; simpl.
  - intuition.
  - destruct (eqb k k0) eqn:E; simpl.
    + apply eqb_spec in E. subst. intuition.
    + rewrite IH. intuition.
Qed.

Lemma dset_keys_NoDup k (v : V) d :
  NoDup (dkeys d) -> NoDup (dkeys (dset eqb k v d)).
Proof.
  induction d as [ | [k0 v0] d IH]; simpl; intros H.
  - constructor; [intros [] | constructor].
  - inversion H as [ | ? ? Hn Hd]. subst.
    destruct (eqb k k0) eqn:E; simpl.
    + apply eqb_spec in E. subst. constructor; assumption.
    + constructor; [ | apply IH; exact Hd].
      intros Hin. apply dset_keys in Hin. destruct Hin as [-> | Hin]; [ | auto].
      assert (Hkk : eqb k k = true) by (apply eqb_spec; reflexivity). congruence.
Qed.
End GenDict.

Lemma add_score_keys sm k x k' :
  In k' (dkeys (add_score sm k x)) <-> k' = k \/ In k' (dkeys sm).
Proof. unfold add_score. apply dset_keys. apply String.eqb_eq. Qed.

Lemma add_score_NoDup sm k x : NoDup (dkeys sm) -> NoDup (dkeys (add_score sm k x)).
Proof. unfold add_score. apply dset_keys_NoDup. apply String.eqb_eq. Qed.

Lemma agg_child_keys w ts : forall sm sm',
  agg_child w ts sm = Ok sm' ->
  (NoDup (dkeys sm) -> NoDup (dkeys sm'))
  /\ (forall k, In k (dkeys sm') <->
                In k (dkeys sm)
                \/ exists t, In t ts /\ strip (term t) = k /\ k <> ""%string).
Proof.
  induction ts as [ | t ts IH]; simpl; intros sm sm' H.
  - inversion H. subst. split; [auto | ]. intros k. split; [auto | ].
    intros [Hk | [t [[] _]]]. exact Hk.
  - destruct (String.eqb (strip (term t)) "") eqn:E.
    + apply String.eqb_eq in E. destruct (IH _ _ H) as [H1 H2]. split; [exact H1 | ].
      intros k. rewrite H2. split.
      * intros [Hk | [t' [Ht' Hk]]]; [auto | right; exists t'; auto].
      * intros [Hk | [t' [[<- | Ht'] [Hk Hne]]]]; [auto | congruence | ].
        right. exists t'. auto.
    + apply String.eqb_neq in E.
      apply bind_Ok in H. destruct H as [wf [_ H]].
      destruct (IH _ _ H) as [H1 H2]. split.
      * intros Hnd. apply H1. apply add_score_NoDup. exact Hnd.
      * intros k. rewrite H2, add_score_keys. split.
        -- intros [[-> | Hk] | [t' [Ht' Hk]]].
           ++ right. exists t. auto.
           ++ auto.
           ++ right. exists t'. auto.
        -- intros [Hk | [t' [[<- | Ht'] [Hk Hne]]]].
           ++ auto.
           ++ left. left. symmetry. exact Hk.
           ++ right. exists t'. auto.
Qed.

Lemma agg_children_keys ns kids : forall sm sm',
  agg_children ns kids sm = Ok sm' ->
  (NoDup (dkeys sm) -> NoDup (dkeys sm'))
  /\ (forall k, In k (dkeys sm') <-> In k (dkeys sm) \/ child_term ns kids k).
Proof.
  induction kids as [ | c kids IH]; simpl; intros sm sm' H.
  - inversion H. subst. split; [auto | ]. intros k. split; [auto | ].
    intros [Hk | [c [child [ct [[] _]]]]]. exact Hk.
  - destruct (zget c ns) as [child | ] eqn:Ec.
    + apply bind_Ok in H. destruct H as [sm1 [Hc H]].
      destruct (agg_child_keys _ _ _ Hc) as [A1 A2].
      destruct (IH _ _ H) as [B1 B2]. split; [auto | ].
      intros k. rewrite B2, A2. split.
      * intros [[Hk | [t [Ht [Hk Hne]]]] | [c' [ch [ct [Hc' Hr]]]]].
        -- auto.
        -- right. exists c, child, t.
           exact (conj (or_introl eq_refl) (conj Ec (conj Ht (conj Hk Hne)))).
        -- right. exists c', ch, ct. split; [right; exact Hc' | exact Hr].
      * intros [Hk | [c' [ch [ct [[<- | Hc'] [Hch [Hct [Hk Hne]]]]]]]].
        -- auto.
        -- rewrite Ec in Hch. inversion Hch. subst ch. left. right. exists ct. auto.
        -- right. exists c', ch, ct.
           exact (conj Hc' (conj Hch (conj Hct (conj Hk Hne)))).
    + destruct (IH _ _ H) as [B1 B2]. split; [exact B1 | ].
      intros k. rewrite B2. split.
      * intros [Hk | [c' [ch [ct [Hc' Hr]]]]]; [auto | ].
        right. exists c', ch, ct. split; [right; exact Hc' | exact Hr].
      * intros [Hk | [c' [ch [ct [[<- | Hc'] [Hch Hr]]]]]]; [auto | congruence | ].
        right. exists c', ch, ct. exact (conj Hc' (conj Hch Hr)).
Qed.

Lemma ranked_terms (l : list (string * float)) : forall r,
  map term (ranked (fun kv rk => {| term := fst kv; term_score := snd kv; rank := rk |})
                   r l) = map fst l.
Proof. induction l as [ | x l IH]; simpl; intros r; [reflexivity | rewrite IH; reflexivity]. Qed.

Lemma firstn_keeps_NoDup {A} (l : list A) n : NoDup l -> NoDup (firstn n l).
Proof.
  intros H. rewrite <- (firstn_skipn n l) in H. apply NoDup_app_remove_r in H. exact H.
Qed.

Lemma firstn_short {A} (l : list A) n x :
  In x l -> ~ In x (firstn n l) -> List.length (firstn n l) = n.
Proof.
  intros Hin Hnot. rewrite length_firstn.
  destruct (le_lt_dec (List.length l) n) as [Hle | Hlt]; [ | lia].
  exfalso. apply Hnot. rewrite firstn_all2; assumption.
Qed.

Lemma aggregate_terms_spec (top_count : Z) (ns : dict Z node) (kids : list Z)
      (ts : list term_rec) :
  0 <= top_count ->
  aggregate_terms top_count ns kids = Ok ts ->
  NoDup (map term ts)
  /\ (forall t, In t ts -> child_term ns kids (term t))
  /\ (forall k, child_term ns kids k -> In k (map term ts) \/ len ts = top_count).
Proof.
  unfold aggregate_terms. intros Htop H.
  apply bind_Ok in H. destruct H as [sm [Hsm H]]. inversion H. subst ts. clear H.
  destruct (agg_children_keys _ _ _ Hsm) as [Hnd Hkeys].
  assert (Hperm : Permutation (map fst sm) (map fst (sort_scores sm))).
  { apply Permutation_map. apply stable_sort_perm. }
  rewrite ranked_terms, <- firstn_map.
  refine (conj _ (conj _ _)).
  - apply firstn_keeps_NoDup. eapply Permutation_NoDup; [exact Hperm | ].
    apply Hnd. constructor.
  - intros t Ht.
    assert (Hin : In (term t) (map term
              (ranked (fun kv rk => {| term := fst kv; term_score := snd kv; rank := rk |})
                      1 (firstn (Z.to_nat top_count) (sort_scores sm)))))
      by (apply in_map; exact Ht).
    rewrite ranked_terms, <- firstn_map in Hin. apply firstn_In in Hin.
    apply (Permutation_in _ (Permutation_sym Hperm)) in Hin.
    apply Hkeys in Hin. destruct Hin as [[] | Hin]. exact Hin.
  - intros k Hk.
    assert (Hin : In k (map fst (sort_scores sm))).
    { apply (Permutation_in _ Hperm). apply Hkeys. right. exact Hk. }
    destruct (in_dec string_dec k (firstn (Z.to_nat top_count) (map fst (sort_scores sm))))
      as [Hy | Hn]; [left; exact Hy | right].
    unfold len. rewrite ranked_length.
    pose proof (firstn_short _ _ _ Hin Hn) as Hlen.
    rewrite firstn_map, length_map in Hlen. rewrite Hlen. lia.
Qed.

(** X16: the aggregated terms of a parent are stripped, non-blank terms of its
    children, each listed once; a term of a child is left out only when
    the list is full. *)
Theorem aggregated_terms_are_child_terms (top_count : Z) (ns : dict Z node)
        (kids : list Z) (ts : list term_rec) :
  0 <= top_count ->
  aggregate_terms top_count ns kids = Ok ts ->
  NoDup (map term ts)
  /\ (forall t, In t ts -> child_term ns kids (term t))
  /\ (forall k, child_term ns kids k -> In k (map term ts) \/ len ts = top_count).
Proof. apply aggregate_terms_spec. Qed.

Lemma aggregated_terms_are_child_terms_witness :
  exists ts, aggregate_terms 10 two_children [0; 1] = Ok ts
             /\ map term ts = ["heart"; "lung"]%string
             /\ NoDup (map term ts).
Proof.
  eexists. split; [vm_compute; reflexivity | ].
  split; [reflexivity | ].
  refine (proj1 (@aggregated_terms_are_child_terms 10 two_children [0; 1] _ _ _)).
  - lia.
  - vm_compute. reflexivity.
Defined.

(** ** The terms of a leaf *)

Section LeafTerms.
Variable float_of_str : string -> option float.
Variable top_count : Z.
Hypothesis top_pos : 0 < top_count.

Lemma model_terms_keeps_acc l : forall rk acc,
  acc <> [] -> model_terms float_of_str top_count rk l acc <> [].
Proof.
  induction l as [ | e l IH]; simpl; intros rk acc Hacc; [exact Hacc | ].
  destruct e as [w sc | ].
  - destruct (String.eqb (strip w) ""); [apply IH; exact Hacc | ].
    match goal with |- context [top_count <=? len ?a] =>
      assert (Ha : a <> []) by (intros Hn; apply app_eq_nil in Hn; destruct Hn; discriminate);
      destruct (top_count <=? len a); [exact Ha | apply IH; exact Ha] end.
  - destruct (top_count <=? len acc); [exact Hacc | apply IH; exact Hacc].
Qed.

Lemma model_terms_nil l : forall rk,
  model_terms float_of_str top_count rk l [] = [] <->
  forall e, In e l -> unusable_entry e.
Proof.
  induction l as [ | e l IH]; simpl; intros rk.
  - split; [intros _ e [] | reflexivity].
  - destruct e as [w sc | ].
    + destruct (String.eqb (strip w) "") eqn:E.
      * apply String.eqb_eq in E. rewrite IH. split.
        -- intros H e [<- | He]; [exact E | apply H; exact He].
        -- intros H e He. apply H. right. exact He.
      * apply String.eqb_neq in E. split.
        -- intros H. exfalso. revert H.
           match goal with |- context [top_count <=? len ?a] =>
             destruct (top_count <=? len a); [discriminate | ] end.
           apply model_terms_keeps_acc. discriminate.
        -- intros H. exfalso. apply E. apply (H (TPair w sc)). left. reflexivity.
    + assert (Hlt : (top_count <=? len (@nil term_rec)) = false).
      { apply Z.leb_gt. unfold len. simpl. exact top_pos. }
      rewrite Hlt, IH. split.
      * intros H e [<- | He]; [exact I | apply H; exact He].
      * intros H e He. apply H. right. exact He.
Qed.

Lemma split_tokens_nil l : forall cur,
  split_tokens cur l = [] <-> cur = [] /\ forall c, In c l -> is_sep c = true.
Proof.
  induction l as [ | c r IH]; simpl; intros cur.
  - unfold emit_token. destruct cur; split.
    + intros _. split; [reflexivity | intros c []].
    + reflexivity.
    + discriminate.
    + intros [H _]. discriminate.
  - destruct (is_sep c) eqn:E.
    + split.
      * intros H. apply app_eq_nil in H. destruct H as [H1 H2].
        apply IH in H2. destruct H2 as [_ H2].
        split; [destruct cur; [reflexivity | discriminate] | ].
        intros c' [<- | Hc']; auto.
      * intros [-> H]. simpl. apply IH. split; [reflexivity | ].
        intros c' Hc'. apply H. right. exact Hc'.
    + rewrite IH. split.
      * intros [H _]. apply app_eq_nil in H. destruct H. discriminate.
      * intros [_ H]. specialize (H c (or_introl eq_refl)). congruence.
Qed.

Lemma fallback_terms_nil label_val :
  fallback_terms top_count label_val = [] <->
  forall c, In c (list_ascii_of_string label_val) -> is_sep c = true.
Proof.
  unfold fallback_terms.
  pose proof (split_tokens_nil (list_ascii_of_string label_val) []) as Hs.
  destruct (split_tokens [] (list_ascii_of_string label_val)) as [ | tk tks] eqn:E.
  - rewrite firstn_nil. simpl. split; [intros _; apply Hs; reflexivity | reflexivity].
  - destruct (Z.to_nat top_count) as [ | n] eqn:En; [lia | ].
    simpl. split; [discriminate | ]. intros H.
    assert (Hn : tk :: tks = []) by (apply Hs; split; [reflexivity | exact H]).
    discriminate.
Qed.

Lemma leaf_terms_nil topic_terms label_val :
  leaf_terms float_of_str top_count topic_terms label_val = [] <->
  (forall e, In e topic_terms -> unusable_entry e)
  /\ (forall c, In c (list_ascii_of_string label_val) -> is_sep c = true).
Proof.
  unfold leaf_terms. rewrite <- (model_terms_nil topic_terms 1), <- fallback_terms_nil.
  destruct (model_terms float_of_str top_count 1 topic_terms []) as [ | t ts].
  - tauto.
  - split; [discriminate | intros [H _]; discriminate].
Qed.
End LeafTerms.

(** X17: a leaf has no term only when the topic model gives no usable entry and
    its label is made of underscores and white space alone; a leaf under
    the placeholder label [Topic t] always has one. *)
Theorem leaf_terms_empty_iff (float_of_str : string -> option float) (top_count : Z)
        (topic_terms : list term_entry) (label_val : string) :
  0 < top_count ->
  (leaf_terms float_of_str top_count topic_terms label_val = [] <->
   (forall e, In e topic_terms -> unusable_entry e)
   /\ (forall c, In c (list_ascii_of_string label_val) -> is_sep c = true))
  /\ (forall t, leaf_terms float_of_str top_count topic_terms (topic_label t) <> []).
Proof.
  intros Htop. split; [apply leaf_terms_nil; exact Htop | ].
  intros t H. apply (leaf_terms_nil float_of_str Htop) in H. destruct H as [_ H].
  specialize (H "T"%char). unfold topic_label in H. simpl in H.
  specialize (H (or_introl eq_refl)). discriminate.
Qed.

Lemma leaf_terms_empty_iff_witness :
  leaf_terms no_float_of_str 10 [TOther; TPair " " VNone] "_ _" = [].
Proof.
  apply (proj1 (@leaf_terms_empty_iff no_float_of_str 10 [TOther; TPair " " VNone] "_ _"
                  ltac:(lia))).
  split.
  - intros e [<- | [<- | []]]; reflexivity.
  - simpl. intros c [<- | [<- | [<- | []]]]; reflexivity.
Defined.

(** ** The end of a walk *)

Lemma finish_node_other g top_count k kids total ns r ns' k' :
  finish_node g top_count k kids total ns = Ok (r, ns') ->
  k' <> k -> zget k' ns' = zget k' ns.
Proof.
  intros H Hne. apply finish_node_shape in H.
  destruct H as [n [n' [_ [-> _]]]]. apply zget_zset_neq. exact Hne.
Qed.

Lemma relabel_override pl k n lo :
  zget k pl = Some lo -> lo <> ""%string -> label (relabel pl k n) = lo.
Proof.
  intros Hlo Hne. unfold relabel. rewrite Hlo.
  apply String.eqb_neq in Hne. rewrite Hne. reflexivity.
Qed.

Lemma finish_node_label g top_count k kids total ns r ns' lo :
  finish_node g top_count k kids total ns = Ok (r, ns') ->
  zget k (parent_labels g) = Some lo -> lo <> ""%string ->
  exists n', zget k ns' = Some n' /\ label n' = lo.
Proof.
  unfold finish_node. intros H Hlo Hne.
  destruct (zget k ns) as [n | ]; [ | discriminate].
  apply bind_Ok in H. destruct H as [n2 [_ H]]. relabel_ok H.
  inversion H. subst. clear H.
  eexists. split; [apply zget_zset_eq | ].
  apply relabel_override; assumption.
Qed.

Section WalkFinish.
Variable g : merge_graph.
Variable top_count : Z.
Variable P : dict Z node -> Prop.

Hypothesis P_mark : forall ns p lvl c,
  0 <= lvl -> In c (get_list p (parent_children g)) ->
  P ns -> P (mark_child p lvl c ns).
Hypothesis P_level : forall ns k n lvl,
  0 <= lvl -> P ns -> zget k ns = Some n -> P (zset k (set_level lvl n) ns).
Hypothesis P_finish : forall ns k total r ns',
  P ns -> get_list k (parent_children g) <> [] ->
  finish_node g top_count k (get_list k (parent_children g)) total ns = Ok (r, ns') ->
  P ns'.

Lemma walk_finish fuel : forall node_id lvl st r st',
  0 <= lvl ->
  P (nodes st) ->
  walk g top_count fuel node_id lvl st = Ok (r, st') ->
  P (nodes st').
Proof.
  induction fuel as [ | fuel IH]; simpl; intros node_id lvl st r st' Hl Hst H;
    [discriminate | ].
  destruct (zmem node_id (visited st)).
  - destruct (zget node_id (nodes st)); [ | discriminate].
    inversion H. subst. exact Hst.
  - destruct (zget node_id (nodes st)) as [n | ] eqn:En; [ | discriminate].
    assert (H1 : P (zset node_id (set_level lvl n) (nodes st))).
    { apply P_level; assumption. }
    destruct (get_list node_id (parent_children g)) as [ | c kids] eqn:Ek.
    + inversion H. subst. exact H1.
    + apply bind_Ok in H. destruct H as [[total st2] [Hw H]].
      apply bind_Ok in H. destruct H as [[sz ns3] [Hf H]].
      inversion H. subst. clear H. simpl.
      rewrite <- Ek in Hf.
      eapply P_finish; [ | rewrite Ek; discriminate | exact Hf].
      revert Hw. apply (@walk_children_steps g P P_mark (walk g top_count fuel)
                          node_id lvl Hl).
      * intros c0 st0 r0 st0' Hq Hr. eapply IH; [ | exact Hq | exact Hr]. lia.
      * rewrite Ek. auto.
      * exact H1.
Qed.

Lemma walk_all_finish ids : forall st st',
  P (nodes st) ->
  walk_all g top_count ids st = Ok st' ->
  P (nodes st').
Proof.
  induction ids as [ | i ids IH]; cbn [walk_all]; intros st st' Hst H.
  - inversion H. subst. exact Hst.
  - destruct (zmem i (visited st)); [eauto | ].
    apply bind_Ok in H. destruct H as [[r st2] [Hw H]].
    eapply IH; [ | exact H]. eapply walk_finish; [ | exact Hst | exact Hw]. lia.
Qed.

Lemma walk_roots_finish rts :
  (forall ns k n, In k rts -> P ns -> zget k ns = Some n ->
                  P (zset k (set_parent_id None n) ns)) ->
  forall st st',
    P (nodes st) ->
    walk_roots g top_count rts st = Ok st' ->
    P (nodes st').
Proof.
  induction rts as [ | root rts IH]; cbn [walk_roots]; intros Hroot st st' Hst H.
  - inversion H. subst. exact Hst.
  - assert (Hroot' : forall ns k n, In k rts -> P ns -> zget k ns = Some n ->
                                    P (zset k (set_parent_id None n) ns)).
    { intros ns k n Hk. apply Hroot. right. exact Hk. }
    destruct (zget root (nodes st)) as [n | ] eqn:En; [ | eauto].
    apply bind_Ok in H. destruct H as [[r st2] [Hw H]].
    eapply IH; [exact Hroot' | | exact H].
    eapply walk_finish; [ | | exact Hw]; [lia | ]. cbn [nodes].
    apply Hroot; [left; reflexivity | exact Hst | exact En].
Qed.

Lemma run_walks_finish rts ns st' :
  (forall ns k n, In k rts -> P ns -> zget k ns = Some n ->
                  P (zset k (set_parent_id None n) ns)) ->
  P ns ->
  run_walks g top_count rts ns = Ok st' ->
  P (nodes st').
Proof.
  unfold run_walks. intros Hroot Hns H. destruct rts as [ | r rts].
  - eapply walk_all_finish; [ | exact H]. exact Hns.
  - eapply walk_roots_finish; [exact Hroot | | exact H]. exact Hns.
Qed.
End WalkFinish.

(** ** The names of the parents *)

Lemma stripped_name_nonblank v name : stripped_name v = Some name -> name <> ""%string.
Proof.
  destruct v as [ | z | b | f | s]; simpl; try discriminate.
  destruct (String.eqb (strip s) "") eqn:E; [discriminate | ].
  intros H. inversion H. subst. apply String.eqb_neq. exact E.
Qed.

Lemma add_merge_labels g p l r nm k :
  zget k (parent_labels (add_merge g p l r nm))
  = match stripped_name nm with
    | Some name => if k =? p then Some name else zget k (parent_labels g)
    | None => zget k (parent_labels g)
    end.
Proof.
  unfold add_merge. cbn [parent_labels].
  destruct (stripped_name nm); [apply zget_zset | reflexivity].
Qed.

Section LabelFacts.
Variable float_of_str : string -> option float.

Lemma hier_loop_labels md rows : forall g g' p,
  hier_loop float_of_str md rows g = Ok g' ->
  zget p (parent_labels g')
  = match parent_name_of float_of_str md rows p with
    | Some name => Some name
    | None => zget p (parent_labels g)
    end.
Proof.
  induction rows as [ | row rows IH]; simpl; intros g g' p H.
  - inversion H. reflexivity.
  - apply bind_Ok in H. destruct H as [g1 [Hs H]].
    rewrite (IH _ _ p H). clear IH.
    destruct (parent_name_of float_of_str md rows p) as [name | ]; [reflexivity | ].
    apply hier_step_cases in Hs.
    destruct Hs as [[p0 [l [r [[Hp [Hl [Hr Hk]]] ->]]]] | [-> Hno]].
    + rewrite Hp, Hl, Hr, Hk, andb_true_r, add_merge_labels, (Z.eqb_sym p0 p).
      destruct (stripped_name (Parent_Name row)); destruct (p =? p0); reflexivity.
    + destruct (_to_int (Parent_ID row)) as [[p' | ] | ] eqn:Ep; try reflexivity.
      destruct (_to_int (Child_Left_ID row)) as [[l | ] | ] eqn:El; try reflexivity.
      destruct (_to_int (Child_Right_ID row)) as [[r | ] | ] eqn:Er; try reflexivity.
      destruct (kept float_of_str md row) eqn:Ek.
      * exfalso. apply (Hno p' l r). unfold retained. auto.
      * rewrite andb_false_r. reflexivity.
Qed.

Lemma hier_loop_labels_ok md rows : forall g g',
  hier_loop float_of_str md rows g = Ok g' -> labels_ok g -> labels_ok g'.
Proof.
  induction rows as [ | row rows IH]; simpl; intros g g' H Hg.
  - inversion H. subst. exact Hg.
  - apply bind_Ok in H. destruct H as [g1 [Hs H]].
    apply hier_step_cases in Hs. destruct Hs as [[p [l [r [_ ->]]]] | [-> _]].
    + eapply IH; [exact H | ]. intros k lo Hk. rewrite add_merge_labels in Hk.
      rewrite add_merge_keys.
      destruct (stripped_name (Parent_Name row)) as [name | ] eqn:En.
      * destruct (k =? p) eqn:E.
        -- apply Z.eqb_eq in E. inversion Hk. subst.
           split; [eapply stripped_name_nonblank; exact En | left; reflexivity].
        -- destruct (Hg k lo Hk). auto.
      * destruct (Hg k lo Hk). auto.
    + eapply IH; eauto.
Qed.
End LabelFacts.

Lemma merge_graph_labels_ok float_of_str md hierarchy_df g :
  merge_graph_of float_of_str md hierarchy_df = Ok g -> labels_ok g.
Proof.
  unfold merge_graph_of. intros Hg.
  eapply hier_loop_labels_ok; [exact Hg | ]. intros k lo H. discriminate.
Qed.

Lemma add_parent_named pl ns p k lo :
  zget k pl = Some lo -> lo <> ""%string ->
  (p = k \/ exists n, zget k ns = Some n /\ label n = lo) ->
  exists n, zget k (add_parent pl ns p) = Some n /\ label n = lo.
Proof.
  intros Hlo Hne H. unfold add_parent.
  destruct (Z.eq_dec p k) as [-> | Hpk].
  - rewrite Hlo. apply String.eqb_neq in Hne. rewrite Hne.
    destruct (zget k ns) as [n | ]; rewrite zget_zset_eq; eexists; split;
      try reflexivity.
    destruct (is_nil (docs (set_label lo n))); reflexivity.
  - destruct H as [H | [n [Hn Hl]]]; [congruence | ].
    exists n. split; [ | exact Hl].
    destruct (zget p ns); rewrite zget_zset_neq; auto.
Qed.

Lemma add_parents_named g ns : labels_ok g -> named g (add_parents g ns).
Proof.
  intros Hg k lo Hlo. destruct (Hg k lo Hlo) as [Hne Hk].
  unfold add_parents. revert Hk. generalize (dkeys (parent_children g)) as keys.
  intros keys Hk.
  assert (H : forall keys ns,
             In k keys \/ (exists n, zget k ns = Some n /\ label n = lo) ->
             exists n, zget k (fold_left (add_parent (parent_labels g)) keys ns) = Some n
                       /\ label n = lo).
  { clear keys ns Hk. induction keys as [ | p keys IH]; simpl; intros ns H.
    - destruct H as [[] | H]. exact H.
    - apply IH. destruct H as [[-> | H] | H].
      + right. apply add_parent_named; auto.
      + left. exact H.
      + right. apply add_parent_named; auto. }
  apply H. left. exact Hk.
Qed.

Lemma named_update g ns k n n' :
  named g ns -> zget k ns = Some n -> label n' = label n -> named g (zset k n' ns).
Proof.
  intros Hns Hn Hl k' lo Hlo. destruct (Hns k' lo Hlo) as [m [Hm Hlm]].
  rewrite zget_zset. destruct (k' =? k) eqn:E.
  - apply Z.eqb_eq in E. subst. rewrite Hn in Hm. inversion Hm. subst.
    exists n'. split; [reflexivity | congruence].
  - eauto.
Qed.

Lemma named_mark g ns p lvl c : named g ns -> named g (mark_child p lvl c ns).
Proof.
  intros Hns. unfold mark_child. destruct (zget c ns) as [m | ] eqn:Ec.
  - eapply named_update; [exact Hns | exact Ec | reflexivity].
  - intros k lo Hlo. destruct (Hns k lo Hlo) as [n [Hn Hl]].
    exists n. split; [ | exact Hl]. rewrite zget_zset_neq; [exact Hn | ].
    intros ->. congruence.
Qed.

Lemma run_walks_named g top_count rts ns st' :
  labels_ok g -> named g ns ->
  run_walks g top_count rts ns = Ok st' ->
  named g (nodes st').
Proof.
  intros Hg. apply (@run_walks_finish g top_count (named g)).
  - intros ns0 p lvl c _ _ H. apply named_mark. exact H.
  - intros ns0 k n lvl _ H Hn. eapply named_update; [exact H | exact Hn | reflexivity].
  - intros ns0 k total r ns' H _ Hf k' lo Hlo.
    destruct (Z.eq_dec k' k) as [-> | Hne].
    + eapply finish_node_label; [exact Hf | exact Hlo | apply (Hg k lo Hlo)].
    + rewrite (@finish_node_other _ _ _ _ _ _ _ _ k' Hf Hne). apply H. exact Hlo.
  - intros ns0 k n _ H Hn. eapply named_update; [exact H | exact Hn | reflexivity].
Qed.

(** X18: a parent that the merge table names carries that name as its label:
    the stripped [Parent_Name] of the last retained row for it that has a
    non-blank one. *)
Theorem named_parents_carry_their_name (float_of_str : string -> option float)
        (slot : Z -> Z) (topic_model : Z -> list term_entry)
        (topic_info : option (list info_row)) (hierarchy_df : option (list hier_row))
        (topics : option (list pyval))
        (probabilities : option (list (option (list float)))) (doc_ids : list Z)
        (top_terms : pyval) (hierarchy_conf : option hier_conf)
        (out : list node) (st : stats_rec) (p : Z) (name : string) :
  build_topic_tree float_of_str slot topic_model topic_info hierarchy_df topics
                   probabilities doc_ids top_terms hierarchy_conf = Ok (out, st) ->
  parent_name_of float_of_str (max_distance_of float_of_str hierarchy_conf)
                 (rows_of hierarchy_df) p = Some name ->
  exists n, emitted out p n /\ label n = name /\ name <> ""%string.
Proof.
  intros Hb Hname. apply build_store in Hb.
  destruct Hb as [dm [s [g [st' [Hdm [Hs [Hg [Hw [Hout [Hst [Hnd [Hid Hmem]]]]]]]]]]]].
  assert (Hok : labels_ok g) by (eapply merge_graph_labels_ok; exact Hg).
  assert (Hlo : zget p (parent_labels g) = Some name).
  { rewrite merge_graph_option in Hg. unfold merge_graph_of in Hg.
    rewrite (@hier_loop_labels float_of_str _ _ _ _ p Hg), Hname. reflexivity. }
  assert (Hnamed : named g (nodes st')).
  { eapply run_walks_named; [exact Hok | | exact Hw].
    unfold initial_nodes. apply add_parents_named. exact Hok. }
  destruct (Hnamed p name Hlo) as [n [Hn Hl]].
  pose proof (Hid p n Hn) as Hp. unfold has_topic_id in Hp.
  exists n. split; [ | split; [exact Hl | apply (Hok p name Hlo)]].
  split; [ | exact Hp]. apply Hmem. rewrite Hp. exact Hn.
Qed.

Lemma named_parents_carry_their_name_witness :
  exists out st n,
    build_topic_tree no_float_of_str slot_id no_topic_terms
      None (Some named_merge) scenario_topics None scenario_doc_ids
      (VInt 10) None = Ok (out, st)
    /\ emitted out 2 n /\ label n = "heart"%string.
Proof.
  eexists. eexists.
  destruct (@named_parents_carry_their_name no_float_of_str slot_id no_topic_terms
              None (Some named_merge) scenario_topics None scenario_doc_ids
              (VInt 10) None _ _ 2 "heart"
              ltac:(vm_compute; reflexivity) ltac:(vm_compute; reflexivity))
    as [n [Hn [Hl _]]].
  exists n. split; [vm_compute; reflexivity | ]. split; assumption.
Defined.

(** ** Nodes without children *)

Lemma add_parents_other g (ns : dict Z node) k :
  ~ In k (dkeys (parent_children g)) -> zget k (add_parents g ns) = zget k ns.
Proof.
  unfold add_parents. generalize (dkeys (parent_children g)) as keys.
  intros keys. revert ns. induction keys as [ | p keys IH]; simpl; intros ns Hk;
    [reflexivity | ].
  rewrite IH by tauto. unfold add_parent.
  destruct (zget p ns); apply zget_zset_neq; intros ->; apply Hk; left; reflexivity.
Qed.

Lemma same_but_link_refl n : same_but_link n n.
Proof. repeat split. Qed.

Section ChildlessFacts.
Variable g : merge_graph.
Variable top_count : Z.
Variable leaf_ids : list Z.
Variable leaf : Z -> node.

Local Notation "'inv'" :=
  (fun ns => childless_as_built g leaf_ids leaf ns
             /\ forall k, In k leaf_ids -> In k (dkeys ns)).

Lemma childless_update ns k n n' :
  inv ns -> zget k ns = Some n -> same_but_link n' n -> inv (zset k n' ns).
Proof.
  intros [H1 H2] Hn Hs. split.
  - intros k' m Hm Hk'. rewrite zget_zset in Hm. destruct (k' =? k) eqn:E.
    + apply Z.eqb_eq in E. subst. inversion Hm. subst m.
      specialize (H1 k n Hn Hk'). unfold same_but_link in *.
      destruct Hs as [A1 [A2 [A3 [A4 [A5 A6]]]]], H1 as [B1 [B2 [B3 [B4 [B5 B6]]]]].
      repeat split; congruence.
    + apply H1; assumption.
  - intros k' Hk'. apply dkeys_zset. right. apply H2. exact Hk'.
Qed.

Lemma childless_mark ns p lvl c : inv ns -> inv (mark_child p lvl c ns).
Proof.
  intros H. unfold mark_child. destruct (zget c ns) as [m | ] eqn:Ec.
  - eapply childless_update; [exact H | exact Ec | repeat split].
  - destruct H as [H1 H2]. split.
    + intros k' m Hm Hk'. rewrite zget_zset in Hm. destruct (k' =? c) eqn:E.
      * apply Z.eqb_eq in E. subst. inversion Hm. subst m.
        unfold as_built.
        assert (Hz : zmem c leaf_ids = false).
        { apply zmem_not_In. intros Hin. apply H2 in Hin.
          apply zget_None_keys in Ec. contradiction. }
        rewrite Hz. repeat split.
      * apply H1; assumption.
    + intros k' Hk'. apply dkeys_zset. right. apply H2. exact Hk'.
Qed.

Lemma run_walks_childless rts ns st' :
  inv ns ->
  run_walks g top_count rts ns = Ok st' ->
  inv (nodes st').
Proof.
  apply (@run_walks_finish g top_count inv).
  - intros ns0 p lvl c _ _ H. apply childless_mark. exact H.
  - intros ns0 k n lvl _ H Hn. eapply childless_update; [exact H | exact Hn | repeat split].
  - intros ns0 k total r ns' [H1 H2] Hkids Hf. split.
    + intros k' m Hm Hk'. destruct (Z.eq_dec k' k) as [-> | Hne]; [contradiction | ].
      rewrite (@finish_node_other _ _ _ _ _ _ _ _ k' Hf Hne) in Hm. apply H1; assumption.
    + intros k' Hk'. apply finish_node_shape in Hf.
      destruct Hf as [n [n' [_ [-> _]]]]. apply dkeys_zset. right. apply H2. exact Hk'.
  - intros ns0 k n _ H Hn. eapply childless_update; [exact H | exact Hn | repeat split].
Qed.
End ChildlessFacts.

Lemma store_childless float_of_str slot topic_model top_count s dm md hierarchy_df g st' :
  merge_graph_of float_of_str md hierarchy_df = Ok g ->
  run_walks g top_count (roots_of slot g)
            (initial_nodes float_of_str topic_model top_count s dm g) = Ok st' ->
  childless_as_built g (leaf_topic_ids s dm)
                     (leaf_node float_of_str topic_model top_count s dm) (nodes st').
Proof.
  intros Hg Hw.
  edestruct (@run_walks_childless g top_count (leaf_topic_ids s dm)
               (leaf_node float_of_str topic_model top_count s dm))
    as [H1 _]; [ | exact Hw | exact H1].
  split.
  - intros k m Hm Hk.
    assert (Hnk : ~ In k (dkeys (parent_children g))).
    { intros Hin'. eapply merge_graph_kids; [exact Hg | exact Hin' | exact Hk]. }
    unfold initial_nodes in Hm. rewrite (@add_parents_other g _ k Hnk) in Hm.
    rewrite leaf_nodes_get in Hm. unfold as_built.
    destruct (zmem k (leaf_topic_ids s dm)); [ | discriminate].
    inversion Hm. apply same_but_link_refl.
  - intros k Hk. apply initial_known. right. exact Hk.
Qed.

(** X19: the walk leaves a node without children as the builder made it, level
    and parent link apart: the leaf node of a leaf topic keeps its label,
    size, score, terms and documents, and a child that is no leaf topic
    stays an empty placeholder. *)
Theorem childless_nodes_are_as_built (float_of_str : string -> option float)
        (slot : Z -> Z) (topic_model : Z -> list term_entry)
        (topic_info : option (list info_row)) (hierarchy_df : option (list hier_row))
        (topics : option (list pyval))
        (probabilities : option (list (option (list float)))) (doc_ids : list Z)
        (top_terms : pyval) (hierarchy_conf : option hier_conf)
        (out : list node) (st : stats_rec)
        (dm : dict Z (list doc_rec)) (s : summary) (g : merge_graph) (n : node) :
  build_topic_tree float_of_str slot topic_model topic_info hierarchy_df topics
                   probabilities doc_ids top_terms hierarchy_conf = Ok (out, st) ->
  doc_members_of topics probabilities doc_ids = Ok dm ->
  summary_of float_of_str dm topic_info = Ok s ->
  merge_graph_of float_of_str (max_distance_of float_of_str hierarchy_conf)
                 hierarchy_df = Ok g ->
  In n out ->
  get_list (topic_id n) (parent_children g) = [] ->
  same_but_link n (as_built (leaf_topic_ids s dm)
                            (leaf_node float_of_str topic_model
                                       (top_count_of top_terms) s dm)
                            (topic_id n))
  /\ (is_leaf_topic topic_info topics doc_ids (topic_id n) <->
      In (topic_id n) (leaf_topic_ids s dm)).
Proof.
  intros Hb Hdm Hs Hg Hin Hkids. apply build_store in Hb.
  destruct Hb as [dm' [s' [g' [st' [Hdm' [Hs' [Hg' [Hw [Hout [Hst [Hnd [Hid Hmem]]]]]]]]]]]].
  rewrite Hdm in Hdm'. inversion Hdm'. subst dm'. clear Hdm'.
  rewrite Hs in Hs'. inversion Hs'. subst s'. clear Hs'.
  rewrite Hg in Hg'. inversion Hg'. subst g'. clear Hg'.
  split; [ | symmetry; eapply leaf_topic_ids_spec; eauto].
  apply Hmem in Hin.
  eapply store_childless; [exact Hg | exact Hw | exact Hin | exact Hkids].
Qed.

Lemma childless_nodes_are_as_built_witness :
  exists out st,
    build_topic_tree no_float_of_str slot_id no_topic_terms
      None (Some scenario_merge) scenario_topics None scenario_doc_ids
      (VInt 10) None = Ok (out, st)
    /\ forall n, In n out ->
         get_list (topic_id n) (parent_children (add_merge empty_graph 2 0 1 VNone)) = [] ->
         same_but_link n
           (as_built (leaf_topic_ids empty_summary scenario_members)
                     (leaf_node no_float_of_str no_topic_terms (top_count_of (VInt 10))
                                empty_summary scenario_members)
                     (topic_id n)).
Proof.
  eexists. eexists. split; [vm_compute; reflexivity | ].
  intros n Hin Hk.
  refine (proj1 (@childless_nodes_are_as_built no_float_of_str slot_id no_topic_terms
              None (Some scenario_merge) scenario_topics None scenario_doc_ids
              (VInt 10) None _ _ scenario_members empty_summary
              (add_merge empty_graph 2 0 1 VNone) n _ _ _ _ Hin Hk)).
  - vm_compute. reflexivity.
  - reflexivity.
  - reflexivity.
  - reflexivity.
Defined.

(** ** Texts that end in digits *)

Lemma space_not_minus c : is_space c = true -> is_minus c = false.
Proof.
  intros H. unfold is_minus. destruct (Ascii.eqb c "-") eqn:E; [ | reflexivity].
  apply Ascii.eqb_eq in E. subst. discriminate.
Qed.

Lemma drop_while_app {A} (p : A -> bool) (l : list A) x r :
  p x = false -> drop_while p (l ++ x :: r) = (drop_while p l ++ x :: r)%list.
Proof.
  intros Hx. induction l as [ | y l IH]; simpl.
  - rewrite Hx. reflexivity.
  - destruct (p y); [exact IH | reflexivity].
Qed.

Lemma lstrip_all_space pre :
  drop_while is_space pre = [] -> is_space (last pre " "%char) = true.
Proof.
  induction pre as [ | x r IH]; simpl; intros H; [reflexivity | ].
  destruct (is_space x) eqn:E; [ | discriminate].
  destruct r as [ | y r]; [exact E | apply IH; exact H].
Qed.

Lemma lstrip_last pre :
  drop_while is_space pre <> [] ->
  last (drop_while is_space pre) " "%char = last pre " "%char.
Proof.
  induction pre as [ | x r IH]; simpl; intros H; [congruence | ].
  destruct (is_space x) eqn:E; [ | reflexivity].
  destruct r as [ | y r]; [simpl in H; congruence | apply IH; exact H].
Qed.

Lemma strip_trailing_digits pre ds ws :
  ds <> [] -> (forall c, In c ds -> is_digit c = true) ->
  (forall c, In c ws -> is_space c = true) ->
  strip_chars (pre ++ ds ++ ws) = (drop_while is_space pre ++ ds)%list.
Proof.
  intros Hne Hd Hw. unfold strip_chars, lstrip, rstrip.
  assert (H1 : drop_while is_space (pre ++ ds ++ ws)
               = (drop_while is_space pre ++ ds ++ ws)%list).
  { destruct ds as [ | d ds']; [congruence | ].
    apply (@drop_while_app _ is_space pre d (ds' ++ ws)).
    apply digit_not_space, Hd. left. reflexivity. }
  rewrite H1, app_assoc, rev_app_distr.
  assert (H2 : drop_while is_space (rev ws ++ rev (drop_while is_space pre ++ ds))
               = drop_while is_space (rev (drop_while is_space pre ++ ds))).
  { apply drop_while_skip. intros x Hx. apply Hw, in_rev. exact Hx. }
  rewrite H2, rev_app_distr.
  destruct (rev ds) as [ | c r] eqn:E.
  - apply (f_equal (@rev ascii)) in E. rewrite rev_involutive in E. simpl in E. congruence.
  - assert (Hc : is_space c = false).
    { apply digit_not_space, Hd, in_rev. rewrite E. left. reflexivity. }
    assert (Hstop : drop_while is_space ((c :: r) ++ rev (drop_while is_space pre))
                    = ((c :: r) ++ rev (drop_while is_space pre))%list).
    { simpl. rewrite Hc. reflexivity. }
    rewrite Hstop, <- E, <- rev_app_distr, rev_involutive. reflexivity.
Qed.

Lemma search_trailing_run pre' ds :
  ds <> [] -> (forall c, In c ds -> is_digit c = true) ->
  (pre' <> [] -> is_digit (last pre' " "%char) = false) ->
  search_trailing_int (pre' ++ ds)
  = Some (match pre' with
          | [] => false
          | _ => is_minus (last pre' " "%char)
          end, ds).
Proof.
  intros Hne Hd Hp.
  destruct pre' as [ | x r].
  - apply search_trailing_digits; assumption.
  - unfold search_trailing_int. rewrite rev_app_distr.
    assert (Hr : forall c, In c (rev ds) -> is_digit c = true).
    { intros c Hc. apply Hd, in_rev. exact Hc. }
    assert (Hx : (x :: r) <> []) by discriminate.
    rewrite (@rev_last _ (x :: r) " "%char Hx).
    destruct (take_while_app is_digit (rev ds) (last (x :: r) " "%char)
                (rev (removelast (x :: r))) Hr (Hp Hx)) as [H1 H2].
    rewrite H1, H2.
    destruct (rev ds) as [ | a l] eqn:E.
    + apply (f_equal (@rev ascii)) in E. rewrite rev_involutive in E. simpl in E.
      congruence.
    + simpl. change (rev l ++ [a])%list with (rev (a :: l)).
      rewrite <- E, rev_involutive. reflexivity.
Qed.

(** [int] on a matched group, with its [ValueError] caught. *)
Lemma except_group neg ds :
  except_ValueError (int_of_group (neg, ds))
  = Ok (if digits_ok ds
        then Some (if neg then - int_of_digits ds else int_of_digits ds)
        else None).
Proof. unfold int_of_group. destruct (digits_ok ds); reflexivity. Qed.

Lemma to_int_trailing_run pre ds ws :
  ds <> [] -> (forall c, In c ds -> is_digit c = true) ->
  (forall c, In c ws -> is_space c = true) ->
  is_digit (last pre " "%char) = false ->
  _to_int (VStr (string_of_list_ascii (pre ++ ds ++ ws)))
  = Ok (if digits_ok ds
        then Some (if is_minus (last pre " "%char)
                   then - int_of_digits ds else int_of_digits ds)
        else None).
Proof.
  intros Hne Hd Hw Hp. unfold _to_int, strip.
  rewrite !list_ascii_of_string_of_list_ascii.
  rewrite (@strip_trailing_digits pre ds ws Hne Hd Hw).
  rewrite search_trailing_run; try assumption.
  - rewrite except_group.
    destruct (drop_while is_space pre) as [ | x r] eqn:E.
    + rewrite (@space_not_minus _ (@lstrip_all_space pre E)). reflexivity.
    + rewrite <- E, lstrip_last by (rewrite E; discriminate). reflexivity.
  - intros Hn. rewrite lstrip_last by exact Hn. exact Hp.
Qed.

(** X3: a text that ends in a run of decimal digits, white space after it
    apart, normalizes to that number, negated exactly when a minus sign
    stands right before the run: [Topic 14] gives 14, [3-7] gives -7.
    That holds for a run of at most 4300 digits; a longer one is more than
    [int] converts, and the text is unrepresentable. *)
Theorem to_int_reads_trailing_digits (ds ws : list ascii) :
  ds <> [] -> (forall c, In c ds -> is_digit c = true) ->
  (forall c, In c ws -> is_space c = true) ->
  (forall pre c, is_digit c = false ->
     _to_int (VStr (string_of_list_ascii (pre ++ [c] ++ ds ++ ws)))
     = Ok (if (List.length ds <=? 4300)%nat
           then Some (if is_minus c then - int_of_digits ds else int_of_digits ds)
           else None))
  /\ _to_int (VStr (string_of_list_ascii (ds ++ ws)))
     = Ok (if (List.length ds <=? 4300)%nat then Some (int_of_digits ds) else None).
Proof.
  intros Hne Hd Hw. split.
  - intros pre c Hc.
    pose proof (@to_int_trailing_run (pre ++ [c]) ds ws Hne Hd Hw) as H.
    rewrite last_last, <- app_assoc in H. apply H. exact Hc.
  - apply (@to_int_trailing_run [] ds ws Hne Hd Hw). reflexivity.
Qed.

Lemma to_int_reads_trailing_digits_witness :
  _to_int (VStr "ab-14 ") = Ok (Some (-14)).
Proof.
  apply (proj1 (@to_int_reads_trailing_digits ["1"; "4"]%char [" "%char]
                  ltac:(discriminate)
                  ltac:(intros c [<- | [<- | []]]; reflexivity)
                  ltac:(intros c [<- | []]; reflexivity))
               ["a"; "b"]%char "-"%char eq_refl).
Defined.

(** ** The labels and scores of the leaves *)

Section SummaryFacts.
Variable float_of_str : string -> option float.

Lemma info_loop_labels dm rows : forall s s' t,
  info_loop float_of_str dm rows s = Ok s' ->
  zget t (label_by_topic s')
  = match reported_name rows t with
    | Some name => Some name
    | None => zget t (label_by_topic s)
    end.
Proof.
  induction rows as [ | row rows IH]; simpl; intros s s' t H.
  - inversion H. reflexivity.
  - apply bind_Ok in H. destruct H as [s1 [Hs H]].
    rewrite (IH _ _ t H). destruct (reported_name rows t); [reflexivity | ].
    unfold info_step in Hs.
    apply bind_Ok in Hs. destruct Hs as [tid [Ht Hs]]. rewrite Ht.
    destruct tid as [t' | ]; [ | inversion Hs; reflexivity].
    destruct (t' =? outlier_topic) eqn:Eo.
    { inversion Hs. rewrite andb_false_r. reflexivity. }
    apply bind_Ok in Hs. destruct Hs as [cv [Hc Hs]].
    inversion Hs. subst s1. clear Hs. cbn [label_by_topic negb]. rewrite andb_true_r.
    destruct (stripped_name (Name row)) as [name | ].
    + rewrite zget_zset, (Z.eqb_sym t' t). destruct (t =? t'); reflexivity.
    + destruct (t' =? t); reflexivity.
Qed.

Lemma info_loop_scores dm rows : forall s s' t,
  info_loop float_of_str dm rows s = Ok s' ->
  zget t (prob_by_topic s')
  = match reported_score float_of_str rows t with
    | Some p => Some p
    | None => zget t (prob_by_topic s)
    end.
Proof.
  induction rows as [ | row rows IH]; simpl; intros s s' t H.
  - inversion H. reflexivity.
  - apply bind_Ok in H. destruct H as [s1 [Hs H]].
    rewrite (IH _ _ t H). destruct (reported_score float_of_str rows t); [reflexivity | ].
    unfold info_step in Hs.
    apply bind_Ok in Hs. destruct Hs as [tid [Ht Hs]]. rewrite Ht.
    destruct tid as [t' | ]; [ | inversion Hs; reflexivity].
    destruct (t' =? outlier_topic) eqn:Eo.
    { inversion Hs. rewrite andb_false_r. reflexivity. }
    apply bind_Ok in Hs. destruct Hs as [cv [Hc Hs]].
    inversion Hs. subst s1. clear Hs. cbn [prob_by_topic negb]. rewrite andb_true_r.
    destruct (none_or_empty (Probability row)).
    + destruct (t' =? t); reflexivity.
    + destruct (try_opt (py_float float_of_str (Probability row))) as [p | ].
      * rewrite zget_zset, (Z.eqb_sym t' t). destruct (t =? t'); reflexivity.
      * destruct (t' =? t); reflexivity.
Qed.
End SummaryFacts.

(** X20: a leaf is labelled with the name the summary rows give its topic (the
    last non-blank one, stripped), or [Topic t] when they give none, and
    scored with the last probability that converts to a float, if any. *)
Theorem leaf_label_and_score (float_of_str : string -> option float)
        (topic_model : Z -> list term_entry) (top_count : Z)
        (topic_info : option (list info_row))
        (dm : dict Z (list doc_rec)) (s : summary) (t : Z) :
  summary_of float_of_str dm topic_info = Ok s ->
  label (leaf_node float_of_str topic_model top_count s dm t)
  = match reported_name (rows_of topic_info) t with
    | Some name => name
    | None => topic_label t
    end
  /\ score (leaf_node float_of_str topic_model top_count s dm t)
     = reported_score float_of_str (rows_of topic_info) t
  /\ (forall name, reported_name (rows_of topic_info) t = Some name ->
                   name <> ""%string /\ t <> outlier_topic).
Proof.
  unfold summary_of. fold (rows_of topic_info). intros Hs.
  unfold leaf_node. cbn [label score].
  rewrite (@info_loop_labels float_of_str dm (rows_of topic_info) _ s t Hs).
  rewrite (@info_loop_scores float_of_str dm (rows_of topic_info) _ s t Hs).
  cbn [label_by_topic prob_by_topic zget dget].
  split; [destruct (reported_name (rows_of topic_info) t); reflexivity | ].
  split; [destruct (reported_score float_of_str (rows_of topic_info) t); reflexivity | ].
  clear Hs. induction (rows_of topic_info) as [ | row rows IH]; simpl; intros name H;
    [discriminate | ].
  destruct (reported_name rows t) as [n0 | ]; [apply IH; exact H | ].
  destruct (_to_int (Topic row)) as [[t' | ] | ]; try discriminate.
  destruct (t' =? t) eqn:Et; simpl in H; [ | discriminate].
  destruct (t' =? outlier_topic) eqn:Eo; simpl in H; [discriminate | ].
  apply Z.eqb_eq in Et. apply Z.eqb_neq in Eo. subst t'.
  split; [eapply stripped_name_nonblank; exact H | exact Eo].
Qed.

Lemma leaf_label_and_score_witness :
  exists s,
    summary_of no_float_of_str scenario_members (Some named_info) = Ok s
    /\ label (leaf_node no_float_of_str no_topic_terms 10 s scenario_members 0)
       = "cardio"%string
    /\ score (leaf_node no_float_of_str no_topic_terms 10 s scenario_members 0)
       = Some f_0_5.
Proof.
  eexists. split; [vm_compute; reflexivity | ].
  refine ((fun H => conj (proj1 H) (proj1 (proj2 H)))
            (@leaf_label_and_score no_float_of_str no_topic_terms 10 (Some named_info)
               scenario_members _ 0 _)).
  vm_compute. reflexivity.
Defined.

(** ** The count of the leaves *)

Lemma filter_keeps_distinct {A B} (key : A -> B) (keep : A -> bool) (xs : list A) :
  NoDup (map key xs) -> NoDup (map key (filter keep xs)).
Proof.
  induction xs as [ | x xs IH]; simpl; intros H; [constructor | ].
  inversion H as [ | ? ? Hn Hd]. subst.
  destruct (keep x); simpl; [ | auto].
  constructor; [ | auto].
  intros Hin. apply Hn. apply in_map_iff in Hin. destruct Hin as [y [Hy Hin]].
  apply filter_In in Hin. apply in_map_iff. exists y. tauto.
Qed.

Lemma is_nil_false {A} (l : list A) : negb (is_nil l) = true <-> l <> [].
Proof. destruct l; simpl; split; congruence. Qed.

Lemma is_nil_true {A} (l : list A) : is_nil l = true <-> l = [].
Proof. destruct l; simpl; split; congruence. Qed.

Lemma membership_count_outlier doc_lookup assignments : forall idx t,
  0 < membership_count doc_lookup idx assignments t -> t <> outlier_topic.
Proof.
  induction assignments as [ | a rest IH]; simpl; intros idx t H; [lia | ].
  destruct (_to_int a) as [[t' | ] | ]; try (apply (IH (S idx)); lia).
  destruct (t' =? t) eqn:Et; simpl in H; [ | apply (IH (S idx)); lia].
  destruct (t' =? outlier_topic) eqn:Eo; simpl in H; [apply (IH (S idx)); lia | ].
  apply Z.eqb_eq in Et. apply Z.eqb_neq in Eo. congruence.
Qed.

(** X21: [leaf_count] is the number of topics that hold documents and have no
    children in the adjacency: the nodes with documents are exactly their
    nodes. *)
Theorem leaf_count_counts_document_topics (float_of_str : string -> option float)
        (slot : Z -> Z) (topic_model : Z -> list term_entry)
        (topic_info : option (list info_row)) (hierarchy_df : option (list hier_row))
        (topics : option (list pyval))
        (probabilities : option (list (option (list float)))) (doc_ids : list Z)
        (top_terms : pyval) (hierarchy_conf : option hier_conf)
        (out : list node) (st : stats_rec)
        (dm : dict Z (list doc_rec)) (s : summary) (g : merge_graph) :
  build_topic_tree float_of_str slot topic_model topic_info hierarchy_df topics
                   probabilities doc_ids top_terms hierarchy_conf = Ok (out, st) ->
  doc_members_of topics probabilities doc_ids = Ok dm ->
  summary_of float_of_str dm topic_info = Ok s ->
  merge_graph_of float_of_str (max_distance_of float_of_str hierarchy_conf)
                 hierarchy_df = Ok g ->
  leaf_count st = len (document_topics dm g (leaf_topic_ids s dm))
  /\ (forall t, (exists n, emitted out t n /\ docs n <> []) <->
                In t (document_topics dm g (leaf_topic_ids s dm)))
  /\ (forall t, In t (document_topics dm g (leaf_topic_ids s dm)) <->
                0 < membership_count doc_ids 0 (assignments_of topics) t
                /\ get_list t (parent_children g) = []).
Proof.
  intros Hb Hdm Hs Hg. apply build_store in Hb.
  destruct Hb as [dm' [s' [g' [st' [Hdm' [Hs' [Hg' [Hw [Hout [Hst [Hnd [Hid Hmem]]]]]]]]]]]].
  rewrite Hdm in Hdm'. inversion Hdm'. subst dm'. clear Hdm'.
  rewrite Hs in Hs'. inversion Hs'. subst s'. clear Hs'.
  rewrite Hg in Hg'. inversion Hg'. subst g'. clear Hg'.
  set (top_count := top_count_of top_terms) in *.
  set (leaf := leaf_node float_of_str topic_model top_count s dm).
  assert (Hleaf : dict_all (keeps_leaf_size leaf) (nodes st')).
  { eapply run_walks_nodes; [ | | apply initial_keeps_leaf_size | exact Hw].
    - intros k parent lvl lbl _ Hd. exfalso. apply Hd. reflexivity.
    - intros k m m'. apply node_step_keeps_leaf_size. }
  assert (Hpc : parents_cleared g (nodes st')).
  { eapply run_walks_nodes; [ | | apply initial_parents_cleared | exact Hw].
    - intros k parent lvl lbl _ _. reflexivity.
    - intros k m m' Hstep Hm Hk. rewrite (node_step_docs Hstep). auto. }
  assert (Hch : childless_as_built g (leaf_topic_ids s dm) leaf (nodes st')).
  { eapply store_childless; [exact Hg | exact Hw]. }
  assert (Hcount : forall t, In t (dkeys dm) <->
                             0 < membership_count doc_ids 0 (assignments_of topics) t).
  { intros t. apply (@doc_members_count topics probabilities doc_ids dm t Hdm). }
  assert (Hout_mc : forall t, 0 < membership_count doc_ids 0 (assignments_of topics) t ->
                              t <> outlier_topic).
  { intros t. apply membership_count_outlier. }
  assert (Hdocs : forall t, get_list t dm <> [] <->
                            0 < membership_count doc_ids 0 (assignments_of topics) t).
  { intros t. rewrite <- Hcount. split; [apply get_list_key | ].
    intros Hk Hnil. apply Hcount in Hk.
    destruct (@doc_members_count topics probabilities doc_ids dm t Hdm) as [Hlen _].
    rewrite Hnil in Hlen. unfold len in Hlen. simpl in Hlen. lia. }
  assert (H3 : forall t, In t (document_topics dm g (leaf_topic_ids s dm)) <->
                0 < membership_count doc_ids 0 (assignments_of topics) t
                /\ get_list t (parent_children g) = []).
  { intros t. unfold document_topics.
    rewrite filter_In, andb_true_iff, is_nil_false, is_nil_true, Hdocs, leaf_topic_ids_In.
    rewrite Hcount. split; [tauto | ]. intros [H1 H2]. pose proof (Hout_mc t H1). tauto. }
  assert (H2 : forall t, (exists n, emitted out t n /\ docs n <> []) <->
                In t (document_topics dm g (leaf_topic_ids s dm))).
  { intros t. rewrite H3. split.
    - intros [n [[Hn Ht] Hd]]. apply Hmem in Hn. rewrite Ht in Hn.
      destruct (Hleaf t n Hn Hd) as [_ Hdl].
      assert (Hk : get_list t (parent_children g) = []).
      { destruct (get_list t (parent_children g)) eqn:E; [reflexivity | ].
        exfalso. apply Hd. apply (Hpc t n Hn). rewrite E. discriminate. }
      split; [ | exact Hk]. apply Hdocs. unfold leaf, leaf_node in Hdl. cbn [docs] in Hdl.
      rewrite <- Hdl. exact Hd.
    - intros [Hm Hk].
      assert (Hin : In t (leaf_topic_ids s dm)).
      { apply leaf_topic_ids_In. split; [apply Hout_mc; exact Hm | ].
        right. apply Hcount. exact Hm. }
      assert (Hkey : In t (dkeys (nodes st'))).
      { eapply store_keys; [exact Hw | right; exact Hin]. }
      apply zget_keys in Hkey. destruct Hkey as [n Hn].
      pose proof (Hid t n Hn) as Ht. unfold has_topic_id in Ht.
      exists n. split; [split; [apply Hmem; rewrite Ht; exact Hn | exact Ht] | ].
      destruct (Hch t n Hn Hk) as [_ [_ [_ [_ [_ Hd]]]]]. rewrite Hd.
      unfold as_built. apply zmem_In in Hin. rewrite Hin.
      unfold leaf, leaf_node. cbn [docs]. apply Hdocs. exact Hm. }
  refine (conj _ (conj H2 H3)).
  rewrite Hst. unfold stats_of. cbn [leaf_count]. unfold count_if, len. f_equal.
  rewrite <- (length_map topic_id).
  apply Permutation_length. apply NoDup_Permutation.
  - apply filter_keeps_distinct. rewrite Hout. apply output_topic_ids; assumption.
  - unfold document_topics. apply NoDup_filter. apply leaf_topic_ids_NoDup.
  - intros t. rewrite <- H2. rewrite in_map_iff. split.
    + intros [n [Ht Hn]]. apply filter_In in Hn. destruct Hn as [Hn Hd].
      exists n. split; [split; assumption | apply is_nil_false; exact Hd].
    + intros [n [[Hn Ht] Hd]]. exists n. split; [exact Ht | ].
      apply filter_In. split; [exact Hn | apply is_nil_false; exact Hd].
Qed.

Lemma leaf_count_counts_document_topics_witness :
  exists out st,
    build_topic_tree no_float_of_str slot_id no_topic_terms
      None (Some scenario_merge) scenario_topics None scenario_doc_ids
      (VInt 10) None = Ok (out, st)
    /\ leaf_count st
       = len (document_topics scenario_members (add_merge empty_graph 2 0 1 VNone)
                              (leaf_topic_ids empty_summary scenario_members)).
Proof.
  eexists. eexists. split; [vm_compute; reflexivity | ].
  refine (proj1 (@leaf_count_counts_document_topics no_float_of_str slot_id
              no_topic_terms None (Some scenario_merge) scenario_topics None
              scenario_doc_ids (VInt 10) None _ _ scenario_members empty_summary
              (add_merge empty_graph 2 0 1 VNone) _ _ _ _)).
  - vm_compute. reflexivity.
  - reflexivity.
  - reflexivity.
  - reflexivity.
Defined.

(** ** Where the terms of a node come from *)

Lemma descending_app_l (l1 l2 : list float) : descending (l1 ++ l2) -> descending l1.
Proof.
  induction l1 as [ | a l1 IH]; simpl; intros H; [exact I | ].
  destruct H as [Ha H]. split; [ | apply IH; exact H].
  apply Forall_app in Ha. apply Ha.
Qed.

Lemma descending_drop (l1 l2 : list float) x :
  descending (l1 ++ x :: l2) -> descending (l1 ++ l2).
Proof.
  induction l1 as [ | a l1 IH]; simpl; intros H.
  - apply H.
  - destruct H as [Ha H]. split; [ | apply IH; exact H].
    apply Forall_app in Ha. destruct Ha as [H1 H2].
    apply Forall_app. split; [exact H1 | ]. inversion H2. assumption.
Qed.

Lemma descending_sorted (l : list term_rec) :
  descending (map term_score l) -> scores_sorted l.
Proof.
  induction l as [ | t l IH]; intros H i a b Ha Hb.
  - destruct i; discriminate.
  - simpl in H. destruct H as [Hall H].
    destruct i as [ | i]; simpl in Ha, Hb.
    + inversion Ha. subst a.
      destruct l as [ | u l]; [discriminate | ]. simpl in Hb. inversion Hb. subst b.
      simpl in Hall. inversion Hall. assumption.
    + apply (IH H i a b Ha Hb).
Qed.

Lemma ranks_seq_app r acc t :
  ranks_seq r acc -> rank t = r + len acc -> ranks_seq r (acc ++ [t]).
Proof.
  revert r. induction acc as [ | a acc IH]; simpl; intros r H Ht.
  - unfold len in Ht. simpl in Ht. split; [lia | exact I].
  - destruct H as [Ha H]. split; [exact Ha | ].
    apply IH; [exact H | ]. unfold len in *. simpl in Ht. lia.
Qed.

Section ModelOrder.
Variable float_of_str : string -> option float.
Variable top_count : Z.

(** The terms read from the model are in the order of its list. *)
Lemma model_terms_sorted l : forall rk acc,
  descending (map term_score acc ++ entry_scores float_of_str l) ->
  descending (map term_score (model_terms float_of_str top_count rk l acc)).
Proof.
  induction l as [ | e l IH]; cbn [model_terms entry_scores]; intros rk acc H.
  - rewrite app_nil_r in H. exact H.
  - destruct e as [w sc | ].
    + destruct (String.eqb (strip w) "").
      * apply IH. eapply descending_drop. exact H.
      * match goal with |- context [top_count <=? len ?a] => set (acc' := a) end.
        assert (H' : descending (map term_score acc' ++ entry_scores float_of_str l)).
        { unfold acc'. rewrite map_app. cbn [map term_score].
          rewrite <- app_assoc. exact H. }
        destruct (top_count <=? len acc').
        -- eapply descending_app_l. exact H'.
        -- apply IH. exact H'.
    + destruct (top_count <=? len acc).
      * eapply descending_app_l. exact H.
      * apply IH. exact H.
Qed.

(** When every entry is usable, the counter of [enumerate] is the
    position among the terms. *)
Lemma model_terms_seq l : forall rk acc,
  all_usable l -> ranks_seq 1 acc -> rk = 1 + len acc ->
  ranks_seq 1 (model_terms float_of_str top_count rk l acc).
Proof.
  induction l as [ | e l IH]; cbn [model_terms]; intros rk acc Hu Hacc Hrk;
    [exact Hacc | ].
  assert (Hl : all_usable l) by (intros e' He'; apply Hu; right; exact He').
  destruct (Hu e (or_introl eq_refl)) as [w [sc [-> Hw]]].
  apply String.eqb_neq in Hw. rewrite Hw.
  match goal with |- context [top_count <=? len ?a] => set (acc' := a) end.
  assert (Hacc' : ranks_seq 1 acc').
  { apply ranks_seq_app; [exact Hacc | exact Hrk]. }
  destruct (top_count <=? len acc'); [exact Hacc' | ].
  apply IH; [exact Hl | exact Hacc' | ].
  unfold acc'. rewrite len_app. change (len [_]) with 1. lia.
Qed.
End ModelOrder.

Section TermsOrigin.
Variable float_of_str : string -> option float.
Variable topic_model : Z -> list term_entry.
Variable top_count : Z.
Variable L : Z -> Prop.
Hypothesis Htop : 1 <= top_count.

Local Notation "'tied'" := (terms_tied float_of_str top_count topic_model L).
Local Notation "'store_ok'" := (tied_store float_of_str top_count topic_model L).

Lemma leaf_node_tied s dm t :
  L t -> tied t (leaf_node float_of_str topic_model top_count s dm t).
Proof.
  intros Ht. unfold terms_tied, leaf_node. cbn [topic_id terms].
  split; [reflexivity | ]. unfold leaf_terms.
  pose proof (@model_terms_len float_of_str top_count (topic_model t) 1 []) as Hlen.
  pose proof (@model_terms_ranks float_of_str top_count (topic_model t) 1 []) as Hrk.
  destruct (model_terms float_of_str top_count 1 (topic_model t) []) as [ | a ts] eqn:E.
  - pose proof (fallback_terms_computed top_count
                  (match zget t (label_by_topic s) with
                   | Some l => l
                   | None => topic_label t
                   end)) as Hc.
    split; [apply fallback_terms_len; lia | ].
    split; [apply (@ranks_seq_above 1); [lia | apply Hc] | ].
    split; [intros _ Hne; congruence | intros _; exact Hc].
  - split; [apply Hlen; unfold len; simpl; lia | ].
    split; [apply Hrk; [lia | exact I | intros a0 []] | ].
    split; [reflexivity | ].
    intros Hno. exfalso. apply Hno. split; [exact Ht | discriminate].
Qed.

Lemma stub_tied k parent lvl lbl : ~ L k -> tied k (stub k parent lvl lbl).
Proof.
  intros Hk. unfold terms_tied, stub, computed_terms. cbn [topic_id terms].
  split; [reflexivity | ]. split; [unfold len; simpl; lia | ].
  split; [exact I | ]. split; [intros Hl; contradiction | ].
  intros _. split; [exact I | ]. intros _ i a b Ha. destruct i; discriminate.
Qed.

Lemma node_step_tied g k n n' :
  node_step g top_count k n n' -> tied k n -> tied k n'.
Proof.
  induction 1; intros Hok; auto.
  destruct Hok as [Hid [_ [_ [Hm _]]]]. unfold terms_tied.
  cbn [set_terms topic_id terms].
  pose proof (aggregate_terms_computed _ _ _ H0) as Hc.
  split; [exact Hid | ].
  split; [eapply aggregate_terms_len; [lia | exact H0] | ].
  split; [apply (@ranks_seq_above 1); [lia | apply Hc] | ].
  split; [ | intros _; exact Hc].
  intros Hl Hne. exfalso. apply Hne. rewrite <- (Hm Hl Hne). exact H.
Qed.

Lemma not_key_not_leaf ns k : store_ok ns -> zget k ns = None -> ~ L k.
Proof.
  intros [_ Hk] Hn Hl. apply Hk in Hl. apply zget_keys in Hl.
  destruct Hl as [v Hv]. congruence.
Qed.

Lemma store_ok_new ns k parent lvl lbl :
  store_ok ns -> zget k ns = None -> store_ok (zset k (stub k parent lvl lbl) ns).
Proof.
  intros Hns Hk. pose proof (not_key_not_leaf Hns Hk) as Hnl.
  destruct Hns as [Hall Hkeys]. split.
  - apply dict_all_zset; [exact Hall | apply stub_tied; exact Hnl].
  - intros k' Hk'. apply dkeys_zset. right. apply Hkeys. exact Hk'.
Qed.

Lemma store_ok_update ns k n n' :
  store_ok ns -> zget k ns = Some n -> (tied k n -> tied k n') ->
  store_ok (zset k n' ns).
Proof.
  intros [Hall Hkeys] Hk Hn. split.
  - apply dict_all_zset; [exact Hall | apply Hn, Hall, Hk].
  - intros k' Hk'. apply dkeys_zset. right. apply Hkeys. exact Hk'.
Qed.

Lemma add_parent_tied pl ns p : store_ok ns -> store_ok (add_parent pl ns p).
Proof.
  intros Hns. unfold add_parent. destruct (zget p ns) as [n | ] eqn:En.
  - eapply store_ok_update; [exact Hns | exact En | ].
    intros Hn. destruct (zget p pl) as [l | ].
    + destruct (String.eqb l ""); destruct (is_nil (docs _)); exact Hn.
    + destruct (is_nil (docs n)); exact Hn.
  - apply store_ok_new; assumption.
Qed.

Lemma add_parents_tied g ns : store_ok ns -> store_ok (add_parents g ns).
Proof.
  unfold add_parents. generalize (dkeys (parent_children g)). intros keys.
  revert ns. induction keys as [ | k keys IH]; simpl; intros ns H; [exact H | ].
  apply IH. apply add_parent_tied. exact H.
Qed.

Lemma run_walks_tied g rts ns st' :
  store_ok ns -> run_walks g top_count rts ns = Ok st' -> store_ok (nodes st').
Proof.
  apply (@run_walks_inv g top_count store_ok).
  - intros ns0 k parent lvl lbl Hns0 Hk _. apply store_ok_new; assumption.
  - intros ns0 k n n' Hns0 Hk Hs. eapply store_ok_update; [exact Hns0 | exact Hk | ].
    apply (node_step_tied Hs).
Qed.
End TermsOrigin.

Lemma leaf_nodes_tied float_of_str topic_model top_count s dm :
  1 <= top_count ->
  tied_store float_of_str top_count topic_model (fun k => In k (leaf_topic_ids s dm))
             (leaf_nodes float_of_str topic_model top_count s dm).
Proof.
  intros Htop. split.
  - apply leaf_nodes_all. intros t Ht. apply leaf_node_tied; assumption.
  - intros k Hk. apply zget_keys. rewrite leaf_nodes_get.
    apply zmem_In in Hk. rewrite Hk. eauto.
Qed.

(** C4, counterexample: the topic model lists a blank word first, with
    scores that go down as BERTopic gives them. The blank entry is skipped
    but counted by [enumerate]: the terms of topic 0 have the ranks 2 and
    3, not 1 and 2. *)
Lemma leaf_terms_keep_upstream_ranks :
  exists out st n,
    build_topic_tree no_float_of_str slot_id gappy_topic_model
      None None (Some [VInt 0]) None [1] (VInt 10) None = Ok (out, st)
    /\ find_node out 0 = Some n
    /\ descending (entry_scores no_float_of_str (gappy_topic_model 0))
    /\ map term (terms n) = ["high"; "low"]%string
    /\ map term_score (terms n) = [f_0_5; f_0_1]
    /\ map rank (terms n) = [2; 3]
    /\ ~ ranks_seq 1 (terms n).
Proof.
  do 3 eexists. split; [vm_compute; reflexivity | ].
  split; [vm_compute; reflexivity | ].
  split; [simpl; repeat constructor | ].
  repeat split; try reflexivity.
  simpl. intros [H _]. discriminate.
Qed.

(** C4, amended: every node has at most [top_count] terms, where
    [top_count] is the configured [top_n_terms], or 10 when that is not a
    positive integer, and their ranks are positive and strictly increasing.
    The terms of a leaf topic for which the topic model lists at least one
    usable entry are the ones read from the model: they keep the order of
    the model's list, so they are sorted by non-increasing score when that
    list is, and their ranks are the positions in that list, which are
    [1..len(terms)] when no entry of the list is skipped. The terms of
    every other node are computed by the builder (aggregated from the
    children, or cut from the label): they are ranked [1..len(terms)] and,
    when no score is NaN, sorted by non-increasing score. *)
Theorem terms_are_bounded_and_ranked (float_of_str : string -> option float)
        (slot : Z -> Z) (topic_model : Z -> list term_entry)
        (topic_info : option (list info_row)) (hierarchy_df : option (list hier_row))
        (topics : option (list pyval))
        (probabilities : option (list (option (list float)))) (doc_ids : list Z)
        (top_terms : pyval) (hierarchy_conf : option hier_conf)
        (out : list node) (st : stats_rec) (n : node) :
  build_topic_tree float_of_str slot topic_model topic_info hierarchy_df topics
                   probabilities doc_ids top_terms hierarchy_conf = Ok (out, st) ->
  In n out ->
  len (terms n) <= top_count_of top_terms
  /\ ranks_above 0 (terms n)
  /\ (is_leaf_topic topic_info topics doc_ids (topic_id n) ->
      model_terms float_of_str (top_count_of top_terms) 1
                  (topic_model (topic_id n)) [] <> [] ->
      terms n = model_terms float_of_str (top_count_of top_terms) 1
                            (topic_model (topic_id n)) []
      /\ (descending (entry_scores float_of_str (topic_model (topic_id n))) ->
          scores_sorted (terms n))
      /\ (all_usable (topic_model (topic_id n)) -> ranks_seq 1 (terms n)))
  /\ (~ (is_leaf_topic topic_info topics doc_ids (topic_id n)
         /\ model_terms float_of_str (top_count_of top_terms) 1
                        (topic_model (topic_id n)) [] <> []) ->
      ranks_seq 1 (terms n) /\ (no_nan (terms n) -> scores_sorted (terms n))).
Proof.
  intros Hb Hin.
  apply build_stages in Hb.
  destruct Hb as [dm [s [g [st' [Hdm [Hs [Hg [Hw [Hout _]]]]]]]]].
  pose proof (top_count_pos top_terms) as Htop.
  set (top_count := top_count_of top_terms) in *.
  assert (Hnd : NoDup (dkeys (nodes st'))).
  { eapply run_walks_NoDup; [ | exact Hw].
    apply add_parents_NoDup, leaf_nodes_NoDup. }
  assert (Hstore : tied_store float_of_str top_count topic_model
                              (fun k => In k (leaf_topic_ids s dm)) (nodes st')).
  { eapply run_walks_tied; [exact Htop | | exact Hw].
    apply add_parents_tied; [exact Htop | ].
    apply leaf_nodes_tied. exact Htop. }
  subst out.
  destruct (@output_nodes _ _ n Hnd (proj1 Hstore) Hin)
    as [k [_ [Hid [Hlen [Hrk [Hmodel Hcomp]]]]]].
  rewrite Hid.
  pose proof (@leaf_topic_ids_spec float_of_str topic_info topics probabilities
                doc_ids dm s k Hdm Hs) as Hleaf.
  split; [exact Hlen | ]. split; [exact Hrk | ]. split.
  - intros Hl Hne. apply Hleaf in Hl. pose proof (Hmodel Hl Hne) as Heq.
    split; [exact Heq | ]. split.
    + intros Hd. rewrite Heq. apply descending_sorted.
      apply model_terms_sorted. exact Hd.
    + intros Hu. rewrite Heq. apply model_terms_seq; [exact Hu | exact I | reflexivity].
  - intros Hno. apply Hcomp. intros [Hl Hne]. apply Hno.
    split; [apply Hleaf; exact Hl | exact Hne].
Qed.

Lemma terms_are_bounded_and_ranked_witness :
  exists out st,
    build_topic_tree no_float_of_str slot_id gappy_topic_model
      None (Some scenario_merge) (Some [VInt 0; VInt 1]) None [1; 2]
      (VInt 10) None = Ok (out, st)
    /\ map topic_id out = [2; 0; 1]
    /\ map (fun n => map rank (terms n)) out = [[1; 2; 3; 4]; [2; 3]; [1; 2]]
    /\ forall n, In n out ->
         len (terms n) <= 10
         /\ ranks_above 0 (terms n)
         /\ (is_leaf_topic None (Some [VInt 0; VInt 1]) [1; 2] (topic_id n) ->
             model_terms no_float_of_str 10 1 (gappy_topic_model (topic_id n)) [] <> [] ->
             terms n = model_terms no_float_of_str 10 1
                                   (gappy_topic_model (topic_id n)) []
             /\ (descending (entry_scores no_float_of_str
                                          (gappy_topic_model (topic_id n))) ->
                 scores_sorted (terms n))
             /\ (all_usable (gappy_topic_model (topic_id n)) -> ranks_seq 1 (terms n)))
         /\ (~ (is_leaf_topic None (Some [VInt 0; VInt 1]) [1; 2] (topic_id n)
                /\ model_terms no_float_of_str 10 1
                               (gappy_topic_model (topic_id n)) [] <> []) ->
             ranks_seq 1 (terms n) /\ (no_nan (terms n) -> scores_sorted (terms n))).
Proof.
  eexists. eexists. split; [vm_compute; reflexivity | ].
  split; [reflexivity | ]. split; [reflexivity | ].
  intros n Hin.
  apply (@terms_are_bounded_and_ranked no_float_of_str slot_id gappy_topic_model
           None (Some scenario_merge) (Some [VInt 0; VInt 1]) None [1; 2]
           (VInt 10) None _ _ n ltac:(vm_compute; reflexivity) Hin).
Defined.

(** ** The documents of a node *)

Lemma get_list_no_key {V} (k : Z) (d : dict Z (list V)) :
  ~ In k (dkeys d) -> get_list k d = [].
Proof.
  intros H. unfold get_list. destruct (zget k d) as [v | ] eqn:E; [ | reflexivity].
  exfalso. apply H. apply zget_keys. eauto.
Qed.

(** X7: a node with children in the adjacency holds no document; a node
    without children holds exactly the documents assigned to its topic,
    sorted by id. Every entry comes from an assignment to that topic at the
    index of its document, with the weight found at that index, and the
    ids ascend; the outlier topic gets no document. *)
Theorem docs_are_the_assigned_documents (float_of_str : string -> option float)
        (slot : Z -> Z) (topic_model : Z -> list term_entry)
        (topic_info : option (list info_row)) (hierarchy_df : option (list hier_row))
        (topics : option (list pyval))
        (probabilities : option (list (option (list float)))) (doc_ids : list Z)
        (top_terms : pyval) (hierarchy_conf : option hier_conf)
        (out : list node) (st : stats_rec) (g : merge_graph) (n : node) :
  build_topic_tree float_of_str slot topic_model topic_info hierarchy_df topics
                   probabilities doc_ids top_terms hierarchy_conf = Ok (out, st) ->
  merge_graph_of float_of_str (max_distance_of float_of_str hierarchy_conf)
                 hierarchy_df = Ok g ->
  In n out ->
  (get_list (topic_id n) (parent_children g) <> [] -> docs n = [])
  /\ (get_list (topic_id n) (parent_children g) = [] ->
      docs n = sort_docs (members_of doc_ids probabilities 0 (assignments_of topics)
                                     (topic_id n)))
  /\ ascending_ids (docs n)
  /\ (forall d, In d (docs n) ->
      topic_id n <> outlier_topic
      /\ exists idx a, nth_error doc_ids idx = Some (doc_id d)
                       /\ nth_error (assignments_of topics) idx = Some a
                       /\ _to_int a = Ok (Some (topic_id n))
                       /\ weight d = weight_of probabilities idx).
Proof.
  intros Hb Hg Hin.
  destruct (@output_docs float_of_str slot topic_model topic_info hierarchy_df topics
              probabilities doc_ids top_terms hierarchy_conf out st n Hb Hin)
    as [_ [Hasc Hfrom]].
  apply build_store in Hb.
  destruct Hb as [dm [s [g' [st' [Hdm [Hs [Hg' [Hw [Hout [Hst [Hnd [Hid Hmem]]]]]]]]]]]].
  rewrite Hg in Hg'. inversion Hg'. subst g'. clear Hg'.
  apply Hmem in Hin.
  split; [ | split; [ | split; [exact Hasc | exact Hfrom]]].
  - intros Hkids.
    assert (Hpc : parents_cleared g (nodes st')).
    { eapply run_walks_nodes; [ | | apply initial_parents_cleared | exact Hw].
      - intros k parent lvl lbl _ _. reflexivity.
      - intros k m m' Hstep Hm Hk. rewrite (node_step_docs Hstep). auto. }
    apply (Hpc _ _ Hin Hkids).
  - intros Hkids.
    destruct (@store_childless float_of_str slot topic_model (top_count_of top_terms)
                s dm _ hierarchy_df g st' Hg Hw _ _ Hin Hkids)
      as [_ [_ [_ [_ [_ Hdocs]]]]].
    rewrite Hdocs, <- (@doc_members_sorted topics probabilities doc_ids dm _ Hdm).
    unfold as_built.
    destruct (zmem (topic_id n) (leaf_topic_ids s dm)) eqn:E; [reflexivity | ].
    cbn [stub docs]. symmetry. apply get_list_no_key. intros Hk.
    apply zmem_not_In in E. apply E. apply leaf_topic_ids_In.
    split; [ | right; exact Hk].
    destruct (@doc_members_count topics probabilities doc_ids dm (topic_id n) Hdm)
      as [_ Hcount].
    apply Hcount in Hk. eapply membership_count_outlier. exact Hk.
Qed.

Lemma docs_are_the_assigned_documents_witness :
  exists out st,
    build_topic_tree no_float_of_str slot_id no_topic_terms
      None (Some scenario_merge) scenario_topics None scenario_doc_ids
      (VInt 10) None = Ok (out, st)
    /\ map topic_id out = [2; 0; 1]
    /\ map (fun n => map doc_id (docs n)) out = [[]; [2; 3]; [4]]
    /\ forall n, In n out ->
         (get_list (topic_id n) (parent_children (add_merge empty_graph 2 0 1 VNone)) <> [] ->
          docs n = [])
         /\ (get_list (topic_id n) (parent_children (add_merge empty_graph 2 0 1 VNone)) = [] ->
             docs n = sort_docs (members_of scenario_doc_ids None 0
                                            (assignments_of scenario_topics) (topic_id n)))
         /\ ascending_ids (docs n).
Proof.
  eexists. eexists. split; [vm_compute; reflexivity | ].
  split; [reflexivity | ]. split; [reflexivity | ].
  intros n Hin.
  destruct (@docs_are_the_assigned_documents no_float_of_str slot_id no_topic_terms
              None (Some scenario_merge) scenario_topics None scenario_doc_ids
              (VInt 10) None _ _ (add_merge empty_graph 2 0 1 VNone) n
              ltac:(vm_compute; reflexivity) eq_refl Hin) as [H1 [H2 [H3 _]]].
  split; [exact H1 | ]. split; [exact H2 | exact H3].
Defined.
